(** * Forest explorer: the tile grid, the chop/fall/fade machine and the game loop

    A shallow embedding of [src/game.ts] (the monolithic game: grid model,
    world generator, player controller, falling trees, game loop) and of
    [src/tree.ts] (the tree tile entity), followed by the properties the
    specification states about them; then of the modular game
    ([src/unnamed/part_002] with the world generator and the player of
    [src/unnamed/part_005]), which runs on the tree tiles of [src/tree.ts].

    Conventions of the embedding.
    - A JavaScript [number] that holds a time, an angle, an opacity or a
      continuous position is a rational ([Q]), and arithmetic on it is
      exact, where the source rounds every result to a double.  Decimal
      literals denote the rational they spell, except where a value that
      is a double as it stands is compared with one: [Math.PI], the
      thresholds of the random draws and the frame interval are the doubles
      the source computes with.  Two kinds of statement are worded so that
      the rounding of a sum cannot decide them: the time bounds on a felled
      tree carry spare frames, and the angle loops are described within two
      turns of zero.  A [number] that only
      ever holds an integer (tile coordinates, [health], [variant]) is a
      [Z].
    - [Math.sqrt] and [Math.atan2] have no rational counterpart; the model
      is parametric in them (class [JsMath]).
    - Objects that are shared by reference ([Decoration]s, reachable from
      their tile and from [fallingTrees]) live in a store ([heap]) and are
      named by their index in it.
    - Reading an array outside its range yields [undefined] in the source and
      the property access that follows throws; the model returns [None].
    - Meshes, materials, the camera and the particles are presentation only;
      of the scene graph the model keeps which decoration meshes are
      attached. *)

From Stdlib Require Import ZArith QArith Qround Qminmax Qabs Lia Lqa.
From stdpp Require Import base option list.

Local Open Scope Z_scope.

(** ** Numbers *)

(** The double nearest to pi, which is what [Math.PI] evaluates to. *)
Definition Math_PI : Q := 884279719003555 # 281474976710656.

(** The literals [0.05], [0.30], [0.35] and [0.45], which world generation
    compares its [Math.random()] draws with, as the doubles they evaluate
    to: a draw is a double too, so the comparison with these is the one the
    source makes.  ([0.30] and [0.35] lie just below the decimal fraction,
    [0.05] and [0.45] just above.) *)
Definition double_0_05 : Q := 3602879701896397 # 72057594037927936.
Definition double_0_30 : Q := 5404319552844595 # 18014398509481984.
Definition double_0_35 : Q := 3152519739159347 # 9007199254740992.
Definition double_0_45 : Q := 8106479329266893 # 18014398509481984.

Definition Math_floor (x : Q) : Z := Qfloor x.

(** [Math.round] rounds halves towards plus infinity. *)
Definition Math_round (x : Q) : Z := Qfloor (x + 0.5).

Definition Math_min (x y : Q) : Q := if Qle_bool x y then x else y.

Definition Qlt_bool (x y : Q) : bool := negb (Qle_bool y x).

Class JsMath := {
  Math_sqrt : Q -> Q;
  Math_atan2 : Q -> Q -> Q
}.

(** A fixed-point instance, used to run the model on concrete inputs: the
    square root is truncated to six decimals and the angle is exact on the
    four cardinal directions. *)
Definition sqrt6 (x : Q) : Q :=
  Z.sqrt (Qfloor (x * 1000000000000)) # 1000000.

Definition atan2_coarse (y x : Q) : Q :=
  if Qlt_bool 0 x then
    (if Qlt_bool 0 y then Math_PI / 4
     else if Qlt_bool y 0 then - (Math_PI / 4) else 0)
  else if Qlt_bool x 0 then
    (if Qlt_bool 0 y then 3 * Math_PI / 4
     else if Qlt_bool y 0 then - (3 * Math_PI / 4) else Math_PI)
  else
    (if Qlt_bool 0 y then Math_PI / 2
     else if Qlt_bool y 0 then - (Math_PI / 2) else 0).

Definition fixedPointMath : JsMath :=
  {| Math_sqrt := sqrt6; Math_atan2 := atan2_coarse |}.

Inductive TreeState := healthy | falling | fading.

Record Vector3 := mkVector3 { vec_x : Q; vec_y : Q; vec_z : Q }.

(** [arr[i]] for an integer [i]: [None] stands for [undefined]. *)
Definition readIndex {A} (l : list A) (i : Z) : option A :=
  if i <? 0 then None else l !! Z.to_nat i.

(** * src/game.ts *)

Module Game.

Inductive TileType := grass | water | path.
Inductive DecorationType := tree | rock | flower.

(** [interface Decoration]; the optional fields are options. *)
Record Decoration := mkDecoration {
  deco_type : DecorationType;
  variant : Z;
  offsetX : Q;
  offsetY : Q;
  health : option Z;
  state : option TreeState;
  fallAngle : option Q;
  fallDirection : option Vector3;
  opacity : option Q
}.

(** A reference to a [Decoration] object: its index in the store. *)
Abbreviation ref := nat (only parsing).

Record Tile := mkTile {
  tile_x : Z;
  tile_y : Z;
  tile_type : TileType;
  decoration : option ref
}.

Record Player := mkPlayer {
  player_x : Q;
  player_y : Q;
  targetX : Q;
  targetY : Q;
  direction : Q;
  player_isMoving : bool;
  animTime : Q
}.

Record InputState := mkInputState {
  input_up : bool;
  input_down : bool;
  input_left : bool;
  input_right : bool
}.

(** The module-level variables of the game. *)
Record Game := mkGame {
  world : list (list Tile);
  heap : list Decoration;
  scene : list ref;
  player : Player;
  input : InputState;
  lastTime : Q;
  isMoving : bool;
  chopCooldown : Q;
  fallingTrees : list ref
}.

Definition WORLD_SIZE : Z := 20.
Definition MOVE_SPEED : Q := 5.

(** *** Field updates *)

Definition set_world (g : Game) (w : list (list Tile)) : Game :=
  mkGame w (heap g) (scene g) (player g) (input g) (lastTime g)
         (isMoving g) (chopCooldown g) (fallingTrees g).
Definition set_heap (g : Game) (h : list Decoration) : Game :=
  mkGame (world g) h (scene g) (player g) (input g) (lastTime g)
         (isMoving g) (chopCooldown g) (fallingTrees g).
Definition set_scene (g : Game) (s : list ref) : Game :=
  mkGame (world g) (heap g) s (player g) (input g) (lastTime g)
         (isMoving g) (chopCooldown g) (fallingTrees g).
Definition set_player (g : Game) (p : Player) : Game :=
  mkGame (world g) (heap g) (scene g) p (input g) (lastTime g)
         (isMoving g) (chopCooldown g) (fallingTrees g).
Definition set_input (g : Game) (i : InputState) : Game :=
  mkGame (world g) (heap g) (scene g) (player g) i (lastTime g)
         (isMoving g) (chopCooldown g) (fallingTrees g).
Definition set_lastTime (g : Game) (t : Q) : Game :=
  mkGame (world g) (heap g) (scene g) (player g) (input g) t
         (isMoving g) (chopCooldown g) (fallingTrees g).
Definition set_isMoving (g : Game) (b : bool) : Game :=
  mkGame (world g) (heap g) (scene g) (player g) (input g) (lastTime g)
         b (chopCooldown g) (fallingTrees g).
Definition set_chopCooldown (g : Game) (c : Q) : Game :=
  mkGame (world g) (heap g) (scene g) (player g) (input g) (lastTime g)
         (isMoving g) c (fallingTrees g).
Definition set_fallingTrees (g : Game) (l : list ref) : Game :=
  mkGame (world g) (heap g) (scene g) (player g) (input g) (lastTime g)
         (isMoving g) (chopCooldown g) l.

Definition set_health (d : Decoration) (h : option Z) : Decoration :=
  mkDecoration (deco_type d) (variant d) (offsetX d) (offsetY d)
               h (state d) (fallAngle d) (fallDirection d) (opacity d).
Definition set_state (d : Decoration) (s : option TreeState) : Decoration :=
  mkDecoration (deco_type d) (variant d) (offsetX d) (offsetY d)
               (health d) s (fallAngle d) (fallDirection d) (opacity d).
Definition set_fallAngle (d : Decoration) (a : option Q) : Decoration :=
  mkDecoration (deco_type d) (variant d) (offsetX d) (offsetY d)
               (health d) (state d) a (fallDirection d) (opacity d).
Definition set_fallDirection (d : Decoration) (v : option Vector3) : Decoration :=
  mkDecoration (deco_type d) (variant d) (offsetX d) (offsetY d)
               (health d) (state d) (fallAngle d) v (opacity d).
Definition set_opacity (d : Decoration) (o : option Q) : Decoration :=
  mkDecoration (deco_type d) (variant d) (offsetX d) (offsetY d)
               (health d) (state d) (fallAngle d) (fallDirection d) o.

Definition set_decoration (t : Tile) (r : option ref) : Tile :=
  mkTile (tile_x t) (tile_y t) (tile_type t) r.

Definition is_tree (d : Decoration) : bool :=
  match deco_type d with tree => true | _ => false end.
Definition is_rock (d : Decoration) : bool :=
  match deco_type d with rock => true | _ => false end.
Definition is_water (t : Tile) : bool :=
  match tile_type t with water => true | _ => false end.
Definition is_grass (t : TileType) : bool :=
  match t with grass => true | _ => false end.

(** *** Grid model *)

(** [world[x][y]]. *)
Definition getTile (w : list (list Tile)) (x y : Z) : option Tile :=
  row ← readIndex w x; readIndex row y.

(** [tileX < 0 || tileX >= world.length || tileY < 0 ||
     tileY >= world[0].length]; [world[0]] is only read once
    [0 <= tileX < world.length] is known, so it exists. *)
Definition outOfBounds (w : list (list Tile)) (tileX tileY : Z) : bool :=
  (tileX <? 0) || (tileX >=? Z.of_nat (length w)) ||
  (tileY <? 0) || (tileY >=? Z.of_nat (length (default [] (w !! 0%nat)))).

(** [tile.decoration.health ?? 100]. *)
Definition healthOr100 (d : Decoration) : Z := default 100 (health d).

Definition isWalkable (g : Game) (x y : Q) : option bool :=
  let tileX := Math_floor x in
  let tileY := Math_floor y in
  if outOfBounds (world g) tileX tileY then Some false else
  tile ← getTile (world g) tileX tileY;
  if is_water tile then Some false else
  match decoration tile with
  | None => Some true
  | Some r =>
      d ← heap g !! r;
      match deco_type d with
      | rock => Some false
      | tree => Some (healthOr100 d <=? 0)
      | flower => Some true
      end
  end.

(** *** World generation *)

(** The values [Math.random()] returns while one tile is created, by call
    site.  (The draws made while a mesh is built are presentation.) *)
Record TileRandom := mkTileRandom {
  rnd_path : Q;
  rnd_deco : Q;
  rnd_offsetX : Q;
  rnd_offsetY : Q;
  rnd_variant : Q
}.

Definition distFromEdge (x y : Z) : Z :=
  Z.min (Z.min x y) (Z.min (WORLD_SIZE - 1 - x) (WORLD_SIZE - 1 - y)).

(** [distFromCenter < 3], where [distFromCenter] is the square root of
    [(x - WORLD_SIZE / 2) ** 2 + (y - WORLD_SIZE / 2) ** 2]: on integers the
    root is below 3 exactly when the sum of squares is below 9. *)
Definition nearCenter (x y : Z) : bool :=
  (x - WORLD_SIZE / 2) ^ 2 + (y - WORLD_SIZE / 2) ^ 2 <? 9.

Definition newTree (variant : Z) (offsetX offsetY : Q) : Decoration :=
  mkDecoration tree variant offsetX offsetY (Some 100) (Some healthy)
               None None None.
Definition newRock (variant : Z) (offsetX offsetY : Q) : Decoration :=
  mkDecoration rock variant offsetX offsetY None None None None None.
Definition newFlower (variant : Z) (offsetX offsetY : Q) : Decoration :=
  mkDecoration flower variant offsetX offsetY None None None None None.

(** [createTile]: the new decoration object, if any, is allocated at the end
    of the store and its mesh is added to the scene. *)
Definition createTile (x y : Z) (rnd : TileRandom)
           (h : list Decoration) (sc : list ref)
  : Tile * list Decoration * list ref :=
  let distEdge := distFromEdge x y in
  let type :=
    if nearCenter x y then water
    else if Qlt_bool (rnd_path rnd) double_0_05 && (1 <? distEdge) then path
    else grass in
  if is_grass type && (0 <? distEdge) then
    let rand := rnd_deco rnd in
    let offsetX := ((rnd_offsetX rnd - 0.5) * 0.6)%Q in
    let offsetY := ((rnd_offsetY rnd - 0.5) * 0.6)%Q in
    let r := length h in
    if Qlt_bool rand double_0_30 then
      let variant := Math_floor (rnd_variant rnd * 3) in
      (mkTile x y type (Some r), h ++ [newTree variant offsetX offsetY], sc ++ [r])
    else if Qlt_bool rand double_0_35 then
      let variant := Math_floor (rnd_variant rnd * 2) in
      (mkTile x y type (Some r), h ++ [newRock variant offsetX offsetY], sc ++ [r])
    else if Qlt_bool rand double_0_45 then
      let variant := Math_floor (rnd_variant rnd * 4) in
      (mkTile x y type (Some r), h ++ [newFlower variant offsetX offsetY], sc ++ [r])
    else (mkTile x y type None, h, sc)
  else (mkTile x y type None, h, sc).

(** The inner loop of [generateWorld]: [n] tiles of column [x], from [y]. *)
Fixpoint generateColumn (n : nat) (x y : Z) (rnd : Z -> Z -> TileRandom)
         (col : list Tile) (h : list Decoration) (sc : list ref)
  : list Tile * list Decoration * list ref :=
  match n with
  | O => (col, h, sc)
  | S n' =>
      let '(t, h', sc') := createTile x y (rnd x y) h sc in
      generateColumn n' x (y + 1) rnd (col ++ [t]) h' sc'
  end.

Fixpoint generateColumns (n : nat) (x : Z) (rnd : Z -> Z -> TileRandom)
         (w : list (list Tile)) (h : list Decoration) (sc : list ref)
  : list (list Tile) * list Decoration * list ref :=
  match n with
  | O => (w, h, sc)
  | S n' =>
      let '(col, h', sc') :=
        generateColumn (Z.to_nat WORLD_SIZE) x 0 rnd [] h sc in
      generateColumns n' (x + 1) rnd (w ++ [col]) h' sc'
  end.

Definition generateWorld (rnd : Z -> Z -> TileRandom)
  : list (list Tile) * list Decoration * list ref :=
  generateColumns (Z.to_nat WORLD_SIZE) 0 rnd [] [] [].

(** *** Spawn point *)

(** [tile.type !== 'water' && (!tile.decoration ||
     (tile.decoration.type !== 'tree' && tile.decoration.type !== 'rock'))]. *)
Definition spawnCandidate (h : list Decoration) (tile : Tile) : option bool :=
  if is_water tile then Some false else
  match decoration tile with
  | None => Some true
  | Some r => d ← h !! r; Some (negb (is_tree d) && negb (is_rock d))
  end.

Fixpoint validInColumn (n : nat) (x y : Z) (w : list (list Tile))
         (h : list Decoration) (acc : list (Z * Z)) : option (list (Z * Z)) :=
  match n with
  | O => Some acc
  | S n' =>
      tile ← getTile w x y;
      ok ← spawnCandidate h tile;
      validInColumn n' x (y + 1) w h (if ok : bool then acc ++ [(x, y)] else acc)
  end.

Fixpoint validInColumns (n : nat) (x : Z) (w : list (list Tile))
         (h : list Decoration) (acc : list (Z * Z)) : option (list (Z * Z)) :=
  match n with
  | O => Some acc
  | S n' =>
      acc' ← validInColumn (Z.to_nat WORLD_SIZE) x 0 w h acc;
      validInColumns n' (x + 1) w h acc'
  end.

Definition validPositions (w : list (list Tile)) (h : list Decoration)
  : option (list (Z * Z)) :=
  validInColumns (Z.to_nat WORLD_SIZE) 0 w h [].

(** [rnd] is the value of the one [Math.random()] call. *)
Definition getSpawnPosition (w : list (list Tile)) (h : list Decoration)
           (rnd : Q) : option (Z * Z) :=
  valid ← validPositions w h;
  if (0 <? length valid)%nat then
    readIndex valid (Math_floor (rnd * inject_Z (Z.of_nat (length valid))))
  else
    Some (Math_floor (inject_Z WORLD_SIZE / 2), Math_floor (inject_Z WORLD_SIZE / 2)).

Definition createPlayer (x y : Z) : Player :=
  mkPlayer (inject_Z x) (inject_Z y) (inject_Z x) (inject_Z y) 0 false 0.

Definition createInputHandler : InputState :=
  mkInputState false false false false.

(** [init], up to the first [requestAnimationFrame]; [now] is what
    [performance.now()] returns. *)
Definition init (rnd : Z -> Z -> TileRandom) (rndSpawn : Q) (now : Q)
  : option Game :=
  let '(w, h, sc) := generateWorld rnd in
  spawnPos ← getSpawnPosition w h rndSpawn;
  Some (mkGame w h sc (createPlayer (fst spawnPos) (snd spawnPos))
               createInputHandler now false 0 []).

Section WithMath.
Context `{JsMath}.

(** *** Chopping *)

(** The boolean is the function's return value: the tree was felled. *)
Definition damageTree (g : Game) (x y : Q) : option (Game * bool) :=
  let tileX := Math_floor x in
  let tileY := Math_floor y in
  if outOfBounds (world g) tileX tileY then Some (g, false) else
  tile ← getTile (world g) tileX tileY;
  match decoration tile with
  | None => Some (g, false)
  | Some r =>
      d ← heap g !! r;
      if is_tree d && (0 <? healthOr100 d) then
        let d1 := set_health d (Some (healthOr100 d - 34)) in
        if healthOr100 d - 34 <=? 0 then
          let dx := (inject_Z (tile_x tile) + 0.5 - player_x (player g))%Q in
          let dy := (inject_Z (tile_y tile) + 0.5 - player_y (player g))%Q in
          let dist := Math_sqrt (dx * dx + dy * dy)%Q in
          let d2 :=
            set_opacity
              (set_fallDirection
                 (set_fallAngle (set_state d1 (Some falling)) (Some 0%Q))
                 (Some (mkVector3 (dx / dist) 0 (dy / dist))))
              (Some 1%Q) in
          Some (set_fallingTrees (set_heap g (<[r := d2]> (heap g)))
                                 (fallingTrees g ++ [r]), true)
        else Some (set_heap g (<[r := d1]> (heap g)), false)
      else Some (g, false)
  end.

(** *** Player *)

(** Lines 946-950 of [updatePlayer]: the four keys accumulate into a step. *)
Definition inputDelta (i : InputState) : Z * Z :=
  let dx := 0 in
  let dy := 0 in
  let dy := if input_up i then dy - 1 else dy in
  let dy := if input_down i then dy + 1 else dy in
  let dx := if input_left i then dx - 1 else dx in
  let dx := if input_right i then dx + 1 else dx in
  (dx, dy).

(** The tile handed to [isWalkable] for the keys held. *)
Definition intentTarget (p : Player) (i : InputState) : Z * Z :=
  (Math_round (player_x p) + fst (inputDelta i),
   Math_round (player_y p) + snd (inputDelta i)).

Definition set_direction (p : Player) (a : Q) : Player :=
  mkPlayer (player_x p) (player_y p) (targetX p) (targetY p) a
           (player_isMoving p) (animTime p).
Definition set_target (p : Player) (tx ty : Q) : Player :=
  mkPlayer (player_x p) (player_y p) tx ty (direction p)
           (player_isMoving p) (animTime p).

(** The state part of [updatePlayer]; the mesh and highlight writes that
    follow it read the player and change nothing modelled here. *)
Definition updatePlayer (g : Game) (deltaTime : Q) : option Game :=
  let dt := (deltaTime / 1000)%Q in
  let p := player g in
  if isMoving g then
    let dx := (targetX p - player_x p)%Q in
    let dy := (targetY p - player_y p)%Q in
    let dist := Math_sqrt (dx * dx + dy * dy)%Q in
    if Qlt_bool dist 0.01 then
      Some (set_isMoving
              (set_player g (mkPlayer (targetX p) (targetY p) (targetX p)
                                      (targetY p) (direction p) false
                                      (animTime p)))
              false)
    else
      let step := Math_min (MOVE_SPEED * dt) dist in
      Some (set_player g
              (mkPlayer (player_x p + dx / dist * step)
                        (player_y p + dy / dist * step)
                        (targetX p) (targetY p)
                        (Math_atan2 dy dx)
                        true
                        (animTime p + deltaTime * 0.01))%Q)
  else
    let '(dx, dy) := inputDelta (input g) in
    if negb (dx =? 0) || negb (dy =? 0) then
      let tX := Math_round (player_x p) + dx in
      let tY := Math_round (player_y p) + dy in
      let g1 :=
        set_player g (set_direction p (Math_atan2 (inject_Z dy) (inject_Z dx))) in
      walkable ← isWalkable g1 (inject_Z tX) (inject_Z tY);
      if walkable : bool then
        Some (set_isMoving
                (set_player g1 (set_target (player g1) (inject_Z tX) (inject_Z tY)))
                true)
      else if Qle_bool (chopCooldown g1) 0 then
        let tileX := Math_floor (inject_Z tX) in
        let tileY := Math_floor (inject_Z tY) in
        if (0 <=? tileX) && (tileX <? Z.of_nat (length (world g1))) &&
           (0 <=? tileY) &&
           (tileY <? Z.of_nat (length (default [] (world g1 !! 0%nat)))) then
          tile ← getTile (world g1) tileX tileY;
          match decoration tile with
          | None => Some g1
          | Some r =>
              d ← heap g1 !! r;
              if is_tree d then
                res ← damageTree g1 (inject_Z tX) (inject_Z tY);
                Some (set_chopCooldown (fst res) 300)
              else Some g1
          end
        else Some g1
      else Some g1
    else Some g.

(** *** Falling trees *)

(** [world[x][y].decoration = null]. *)
Definition clearTile (w : list (list Tile)) (x y : nat) : list (list Tile) :=
  alter (alter (fun t => set_decoration t None) y) x w.

(** The inner loop of the clearing pass, from [y] on, [n] iterations left:
    it stops at the first tile of column [x] that holds [tree]. *)
Fixpoint clearColumn (n : nat) (x y : nat) (tree : ref)
         (w : list (list Tile)) : option (list (list Tile)) :=
  match n with
  | O => Some w
  | S n' =>
      tile ← getTile w (Z.of_nat x) (Z.of_nat y);
      if decide (decoration tile = Some tree)
      then Some (clearTile w x y)
      else clearColumn n' x (S y) tree w
  end.

(** The outer loop; the [break] only leaves the inner one. *)
Fixpoint clearColumns (n : nat) (x : nat) (tree : ref)
         (w : list (list Tile)) : option (list (list Tile)) :=
  match n with
  | O => Some w
  | S n' =>
      w' ← clearColumn (Z.to_nat WORLD_SIZE) x 0 tree w;
      clearColumns n' (S x) tree w'
  end.

Definition clearDecoration (tree : ref) (w : list (list Tile))
  : option (list (list Tile)) :=
  clearColumns (Z.to_nat WORLD_SIZE) 0 tree w.

(** [scene.remove(tree.mesh)]. *)
Definition sceneRemove (r : ref) (s : list ref) : list ref :=
  filter (fun r' => r' <> r) s.

(** One iteration of the first loop of [updateFallingTrees], at index [i]. *)
Definition fallStep (g : Game) (dt : Q) (i : nat) : option Game :=
  tree ← fallingTrees g !! i;
  d ← heap g !! tree;
  match state d with
  | Some falling =>
      let a := (default 0 (fallAngle d) + dt * 2.5)%Q in
      let d1 :=
        if Qle_bool (Math_PI / 2)%Q a
        then set_state (set_fallAngle d (Some (Math_PI / 2)%Q)) (Some fading)
        else set_fallAngle d (Some a) in
      (* [tree.fallDirection!] is dereferenced for the rotation axis *)
      _ ← fallDirection d;
      Some (set_heap g (<[tree := d1]> (heap g)))
  | Some fading =>
      let o := (default 1 (opacity d) - dt * 2)%Q in
      let g1 := set_heap g (<[tree := set_opacity d (Some o)]> (heap g)) in
      if Qle_bool o 0 then
        w' ← clearDecoration tree (world g1);
        Some (set_world
                (set_fallingTrees
                   (set_scene g1 (sceneRemove tree (scene g1)))
                   (delete i (fallingTrees g1)))
                w')
      else Some g1
  | _ => Some g
  end.

(** [for (let i = fallingTrees.length - 1; i >= 0; i--)]: [fallLoop n]
    runs the iterations [n-1], ..., [0]. *)
Fixpoint fallLoop (n : nat) (g : Game) (dt : Q) : option Game :=
  match n with
  | O => Some g
  | S i => g' ← fallStep g dt i; fallLoop i g' dt
  end.

(** The second loop of the source only shakes the meshes of healthy
    trees, which is presentation; its test is [isShaking] below. *)
Definition updateFallingTrees (g : Game) (deltaTime : Q) : option Game :=
  fallLoop (length (fallingTrees g)) g (deltaTime / 1000)%Q.


(** *** Game loop *)

Definition update (g : Game) (deltaTime : Q) : option Game :=
  let g1 :=
    if Qlt_bool 0 (chopCooldown g)
    then set_chopCooldown g (chopCooldown g - deltaTime)%Q
    else g in
  g2 ← updatePlayer g1 deltaTime;
  updateFallingTrees g2 deltaTime.

Definition gameLoop (g : Game) (currentTime : Q) : option Game :=
  let deltaTime := Math_min (currentTime - lastTime g)%Q 50 in
  update (set_lastTime g currentTime) deltaTime.

(** *** Input *)

Inductive KeyCode :=
  | ArrowUp | KeyW | ArrowDown | KeyS
  | ArrowLeft | KeyA | ArrowRight | KeyD | OtherKey.

Definition handleKey (pressed : InputState) (code : KeyCode) (isPressed : bool)
  : InputState :=
  match code with
  | ArrowUp | KeyW =>
      mkInputState isPressed (input_down pressed) (input_left pressed) (input_right pressed)
  | ArrowDown | KeyS =>
      mkInputState (input_up pressed) isPressed (input_left pressed) (input_right pressed)
  | ArrowLeft | KeyA =>
      mkInputState (input_up pressed) (input_down pressed) isPressed (input_right pressed)
  | ArrowRight | KeyD =>
      mkInputState (input_up pressed) (input_down pressed) (input_left pressed) isPressed
  | OtherKey => pressed
  end.

(** What the browser delivers to a running game: key events and animation
    frames. *)
Inductive Event :=
  | Key (code : KeyCode) (isPressed : bool)
  | Frame (currentTime : Q).

Definition step (g : Game) (e : Event) : option Game :=
  match e with
  | Key code isPressed => Some (set_input g (handleKey (input g) code isPressed))
  | Frame currentTime => gameLoop g currentTime
  end.

Fixpoint run (g : Game) (evs : list Event) : option Game :=
  match evs with
  | [] => Some g
  | e :: evs' => g' ← step g e; run g' evs'
  end.

(** *** Reachable states and observations *)

(** The states the running game passes through: [init] on any draws (the
    draw of the spawn index in [0, 1), as [Math.random] returns), then any
    sequence of key events and frames. *)
Inductive reachable : Game -> Prop :=
  | reachable_init rnd rndSpawn now g :
      (0 <= rndSpawn)%Q -> (rndSpawn < 1)%Q ->
      init rnd rndSpawn now = Some g -> reachable g
  | reachable_step g e g' :
      reachable g -> step g e = Some g' -> reachable g'.

(** Frames that follow one another with no key event in between. *)
Fixpoint updates (g : Game) (deltaTimes : list Q) : option Game :=
  match deltaTimes with
  | [] => Some g
  | deltaTime :: rest => g' ← update g deltaTime; updates g' rest
  end.

(** The player stands idle and the keys held point at the tile of the tree
    [r], whose health is [h]. *)
Definition facingTree (g : Game) (r : ref) (h : Z) : Prop :=
  isMoving g = false /\
  inputDelta (input g) <> (0, 0) /\
  exists tile d,
    getTile (world g) (intentTarget (player g) (input g)).1
            (intentTarget (player g) (input g)).2 = Some tile /\
    decoration tile = Some r /\ heap g !! r = Some d /\
    deco_type d = tree /\ health d = Some h.



End WithMath.

(** *** Well-formed states *)

Definition squareWorld (w : list (list Tile)) : Prop :=
  length w = Z.to_nat WORLD_SIZE /\
  Forall (fun col => length col = Z.to_nat WORLD_SIZE) w.

(** The tile at [(x, y)] holds the decoration [r]. *)
Definition holds (w : list (list Tile)) (x y : Z) (r : ref) : Prop :=
  exists t, getTile w x y = Some t /\ decoration t = Some r.

Definition referenced (w : list (list Tile)) (r : ref) : Prop :=
  exists x y, holds w x y r.

(** A decoration that has left the game: not animated, on no tile, and its
    mesh detached. *)
Definition removed (g : Game) (r : ref) : Prop :=
  (r ∉ fallingTrees g) /\ ~ referenced (world g) r /\ (r ∉ scene g).

(** What holds of a decoration while it is in [fallingTrees]. *)
Definition liveTree (d : Decoration) : Prop :=
  deco_type d = tree /\
  (exists h, health d = Some h /\ h <= 0) /\
  is_Some (fallDirection d) /\
  (exists o, opacity d = Some o /\ (0 < o)%Q) /\
  ((state d = Some falling /\
    exists a, fallAngle d = Some a /\ (a < Math_PI / 2)%Q) \/
   (state d = Some fading /\ fallAngle d = Some (Math_PI / 2)%Q)).

(** What holds of every tree: its health is on the chopping ladder, and it
    is in the healthy state while the health is positive. *)
Definition treeOk (d : Decoration) : Prop :=
  deco_type d = tree ->
  exists h, health d = Some h /\
            (h = 100 \/ h = 66 \/ h = 32 \/ h = -2) /\
            (0 < h -> state d = Some healthy).

(** The invariant of the running game. *)
Record inv (g : Game) : Prop := mkInv {
  inv_square : squareWorld (world g);
  inv_refs : forall x y r, holds (world g) x y r -> (r < length (heap g))%nat;
  inv_owner : forall x y x' y' r,
      holds (world g) x y r -> holds (world g) x' y' r -> x = x' /\ y = y';
  inv_scene : forall r, referenced (world g) r -> r ∈ scene g;
  inv_nodup : NoDup (fallingTrees g);
  inv_falling : forall r,
      r ∈ fallingTrees g ->
      exists d, heap g !! r = Some d /\ liveTree d /\ referenced (world g) r;
  inv_trees : forall r d, heap g !! r = Some d -> treeOk d
}.

(** The clearing pass of [updateFallingTrees], column by column: the first
    tile of the column that holds [tree] loses its decoration. *)
Fixpoint clearFirst (tree : ref) (col : list Tile) : list Tile :=
  match col with
  | [] => []
  | t :: col' =>
      if decide (decoration t = Some tree)
      then set_decoration t None :: col'
      else t :: clearFirst tree col'
  end.

(** A tile is collected when it is a spawn candidate. *)
Definition candidateAt (w : list (list Tile)) (h : list Decoration)
           (p : Z * Z) : Prop :=
  exists t, getTile w p.1 p.2 = Some t /\ spawnCandidate h t = Some true.

(** The invariant of world generation, on the columns built so far. *)
Definition genInv (rnd : Z -> Z -> TileRandom) (w : list (list Tile))
           (h : list Decoration) (sc : list ref) : Prop :=
  Forall treeOk h /\
  (forall x y r, holds w x y r -> (r < length h)%nat /\ r ∈ sc) /\
  (forall x y x' y' r, holds w x y r -> holds w x' y' r -> x = x' /\ y = y') /\
  (forall x y t, getTile w x y = Some t ->
                 exists h0 sc0, t = (createTile x y (rnd x y) h0 sc0).1.1).

(** A property of the grid, the store, the scene and the falling trees that
    survives the two operations that change them: a chop and one iteration
    of the falling loop. *)
Record stable `{JsMath} (P : Game -> Prop) : Prop := mkStable {
  stable_same : forall g g',
      world g' = world g -> heap g' = heap g -> scene g' = scene g ->
      fallingTrees g' = fallingTrees g -> P g -> P g';
  stable_damage : forall g x y g' b,
      inv g -> P g -> damageTree g x y = Some (g', b) -> P g';
  stable_fall : forall g dt i g',
      inv g -> P g -> fallStep g dt i = Some g' -> P g'
}.

Definition totalTime (deltaTimes : list Q) : Q :=
  foldr Qplus 0%Q deltaTimes.

(** Frame time that is enough to fell a tree of health [h] by holding a key,
    starting with the cooldown at [c] and with frames of at most 50 ms: the
    rest of the running cooldown, then up to 350 ms for each further chop
    (300 of cooldown and the frame that overshoots it), and one frame. *)
Definition holdBudget (h : Z) (c : Q) : Q :=
  (Qmax c 0 +
   (if h <=? 34 then 0 else if h <=? 68 then 350 else 700) + 50)%Q.

(** The first statement of [update]: the cooldown counts down by the frame's
    delta while it is positive. *)
Definition tickCooldown (c deltaTime : Q) : Q :=
  if Qlt_bool 0 c then (c - deltaTime)%Q else c.


(** What one iteration of the falling loop writes into the tree it visits,
    and whether it then removes the tree (the body of [fallStep], without
    the bookkeeping). *)
Definition advanceTree (dt : Q) (d : Decoration) : Decoration :=
  match state d with
  | Some falling =>
      let a := (default 0 (fallAngle d) + dt * 2.5)%Q in
      if Qle_bool (Math_PI / 2)%Q a
      then set_state (set_fallAngle d (Some (Math_PI / 2)%Q)) (Some fading)
      else set_fallAngle d (Some a)
  | Some fading => set_opacity d (Some (default 1 (opacity d) - dt * 2)%Q)
  | _ => d
  end.

Definition fadedOut (dt : Q) (d : Decoration) : bool :=
  match state d with
  | Some fading => Qle_bool (default 1 (opacity d) - dt * 2)%Q 0
  | _ => false
  end.

(** A falling tree that is still in the game: animated, on a tile, and its
    mesh attached. *)
Definition present (g : Game) (r : ref) : Prop :=
  r ∈ fallingTrees g /\ referenced (world g) r /\ r ∈ scene g.

(** What the falling loop leaves alone: the player, the input, the clock and
    the cooldown; every health; and the decorations that are not falling,
    with their tiles. *)
Record animated (g g' : Game) : Prop := mkAnimated {
  an_cooldown : chopCooldown g' = chopCooldown g;
  an_lastTime : lastTime g' = lastTime g;
  an_player : player g' = player g;
  an_input : input g' = input g;
  an_isMoving : isMoving g' = isMoving g;
  an_health : forall r d,
      heap g !! r = Some d ->
      exists d', heap g' !! r = Some d' /\ health d' = health d /\
                 deco_type d' = deco_type d;
  an_others : forall r, r ∉ fallingTrees g -> heap g' !! r = heap g !! r;
  an_falling : forall r, r ∈ fallingTrees g' -> r ∈ fallingTrees g;
  an_tiles : forall x y t,
      getTile (world g) x y = Some t ->
      (forall r, decoration t = Some r -> r ∉ fallingTrees g) ->
      getTile (world g') x y = Some t
}.

(** How a tile can differ after clearing passes: not at all, or by the loss
    of its decoration. *)
Definition tileKept (t t' : Tile) : Prop :=
  tile_x t' = tile_x t /\ tile_y t' = tile_y t /\
  tile_type t' = tile_type t /\
  (decoration t' = decoration t \/ decoration t' = None).



(** Frame time after which a felled tree has left the game: 400 ms for
    each radian still to fall (the angle grows by 2.5 a second) and 500 ms
    for each unit of opacity (it shrinks by 2 a second), with frames to
    spare: the frame that overshoots the clamp at pi/2, and in each of the
    two phases one frame more, so that the bound does not hang on a sum of
    steps meeting pi/2 or 0 to the last digit. *)
Definition removalBudget (d : Decoration) : Q :=
  match state d with
  | Some falling =>
      ((Math_PI / 2 - default 0 (fallAngle d)) * 400
       + default 1 (opacity d) * 500 + 150)%Q
  | _ => (default 1 (opacity d) * 500 + 50)%Q
  end.

(** The player heads for a walkable tile, and stands on it when idle. *)
Definition playerOk (g : Game) : Prop :=
  (exists tx ty : Z,
     targetX (player g) = inject_Z tx /\ targetY (player g) = inject_Z ty /\
     isWalkable g (inject_Z tx) (inject_Z ty) = Some true) /\
  (isMoving g = false ->
   player_x (player g) = targetX (player g) /\
   player_y (player g) = targetY (player g)).

End Game.

(** * src/tree.ts *)

Module TreeTile.

(** [interface Tree].  [treeMeshAttached] records whether [treeMesh] is a
    child of [scene]; the other mesh state is presentation. *)
Record Tree := mkTree {
  x : Z;
  y : Z;
  isWalkable : bool;
  health : Z;
  state : TreeState;
  isDestroyed : bool;
  fallAngle : Q;
  fallDirection : option Vector3;
  opacity : Q;
  shakeEndTime : Q;
  baseX : Q;
  baseZ : Q;
  treeMeshAttached : bool
}.

(** [createTree]; [rndX] and [rndY] are the two [Math.random()] draws of the
    sub-tile offset. *)
Definition createTree (x y : Z) (rndX rndY : Q) : Tree :=
  let offsetX := ((rndX - 0.5) * 0.6)%Q in
  let offsetY := ((rndY - 0.5) * 0.6)%Q in
  mkTree x y false 100 healthy false 0 None 1 0
         (inject_Z x + 0.5 + offsetX) (inject_Z y + 0.5 + offsetY) true.

(** [damage(fallDirection)]; [now] is what [Date.now()] returns. *)
Definition damage (now : Q) (dir : Vector3) (t : Tree) : Tree :=
  if health t <=? 0 then t else
  let h := health t - 34 in
  let shake := (now + 150)%Q in
  if h <=? 0 then
    mkTree (x t) (y t) true h falling (isDestroyed t) 0 (Some dir)
           (opacity t) shake (baseX t) (baseZ t) (treeMeshAttached t)
  else
    mkTree (x t) (y t) (isWalkable t) h (state t) (isDestroyed t)
           (fallAngle t) (fallDirection t) (opacity t) shake
           (baseX t) (baseZ t) (treeMeshAttached t).

(** [update(deltaTime)].  The falling branch dereferences
    [this.fallDirection!]; the healthy branch only shakes the mesh. *)
Definition update (deltaTime : Q) (t : Tree) : option Tree :=
  let dt := (deltaTime / 1000)%Q in
  match state t with
  | falling =>
      let a := (fallAngle t + dt * 2.5)%Q in
      _ ← fallDirection t;
      if Qle_bool (Math_PI / 2)%Q a then
        Some (mkTree (x t) (y t) (isWalkable t) (health t) fading
                     (isDestroyed t) (Math_PI / 2)%Q (fallDirection t)
                     (opacity t) (shakeEndTime t) (baseX t) (baseZ t)
                     (treeMeshAttached t))
      else
        Some (mkTree (x t) (y t) (isWalkable t) (health t) falling
                     (isDestroyed t) a (fallDirection t)
                     (opacity t) (shakeEndTime t) (baseX t) (baseZ t)
                     (treeMeshAttached t))
  | fading =>
      let o := (opacity t - dt * 2)%Q in
      if Qle_bool o 0 then
        Some (mkTree (x t) (y t) (isWalkable t) (health t) fading
                     true (fallAngle t) (fallDirection t)
                     o (shakeEndTime t) (baseX t) (baseZ t) false)
      else
        Some (mkTree (x t) (y t) (isWalkable t) (health t) fading
                     (isDestroyed t) (fallAngle t) (fallDirection t)
                     o (shakeEndTime t) (baseX t) (baseZ t)
                     (treeMeshAttached t))
  | healthy => Some t
  end.

(** The states a tree tile passes through: it is created, chopped at from
    any side at any time, and updated every frame until it is destroyed
    (the game drops destroyed trees from the list it updates). *)
Inductive lifetime : Tree -> Prop :=
  | life_created x y rndX rndY : lifetime (createTree x y rndX rndY)
  | life_damage now dir t : lifetime t -> lifetime (damage now dir t)
  | life_update deltaTime t t' :
      lifetime t -> isDestroyed t = false -> update deltaTime t = Some t' ->
      lifetime t'.

(** What holds of a tree tile all along. *)
Record treeInv (t : Tree) : Prop := mkTreeInv {
  ti_ladder : health t = 100 \/ health t = 66 \/ health t = 32 \/ health t = -2;
  ti_standing : 0 < health t ->
                state t = healthy /\ isWalkable t = false /\
                isDestroyed t = false /\ treeMeshAttached t = true /\
                opacity t = 1%Q;
  ti_felled : health t <= 0 ->
              state t <> healthy /\ isWalkable t = true /\
              is_Some (fallDirection t);
  ti_falling : state t = falling ->
               (fallAngle t < Math_PI / 2)%Q /\ isDestroyed t = false /\
               treeMeshAttached t = true /\ (0 < opacity t)%Q;
  ti_fading : state t = fading ->
              fallAngle t = (Math_PI / 2)%Q /\
              (isDestroyed t = false ->
               (0 < opacity t)%Q /\ treeMeshAttached t = true) /\
              (isDestroyed t = true ->
               (opacity t <= 0)%Q /\ treeMeshAttached t = false)
}.

End TreeTile.

(** * A session to run the model on *)

Module Demo.
Import Game.

(** Draws that put a tree on every inner grass tile and no path anywhere. *)
Definition forestDraws (x y : Z) : TileRandom :=
  mkTileRandom 0.5 0.1 0.5 0.5 0.5.

(** The game [init] builds from these draws when the spawn draw picks the
    perimeter tile (1, 0), at time 1000. *)
Definition forest : Game :=
  let '(w, h, sc) := generateWorld forestDraws in
  mkGame w h sc (createPlayer 1 0) createInputHandler 1000 false 0 [].

(** The same world with the spawn at (0, 1). *)
Definition forestWest : Game :=
  let '(w, h, sc) := generateWorld forestDraws in
  mkGame w h sc (createPlayer 0 1) createInputHandler 1000 false 0 [].

(** [n] frames, 50 ms apart, after time [t]. *)
Fixpoint frames (t : Q) (n : nat) : list Event :=
  match n with
  | O => []
  | S n' => Frame (t + 50) :: frames (t + 50) n'
  end.

(** The state after [evs], or [g] itself if the run faults. *)
Definition after (g : Game) (evs : list Event) : Game :=
  default g (run (H := fixedPointMath) g evs).

(** The player faces the tree below the spawn tile, key held. *)
Definition facing : Game := after forest [Key ArrowDown true].
(** The first chop lands on the frame at 1050; the cooldown then runs until
    the frame at 1350, where the second lands. *)
Definition chopped1 : Game := after facing (frames 1000 1).
Definition waited : Game := after chopped1 (frames 1050 5).
Definition chopped2 : Game := after waited (frames 1300 1).
(** The third chop, at 1650, fells the tree. *)
Definition felled : Game := after chopped2 (frames 1350 6).
(** The tile below the spawn tile and its tree, as generated and as the
    third chop leaves it. *)
Definition treeTile : Tile := mkTile 1 1 grass (Some 0%nat).
Definition standingTree : Decoration :=
  newTree (Math_floor (0.5 * 3)) ((0.5 - 0.5) * 0.6) ((0.5 - 0.5) * 0.6).
Definition fallingTree : Decoration :=
  default standingTree (heap felled !! 0%nat).
(** Both keys of a diagonal held at the western spawn. *)
Definition diagonal : Game :=
  after forestWest [Key ArrowUp true; Key ArrowRight true].

(** The game right after the first chop, before the cooldown is armed. *)
Definition struck : Game :=
  set_heap facing (<[0%nat := set_health standingTree (Some 66)]> (heap facing)).
(** A grid that is all water. *)
Definition flooded : list (list Tile) :=
  replicate 20 (replicate 20 (mkTile 0 0 water None)).

(** A tree tile of the modular game, and what three chops leave of it. *)
Definition sapling : TreeTile.Tree := TreeTile.createTree 1 1 0.5 0.5.
Definition southward : Vector3 := mkVector3 0 0 1.
Definition stump : TreeTile.Tree :=
  TreeTile.damage 1650 southward
    (TreeTile.damage 1350 southward (TreeTile.damage 1050 southward sapling)).

End Demo.

(** * The modular game: src/unnamed/part_002 with the tile and player files *)

Module Modular.

(** ** Numbers *)

Definition Math_abs (x : Q) : Q := Qabs x.

Definition Math_sign (x : Q) : Q :=
  if Qlt_bool 0 x then 1%Q else if Qlt_bool x 0 then (-1)%Q else 0%Q.

(** [a % b], the remainder of the division truncated towards zero. *)
Definition Math_trunc (x : Q) : Z :=
  if Qlt_bool x 0 then Qceiling x else Qfloor x.
Definition remainder (a b : Q) : Q :=
  (a - b * inject_Z (Math_trunc (a / b)))%Q.

Definition WORLD_SIZE : Z := 20.
Definition MOVE_SPEED : Q := 5.
Definition ROTATION_SPEED : Q := 25.
Definition TARGET_FPS : Q := 60.
(** [1000 / TARGET_FPS], as the double the division evaluates to
    (16.666666666666668, a little above 50/3).  The remainder of two
    doubles is a double, so [elapsed % FRAME_INTERVAL] is the number
    [remainder] gives. *)
Definition FRAME_INTERVAL : Q := 4691249611844267 # 281474976710656.
Definition CLICK_DRAG_THRESHOLD : Q := 5.

(** ** Angle helpers *)

(** [while (angle > Math.PI) angle -= Math.PI * 2], at most [fuel] times
    round the loop; [None] when the condition still holds after that. *)
Fixpoint lowerAngle (fuel : nat) (angle : Q) : option Q :=
  if Qlt_bool Math_PI angle then
    match fuel with
    | O => None
    | S fuel' => lowerAngle fuel' (angle - Math_PI * 2)%Q
    end
  else Some angle.

(** [while (angle < -Math.PI) angle += Math.PI * 2]. *)
Fixpoint raiseAngle (fuel : nat) (angle : Q) : option Q :=
  if Qlt_bool angle (- Math_PI) then
    match fuel with
    | O => None
    | S fuel' => raiseAngle fuel' (angle + Math_PI * 2)%Q
    end
  else Some angle.

Definition normalizeWithin (fuel : nat) (angle : Q) : option Q :=
  a ← lowerAngle fuel angle; raiseAngle fuel a.

(** A number of rounds that lets both loops of [normalizeAngle] run to
    their exit: the full turns in [angle]. *)
Definition turns (angle : Q) : nat :=
  Z.to_nat (Qceiling (Qabs angle / (Math_PI * 2))).

(** [normalizeAngle] on a rational: both loops exit within [turns angle]
    rounds, so the default is never taken.  (On doubles the loops need not
    exit once [angle - Math.PI * 2] rounds back to [angle], from about
    1e17 on; angles of that size are outside the embedding.) *)
Definition normalizeAngle (angle : Q) : Q :=
  default angle (normalizeWithin (turns angle) angle).

Definition angleDifference (from to : Q) : Q := normalizeAngle (to - from).

Definition getCardinalDirection (dx dy : Q) : Q :=
  if Qle_bool (Math_abs dy) (Math_abs dx) then
    if Qlt_bool 0 dx then 0%Q else Math_PI
  else
    if Qlt_bool 0 dy then (Math_PI / 2)%Q else (- (Math_PI / 2))%Q.

(** ** Tiles *)

Inductive TileType := grass | water | path | rock | tree | flower.

(** The tile objects without behaviour of their own: [type], [x], [y] and
    [isWalkable] never change.  (A flower's sway is presentation.) *)
Record Plain := mkPlain {
  plain_type : TileType;
  plain_x : Z;
  plain_y : Z;
  plain_isWalkable : bool
}.

(** A tile of the grid: a plain object, or the [Tree] object at an index of
    the store, which [GameState.trees] references too. *)
Inductive Tile :=
  | Static (p : Plain)
  | TreeAt (r : nat).

Definition createGrass (x y : Z) : Tile := Static (mkPlain grass x y true).
Definition createWater (x y : Z) : Tile := Static (mkPlain water x y false).
Definition createPath (x y : Z) : Tile := Static (mkPlain path x y true).
Definition createRock (x y : Z) : Tile := Static (mkPlain rock x y false).
Definition createFlower (x y : Z) : Tile := Static (mkPlain flower x y true).

(** ** State *)

Record Player := mkPlayer {
  player_x : Q;
  player_y : Q;
  targetX : Q;
  targetY : Q;
  prevTileX : Z;
  prevTileY : Z;
  direction : Q;
  targetDirection : Q;
  player_isMoving : bool;
  isRotating : bool;
  animTime : Q
}.

(** Of [OrbitState], what decides whether a release is a click. *)
Record OrbitState := mkOrbitState {
  isDragging : bool;
  previousMouseX : Q;
  previousMouseY : Q;
  isClick : bool
}.

Record GameState := mkGameState {
  world : list (list Tile);
  heap : list TreeTile.Tree;
  trees : list nat;
  player : Player;
  input : Game.InputState;
  orbitState : OrbitState;
  hoverTileX : Z;
  hoverTileY : Z;
  lastTime : Q;
  isMoving : bool;
  chopCooldown : Q
}.

Definition set_heap (g : GameState) (h : list TreeTile.Tree) : GameState :=
  mkGameState (world g) h (trees g) (player g) (input g) (orbitState g)
              (hoverTileX g) (hoverTileY g) (lastTime g) (isMoving g)
              (chopCooldown g).
Definition set_trees (g : GameState) (l : list nat) : GameState :=
  mkGameState (world g) (heap g) l (player g) (input g) (orbitState g)
              (hoverTileX g) (hoverTileY g) (lastTime g) (isMoving g)
              (chopCooldown g).
Definition set_player (g : GameState) (p : Player) : GameState :=
  mkGameState (world g) (heap g) (trees g) p (input g) (orbitState g)
              (hoverTileX g) (hoverTileY g) (lastTime g) (isMoving g)
              (chopCooldown g).
Definition set_input (g : GameState) (i : Game.InputState) : GameState :=
  mkGameState (world g) (heap g) (trees g) (player g) i (orbitState g)
              (hoverTileX g) (hoverTileY g) (lastTime g) (isMoving g)
              (chopCooldown g).
Definition set_orbitState (g : GameState) (o : OrbitState) : GameState :=
  mkGameState (world g) (heap g) (trees g) (player g) (input g) o
              (hoverTileX g) (hoverTileY g) (lastTime g) (isMoving g)
              (chopCooldown g).
Definition set_hover (g : GameState) (x y : Z) : GameState :=
  mkGameState (world g) (heap g) (trees g) (player g) (input g) (orbitState g)
              x y (lastTime g) (isMoving g) (chopCooldown g).
Definition set_lastTime (g : GameState) (t : Q) : GameState :=
  mkGameState (world g) (heap g) (trees g) (player g) (input g) (orbitState g)
              (hoverTileX g) (hoverTileY g) t (isMoving g) (chopCooldown g).
Definition set_isMoving (g : GameState) (b : bool) : GameState :=
  mkGameState (world g) (heap g) (trees g) (player g) (input g) (orbitState g)
              (hoverTileX g) (hoverTileY g) (lastTime g) b (chopCooldown g).
Definition set_chopCooldown (g : GameState) (c : Q) : GameState :=
  mkGameState (world g) (heap g) (trees g) (player g) (input g) (orbitState g)
              (hoverTileX g) (hoverTileY g) (lastTime g) (isMoving g) c.

Definition set_position (p : Player) (x y : Q) : Player :=
  mkPlayer x y (targetX p) (targetY p) (prevTileX p) (prevTileY p)
           (direction p) (targetDirection p) (player_isMoving p)
           (isRotating p) (animTime p).
Definition set_target (p : Player) (x y : Q) : Player :=
  mkPlayer (player_x p) (player_y p) x y (prevTileX p) (prevTileY p)
           (direction p) (targetDirection p) (player_isMoving p)
           (isRotating p) (animTime p).
Definition set_prevTile (p : Player) (x y : Z) : Player :=
  mkPlayer (player_x p) (player_y p) (targetX p) (targetY p) x y
           (direction p) (targetDirection p) (player_isMoving p)
           (isRotating p) (animTime p).
Definition set_direction (p : Player) (a : Q) : Player :=
  mkPlayer (player_x p) (player_y p) (targetX p) (targetY p) (prevTileX p)
           (prevTileY p) a (targetDirection p) (player_isMoving p)
           (isRotating p) (animTime p).
Definition set_targetDirection (p : Player) (a : Q) : Player :=
  mkPlayer (player_x p) (player_y p) (targetX p) (targetY p) (prevTileX p)
           (prevTileY p) (direction p) a (player_isMoving p)
           (isRotating p) (animTime p).
Definition set_player_isMoving (p : Player) (b : bool) : Player :=
  mkPlayer (player_x p) (player_y p) (targetX p) (targetY p) (prevTileX p)
           (prevTileY p) (direction p) (targetDirection p) b
           (isRotating p) (animTime p).
Definition set_isRotating (p : Player) (b : bool) : Player :=
  mkPlayer (player_x p) (player_y p) (targetX p) (targetY p) (prevTileX p)
           (prevTileY p) (direction p) (targetDirection p)
           (player_isMoving p) b (animTime p).
Definition set_animTime (p : Player) (a : Q) : Player :=
  mkPlayer (player_x p) (player_y p) (targetX p) (targetY p) (prevTileX p)
           (prevTileY p) (direction p) (targetDirection p)
           (player_isMoving p) (isRotating p) a.

(** ** Reading the grid *)

(** [world[x][y]]. *)
Definition getTile (w : list (list Tile)) (x y : Z) : option Tile :=
  row ← readIndex w x; readIndex row y.

(** [tile.type], [tile.isWalkable], [tile.x] and [tile.y]: a tree tile's
    fields are those of its [Tree] object. *)
Definition tile_type (h : list TreeTile.Tree) (t : Tile) : option TileType :=
  match t with
  | Static p => Some (plain_type p)
  | TreeAt r => _ ← h !! r; Some tree
  end.
Definition tile_isWalkable (h : list TreeTile.Tree) (t : Tile) : option bool :=
  match t with
  | Static p => Some (plain_isWalkable p)
  | TreeAt r => tr ← h !! r; Some (TreeTile.isWalkable tr)
  end.
Definition tile_x (h : list TreeTile.Tree) (t : Tile) : option Z :=
  match t with
  | Static p => Some (plain_x p)
  | TreeAt r => tr ← h !! r; Some (TreeTile.x tr)
  end.
Definition tile_y (h : list TreeTile.Tree) (t : Tile) : option Z :=
  match t with
  | Static p => Some (plain_y p)
  | TreeAt r => tr ← h !! r; Some (TreeTile.y tr)
  end.
Definition is_tree (ty : TileType) : bool :=
  match ty with tree => true | _ => false end.

Definition inWorld (x y : Z) : bool :=
  (0 <=? x) && (x <? WORLD_SIZE) && (0 <=? y) && (y <? WORLD_SIZE).

(** [tile.damage(direction)] on a tile whose [type] is ['tree']. *)
Definition damageTile (g : GameState) (t : Tile) (now : Q) (dir : Vector3)
  : option GameState :=
  match t with
  | Static _ => None
  | TreeAt r =>
      tr ← heap g !! r;
      Some (set_heap g (<[r := TreeTile.damage now dir tr]> (heap g)))
  end.

Section WithMath.
Context `{JsMath}.

(** ** Player *)

(** The end of a turn: the player faces the target direction and sets off
    if the target tile is not where it stands.  [Qeq_bool] is [===] on
    numbers. *)
Definition finishTurn (g : GameState) : GameState :=
  let p := player g in
  let p1 := set_isRotating (set_direction p (targetDirection p)) false in
  if negb (Qeq_bool (targetX p) (player_x p))
     || negb (Qeq_bool (targetY p) (player_y p))
  then set_isMoving (set_player g (set_player_isMoving p1 true)) true
  else set_player g p1.

(** [Math.abs(angleDifference(player.direction, player.targetDirection)) >
    0.1], read after [targetDirection] has been written. *)
Definition mustTurn (p : Player) : bool :=
  Qlt_bool 0.1 (Math_abs (angleDifference (direction p) (targetDirection p))).

(** The chop of a tree tile from where the player stands: the direction is
    the unit vector from the player to the centre of the tile at
    [(cx, cy)]. *)
Definition chop (g : GameState) (t : Tile) (cx cy : Q) (now : Q)
  : option GameState :=
  let dx := (cx + 0.5 - player_x (player g))%Q in
  let dy := (cy + 0.5 - player_y (player g))%Q in
  let dist := Math_sqrt (dx * dx + dy * dy)%Q in
  g1 ← damageTile g t now (mkVector3 (dx / dist) 0 (dy / dist));
  Some (set_chopCooldown g1 300).

(** The state part of [updatePlayer]; [now] is what [Date.now()] returns
    inside [tile.damage]. *)
Definition updatePlayer (g : GameState) (deltaTime now : Q)
  : option GameState :=
  let p := player g in
  let dt := (deltaTime / 1000)%Q in
  if isRotating p then
    let diff := angleDifference (direction p) (targetDirection p) in
    let step := (ROTATION_SPEED * dt)%Q in
    if Qlt_bool (Math_abs diff) step then Some (finishTurn g)
    else
      Some (set_player g
              (set_direction p
                 (normalizeAngle (direction p + Math_sign diff * step)%Q)))
  else if isMoving g then
    let dx := (targetX p - player_x p)%Q in
    let dy := (targetY p - player_y p)%Q in
    let dist := Math_sqrt (dx * dx + dy * dy)%Q in
    if Qlt_bool dist 0.01 then
      Some (set_isMoving
              (set_player g
                 (set_player_isMoving
                    (set_position p (targetX p) (targetY p)) false))
              false)
    else
      let step := Math_min (MOVE_SPEED * dt) dist in
      Some (set_player g
              (set_player_isMoving
                 (set_animTime
                    (set_position p (player_x p + dx / dist * step)
                                  (player_y p + dy / dist * step))
                    (animTime p + deltaTime * 0.01))
                 true))%Q
  else
    let '(dx, dy) := Game.inputDelta (input g) in
    if negb (dx =? 0) || negb (dy =? 0) then
      let tX := Math_round (player_x p) + dx in
      let tY := Math_round (player_y p) + dy in
      let tileX := Math_floor (inject_Z tX) in
      let tileY := Math_floor (inject_Z tY) in
      if inWorld tileX tileY then
        tile ← getTile (world g) tileX tileY;
        walkable ← tile_isWalkable (heap g) tile;
        if walkable : bool then
          let p1 :=
            set_targetDirection
              (set_target
                 (set_prevTile p (Math_round (player_x p))
                               (Math_round (player_y p)))
                 (inject_Z tX) (inject_Z tY))
              (Math_atan2 (inject_Z dy) (inject_Z dx)) in
          if mustTurn p1 then Some (set_player g (set_isRotating p1 true))
          else
            Some (set_isMoving
                    (set_player g
                       (set_player_isMoving
                          (set_direction p1 (targetDirection p1)) true))
                    true)
        else
          let p1 :=
            set_targetDirection p (Math_atan2 (inject_Z dy) (inject_Z dx)) in
          let p2 :=
            if mustTurn p1 then set_isRotating p1 true
            else set_direction p1 (targetDirection p1) in
          let g1 := set_player g p2 in
          ty ← tile_type (heap g) tile;
          if negb (isRotating p2) && Qle_bool (chopCooldown g1) 0
             && is_tree ty then
            cx ← tile_x (heap g) tile;
            cy ← tile_y (heap g) tile;
            chop g1 tile (inject_Z cx) (inject_Z cy) now
          else Some g1
      else Some g
    else Some g.

(** ** Pointer *)

(** The step a click resolves to, from the offsets to the hovered tile:
    along x when [|dx| > |dy|], along y otherwise. *)
Definition clickStep (dx dy : Q) : Z * Z :=
  if Qlt_bool (Math_abs dy) (Math_abs dx)
  then (if Qlt_bool 0 dx then 1 else -1, 0)
  else (0, if Qlt_bool 0 dy then 1 else -1).

(** Turning on the spot towards [dir]. *)
Definition faceTowards (g : GameState) (dir : Q) : GameState :=
  let p1 := set_targetDirection (player g) dir in
  set_player g
    (if mustTurn p1 then set_isRotating p1 true
     else set_direction p1 dir).

(** [initiateActionAtHoveredTile].  The guard reads [GameState.isRotating],
    which the state object does not have: it is [undefined], so only
    [GameState.isMoving] holds a click back. *)
Definition initiateActionAtHoveredTile (g : GameState) (now : Q)
  : option GameState :=
  let p := player g in
  if (hoverTileX g <? 0) || (hoverTileY g <? 0) then Some g else
  if isMoving g then Some g else
  if (Math_round (player_x p) =? hoverTileX g)
     && (Math_round (player_y p) =? hoverTileY g) then Some g else
  let dx := (inject_Z (hoverTileX g) - player_x p)%Q in
  let dy := (inject_Z (hoverTileY g) - player_y p)%Q in
  let '(moveX, moveY) := clickStep dx dy in
  let tX := Math_round (player_x p) + moveX in
  let tY := Math_round (player_y p) + moveY in
  if negb (inWorld tX tY) then
    Some (faceTowards g (getCardinalDirection dx dy))
  else
    tile ← getTile (world g) tX tY;
    walkable ← tile_isWalkable (heap g) tile;
    if walkable : bool then
      let p1 :=
        set_targetDirection
          (set_target
             (set_prevTile p (Math_round (player_x p))
                           (Math_round (player_y p)))
             (inject_Z tX) (inject_Z tY))
          (Math_atan2 (inject_Z moveY) (inject_Z moveX)) in
      if mustTurn p1 then Some (set_player g (set_isRotating p1 true))
      else
        Some (set_isMoving
                (set_player g
                   (set_player_isMoving
                      (set_direction p1 (targetDirection p1)) true))
                true)
    else
      ty ← tile_type (heap g) tile;
      if is_tree ty then
        let p1 :=
          set_targetDirection p
            (Math_atan2 (inject_Z moveY) (inject_Z moveX)) in
        if mustTurn p1 then Some (set_player g (set_isRotating p1 true))
        else
          let g1 := set_player g (set_direction p1 (targetDirection p1)) in
          if Qle_bool (chopCooldown g) 0
          then chop g1 tile (inject_Z tX) (inject_Z tY) now
          else Some g1
      else Some (faceTowards g (getCardinalDirection dx dy)).

(** [updateHoverHighlight], given where the pointer's ray meets the ground
    plane. *)
Definition updateHoverHighlight (g : GameState) (hit : Q * Q)
  : option GameState :=
  let tileX := Math_floor (fst hit) in
  let tileY := Math_floor (snd hit) in
  if negb (inWorld tileX tileY) then Some (set_hover g (-1) (-1)) else
  tile ← getTile (world g) tileX tileY;
  _ ← tile_type (heap g) tile;
  _ ← tile_isWalkable (heap g) tile;
  Some (set_hover g tileX tileY).

(** The pointer handlers of [setupOrbitControls], without the camera. *)
Definition mouseDown (g : GameState) (clientX clientY : Q) : GameState :=
  set_orbitState g (mkOrbitState true clientX clientY true).

Definition mouseMove (g : GameState) (clientX clientY : Q) (hit : Q * Q)
  : option GameState :=
  let o := orbitState g in
  let g1 :=
    if isDragging o then
      let deltaX := (clientX - previousMouseX o)%Q in
      let deltaY := (clientY - previousMouseY o)%Q in
      let click :=
        if Qlt_bool CLICK_DRAG_THRESHOLD (Math_abs deltaX)
           || Qlt_bool CLICK_DRAG_THRESHOLD (Math_abs deltaY)
        then false else isClick o in
      set_orbitState g (mkOrbitState (isDragging o) clientX clientY click)
    else g in
  updateHoverHighlight g1 hit.

Definition mouseUp (g : GameState) (now : Q) : option GameState :=
  let o := orbitState g in
  g1 ← (if isClick o then initiateActionAtHoveredTile g now else Some g);
  Some (set_orbitState g1
          (mkOrbitState false (previousMouseX o) (previousMouseY o) false)).

Definition mouseLeave (g : GameState) : GameState :=
  let o := orbitState g in
  set_hover
    (set_orbitState g
       (mkOrbitState false (previousMouseX o) (previousMouseY o) false))
    (-1) (-1).

(** ** Entities *)

(** [trees.forEach(tree => tree.update(deltaTime))]. *)
Fixpoint updateEach (l : list nat) (h : list TreeTile.Tree) (deltaTime : Q)
  : option (list TreeTile.Tree) :=
  match l with
  | [] => Some h
  | r :: l' =>
      tr ← h !! r;
      tr' ← TreeTile.update deltaTime tr;
      updateEach l' (<[r := tr']> h) deltaTime
  end.

(** One iteration of the loop that drops the destroyed trees, at index
    [i]. *)
Definition dropStep (g : GameState) (i : nat) : option GameState :=
  r ← trees g !! i;
  tr ← heap g !! r;
  if TreeTile.isDestroyed tr then
    tile ← getTile (world g) (TreeTile.x tr) (TreeTile.y tr);
    _ ← tile_type (heap g) tile;
    Some (set_trees g (delete i (trees g)))
  else Some g.

(** [for (let i = trees.length - 1; i >= 0; i--)]. *)
Fixpoint dropLoop (n : nat) (g : GameState) : option GameState :=
  match n with
  | O => Some g
  | S i => g' ← dropStep g i; dropLoop i g'
  end.

(** The tree part of [updateEntities]; flowers, clouds and pollen are
    presentation. *)
Definition updateEntities (g : GameState) (deltaTime : Q)
  : option GameState :=
  h ← updateEach (trees g) (heap g) deltaTime;
  dropLoop (length (trees g)) (set_heap g h).

(** ** Game loop *)

Definition update (g : GameState) (deltaTime now : Q) : option GameState :=
  let g1 :=
    if Qlt_bool 0 (chopCooldown g)
    then set_chopCooldown g (chopCooldown g - deltaTime)%Q
    else g in
  g2 ← updatePlayer g1 deltaTime now;
  updateEntities g2 deltaTime.

Definition gameLoop (g : GameState) (currentTime now : Q)
  : option GameState :=
  let elapsed := (currentTime - lastTime g)%Q in
  if Qlt_bool elapsed FRAME_INTERVAL then Some g else
  let deltaTime := Math_min elapsed 50 in
  update (set_lastTime g (currentTime - remainder elapsed FRAME_INTERVAL)%Q)
         deltaTime now.

(** ** World generation *)

(** [createTileAt]: the tile for [(x, y)] and the store with its [Tree]
    object, if it is one.  The path draw is made on every tile off the
    water, the decoration draw on every tile that is not a path. *)
Definition createTileAt (x y : Z) (rnd : Game.TileRandom)
           (h : list TreeTile.Tree) : Tile * list TreeTile.Tree :=
  let distEdge := Game.distFromEdge x y in
  if Game.nearCenter x y then (createWater x y, h)
  else if Qlt_bool (Game.rnd_path rnd) double_0_05 && (1 <? distEdge)
  then (createPath x y, h)
  else
    let rand := Game.rnd_deco rnd in
    if Qlt_bool rand double_0_30 && (0 <? distEdge) then
      (TreeAt (length h),
       h ++ [TreeTile.createTree x y (Game.rnd_offsetX rnd)
                                 (Game.rnd_offsetY rnd)])
    else if Qlt_bool rand double_0_35 && (0 <? distEdge)
    then (createRock x y, h)
    else if Qlt_bool rand double_0_45 && (0 <? distEdge)
    then (createFlower x y, h)
    else (createGrass x y, h).

Fixpoint generateColumn (n : nat) (x y : Z) (rnd : Z -> Z -> Game.TileRandom)
         (col : list Tile) (h : list TreeTile.Tree)
  : list Tile * list TreeTile.Tree :=
  match n with
  | O => (col, h)
  | S n' =>
      let '(t, h') := createTileAt x y (rnd x y) h in
      generateColumn n' x (y + 1) rnd (col ++ [t]) h'
  end.

Fixpoint generateColumns (n : nat) (x : Z) (rnd : Z -> Z -> Game.TileRandom)
         (w : list (list Tile)) (h : list TreeTile.Tree)
  : list (list Tile) * list TreeTile.Tree :=
  match n with
  | O => (w, h)
  | S n' =>
      let '(col, h') := generateColumn (Z.to_nat WORLD_SIZE) x 0 rnd [] h in
      generateColumns n' (x + 1) rnd (w ++ [col]) h'
  end.

Definition generateWorld (rnd : Z -> Z -> Game.TileRandom)
  : list (list Tile) * list TreeTile.Tree :=
  generateColumns (Z.to_nat WORLD_SIZE) 0 rnd [] [].

(** The loops of [init] that collect the trees, and of [getSpawnPosition]
    that collect the walkable positions: both walk the grid column by
    column. *)
Fixpoint scanColumn {A} (f : Z -> Z -> Tile -> option (list A)) (n : nat)
         (x y : Z) (w : list (list Tile)) (acc : list A) : option (list A) :=
  match n with
  | O => Some acc
  | S n' =>
      tile ← getTile w x y;
      found ← f x y tile;
      scanColumn f n' x (y + 1) w (acc ++ found)
  end.

Fixpoint scanColumns {A} (f : Z -> Z -> Tile -> option (list A)) (n : nat)
         (x : Z) (w : list (list Tile)) (acc : list A) : option (list A) :=
  match n with
  | O => Some acc
  | S n' =>
      acc' ← scanColumn f (Z.to_nat WORLD_SIZE) x 0 w acc;
      scanColumns f n' (x + 1) w acc'
  end.

Definition collectTrees (w : list (list Tile)) (h : list TreeTile.Tree)
  : option (list nat) :=
  scanColumns
    (fun _ _ tile =>
       ty ← tile_type h tile;
       match tile with
       | TreeAt r => if is_tree ty then Some [r] else Some []
       | Static _ => Some []
       end)
    (Z.to_nat WORLD_SIZE) 0 w [].

Definition validPositions (w : list (list Tile)) (h : list TreeTile.Tree)
  : option (list (Z * Z)) :=
  scanColumns
    (fun x y tile =>
       walkable ← tile_isWalkable h tile;
       if walkable : bool then Some [(x, y)] else Some [])
    (Z.to_nat WORLD_SIZE) 0 w [].

Definition getSpawnPosition (w : list (list Tile)) (h : list TreeTile.Tree)
           (rnd : Q) : option (Z * Z) :=
  valid ← validPositions w h;
  if (0 <? length valid)%nat then
    readIndex valid (Math_floor (rnd * inject_Z (Z.of_nat (length valid))))
  else
    Some (Math_floor (inject_Z WORLD_SIZE / 2),
          Math_floor (inject_Z WORLD_SIZE / 2)).

Definition createPlayer (x y : Z) : Player :=
  mkPlayer (inject_Z x) (inject_Z y) (inject_Z x) (inject_Z y) x y 0 0
           false false 0.

Definition createOrbitState : OrbitState := mkOrbitState false 0 0 false.

Definition init (rnd : Z -> Z -> Game.TileRandom) (rndSpawn : Q) (now : Q)
  : option GameState :=
  let '(w, h) := generateWorld rnd in
  collected ← collectTrees w h;
  spawnPos ← getSpawnPosition w h rndSpawn;
  Some (mkGameState w h collected (createPlayer (fst spawnPos) (snd spawnPos))
                    Game.createInputHandler createOrbitState (-1) (-1) now
                    false 0).

(** ** Events *)

Inductive Event :=
  | Key (code : Game.KeyCode) (isPressed : bool)
  | MouseDown (clientX clientY : Q)
  | MouseMove (clientX clientY : Q) (hit : Q * Q)
  | MouseUp (now : Q)
  | MouseLeave
  | Frame (currentTime now : Q).

Definition step (g : GameState) (e : Event) : option GameState :=
  match e with
  | Key code isPressed =>
      Some (set_input g (Game.handleKey (input g) code isPressed))
  | MouseDown cx cy => Some (mouseDown g cx cy)
  | MouseMove cx cy hit => mouseMove g cx cy hit
  | MouseUp now => mouseUp g now
  | MouseLeave => Some (mouseLeave g)
  | Frame currentTime now => gameLoop g currentTime now
  end.

Fixpoint run (g : GameState) (evs : list Event) : option GameState :=
  match evs with
  | [] => Some g
  | e :: evs' => g' ← step g e; run g' evs'
  end.

(** Frames that follow one another with no event in between; each comes
    with its [deltaTime] and with what [Date.now()] returns during it. *)
Fixpoint updates (g : GameState) (frames : list (Q * Q)) : option GameState :=
  match frames with
  | [] => Some g
  | (deltaTime, now) :: rest => g' ← update g deltaTime now; updates g' rest
  end.

Inductive reachable : GameState -> Prop :=
  | reachable_init rnd rndSpawn now g :
      (0 <= rndSpawn)%Q -> (rndSpawn < 1)%Q ->
      init rnd rndSpawn now = Some g -> reachable g
  | reachable_step g e g' :
      reachable g -> step g e = Some g' -> reachable g'.

End WithMath.

(** ** Well-formed states *)

Definition squareWorld (w : list (list Tile)) : Prop :=
  length w = Z.to_nat WORLD_SIZE /\
  Forall (fun col => length col = Z.to_nat WORLD_SIZE) w.

(** The [isWalkable] the factories of the plain tiles write. *)
Definition plainWalkable (ty : TileType) : bool :=
  match ty with water | rock => false | _ => true end.

(** The tile at [(x, y)] records its own position; a plain tile is not of
    type ['tree'] and a tree tile is an object of the store. *)
Definition tileOk (h : list TreeTile.Tree) (x y : Z) (t : Tile) : Prop :=
  match t with
  | Static p =>
      plain_x p = x /\ plain_y p = y /\ plain_type p <> tree /\
      plain_isWalkable p = plainWalkable (plain_type p)
  | TreeAt r =>
      exists tr, h !! r = Some tr /\ TreeTile.x tr = x /\ TreeTile.y tr = y
  end.

(** The tree objects of a column and of a grid, in reading order. *)
Definition treesOf (col : list Tile) : list nat :=
  omap (fun t => match t with TreeAt r => Some r | Static _ => None end) col.
Definition treesOfWorld (w : list (list Tile)) : list nat :=
  mjoin (map treesOf w).

Record storeOk (w : list (list Tile)) (h : list TreeTile.Tree)
       (l : list nat) : Prop := mkStoreOk {
  so_square : squareWorld w;
  so_tiles : forall x y t, getTile w x y = Some t -> tileOk h x y t;
  so_heap : forall r tr, h !! r = Some tr ->
            TreeTile.lifetime tr /\
            getTile w (TreeTile.x tr) (TreeTile.y tr) = Some (TreeAt r);
  so_nodup : NoDup l;
  so_listed : forall r, r ∈ l <->
              exists tr, h !! r = Some tr /\ TreeTile.isDestroyed tr = false
}.

(** The tile at [(x, y)] exists and its [isWalkable] is [true]. *)
Definition walkableAt (g : GameState) (x y : Z) : Prop :=
  exists t, getTile (world g) x y = Some t /\
            tile_isWalkable (heap g) t = Some true.

Record playerOk (g : GameState) : Prop := mkPlayerOk {
  po_flags : isMoving g = player_isMoving (player g);
  po_target : exists tx ty : Z,
              targetX (player g) = inject_Z tx /\
              targetY (player g) = inject_Z ty /\ walkableAt g tx ty;
  po_idle : isMoving g = false ->
            exists px py : Z,
              player_x (player g) = inject_Z px /\
              player_y (player g) = inject_Z py /\ walkableAt g px py;
  po_rest : isMoving g = false -> isRotating (player g) = false ->
            player_x (player g) = targetX (player g) /\
            player_y (player g) = targetY (player g);
  po_hover : (hoverTileX g = -1 /\ hoverTileY g = -1) \/
             inWorld (hoverTileX g) (hoverTileY g) = true
}.

Definition inv (g : GameState) : Prop :=
  storeOk (world g) (heap g) (trees g) /\ playerOk g.

(** The trees [updateEntities] keeps: those an update has not destroyed. *)
Definition alive (h : list TreeTile.Tree) (r : nat) : bool :=
  match h !! r with
  | Some tr => negb (TreeTile.isDestroyed tr)
  | None => false
  end.

(** A change of the store that keeps every tree object in place, lets no
    walkable tree block again, and touches no plain tile. *)
Definition heapStep (h h' : list TreeTile.Tree) : Prop :=
  length h' = length h /\
  forall r tr, h !! r = Some tr ->
    exists tr', h' !! r = Some tr' /\
      TreeTile.x tr' = TreeTile.x tr /\ TreeTile.y tr' = TreeTile.y tr /\
      (TreeTile.isWalkable tr = true -> TreeTile.isWalkable tr' = true).

(** What the player step and a click do to the rest of the game: nothing,
    or one chop at one tree of the store, with the cooldown run out before
    and armed after. *)
Definition chopsOnly (g g' : GameState) : Prop :=
  world g' = world g /\ trees g' = trees g /\ lastTime g' = lastTime g /\
  input g' = input g /\ orbitState g' = orbitState g /\
  hoverTileX g' = hoverTileX g /\ hoverTileY g' = hoverTileY g /\
  ((heap g' = heap g /\ chopCooldown g' = chopCooldown g) \/
   exists r tr now dir,
     heap g !! r = Some tr /\
     heap g' = <[r := TreeTile.damage now dir tr]> (heap g) /\
     (chopCooldown g <= 0)%Q /\ chopCooldown g' = 300%Q).

(** ** Generated grids *)

(** Every tile of column [x] is valid, and is the one [createTileAt] makes
    for its position from the draws. *)
Definition columnOk (h : list TreeTile.Tree) (x : Z) (col : list Tile) : Prop :=
  forall (y : nat) (t : Tile),
    col !! y = Some t -> tileOk h x (Z.of_nat y) t.

Definition columnGen (rnd : Z -> Z -> Game.TileRandom) (x : Z)
           (col : list Tile) : Prop :=
  forall (y : nat) (t : Tile),
    col !! y = Some t ->
    exists h0, t = (createTileAt x (Z.of_nat y) (rnd x (Z.of_nat y)) h0).1.

(** Every tree object is as [createTree] returns it. *)
Definition freshHeap (h : list TreeTile.Tree) : Prop :=
  forall r tr, h !! r = Some tr ->
    exists x y rndX rndY, tr = TreeTile.createTree x y rndX rndY.

Record gridOk (rnd : Z -> Z -> Game.TileRandom) (w : list (list Tile))
       (h : list TreeTile.Tree) : Prop := mkGridOk {
  go_rows : Forall (fun col => length col = Z.to_nat WORLD_SIZE) w;
  go_tiles : forall (x : nat) col, w !! x = Some col ->
             columnOk h (Z.of_nat x) col /\ columnGen rnd (Z.of_nat x) col;
  go_fresh : freshHeap h;
  go_trees : treesOfWorld w = seq 0 (length h)
}.

(** ** Pointer gestures *)

(** No pointer position of [l] lies more than the click threshold, on
    either axis, from the position before it; [p] is the position of the
    press. *)
Fixpoint smallSteps (p : Q * Q) (l : list (Q * Q)) : Prop :=
  match l with
  | [] => True
  | q :: l' =>
      ((Math_abs (q.1 - p.1) <= CLICK_DRAG_THRESHOLD)%Q /\
       (Math_abs (q.2 - p.2) <= CLICK_DRAG_THRESHOLD)%Q) /\
      smallSteps q l'
  end.

(** ** Felled trees *)

(** Frame time after which a felled tree tile is destroyed: 400 ms for each
    radian still to fall (the angle grows by 2.5 a second) and 500 ms for
    each unit of opacity (it shrinks by 2 a second), with frames to spare:
    the frame that overshoots the clamp at pi/2, and in each of the two
    phases one frame more, so that the bound does not hang on a sum of
    steps meeting pi/2 or 0 to the last digit. *)
Definition fadeBudget (t : TreeTile.Tree) : Q :=
  match TreeTile.state t with
  | falling =>
      ((Math_PI / 2 - TreeTile.fallAngle t) * 400
       + TreeTile.opacity t * 500 + 150)%Q
  | _ => (TreeTile.opacity t * 500 + 50)%Q
  end.

End Modular.

(** * A session of the modular game *)

Module ModularDemo.
Import Modular.

(** The game [init] builds from the forest draws when the spawn draw picks
    the perimeter tile (1, 0), at time 1000. *)
Definition grove : GameState :=
  let '(w, h) := generateWorld Demo.forestDraws in
  mkGameState w h (seq 0 (length h)) (createPlayer 1 0)
              Game.createInputHandler createOrbitState (-1) (-1) 1000
              false 0.

(** [n] frames, 50 ms apart, after time [t]. *)
Fixpoint groveFrames (t : Q) (n : nat) : list Event :=
  match n with
  | O => []
  | S n' => Frame (t + 50) (t + 50) :: groveFrames (t + 50) n'
  end.

(** The state after [evs], or [g] itself if the run faults. *)
Definition groveAfter (g : GameState) (evs : list Event) : GameState :=
  default g (run (H := fixedPointMath) g evs).

(** The key towards the tree below the spawn tile is held and the player
    has begun to turn to it. *)
Definition groveTurning : GameState :=
  groveAfter grove [Key Game.ArrowDown true; Frame 1050 1050].
(** Two frames later the turn is over. *)
Definition groveFacing : GameState := groveAfter groveTurning (groveFrames 1050 2).
(** The first chop lands on the frame at 1200, the third on the one at
    1800. *)
Definition groveChopped : GameState := groveAfter groveFacing (groveFrames 1150 1).
Definition groveFelled : GameState := groveAfter groveChopped (groveFrames 1200 12).
(** The tree below the spawn tile, standing and felled. *)
Definition groveTree : TreeTile.Tree := TreeTile.createTree 1 1 0.5 0.5.
Definition groveNotched : TreeTile.Tree :=
  default groveTree (heap groveChopped !! 0%nat).
Definition groveStump : TreeTile.Tree :=
  default groveTree (heap groveFelled !! 0%nat).
(** The pointer rests on the corner tile, next to the spawn tile. *)
Definition groveHover : GameState :=
  groveAfter grove [MouseMove 0 0 (0.5%Q, 0.5%Q)].
Definition groveClicked : GameState :=
  default groveHover (initiateActionAtHoveredTile (H := fixedPointMath) groveHover 0).
(** Both keys of a diagonal held at the spawn tile: down and left. *)
Definition groveDiagonal : GameState :=
  groveAfter grove [Key Game.ArrowDown true; Key Game.ArrowLeft true].
(** Twenty-five frames of 50 ms. *)
Definition groveWait : list (Q * Q) := replicate 25 (50%Q, 0%Q).
(** A drag of nine pixels in three moves over the corner tile. *)
Definition groveDrag : list (Q * Q * (Q * Q)) :=
  [((3%Q, 0%Q), (0.5%Q, 0.5%Q)); ((6%Q, 0%Q), (0.5%Q, 0.5%Q));
   ((9%Q, 0%Q), (0.5%Q, 0.5%Q))].

End ModularDemo.

(** ** Walking *)

(** What [Math.sqrt] is assumed to be for the walk to end: it returns no
    negative number and overshoots the root by no more than a millionth. *)
Definition sqrtClose (M : JsMath) : Prop :=
  forall x : Q,
    (0 <= x)%Q ->
    (0 <= Math_sqrt x)%Q /\
    ((1 # 1000000 < Math_sqrt x)%Q ->
     ((Math_sqrt x - (1 # 1000000)) * (Math_sqrt x - (1 # 1000000)) <= x)%Q).

(** The way left from [(x, y)] to [(tx, ty)], along the axes. *)
Definition walkLeft (x y tx ty : Q) : Q := (Qabs (tx - x) + Qabs (ty - y))%Q.

(** The way a walk covers for certain in frames of [deltaTimes]
    milliseconds, at [speed] tiles a second. *)
Definition walkCovered (speed : Q) (deltaTimes : list Q) : Q :=
  (0.9999 * (speed * (Game.totalTime deltaTimes / 1000)))%Q.

(** * Walks of the two sessions *)

Module WalkDemo.

(** The player of the forest has set out for the tile east of the spawn
    tile. *)
Definition strolling : Game.Game :=
  Demo.after Demo.forest (Game.Key Game.ArrowRight true :: Demo.frames 1000 1).
(** The player of the grove has clicked the corner tile, turned to it and
    set out. *)
Definition groveWalking : Modular.GameState :=
  ModularDemo.groveAfter ModularDemo.groveHover
    ([Modular.MouseDown 0 0; Modular.MouseUp 1000] ++
     ModularDemo.groveFrames 1000 3).
(** Five frames of 50 ms. *)
Definition stroll : list Q := replicate 5 50%Q.
Definition groveStroll : list (Q * Q) := replicate 5 (50%Q, 0%Q).

End WalkDemo.

(** * Properties of src/game.ts *)

Module GameFacts.
Import Game.

(** ** Arithmetic and array reads *)

Lemma Qlt_bool_iff (x y : Q) : Qlt_bool x y = true <-> (x < y)%Q.
Proof.
  unfold Qlt_bool. rewrite negb_true_iff.
  destruct (Qle_bool y x) eqn:E.
  - apply Qle_bool_iff in E. split; [discriminate | intros L; lra].
  - split; [intros _ | reflexivity].
    destruct (Qlt_le_dec x y) as [L | L]; [exact L |].
    apply Qle_bool_iff in L. congruence.
Qed.

Lemma Qlt_bool_false (x y : Q) : Qlt_bool x y = false <-> (y <= x)%Q.
Proof.
  unfold Qlt_bool. rewrite negb_false_iff. apply Qle_bool_iff.
Qed.

Lemma Qle_bool_false (x y : Q) : Qle_bool x y = false <-> (y < x)%Q.
Proof.
  rewrite <- Qlt_bool_iff. unfold Qlt_bool.
  destruct (Qle_bool x y); simpl; split; congruence.
Qed.

Lemma Math_floor_inject (z : Z) : Math_floor (inject_Z z) = z.
Proof. apply Qfloor_Z. Qed.


Lemma readIndex_Some {A} (l : list A) (i : Z) (a : A) :
  readIndex l i = Some a <-> 0 <= i /\ l !! Z.to_nat i = Some a.
Proof.
  unfold readIndex. destruct (Z.ltb_spec i 0); split.
  - discriminate.
  - intros [? _]. lia.
  - auto.
  - intros [_ ?]. assumption.
Qed.

Lemma readIndex_nat {A} (l : list A) (n : nat) :
  readIndex l (Z.of_nat n) = l !! n.
Proof.
  unfold readIndex. destruct (Z.ltb_spec (Z.of_nat n) 0); [lia |].
  by rewrite Nat2Z.id.
Qed.

Lemma getTile_Some (w : list (list Tile)) (x y : Z) (t : Tile) :
  getTile w x y = Some t <->
  0 <= x /\ 0 <= y /\
  exists col, w !! Z.to_nat x = Some col /\ col !! Z.to_nat y = Some t.
Proof.
  unfold getTile. split.
  - intros E. apply bind_Some in E as (col & Ec & Et).
    apply readIndex_Some in Ec as [? ?]. apply readIndex_Some in Et as [? ?].
    eauto.
  - intros (Hx & Hy & col & Ec & Et). apply bind_Some. exists col.
    split; apply readIndex_Some; auto.
Qed.

Lemma getTile_bounds (w : list (list Tile)) (x y : Z) (t : Tile) :
  squareWorld w -> getTile w x y = Some t ->
  0 <= x < WORLD_SIZE /\ 0 <= y < WORLD_SIZE.
Proof.
  intros [Hl Hc] E. apply getTile_Some in E as (Hx & Hy & col & Ec & Et).
  pose proof (lookup_lt_Some _ _ _ Ec) as Lx.
  pose proof (lookup_lt_Some _ _ _ Et) as Ly.
  rewrite Forall_forall in Hc.
  rewrite (Hc col) in Ly by (eapply list_elem_of_lookup_2; eauto).
  rewrite Hl in Lx. unfold WORLD_SIZE in *. lia.
Qed.

Lemma getTile_inside (w : list (list Tile)) (x y : Z) :
  squareWorld w -> 0 <= x < WORLD_SIZE -> 0 <= y < WORLD_SIZE ->
  exists t, getTile w x y = Some t.
Proof.
  intros [Hl Hc] Hx Hy.
  destruct (lookup_lt_is_Some_2 w (Z.to_nat x)) as [col Ec].
  { rewrite Hl. unfold WORLD_SIZE in *. lia. }
  rewrite Forall_forall in Hc.
  destruct (lookup_lt_is_Some_2 col (Z.to_nat y)) as [t Et].
  { rewrite (Hc col) by (eapply list_elem_of_lookup_2; eauto).
    unfold WORLD_SIZE in *. lia. }
  exists t. apply getTile_Some. split; [lia |]. split; [lia |]. eauto.
Qed.

Lemma outOfBounds_square (w : list (list Tile)) (x y : Z) :
  squareWorld w ->
  outOfBounds w x y = false <-> 0 <= x < WORLD_SIZE /\ 0 <= y < WORLD_SIZE.
Proof.
  intros [Hl Hc]. unfold outOfBounds.
  assert (length (default [] (w !! 0%nat)) = Z.to_nat WORLD_SIZE) as ->.
  { destruct w as [| col w']; [discriminate |]. simpl.
    by inversion Hc. }
  rewrite Hl, !Z.geb_leb. unfold WORLD_SIZE.
  change (Z.of_nat (Z.to_nat 20)) with 20.
  rewrite !orb_false_iff, !Z.ltb_ge, !Z.leb_gt. lia.
Qed.

Lemma is_water_true (t : Tile) : is_water t = true <-> tile_type t = water.
Proof. unfold is_water. destruct (tile_type t); split; congruence. Qed.

Lemma is_water_false (t : Tile) : is_water t = false <-> tile_type t <> water.
Proof. unfold is_water. destruct (tile_type t); split; congruence. Qed.

(** ** The walkability rule *)

(** [isWalkable] unfolded on a tile that exists. *)
Lemma isWalkable_at (g : Game) (x y : Q) (tile : Tile) :
  squareWorld (world g) ->
  getTile (world g) (Math_floor x) (Math_floor y) = Some tile ->
  isWalkable g x y =
  if is_water tile then Some false else
  match decoration tile with
  | None => Some true
  | Some r =>
      d ← heap g !! r;
      match deco_type d with
      | rock => Some false
      | tree => Some (healthOr100 d <=? 0)
      | flower => Some true
      end
  end.
Proof.
  intros Hsq Et. unfold isWalkable.
  pose proof (getTile_bounds _ _ _ _ Hsq Et) as Hb.
  apply (outOfBounds_square _ _ _ Hsq) in Hb. rewrite Hb, Et. reflexivity.
Qed.

(** C1.  On the N x N grid, [isWalkable (x, y)] follows the ordered rule:
    outside the grid it is false; on a water tile it is false; on a tile
    without decoration it is true; on a rock it is false; on a tree it is
    true exactly when the tree's health is at most 0; otherwise (a flower)
    it is true. *)
Theorem isWalkable_rule (g : Game) (x y : Q) :
  squareWorld (world g) ->
  let tileX := Math_floor x in
  let tileY := Math_floor y in
  (~ (0 <= tileX < WORLD_SIZE /\ 0 <= tileY < WORLD_SIZE) ->
   isWalkable g x y = Some false) /\
  (0 <= tileX < WORLD_SIZE /\ 0 <= tileY < WORLD_SIZE ->
   exists tile,
     getTile (world g) tileX tileY = Some tile /\
     (tile_type tile = water -> isWalkable g x y = Some false) /\
     (tile_type tile <> water -> decoration tile = None ->
      isWalkable g x y = Some true) /\
     (forall r d,
        tile_type tile <> water -> decoration tile = Some r ->
        heap g !! r = Some d ->
        match deco_type d with
        | rock => isWalkable g x y = Some false
        | tree =>
            exists b, isWalkable g x y = Some b /\
                      (b = true <-> healthOr100 d <= 0)
        | flower => isWalkable g x y = Some true
        end)).
Proof.
  intros Hsq tileX tileY. split.
  - intros Hout. unfold isWalkable. fold tileX tileY.
    destruct (outOfBounds (world g) tileX tileY) eqn:E; [reflexivity |].
    apply (outOfBounds_square _ _ _ Hsq) in E. contradiction.
  - intros [Hx Hy].
    destruct (getTile_inside _ _ _ Hsq Hx Hy) as [tile Et].
    exists tile. split; [exact Et |].
    rewrite (isWalkable_at g x y tile Hsq Et).
    split; [| split].
    + intros W. apply is_water_true in W. by rewrite W.
    + intros W D. apply is_water_false in W. by rewrite W, D.
    + intros r d W D Hd. apply is_water_false in W. rewrite W, D, Hd. simpl.
      destruct (deco_type d); try reflexivity.
      eexists. split; [reflexivity |].
      apply Z.leb_le.
Qed.

(** ** The clearing pass *)

Lemma getTile_nat (w : list (list Tile)) (x y : nat) :
  getTile w (Z.of_nat x) (Z.of_nat y) = (col ← w !! x; col !! y).
Proof.
  unfold getTile. rewrite readIndex_nat.
  destruct (w !! x) as [col |]; simpl; [apply readIndex_nat | reflexivity].
Qed.

Lemma clearFirst_length (tree : ref) (col : list Tile) :
  length (clearFirst tree col) = length col.
Proof.
  induction col as [| t col IH]; simpl; [reflexivity |].
  destruct (decide (decoration t = Some tree)); simpl; congruence.
Qed.

Lemma clearTile_column (w : list (list Tile)) (x y : nat) (col : list Tile) :
  w !! x = Some col ->
  clearTile w x y = <[x := alter (fun t => set_decoration t None) y col]> w.
Proof.
  intros Ec. unfold clearTile. apply list_eq. intros i.
  destruct (decide (i = x)) as [-> | Hne].
  - rewrite list_lookup_alter_eq, Ec. simpl.
    rewrite list_lookup_insert_eq by (eapply lookup_lt_Some; eauto). reflexivity.
  - rewrite list_lookup_alter_ne, list_lookup_insert_ne by auto. reflexivity.
Qed.

Lemma clearFirst_split (tree : ref) (col : list Tile) (y : nat) (t : Tile) :
  col !! y = Some t ->
  take y col ++ clearFirst tree (drop y col) =
  if decide (decoration t = Some tree)
  then take y col ++ set_decoration t None :: drop (S y) col
  else take (S y) col ++ clearFirst tree (drop (S y) col).
Proof.
  intros Et. rewrite (drop_S _ _ _ Et). simpl.
  destruct (decide (decoration t = Some tree)); [reflexivity |].
  rewrite (take_S_r _ _ _ Et), <- app_assoc. reflexivity.
Qed.

Lemma clearColumn_eq (tree : ref) (w : list (list Tile)) (x : nat)
      (col : list Tile) (n y : nat) :
  w !! x = Some col -> (y + n = length col)%nat ->
  clearColumn n x y tree w =
  Some (<[x := take y col ++ clearFirst tree (drop y col)]> w).
Proof.
  intros Ec. revert y. induction n as [| n IH]; intros y Hlen; simpl.
  - rewrite drop_ge, app_nil_r, take_ge by lia.
    by rewrite list_insert_id.
  - destruct (lookup_lt_is_Some_2 col y) as [t Et]; [lia |].
    rewrite getTile_nat, Ec. simpl. rewrite Et. simpl.
    rewrite (clearFirst_split _ _ _ _ Et).
    destruct (decide (decoration t = Some tree)).
    + rewrite (clearTile_column _ _ _ _ Ec). f_equal. f_equal.
      apply list_eq. intros i.
      destruct (decide (i = y)) as [-> | Hne].
      * rewrite list_lookup_alter_eq, Et. simpl.
        rewrite lookup_app_r by (rewrite length_take; lia).
        rewrite length_take.
        replace (y - y `min` length col)%nat with 0%nat by lia. reflexivity.
      * rewrite list_lookup_alter_ne by congruence.
        destruct (decide (i < y)%nat).
        -- rewrite lookup_app_l by (rewrite length_take; lia).
           by rewrite lookup_take_lt.
        -- rewrite lookup_app_r by (rewrite length_take; lia).
           rewrite length_take.
           replace (i - y `min` length col)%nat with (S (i - S y)) by lia.
           simpl. rewrite lookup_drop. f_equal. lia.
    + apply IH. lia.
Qed.

Lemma clearColumns_eq (tree : ref) (n : nat) :
  forall (w : list (list Tile)) (x : nat),
    squareWorld w -> (x + n = length w)%nat ->
    clearColumns n x tree w =
    Some (take x w ++ map (clearFirst tree) (drop x w)).
Proof.
  induction n as [| n IH]; intros w x Hsq Hlen; cbn [clearColumns].
  - rewrite drop_ge, app_nil_r, take_ge by lia. reflexivity.
  - destruct (lookup_lt_is_Some_2 w x) as [col Ec]; [lia |].
    destruct Hsq as [Hl Hc].
    assert (length col = 20%nat) as Lc.
    { rewrite Forall_forall in Hc. apply Hc. eapply list_elem_of_lookup_2; eauto. }
    rewrite (clearColumn_eq tree w x col _ 0 Ec) by (rewrite Lc; reflexivity).
    rewrite take_0, drop_0, app_nil_l. cbn [mbind option_bind].
    rewrite IH.
    + f_equal. rewrite (drop_S _ _ _ Ec). simpl.
      rewrite (take_S_r _ x (clearFirst tree col))
        by (apply list_lookup_insert_eq; lia).
      rewrite take_insert_ge by lia.
      rewrite drop_insert_lt by lia.
      rewrite <- app_assoc. reflexivity.
    + split.
      * rewrite length_insert. exact Hl.
      * apply Forall_insert; [exact Hc |].
        cbv beta. rewrite clearFirst_length. exact Lc.
    + rewrite length_insert. lia.
Qed.

(** On a square world the two loops clear the first holder of every column. *)
Lemma clearDecoration_eq (tree : ref) (w : list (list Tile)) :
  squareWorld w -> clearDecoration tree w = Some (map (clearFirst tree) w).
Proof.
  intros Hsq. unfold clearDecoration.
  rewrite clearColumns_eq; [reflexivity | exact Hsq |].
  destruct Hsq as [Hl _]. rewrite Hl. reflexivity.
Qed.

Lemma clearFirst_lookup (tree : ref) (col : list Tile) :
  forall (y : nat) (t : Tile),
    col !! y = Some t ->
    exists t',
      clearFirst tree col !! y = Some t' /\
      (t' = t \/ (decoration t = Some tree /\ t' = set_decoration t None)) /\
      (decoration t' = Some tree ->
       exists y0 t0, (y0 < y)%nat /\ col !! y0 = Some t0 /\
                     decoration t0 = Some tree).
Proof.
  induction col as [| c col IH]; intros y t Et; [discriminate |].
  simpl. destruct (decide (decoration c = Some tree)) as [Hc | Hc].
  - destruct y as [| y]; simpl in *.
    + injection Et as <-. eexists. split; [reflexivity |]. split; [auto |].
      simpl. discriminate.
    + exists t. split; [exact Et |]. split; [auto |].
      intros _. exists 0%nat, c. split; [lia | auto].
  - destruct y as [| y]; simpl in *.
    + injection Et as <-. exists c. split; [reflexivity |]. split; [auto |].
      intros D. contradiction.
    + destruct (IH y t Et) as (t' & E' & Hrel & Hfirst).
      exists t'. split; [exact E' |]. split; [exact Hrel |].
      intros D. destruct (Hfirst D) as (y0 & t0 & Hlt & E0 & D0).
      exists (S y0), t0. split; [lia | auto].
Qed.

Lemma cleared_getTile (tree : ref) (w : list (list Tile)) (x y : Z) (t : Tile) :
  getTile w x y = Some t ->
  exists t',
    getTile (map (clearFirst tree) w) x y = Some t' /\
    (t' = t \/ (decoration t = Some tree /\ t' = set_decoration t None)) /\
    (decoration t' = Some tree ->
     exists y0 t0, y0 <> y /\ getTile w x y0 = Some t0 /\
                   decoration t0 = Some tree).
Proof.
  intros Et. apply getTile_Some in Et as (Hx & Hy & col & Ec & Et).
  destruct (clearFirst_lookup tree col _ _ Et) as (t' & E' & Hrel & Hfirst).
  exists t'. split; [| split; [exact Hrel |]].
  - apply getTile_Some. split; [exact Hx |]. split; [exact Hy |].
    exists (clearFirst tree col). split; [| exact E'].
    change (map (clearFirst tree) w) with (clearFirst tree <$> w).
    rewrite list_lookup_fmap, Ec. reflexivity.
  - intros D. destruct (Hfirst D) as (y0 & t0 & Hlt & E0 & D0).
    exists (Z.of_nat y0), t0. split; [lia |]. split; [| exact D0].
    apply getTile_Some. split; [exact Hx |]. split; [lia |].
    exists col. rewrite Nat2Z.id. auto.
Qed.

Lemma cleared_getTile_inv (tree : ref) (w : list (list Tile)) (x y : Z)
      (t' : Tile) :
  getTile (map (clearFirst tree) w) x y = Some t' ->
  exists t, getTile w x y = Some t.
Proof.
  intros Et. apply getTile_Some in Et as (Hx & Hy & col' & Ec & Et).
  change (map (clearFirst tree) w) with (clearFirst tree <$> w) in Ec.
  apply list_lookup_fmap_Some in Ec as (col & -> & Ec).
  destruct (lookup_lt_is_Some_2 col (Z.to_nat y)) as [t E].
  { rewrite <- (clearFirst_length tree). eapply lookup_lt_Some; eauto. }
  exists t. apply getTile_Some. eauto.
Qed.

Lemma cleared_square (tree : ref) (w : list (list Tile)) :
  squareWorld w -> squareWorld (map (clearFirst tree) w).
Proof.
  intros [Hl Hc]. split.
  - rewrite length_map. exact Hl.
  - apply Forall_map. eapply Forall_impl; [exact Hc |].
    intros col Lc. simpl. rewrite clearFirst_length. exact Lc.
Qed.

(** Clearing only ever takes references off the grid. *)
Lemma cleared_holds (tree : ref) (w : list (list Tile)) (x y : Z) (r : ref) :
  holds (map (clearFirst tree) w) x y r -> holds w x y r.
Proof.
  intros (t' & Et' & D').
  destruct (cleared_getTile_inv _ _ _ _ _ Et') as [t Et].
  destruct (cleared_getTile tree _ _ _ _ Et) as (t2 & E2 & Hrel & _).
  rewrite Et' in E2. injection E2 as <-.
  exists t. split; [exact Et |].
  destruct Hrel as [-> | [_ ->]]; [exact D' | discriminate].
Qed.

Lemma cleared_holds_other (tree : ref) (w : list (list Tile)) (x y : Z)
      (r : ref) :
  holds w x y r -> r <> tree -> holds (map (clearFirst tree) w) x y r.
Proof.
  intros (t & Et & D) Hne.
  destruct (cleared_getTile tree _ _ _ _ Et) as (t' & E' & Hrel & _).
  exists t'. split; [exact E' |].
  destruct Hrel as [-> | [D' _]]; [exact D | congruence].
Qed.

(** When [tree] sits on one tile at most, no tile holds it afterwards. *)
Lemma cleared_gone (tree : ref) (w : list (list Tile)) :
  (forall x y x' y', holds w x y tree -> holds w x' y' tree ->
                     x = x' /\ y = y') ->
  forall x y, ~ holds (map (clearFirst tree) w) x y tree.
Proof.
  intros Huniq x y (t' & Et' & D').
  destruct (cleared_getTile_inv _ _ _ _ _ Et') as [t Et].
  destruct (cleared_getTile tree _ _ _ _ Et) as (t2 & E2 & Hrel & Hfirst).
  rewrite Et' in E2. injection E2 as <-.
  destruct (Hfirst D') as (y0 & t0 & Hne & E0 & D0).
  destruct Hrel as [-> | [_ ->]]; [| discriminate].
  destruct (Huniq x y x y0) as [_ Heq].
  - exists t. auto.
  - exists t0. auto.
  - congruence.
Qed.

Lemma cleared_kept (tree : ref) (w : list (list Tile)) (x y : Z) (t : Tile) :
  getTile w x y = Some t ->
  exists t', getTile (map (clearFirst tree) w) x y = Some t' /\ tileKept t t'.
Proof.
  intros Et.
  destruct (cleared_getTile tree _ _ _ _ Et) as (t' & E' & Hrel & _).
  exists t'. split; [exact E' |].
  destruct Hrel as [-> | [_ ->]]; unfold tileKept; simpl; auto.
Qed.

(** ** World generation *)

Lemma getTile_snoc_nil (w : list (list Tile)) (x y : Z) :
  getTile (w ++ [[]]) x y = getTile w x y.
Proof.
  destruct (getTile (w ++ [[]]) x y) as [t |] eqn:E.
  - apply getTile_Some in E as (Hx & Hy & col & Ec & Et).
    apply lookup_app_Some in Ec as [Ec | [_ Ec]].
    + symmetry. apply getTile_Some. eauto.
    + destruct (Z.to_nat x - length w)%nat; simpl in Ec; [| discriminate].
      injection Ec as <-. discriminate.
  - destruct (getTile w x y) as [t |] eqn:E'; [| reflexivity].
    apply getTile_Some in E' as (Hx & Hy & col & Ec & Et).
    rewrite <- E. apply getTile_Some.
    split; [exact Hx |]. split; [exact Hy |]. exists col.
    split; [by apply lookup_app_l_Some | exact Et].
Qed.

Lemma getTile_snoc (w : list (list Tile)) (col : list Tile) (t t0 : Tile)
      (x y : Z) :
  getTile (w ++ [col ++ [t]]) x y = Some t0 <->
  getTile (w ++ [col]) x y = Some t0 \/
  (x = Z.of_nat (length w) /\ y = Z.of_nat (length col) /\ t0 = t).
Proof.
  rewrite !getTile_Some. split.
  - intros (Hx & Hy & c & Ec & Et).
    apply lookup_app_Some in Ec as [Ec | [Hge Ec]].
    + left. split; [exact Hx |]. split; [exact Hy |]. exists c.
      split; [by apply lookup_app_l_Some | exact Et].
    + destruct (Z.to_nat x - length w)%nat eqn:Hk; simpl in Ec; [| discriminate].
      injection Ec as <-.
      apply lookup_app_Some in Et as [Et | [Hge' Et]].
      * left. split; [exact Hx |]. split; [exact Hy |]. exists col.
        split; [| exact Et].
        rewrite lookup_app_r by lia. by rewrite Hk.
      * destruct (Z.to_nat y - length col)%nat eqn:Hk'; simpl in Et;
          [| discriminate].
        injection Et as <-. right. split; [lia |]. split; [lia | reflexivity].
  - intros [(Hx & Hy & c & Ec & Et) | (-> & -> & ->)].
    + split; [exact Hx |]. split; [exact Hy |].
      apply lookup_app_Some in Ec as [Ec | [Hge Ec]].
      * exists c. split; [by apply lookup_app_l_Some | exact Et].
      * destruct (Z.to_nat x - length w)%nat eqn:Hk; simpl in Ec;
          [| discriminate].
        injection Ec as <-. exists (col ++ [t]). split.
        -- rewrite lookup_app_r by lia. by rewrite Hk.
        -- by apply lookup_app_l_Some.
    + split; [lia |]. split; [lia |]. exists (col ++ [t]).
      rewrite !Nat2Z.id. split.
      * rewrite lookup_app_r by lia. by rewrite Nat.sub_diag.
      * rewrite lookup_app_r by lia. by rewrite Nat.sub_diag.
Qed.

Lemma newTree_ok (v : Z) (ox oy : Q) : treeOk (newTree v ox oy).
Proof. intros _. exists 100. simpl. auto. Qed.

(** What [createTile] allocates. *)
Lemma createTile_alloc (x y : Z) (rnd : TileRandom) (h : list Decoration)
      (sc : list ref) :
  (decoration (createTile x y rnd h sc).1.1 = None /\
   (createTile x y rnd h sc).1.2 = h /\
   (createTile x y rnd h sc).2 = sc) \/
  (exists d,
     decoration (createTile x y rnd h sc).1.1 = Some (length h) /\
     (createTile x y rnd h sc).1.2 = h ++ [d] /\
     (createTile x y rnd h sc).2 = sc ++ [length h] /\ treeOk d).
Proof.
  unfold createTile.
  destruct (is_grass _ && _); [| left; auto].
  destruct (Qlt_bool (rnd_deco rnd) double_0_30).
  { right. eexists. simpl. split_and!; try reflexivity. apply newTree_ok. }
  destruct (Qlt_bool (rnd_deco rnd) double_0_35).
  { right. eexists. simpl. split_and!; try reflexivity. intros ?; discriminate. }
  destruct (Qlt_bool (rnd_deco rnd) double_0_45).
  { right. eexists. simpl. split_and!; try reflexivity. intros ?; discriminate. }
  left. auto.
Qed.

Lemma genInv_snoc_nil rnd (w : list (list Tile)) (h : list Decoration)
      (sc : list ref) :
  genInv rnd w h sc <-> genInv rnd (w ++ [[]]) h sc.
Proof.
  unfold genInv, holds. setoid_rewrite getTile_snoc_nil. reflexivity.
Qed.

Lemma genInv_tile rnd (w : list (list Tile)) (col : list Tile)
      (h : list Decoration) (sc : list ref) :
  genInv rnd (w ++ [col]) h sc ->
  let x := Z.of_nat (length w) in
  let y := Z.of_nat (length col) in
  let res := createTile x y (rnd x y) h sc in
  genInv rnd (w ++ [col ++ [res.1.1]]) res.1.2 res.2.
Proof.
  intros (G1 & G2 & G3 & G4) x y res.
  assert (forall x0 y0 r,
             holds (w ++ [col ++ [res.1.1]]) x0 y0 r ->
             holds (w ++ [col]) x0 y0 r \/
             (x0 = x /\ y0 = y /\ decoration res.1.1 = Some r)) as Hsplit.
  { intros x0 y0 r (t & Et & D). apply getTile_snoc in Et as [Et | (-> & -> & ->)].
    - left. exists t. auto.
    - right. auto. }
  destruct (createTile_alloc x y (rnd x y) h sc)
    as [(D & Eh & Es) | (d & D & Eh & Es & Hok)]; fold res in D, Eh, Es;
    rewrite Eh, Es; (split; [| split; [| split]]).
  - exact G1.
  - intros x0 y0 r Hr. destruct (Hsplit _ _ _ Hr) as [Hr' | (_ & _ & D')];
      [eauto | congruence].
  - intros x0 y0 x1 y1 r Hr Hr'.
    destruct (Hsplit _ _ _ Hr) as [Hr0 | (_ & _ & D0)]; [| congruence].
    destruct (Hsplit _ _ _ Hr') as [Hr1 | (_ & _ & D1)]; [| congruence].
    eauto.
  - intros x0 y0 t Et. apply getTile_snoc in Et as [Et | (-> & -> & ->)];
      [eauto |]. by exists h, sc.
  - apply Forall_app. split; [exact G1 |]. by apply Forall_singleton.
  - intros x0 y0 r Hr. rewrite length_app, elem_of_app. simpl.
    destruct (Hsplit _ _ _ Hr) as [Hr' | (_ & _ & D')].
    + destruct (G2 _ _ _ Hr'). split; [lia | auto].
    + rewrite D in D'. injection D' as <-. split; [lia |].
      right. apply list_elem_of_singleton. reflexivity.
  - intros x0 y0 x1 y1 r Hr Hr'.
    destruct (Hsplit _ _ _ Hr) as [Hr0 | (-> & -> & D0)];
      destruct (Hsplit _ _ _ Hr') as [Hr1 | (-> & -> & D1)].
    + eauto.
    + rewrite D in D1. injection D1 as <-.
      destruct (G2 _ _ _ Hr0). lia.
    + rewrite D in D0. injection D0 as <-.
      destruct (G2 _ _ _ Hr1). lia.
    + auto.
  - intros x0 y0 t Et. apply getTile_snoc in Et as [Et | (-> & -> & ->)];
      [eauto |]. by exists h, sc.
Qed.

Lemma generateColumn_inv rnd (w : list (list Tile)) (n : nat) :
  forall (y : Z) (col : list Tile) (h : list Decoration) (sc : list ref),
    genInv rnd (w ++ [col]) h sc -> y = Z.of_nat (length col) ->
    genInv rnd
           (w ++ [(generateColumn n (Z.of_nat (length w)) y rnd col h sc).1.1])
           (generateColumn n (Z.of_nat (length w)) y rnd col h sc).1.2
           (generateColumn n (Z.of_nat (length w)) y rnd col h sc).2 /\
    length (generateColumn n (Z.of_nat (length w)) y rnd col h sc).1.1
    = (length col + n)%nat.
Proof.
  induction n as [| n IH]; intros y col h sc Hgen ->; simpl.
  - split; [exact Hgen | lia].
  - pose proof (genInv_tile rnd w col h sc Hgen) as Hstep. simpl in Hstep.
    destruct (createTile _ _ _ h sc) as [[t h'] sc'] eqn:Ec. simpl in Hstep.
    destruct (IH (Z.of_nat (length col) + 1) (col ++ [t]) h' sc' Hstep)
      as [Hgen' Hlen].
    { rewrite length_app. simpl. lia. }
    split; [exact Hgen' |]. rewrite Hlen, length_app. simpl. lia.
Qed.

Lemma generateColumns_inv rnd (n : nat) :
  forall (x : Z) (w : list (list Tile)) (h : list Decoration) (sc : list ref),
    genInv rnd w h sc -> x = Z.of_nat (length w) ->
    Forall (fun col => length col = Z.to_nat WORLD_SIZE) w ->
    genInv rnd (generateColumns n x rnd w h sc).1.1
           (generateColumns n x rnd w h sc).1.2
           (generateColumns n x rnd w h sc).2 /\
    Forall (fun col => length col = Z.to_nat WORLD_SIZE)
           (generateColumns n x rnd w h sc).1.1 /\
    length (generateColumns n x rnd w h sc).1.1 = (length w + n)%nat.
Proof.
  induction n as [| n IH]; intros x w h sc Hgen -> Hsq; cbn [generateColumns].
  - split; [exact Hgen |]. split; [exact Hsq | simpl; lia].
  - apply genInv_snoc_nil in Hgen.
    destruct (generateColumn_inv rnd w (Z.to_nat WORLD_SIZE) 0 [] h sc Hgen)
      as [Hgen' Hlen]; [reflexivity |].
    destruct (generateColumn _ _ 0 rnd [] h sc) as [[col h'] sc'] eqn:Ec.
    simpl in Hgen', Hlen.
    destruct (IH (Z.of_nat (length w) + 1) (w ++ [col]) h' sc' Hgen')
      as (Hgen2 & Hsq2 & Hlen2).
    { rewrite length_app. simpl. lia. }
    { apply Forall_app. split; [exact Hsq |]. by apply Forall_singleton. }
    split; [exact Hgen2 |]. split; [exact Hsq2 |].
    rewrite Hlen2, length_app. simpl. lia.
Qed.

Lemma generateWorld_inv rnd :
  genInv rnd (generateWorld rnd).1.1 (generateWorld rnd).1.2
         (generateWorld rnd).2 /\
  squareWorld (generateWorld rnd).1.1.
Proof.
  unfold generateWorld.
  destruct (generateColumns_inv rnd (Z.to_nat WORLD_SIZE) 0 [] [] [])
    as (Hgen & Hsq & Hlen).
  - unfold genInv, holds. split; [constructor |].
    split_and!; intros *; try (intros (t & Et & _)); try intros Et;
      apply getTile_Some in Et as (_ & _ & col & Ec & _); discriminate.
  - reflexivity.
  - constructor.
  - split; [exact Hgen |]. split; [exact Hlen | exact Hsq].
Qed.

(** ** Spawn candidates *)

Lemma spawnCandidate_total (h : list Decoration) (t : Tile) :
  (forall r, decoration t = Some r -> (r < length h)%nat) ->
  is_Some (spawnCandidate h t).
Proof.
  intros Hr. unfold spawnCandidate.
  destruct (is_water t); [by eexists |].
  destruct (decoration t) as [r |]; [| by eexists].
  destruct (lookup_lt_is_Some_2 h r) as [d ->]; [by apply Hr |].
  by eexists.
Qed.

Lemma validInColumn_spec (w : list (list Tile)) (h : list Decoration)
      (x : Z) (n : nat) :
  squareWorld w ->
  (forall x y r, holds w x y r -> (r < length h)%nat) ->
  0 <= x < WORLD_SIZE ->
  forall (y : Z) (acc : list (Z * Z)),
    0 <= y -> y + Z.of_nat n = WORLD_SIZE ->
    exists l,
      validInColumn n x y w h acc = Some (acc ++ l) /\
      forall p, p ∈ l <->
                (p.1 = x /\ y <= p.2 < WORLD_SIZE /\ candidateAt w h p).
Proof.
  intros Hsq Hrefs Hx. induction n as [| n IH]; intros y acc Hy Hn; simpl.
  - exists []. rewrite app_nil_r. split; [reflexivity |].
    intros p. split; [intros Hin; by apply elem_of_nil in Hin |].
    intros (_ & Hr & _). lia.
  - destruct (getTile_inside w x y Hsq Hx) as [t Et]; [lia |].
    rewrite Et. cbn [mbind option_bind].
    destruct (spawnCandidate_total h t) as [ok Hok].
    { intros r D. eapply Hrefs. exists t. eauto. }
    rewrite Hok. cbn [mbind option_bind].
    destruct (IH (y + 1) (if ok then acc ++ [(x, y)] else acc))
      as (l & El & Hl); [lia | lia |].
    rewrite El. destruct ok.
    + exists ((x, y) :: l). split; [by rewrite <- app_assoc |].
      intros p. rewrite elem_of_cons, Hl. split.
      * intros [-> | (Hp1 & Hp2 & Hc)]; simpl.
        -- split; [reflexivity |]. split; [lia |]. exists t. auto.
        -- split; [exact Hp1 |]. split; [lia | exact Hc].
      * intros (Hp1 & Hp2 & Hc).
        destruct (decide (p.2 = y)) as [Hy' | Hy'].
        -- left. destruct p; simpl in *; congruence.
        -- right. split; [exact Hp1 |]. split; [lia | exact Hc].
    + exists l. split; [reflexivity |].
      intros p. rewrite Hl. split.
      * intros (Hp1 & Hp2 & Hc). split; [exact Hp1 |]. split; [lia | exact Hc].
      * intros (Hp1 & Hp2 & Hc). split; [exact Hp1 |]. split; [| exact Hc].
        destruct (decide (p.2 = y)) as [Hy' | Hy']; [| lia].
        destruct Hc as (t' & Et' & Hc). destruct p as [p1 p2]. simpl in *.
        subst. rewrite Et in Et'. injection Et' as <-. congruence.
Qed.

Lemma validInColumns_spec (w : list (list Tile)) (h : list Decoration)
      (n : nat) :
  squareWorld w ->
  (forall x y r, holds w x y r -> (r < length h)%nat) ->
  forall (x : Z) (acc : list (Z * Z)),
    0 <= x -> x + Z.of_nat n = WORLD_SIZE ->
    exists l,
      validInColumns n x w h acc = Some (acc ++ l) /\
      forall p, p ∈ l <->
                (x <= p.1 < WORLD_SIZE /\ 0 <= p.2 < WORLD_SIZE /\
                 candidateAt w h p).
Proof.
  intros Hsq Hrefs. induction n as [| n IH]; intros x acc Hx Hn;
    cbn [validInColumns].
  - exists []. rewrite app_nil_r. split; [reflexivity |].
    intros p. split; [intros Hin; by apply elem_of_nil in Hin |].
    intros (Hr & _). lia.
  - destruct (validInColumn_spec w h x (Z.to_nat WORLD_SIZE) Hsq Hrefs)
      with (y := 0) (acc := acc) as (l1 & E1 & H1); [lia | lia | reflexivity |].
    rewrite E1. cbn [mbind option_bind].
    destruct (IH (x + 1) (acc ++ l1)) as (l2 & E2 & H2); [lia | lia |].
    rewrite E2. exists (l1 ++ l2). split; [by rewrite app_assoc |].
    intros p. rewrite elem_of_app, H1, H2. split.
    + intros [(Hp1 & Hp2 & Hc) | (Hp1 & Hp2 & Hc)];
        (split; [lia |]); auto.
    + intros (Hp1 & Hp2 & Hc).
      destruct (decide (p.1 = x)); [left | right]; split_and!; auto; lia.
Qed.

(** The candidate list holds exactly the grid positions that pass the
    spawn test. *)
Lemma validPositions_spec (w : list (list Tile)) (h : list Decoration) :
  squareWorld w ->
  (forall x y r, holds w x y r -> (r < length h)%nat) ->
  exists l,
    validPositions w h = Some l /\
    forall p, p ∈ l <->
              (0 <= p.1 < WORLD_SIZE /\ 0 <= p.2 < WORLD_SIZE /\
               candidateAt w h p).
Proof.
  intros Hsq Hrefs. unfold validPositions.
  destruct (validInColumns_spec w h (Z.to_nat WORLD_SIZE) Hsq Hrefs 0 [])
    as (l & E & Hl); [lia | reflexivity |].
  exists l. split; [exact E | exact Hl].
Qed.

Lemma floor_index (rnd : Q) (n : nat) :
  (0 <= rnd)%Q -> (rnd < 1)%Q -> (0 < n)%nat ->
  0 <= Math_floor (rnd * inject_Z (Z.of_nat n)) < Z.of_nat n.
Proof.
  intros H0 H1 Hn. unfold Math_floor.
  assert (0 < inject_Z (Z.of_nat n))%Q as Hpos.
  { change 0%Q with (inject_Z 0). rewrite <- Zlt_Qlt. lia. }
  set (L := inject_Z (Z.of_nat n)) in *.
  split.
  - change 0 with (Qfloor 0). apply Qfloor_resp_le. nra.
  - rewrite Zlt_Qlt. fold L.
    apply Qle_lt_trans with (rnd * L)%Q; [apply Qfloor_le | nra].
Qed.

(** [getSpawnPosition] returns one of the candidates when there is one, and
    the grid centre otherwise. *)
Lemma getSpawnPosition_spec (w : list (list Tile)) (h : list Decoration)
      (rnd : Q) :
  squareWorld w ->
  (forall x y r, holds w x y r -> (r < length h)%nat) ->
  (0 <= rnd)%Q -> (rnd < 1)%Q ->
  exists l pos,
    validPositions w h = Some l /\
    getSpawnPosition w h rnd = Some pos /\
    (l <> [] -> pos ∈ l) /\
    (l = [] -> pos = (10, 10)).
Proof.
  intros Hsq Hrefs H0 H1.
  destruct (validPositions_spec w h Hsq Hrefs) as (l & E & _).
  exists l. unfold getSpawnPosition. rewrite E. cbn [mbind option_bind].
  destruct l as [| p l'].
  - simpl. eexists. split; [reflexivity |]. split; [reflexivity |].
    split; [congruence | intros _; reflexivity].
  - set (l := p :: l') in *.
    assert (0 < length l)%nat as Hlen by (simpl; lia).
    destruct (Nat.ltb_spec 0 (length l)) as [_ | ?]; [| lia].
    pose proof (floor_index rnd (length l) H0 H1 Hlen) as Hidx.
    destruct (lookup_lt_is_Some_2 l
                (Z.to_nat (Math_floor (rnd * inject_Z (Z.of_nat (length l))))))
      as [pos Epos]; [lia |].
    exists pos. split; [reflexivity |]. split.
    + apply readIndex_Some. split; [lia | exact Epos].
    + split; [| discriminate]. intros _.
      eapply list_elem_of_lookup_2; eauto.
Qed.

(** ** Chopping *)

Section Chopping.
Context `{JsMath}.

Lemma is_tree_true (d : Decoration) : is_tree d = true <-> deco_type d = tree.
Proof. unfold is_tree. destruct (deco_type d); split; congruence. Qed.

(** The three ways a call of [damageTree] ends. *)
Lemma damageTree_cases (g : Game) (x y : Q) (g' : Game) (b : bool) :
  damageTree g x y = Some (g', b) ->
  (g' = g /\ b = false) \/
  exists tile r d d',
    getTile (world g) (Math_floor x) (Math_floor y) = Some tile /\
    decoration tile = Some r /\ heap g !! r = Some d /\
    deco_type d = tree /\ 0 < healthOr100 d /\
    deco_type d' = tree /\ health d' = Some (healthOr100 d - 34) /\
    ((0 < healthOr100 d - 34 /\ b = false /\
      d' = set_health d (Some (healthOr100 d - 34)) /\
      g' = set_heap g (<[r := d']> (heap g))) \/
     (healthOr100 d - 34 <= 0 /\ b = true /\
      state d' = Some falling /\ fallAngle d' = Some 0%Q /\
      is_Some (fallDirection d') /\ opacity d' = Some 1%Q /\
      g' = set_fallingTrees (set_heap g (<[r := d']> (heap g)))
                            (fallingTrees g ++ [r]))).
Proof.
  unfold damageTree. intros E.
  destruct (outOfBounds _ _ _); [injection E as <- <-; auto |].
  destruct (getTile _ _ _) as [tile |] eqn:Et; [| discriminate].
  simpl in E.
  destruct (decoration tile) as [r |] eqn:D; [| injection E as <- <-; auto].
  destruct (heap g !! r) as [d |] eqn:Hd; [| discriminate].
  simpl in E.
  destruct (is_tree d && (0 <? healthOr100 d)) eqn:Hlive;
    [| injection E as <- <-; auto].
  apply andb_true_iff in Hlive as [Htree Hpos].
  apply is_tree_true in Htree. apply Z.ltb_lt in Hpos.
  right.
  destruct (healthOr100 d - 34 <=? 0) eqn:Hfell; injection E as <- <-.
  - apply Z.leb_le in Hfell.
    eexists tile, r, d, _. split_and!; revgoals.
    + right. split_and!; revgoals; [reflexivity | ..];
        simpl; eauto.
    + reflexivity.
    + exact Htree.
    + exact Hpos.
    + exact Htree.
    + exact Hd.
    + exact D.
    + reflexivity.
  - apply Z.leb_gt in Hfell.
    eexists tile, r, d, _. split_and!; revgoals.
    + left. split_and!; revgoals; [reflexivity | ..]; simpl; eauto.
    + reflexivity.
    + exact Htree.
    + exact Hpos.
    + exact Htree.
    + exact Hd.
    + exact D.
    + reflexivity.
Qed.

(** [damageTree] only writes to the store and to [fallingTrees]. *)
Lemma damageTree_frame (g : Game) (x y : Q) (g' : Game) (b : bool) :
  damageTree g x y = Some (g', b) ->
  world g' = world g /\ scene g' = scene g /\ player g' = player g /\
  input g' = input g /\ lastTime g' = lastTime g /\
  isMoving g' = isMoving g /\ chopCooldown g' = chopCooldown g /\
  length (heap g') = length (heap g).
Proof.
  intros E.
  destruct (damageTree_cases _ _ _ _ _ E)
    as [[Eg _] | (tile & r & d & d' & _ & _ & _ & _ & _ & _ & _ & Hcase)].
  - subst g'. auto 10.
  - destruct Hcase as [(_ & _ & _ & Eg) | (_ & _ & _ & _ & _ & _ & Eg)];
      subst g'; simpl; rewrite length_insert; auto 10.
Qed.

(** [damageTree] never throws on a square world whose references are live. *)
Lemma damageTree_total (g : Game) (x y : Q) :
  squareWorld (world g) ->
  (forall x y r, holds (world g) x y r -> (r < length (heap g))%nat) ->
  exists g' b, damageTree g x y = Some (g', b).
Proof.
  intros Hsq Hrefs.
  enough (is_Some (damageTree g x y)) as [[g' b] E] by eauto.
  unfold damageTree.
  destruct (outOfBounds _ _ _) eqn:Hb; [by eexists |].
  apply (outOfBounds_square _ _ _ Hsq) in Hb as [Hx Hy].
  destruct (getTile_inside _ _ _ Hsq Hx Hy) as [tile Et]. rewrite Et. simpl.
  destruct (decoration tile) as [r |] eqn:D; [| by eexists].
  destruct (lookup_lt_is_Some_2 (heap g) r) as [d Hd].
  { eapply Hrefs. exists tile. eauto. }
  rewrite Hd. simpl.
  destruct (is_tree d && _); [| by eexists].
  destruct (_ <=? 0); by eexists.
Qed.

Lemma half_pi_pos : (0 < Math_PI / 2)%Q.
Proof. reflexivity. Qed.

(** The invariant only reads the grid, the store, the scene and the list of
    falling trees. *)
Lemma inv_same (g g' : Game) :
  world g' = world g -> heap g' = heap g -> scene g' = scene g ->
  fallingTrees g' = fallingTrees g -> inv g -> inv g'.
Proof.
  intros Ew Eh Es Ef [I1 I2 I3 I4 I5 I6 I7].
  split; rewrite ?Ew, ?Eh, ?Es, ?Ef; assumption.
Qed.

Lemma live_not_positive (d : Decoration) :
  liveTree d -> healthOr100 d <= 0.
Proof.
  intros (_ & (h & Eh & Hle) & _). unfold healthOr100. by rewrite Eh.
Qed.

Lemma inv_damageTree (g : Game) (x y : Q) (g' : Game) (b : bool) :
  inv g -> damageTree g x y = Some (g', b) -> inv g'.
Proof.
  intros Hinv E.
  destruct (damageTree_cases _ _ _ _ _ E)
    as [[-> _] | (tile & r & d & d' & Et & D & Hd & Htree & Hpos & Htree' &
                  Hh' & Hcase)]; [exact Hinv |].
  pose proof Hinv as [I1 I2 I3 I4 I5 I6 I7].
  assert (r ∉ fallingTrees g) as Hnotin.
  { intros Hin. destruct (I6 r Hin) as (d0 & Hd0 & Hlive & _).
    rewrite Hd in Hd0. injection Hd0 as <-.
    apply live_not_positive in Hlive. lia. }
  assert (forall r0 d0, <[r := d']> (heap g) !! r0 = Some d0 -> treeOk d0)
    as Htrees.
  { intros r0 d0 E0. apply list_lookup_insert_Some in E0
      as [(<- & <- & _) | (Hne & E0)]; [| eapply I7; eauto].
    intros _. destruct (I7 r d Hd Htree) as (h & Eh & Hladder & Hst).
    assert (healthOr100 d = h) as Hh by (unfold healthOr100; by rewrite Eh).
    rewrite Hh in *.
    exists (h - 34). split; [exact Hh' |]. split; [lia |].
    intros Hpos'.
    destruct Hcase as [(_ & _ & -> & _) | (Hle & _)]; [| lia].
    simpl. apply Hst. lia. }
  destruct Hcase as [(Hpos' & _ & Ed' & ->) |
                     (Hle & _ & Hst & Ha & Hdir & Ho & ->)].
  - split; simpl; try assumption.
    + intros x0 y0 r0 Hh. rewrite length_insert. eauto.
    + intros r0 Hin. destruct (I6 r0 Hin) as (d0 & Hd0 & Hlive & Href).
      exists d0. split; [| auto].
      rewrite list_lookup_insert_ne; [exact Hd0 | congruence].
  - split; simpl; try assumption.
    + intros x0 y0 r0 Hh. rewrite length_insert. eauto.
    + apply NoDup_app. split; [exact I5 |]. split.
      * intros r0 Hin Hin'. apply list_elem_of_singleton in Hin'. congruence.
      * apply NoDup_singleton.
    + intros r0 Hin. apply elem_of_app in Hin as [Hin | Hin].
      * destruct (I6 r0 Hin) as (d0 & Hd0 & Hlive & Href).
        exists d0. split; [| auto].
        rewrite list_lookup_insert_ne; [exact Hd0 | congruence].
      * apply list_elem_of_singleton in Hin as ->.
        exists d'. split.
        { apply list_lookup_insert_eq. eapply lookup_lt_Some; eauto. }
        split.
        { unfold liveTree. split; [exact Htree' |].
          split; [eauto |]. split; [exact Hdir |].
          split; [exists 1%Q; split; [exact Ho | reflexivity] |].
          left. split; [exact Hst |]. exists 0%Q. split; [exact Ha |].
          exact half_pi_pos. }
        exists (Math_floor x), (Math_floor y), tile. auto.
Qed.

(** A chop on a standing tree: 34 health points less; and the tree starts to
    fall exactly when that leaves no health. *)
Lemma damageTree_live (g : Game) (x y : Q) (tile : Tile) (r : ref)
      (d : Decoration) :
  squareWorld (world g) ->
  getTile (world g) (Math_floor x) (Math_floor y) = Some tile ->
  decoration tile = Some r -> heap g !! r = Some d ->
  deco_type d = tree -> 0 < healthOr100 d ->
  exists g' b d',
    damageTree g x y = Some (g', b) /\ heap g' !! r = Some d' /\
    health d' = Some (healthOr100 d - 34) /\ deco_type d' = tree /\
    (0 < healthOr100 d - 34 ->
     b = false /\ d' = set_health d (Some (healthOr100 d - 34)) /\
     fallingTrees g' = fallingTrees g) /\
    (healthOr100 d - 34 <= 0 ->
     b = true /\ state d' = Some falling /\ fallAngle d' = Some 0%Q /\
     opacity d' = Some 1%Q /\
     (let dx := (inject_Z (tile_x tile) + 0.5 - player_x (player g))%Q in
      let dy := (inject_Z (tile_y tile) + 0.5 - player_y (player g))%Q in
      let dist := Math_sqrt (dx * dx + dy * dy)%Q in
      fallDirection d' = Some (mkVector3 (dx / dist) 0 (dy / dist))) /\
     fallingTrees g' = fallingTrees g ++ [r]).
Proof.
  intros Hsq Et D Hd Htree Hpos.
  pose proof (getTile_bounds _ _ _ _ Hsq Et) as Hb.
  apply (outOfBounds_square _ _ _ Hsq) in Hb.
  assert (r < length (heap g))%nat as Hlt by (eapply lookup_lt_Some; eauto).
  unfold damageTree. rewrite Hb, Et. cbn [mbind option_bind].
  rewrite D, Hd. cbn [mbind option_bind].
  apply is_tree_true in Htree as Htree'. rewrite Htree'.
  apply Z.ltb_lt in Hpos as Hpos'. rewrite Hpos'. cbn [andb].
  destruct (healthOr100 d - 34 <=? 0) eqn:Hfell.
  - apply Z.leb_le in Hfell. eexists _, true, _.
    split; [reflexivity |]. simpl.
    split; [by apply list_lookup_insert_eq |]. simpl.
    split_and!; auto; try lia. intros _. split_and!; auto.
  - apply Z.leb_gt in Hfell. eexists _, false, _.
    split; [reflexivity |]. simpl.
    split; [by apply list_lookup_insert_eq |]. simpl.
    split_and!; auto; try lia.
Qed.

(** A chop on anything but a standing tree changes nothing. *)
Lemma damageTree_spent (g : Game) (x y : Q) (tile : Tile) :
  getTile (world g) (Math_floor x) (Math_floor y) = Some tile ->
  (forall r d, decoration tile = Some r -> heap g !! r = Some d ->
               deco_type d = tree -> healthOr100 d <= 0) ->
  (forall r, decoration tile = Some r -> is_Some (heap g !! r)) ->
  damageTree g x y = Some (g, false).
Proof.
  intros Et Hspent Hlive. unfold damageTree.
  destruct (outOfBounds _ _ _); [reflexivity |].
  rewrite Et. cbn [mbind option_bind].
  destruct (decoration tile) as [r |]; [| reflexivity].
  destruct (Hlive r eq_refl) as [d Hd]. rewrite Hd. cbn [mbind option_bind].
  destruct (is_tree d) eqn:Htree; [| reflexivity].
  apply is_tree_true in Htree.
  pose proof (Hspent r d eq_refl Hd Htree) as Hle.
  apply Z.ltb_ge in Hle. rewrite Hle. reflexivity.
Qed.

(** ** The player step *)

Lemma game_eta (g : Game) :
  g = set_isMoving (set_player g (player g)) (isMoving g).
Proof. destruct g. reflexivity. Qed.

Lemma isWalkable_total (g : Game) (x y : Q) :
  squareWorld (world g) ->
  (forall x y r, holds (world g) x y r -> (r < length (heap g))%nat) ->
  is_Some (isWalkable g x y).
Proof.
  intros Hsq Hrefs. unfold isWalkable.
  destruct (outOfBounds _ _ _) eqn:Hb; [by eexists |].
  apply (outOfBounds_square _ _ _ Hsq) in Hb as [Hx Hy].
  destruct (getTile_inside _ _ _ Hsq Hx Hy) as [tile Et]. rewrite Et. simpl.
  destruct (is_water tile); [by eexists |].
  destruct (decoration tile) as [r |] eqn:D; [| by eexists].
  destruct (lookup_lt_is_Some_2 (heap g) r) as [d Hd].
  { eapply Hrefs. exists tile. eauto. }
  rewrite Hd. simpl. destruct (deco_type d); by eexists.
Qed.

(** [updatePlayer] either only moves or turns the player, or chops: the
    chop happens while idle, with the cooldown expired, on the tile the
    keys point to, which is not walkable. *)
Lemma updatePlayer_cases (g : Game) (deltaTime : Q) (g' : Game) :
  updatePlayer g deltaTime = Some g' ->
  (exists p b, g' = set_isMoving (set_player g p) b) \/
  (exists p gd b,
     isMoving g = false /\ (chopCooldown g <= 0)%Q /\
     damageTree (set_player g p)
                (inject_Z (fst (intentTarget (player g) (input g))))
                (inject_Z (snd (intentTarget (player g) (input g))))
     = Some (gd, b) /\
     isWalkable (set_player g p)
                (inject_Z (fst (intentTarget (player g) (input g))))
                (inject_Z (snd (intentTarget (player g) (input g))))
     = Some false /\
     g' = set_chopCooldown gd 300).
Proof.
  unfold updatePlayer, intentTarget. intros E.
  destruct (isMoving g) eqn:Hmov.
  { destruct (Qlt_bool _ _); injection E as <-; left.
    - eexists _, false. reflexivity.
    - eexists _, true. unfold set_isMoving, set_player. simpl.
      rewrite Hmov. reflexivity. }
  destruct (inputDelta (input g)) as [dx dy] eqn:Hdelta. simpl fst. simpl snd.
  destruct (negb (dx =? 0) || negb (dy =? 0)).
  2:{ injection E as <-. left. exists (player g), false.
      rewrite <- Hmov. apply game_eta. }
  set (g1 := set_player g _) in *.
  destruct (isWalkable g1 _ _) as [[|] |] eqn:Hwalk;
    cbn [mbind option_bind] in E; [| | discriminate].
  { injection E as <-. left. eexists _, true. reflexivity. }
  assert (g1 = set_isMoving (set_player g (player g1)) false) as Hg1.
  { subst g1. unfold set_isMoving, set_player. simpl. by rewrite Hmov. }
  destruct (Qle_bool (chopCooldown g1) 0) eqn:Hcool.
  2:{ injection E as <-. left. eauto. }
  apply Qle_bool_iff in Hcool.
  destruct (_ && _); [| injection E as <-; left; eauto].
  destruct (getTile _ _ _) as [tile |]; [| discriminate].
  cbn [mbind option_bind] in E.
  destruct (decoration tile) as [r |]; [| injection E as <-; left; eauto].
  destruct (heap g1 !! r) as [d |]; [| discriminate].
  cbn [mbind option_bind] in E.
  destruct (is_tree d); [| injection E as <-; left; eauto].
  destruct (damageTree g1 _ _) as [[gd b] |] eqn:Hdmg; [| discriminate].
  injection E as <-. right. exists (player g1), gd, b.
  split; [reflexivity |]. split; [exact Hcool |]. auto.
Qed.

Lemma inv_updatePlayer (g : Game) (deltaTime : Q) (g' : Game) :
  inv g -> updatePlayer g deltaTime = Some g' -> inv g'.
Proof.
  intros Hinv E.
  destruct (updatePlayer_cases _ _ _ E)
    as [(p & b & ->) | (p & gd & b & _ & _ & Hdmg & _ & ->)].
  - eapply inv_same; [.. | exact Hinv]; reflexivity.
  - apply (inv_same gd); try reflexivity.
    eapply inv_damageTree; [| exact Hdmg].
    eapply inv_same; [.. | exact Hinv]; reflexivity.
Qed.

Lemma updatePlayer_total (g : Game) (deltaTime : Q) :
  inv g -> is_Some (updatePlayer g deltaTime).
Proof.
  intros Hinv. unfold updatePlayer.
  destruct (isMoving g); [destruct (Qlt_bool _ _); by eexists |].
  destruct (inputDelta (input g)) as [dx dy].
  destruct (negb (dx =? 0) || negb (dy =? 0)); [| by eexists].
  set (g1 := set_player g _).
  assert (inv g1) as [I1 I2 I3 I4 I5 I6 I7]
    by (eapply inv_same; [.. | exact Hinv]; reflexivity).
  destruct (isWalkable_total g1 (inject_Z (Math_round (player_x (player g)) + dx))
              (inject_Z (Math_round (player_y (player g)) + dy)) I1 I2)
    as [walkable Hw].
  rewrite Hw. cbn [mbind option_bind]. destruct walkable; [by eexists |].
  destruct (Qle_bool (chopCooldown g1) 0); [| by eexists].
  destruct (_ && _) eqn:Hb; [| by eexists].
  rewrite !Math_floor_inject in *.
  set (tX := Math_round (player_x (player g)) + dx) in *.
  set (tY := Math_round (player_y (player g)) + dy) in *.
  destruct (getTile_inside (world g1) tX tY I1) as [tile Et].
  { apply andb_true_iff in Hb as [Hb _]. apply andb_true_iff in Hb as [Hb _].
    apply andb_true_iff in Hb as [Hb1 Hb2].
    apply Z.leb_le in Hb1. apply Z.ltb_lt in Hb2.
    destruct I1 as [Hl _]. rewrite Hl in Hb2. unfold WORLD_SIZE in *. lia. }
  { apply andb_true_iff in Hb as [Hb Hb4]. apply andb_true_iff in Hb as [_ Hb3].
    apply Z.leb_le in Hb3. apply Z.ltb_lt in Hb4.
    destruct I1 as [Hl Hc]. destruct (world g1) as [| col w']; [discriminate |].
    simpl in Hb4. inversion Hc as [| ? ? Lc _]; subst.
    rewrite Lc in Hb4. unfold WORLD_SIZE in *. lia. }
  rewrite Et. cbn [mbind option_bind].
  destruct (decoration tile) as [r |] eqn:D; [| by eexists].
  destruct (lookup_lt_is_Some_2 (heap g1) r) as [d Hd].
  { eapply I2. exists tile. eauto. }
  rewrite Hd. cbn [mbind option_bind]. destruct (is_tree d); [| by eexists].
  destruct (damageTree_total g1 (inject_Z tX) (inject_Z tY) I1 I2)
    as (gd & b & ->).
  by eexists.
Qed.

End Chopping.

(** ** One tree of the falling loop *)

Lemma NoDup_delete_notin {A} (l : list A) (i : nat) (x : A) :
  NoDup l -> l !! i = Some x -> x ∉ delete i l.
Proof.
  intros Hnd Ei. rewrite delete_take_drop.
  rewrite <- (take_drop_middle l i x Ei) in Hnd.
  apply NoDup_app in Hnd as (_ & Hdisj & Hnd2).
  apply NoDup_cons in Hnd2 as [Hnot _].
  intros Hin. apply elem_of_app in Hin as [Hin | Hin].
  - apply (Hdisj x Hin). left.
  - contradiction.
Qed.

Lemma NoDup_delete {A} (l : list A) (i : nat) : NoDup l -> NoDup (delete i l).
Proof. intros Hnd. eapply sublist_NoDup; [exact Hnd | apply sublist_delete]. Qed.

(** What [fallStep] does to the tree at index [i], in a state that satisfies
    the invariant. *)
Lemma fallStep_cases (g : Game) (dt : Q) (i : nat) (tree : ref) :
  inv g -> fallingTrees g !! i = Some tree ->
  exists d,
    heap g !! tree = Some d /\ liveTree d /\
    ((state d = Some falling /\
      exists a, fallAngle d = Some a /\
        (((Math_PI / 2 <= a + dt * 2.5)%Q /\
          fallStep g dt i =
          Some (set_heap g
                  (<[tree := set_state (set_fallAngle d (Some (Math_PI / 2)%Q))
                                       (Some fading)]> (heap g)))) \/
         ((a + dt * 2.5 < Math_PI / 2)%Q /\
          fallStep g dt i =
          Some (set_heap g
                  (<[tree := set_fallAngle d (Some (a + dt * 2.5)%Q)]>
                     (heap g)))))) \/
     (state d = Some fading /\
      exists o, opacity d = Some o /\ (0 < o)%Q /\
        (((o - dt * 2 <= 0)%Q /\
          fallStep g dt i =
          Some (set_world
                  (set_fallingTrees
                     (set_scene
                        (set_heap g
                           (<[tree := set_opacity d (Some (o - dt * 2)%Q)]>
                              (heap g)))
                        (sceneRemove tree (scene g)))
                     (delete i (fallingTrees g)))
                  (map (clearFirst tree) (world g)))) \/
         ((0 < o - dt * 2)%Q /\
          fallStep g dt i =
          Some (set_heap g
                  (<[tree := set_opacity d (Some (o - dt * 2)%Q)]>
                     (heap g))))))).
Proof.
  intros Hinv Ei. pose proof Hinv as [I1 I2 I3 I4 I5 I6 I7].
  destruct (I6 tree) as (d & Hd & Hlive & Href).
  { eapply list_elem_of_lookup_2; eauto. }
  exists d. split; [exact Hd |]. split; [exact Hlive |].
  destruct Hlive as (Htree & Hh & [dir Hdir] & (o & Ho & Hopos) & Hst).
  unfold fallStep. rewrite Ei. cbn [mbind option_bind].
  rewrite Hd. cbn [mbind option_bind].
  destruct Hst as [(Hst & a & Ha & Hlt) | (Hst & Ha)]; rewrite Hst.
  - left. split; [reflexivity |]. exists a. split; [exact Ha |].
    rewrite Ha, Hdir. change (default 0%Q (Some a)) with a.
    cbn [mbind option_bind].
    destruct (Qle_bool (Math_PI / 2) (a + dt * 2.5)) eqn:Hclamp.
    + left. apply Qle_bool_iff in Hclamp. auto.
    + right. apply Qle_bool_false in Hclamp. auto.
  - right. split; [reflexivity |]. exists o. split; [exact Ho |].
    split; [exact Hopos |].
    rewrite Ho. change (default 1%Q (Some o)) with o.
    destruct (Qle_bool (o - dt * 2) 0) eqn:Hgone.
    + left. apply Qle_bool_iff in Hgone. split; [exact Hgone |].
      cbn [world set_heap]. rewrite (clearDecoration_eq _ _ I1).
      reflexivity.
    + right. apply Qle_bool_false in Hgone. auto.
Qed.

(** Rewriting a falling tree in place keeps the invariant, as long as it
    stays a falling tree with the same health. *)
Lemma inv_animate (g : Game) (tree : ref) (d d1 : Decoration) :
  inv g -> heap g !! tree = Some d -> liveTree d -> liveTree d1 ->
  health d1 = health d ->
  inv (set_heap g (<[tree := d1]> (heap g))).
Proof.
  intros [I1 I2 I3 I4 I5 I6 I7] Hd Hlive Hlive1 Hh.
  split; simpl; try assumption.
  - intros x y r Hr. rewrite length_insert. eauto.
  - intros r Hin. destruct (I6 r Hin) as (d0 & Hd0 & Hlive0 & Href).
    destruct (decide (r = tree)) as [-> | Hne].
    + exists d1. split; [| auto].
      apply list_lookup_insert_eq. eapply lookup_lt_Some; eauto.
    + exists d0. split; [| auto]. by rewrite list_lookup_insert_ne.
  - intros r d0 E0. apply list_lookup_insert_Some in E0
      as [(<- & <- & _) | (Hne & E0)]; [| eapply I7; eauto].
    intros _. destruct Hlive1 as (_ & (h & Eh & Hle) & _).
    destruct (I7 tree d Hd) as (h' & Eh' & Hladder & _);
      [by destruct Hlive |].
    rewrite Hh, Eh' in Eh. injection Eh as ->.
    exists h. split; [congruence |]. split; [exact Hladder | lia].
Qed.

Lemma inv_fallStep (g : Game) (dt : Q) (i : nat) (g' : Game) :
  inv g -> fallStep g dt i = Some g' -> inv g'.
Proof.
  intros Hinv E.
  destruct (fallingTrees g !! i) as [tree |] eqn:Ei;
    [| unfold fallStep in E; rewrite Ei in E; discriminate].
  destruct (fallStep_cases g dt i tree Hinv Ei) as (d & Hd & Hlive & Hcase).
  pose proof Hlive as (Htree & Hh & Hdir & (o0 & Ho0 & Hopos0) & Hst0).
  destruct Hcase as [(Hst & a & Ha & [[Hge E'] | [Hlt E']]) |
                     (Hst & o & Ho & Hopos & [[Hle E'] | [Hlt E']])];
    rewrite E' in E; injection E as <-.
  - eapply inv_animate; eauto.
    unfold liveTree; simpl; split_and!; eauto.
  - eapply inv_animate; eauto.
    unfold liveTree; simpl; split_and!; eauto.
  - pose proof Hinv as [I1 I2 I3 I4 I5 I6 I7].
    split; simpl.
    + by apply cleared_square.
    + intros x y r Hr. rewrite length_insert.
      apply cleared_holds in Hr. eauto.
    + intros x y x' y' r Hr Hr'.
      apply cleared_holds in Hr. apply cleared_holds in Hr'. eauto.
    + intros r (x & y & Hr). unfold sceneRemove.
      apply list_elem_of_filter. split.
      * intros ->. eapply cleared_gone; [| exact Hr].
        intros. eapply I3; eauto.
      * apply I4. exists x, y. by apply cleared_holds in Hr.
    + by apply NoDup_delete.
    + intros r Hin.
      assert (r <> tree) as Hne.
      { intros ->. by apply (NoDup_delete_notin _ _ _ I5 Ei). }
      apply list_elem_of_delete_inv in Hin.
      destruct (I6 r Hin) as (d0 & Hd0 & Hlive0 & (x & y & Hr)).
      exists d0. split; [by rewrite list_lookup_insert_ne |].
      split; [exact Hlive0 |].
      exists x, y. by apply cleared_holds_other.
    + intros r d0 E0. apply list_lookup_insert_Some in E0
        as [(<- & <- & _) | (Hne & E0)]; [| eapply I7; eauto].
      apply (I7 tree d Hd).
  - eapply inv_animate; eauto.
    unfold liveTree; simpl; split_and!; eauto.
Qed.

Lemma fallStep_total (g : Game) (dt : Q) (i : nat) :
  inv g -> (i < length (fallingTrees g))%nat ->
  exists g', fallStep g dt i = Some g' /\
             (i <= length (fallingTrees g'))%nat.
Proof.
  intros Hinv Hi.
  destruct (lookup_lt_is_Some_2 _ _ Hi) as [tree Ei].
  destruct (fallStep_cases g dt i tree Hinv Ei) as (d & _ & _ & Hcase).
  destruct Hcase as [(_ & a & _ & [[_ E] | [_ E]]) |
                     (_ & o & _ & _ & [[_ E] | [_ E]])];
    rewrite E; eexists; (split; [reflexivity |]); simpl; try lia.
  rewrite length_delete by eauto. lia.
Qed.

(** A property that every iteration keeps holds after the loop, which runs
    to its end. *)
Lemma fallLoop_preserved (P : Game -> Prop) (dt : Q) :
  (forall g i g', inv g -> P g -> fallStep g dt i = Some g' -> P g') ->
  forall n g, inv g -> P g -> (n <= length (fallingTrees g))%nat ->
              exists g', fallLoop n g dt = Some g' /\ inv g' /\ P g'.
Proof.
  intros Hstep. induction n as [| n IH]; intros g Hinv Hp Hn; simpl; [eauto |].
  destruct (fallStep_total g dt n Hinv) as (g1 & E1 & Hlen); [lia |].
  rewrite E1. cbn [mbind option_bind].
  apply IH; [eapply inv_fallStep; eauto | eauto | exact Hlen].
Qed.

Lemma animated_refl (g : Game) : animated g g.
Proof. split; eauto. Qed.

Lemma animated_trans (g1 g2 g3 : Game) :
  animated g1 g2 -> animated g2 g3 -> animated g1 g3.
Proof.
  intros [A1 A2 A3 A4 A5 A6 A7 A8 A9] [B1 B2 B3 B4 B5 B6 B7 B8 B9].
  split; try congruence.
  - intros r d Hd. destruct (A6 r d Hd) as (d2 & Hd2 & Eh & Et).
    destruct (B6 r d2 Hd2) as (d3 & Hd3 & Eh' & Et').
    exists d3. split; [exact Hd3 |]. split; congruence.
  - intros r Hr. rewrite B7; auto.
  - auto.
  - intros x y t Et Hr. apply B9; [auto |].
    intros r D Hin. apply (Hr r D). auto.
Qed.

(** Rewriting a falling tree in place, with the same health. *)
Lemma animated_heap (g : Game) (tree : ref) (d d1 : Decoration) :
  tree ∈ fallingTrees g -> heap g !! tree = Some d ->
  health d1 = health d -> deco_type d1 = deco_type d ->
  animated g (set_heap g (<[tree := d1]> (heap g))).
Proof.
  intros Hin Hd Eh Et. split; simpl; auto.
  - intros r d0 Hd0. destruct (decide (r = tree)) as [-> | Hne].
    + exists d1. rewrite list_lookup_insert_eq by (eapply lookup_lt_Some; eauto).
      split; [reflexivity |]. split; congruence.
    + exists d0. by rewrite list_lookup_insert_ne.
  - intros r Hr. apply list_lookup_insert_ne. congruence.
Qed.

Lemma fallStep_animated (g : Game) (dt : Q) (i : nat) (g' : Game) :
  inv g -> fallStep g dt i = Some g' -> animated g g'.
Proof.
  intros Hinv E.
  destruct (fallingTrees g !! i) as [tree |] eqn:Ei;
    [| unfold fallStep in E; rewrite Ei in E; discriminate].
  assert (tree ∈ fallingTrees g) as Hin
    by (eapply list_elem_of_lookup_2; eauto).
  destruct (fallStep_cases g dt i tree Hinv Ei) as (d & Hd & Hlive & Hcase).
  destruct Hcase as [(Hst & a & Ha & [[Hge E'] | [Hlt E']]) |
                     (Hst & o & Ho & Hopos & [[Hle E'] | [Hlt E']])];
    rewrite E' in E; injection E as <-;
    try (apply (animated_heap g tree d); auto; reflexivity).
  destruct (animated_heap g tree d (set_opacity d (Some (o - dt * 2)%Q)))
    as [A1 A2 A3 A4 A5 A6 A7 A8 A9]; auto.
  split; simpl; auto.
  - intros r Hr. by apply list_elem_of_delete_inv in Hr.
  - intros x y t Et Hr.
    destruct (cleared_getTile tree _ _ _ _ Et) as (t' & Et' & Hrel & _).
    destruct Hrel as [-> | [D _]]; [exact Et' |].
    exfalso. by apply (Hr tree).
Qed.

Lemma updateFallingTrees_animated (g : Game) (deltaTime : Q) :
  inv g ->
  exists g', updateFallingTrees g deltaTime = Some g' /\ inv g' /\
             animated g g'.
Proof.
  intros Hinv. unfold updateFallingTrees.
  apply (fallLoop_preserved (animated g)); auto using animated_refl.
  intros g1 i g2 Hinv1 Han E. eapply animated_trans; [exact Han |].
  eapply fallStep_animated; eauto.
Qed.

(** ** Lifting stable properties through the game loop *)

Section Stable.
Context `{JsMath}.
Variable P : Game -> Prop.
Hypothesis HP : stable P.

Lemma fallLoop_stable (dt : Q) (n : nat) :
  forall g, inv g -> P g -> (n <= length (fallingTrees g))%nat ->
            exists g', fallLoop n g dt = Some g' /\ inv g' /\ P g'.
Proof.
  apply fallLoop_preserved. intros g i g' Hinv Hp E.
  eapply (stable_fall P HP); eauto.
Qed.

Lemma updateFallingTrees_stable (g : Game) (deltaTime : Q) :
  inv g -> P g ->
  exists g', updateFallingTrees g deltaTime = Some g' /\ inv g' /\ P g'.
Proof. intros Hinv Hp. apply fallLoop_stable; auto. Qed.

Lemma updatePlayer_stable (g : Game) (deltaTime : Q) :
  inv g -> P g ->
  exists g', updatePlayer g deltaTime = Some g' /\ inv g' /\ P g'.
Proof.
  intros Hinv Hp.
  destruct (updatePlayer_total g deltaTime Hinv) as [g' E].
  exists g'. split; [exact E |]. split; [eapply inv_updatePlayer; eauto |].
  destruct (updatePlayer_cases _ _ _ E)
    as [(p & b & ->) | (p & gd & b & _ & _ & Hdmg & _ & ->)].
  - eapply (stable_same P HP); [.. | exact Hp]; reflexivity.
  - apply (stable_same P HP gd); try reflexivity.
    eapply (stable_damage P HP); [| | exact Hdmg].
    + eapply inv_same; [.. | exact Hinv]; reflexivity.
    + eapply (stable_same P HP); [.. | exact Hp]; reflexivity.
Qed.

Lemma update_stable (g : Game) (deltaTime : Q) :
  inv g -> P g ->
  exists g', update g deltaTime = Some g' /\ inv g' /\ P g'.
Proof.
  intros Hinv Hp. unfold update.
  set (g1 := if Qlt_bool 0 (chopCooldown g) then _ else g).
  assert (inv g1 /\ P g1) as [Hinv1 Hp1].
  { subst g1. destruct (Qlt_bool 0 (chopCooldown g)); [| auto]. split.
    - eapply inv_same; [.. | exact Hinv]; reflexivity.
    - eapply (stable_same P HP); [.. | exact Hp]; reflexivity. }
  destruct (updatePlayer_stable g1 deltaTime Hinv1 Hp1) as (g2 & E2 & Hinv2 & Hp2).
  rewrite E2. cbn [mbind option_bind].
  by apply updateFallingTrees_stable.
Qed.

Lemma step_stable (g : Game) (e : Event) :
  inv g -> P g -> exists g', step g e = Some g' /\ inv g' /\ P g'.
Proof.
  intros Hinv Hp. destruct e as [code isPressed | currentTime]; simpl.
  - eexists. split; [reflexivity |]. split.
    + eapply inv_same; [.. | exact Hinv]; reflexivity.
    + eapply (stable_same P HP); [.. | exact Hp]; reflexivity.
  - unfold gameLoop. apply update_stable.
    + eapply inv_same; [.. | exact Hinv]; reflexivity.
    + eapply (stable_same P HP); [.. | exact Hp]; reflexivity.
Qed.

Lemma run_stable (evs : list Event) :
  forall g, inv g -> P g -> exists g', run g evs = Some g' /\ inv g' /\ P g'.
Proof.
  induction evs as [| e evs IH]; intros g Hinv Hp; simpl; [eauto |].
  destruct (step_stable g e Hinv Hp) as (g1 & E1 & Hinv1 & Hp1).
  rewrite E1. cbn [mbind option_bind]. by apply IH.
Qed.

End Stable.

Section Totality.
Context `{JsMath}.

Lemma stable_True : stable (fun _ => True).
Proof. split; auto. Qed.

(** A frame or key event never throws in a state that satisfies the
    invariant, and the invariant holds afterwards. *)
Lemma step_inv (g : Game) (e : Event) :
  inv g -> exists g', step g e = Some g' /\ inv g'.
Proof.
  intros Hinv.
  destruct (step_stable _ stable_True g e Hinv I) as (g' & E & Hinv' & _).
  eauto.
Qed.

Lemma run_inv (g : Game) (evs : list Event) :
  inv g -> exists g', run g evs = Some g' /\ inv g'.
Proof.
  intros Hinv.
  destruct (run_stable _ stable_True evs g Hinv I) as (g' & E & Hinv' & _).
  eauto.
Qed.

(** [init] succeeds for every outcome of the random draws and yields a state
    that satisfies the invariant. *)
Lemma init_inv rnd (rndSpawn now : Q) :
  (0 <= rndSpawn)%Q -> (rndSpawn < 1)%Q ->
  exists g, init rnd rndSpawn now = Some g /\ inv g /\
            fallingTrees g = [] /\ chopCooldown g = 0%Q /\
            isMoving g = false /\ lastTime g = now /\
            world g = (generateWorld rnd).1.1 /\
            heap g = (generateWorld rnd).1.2.
Proof.
  intros H0 H1. unfold init.
  destruct (generateWorld_inv rnd) as [(G1 & G2 & G3 & G4) Hsq].
  destruct (generateWorld rnd) as [[w h] sc]. simpl in *.
  destruct (getSpawnPosition_spec w h rndSpawn Hsq) as (l & pos & _ & -> & _);
    [intros x y r Hr; by apply (G2 x y r) | exact H0 | exact H1 |].
  eexists. split; [reflexivity |]. split; [| simpl; auto 10].
  split; simpl.
  - exact Hsq.
  - intros x y r Hr. by apply (G2 x y r).
  - exact G3.
  - intros r (x & y & Hr). by apply (G2 x y r).
  - constructor.
  - intros r Hin. by apply elem_of_nil in Hin.
  - intros r d Hd. rewrite Forall_forall in G1. apply G1.
    eapply list_elem_of_lookup_2; eauto.
Qed.

(** Every reachable state satisfies the invariant; in particular no frame
    and no key event ever throws. *)
Lemma reachable_inv (g : Game) : reachable g -> inv g.
Proof.
  induction 1 as [rnd rndSpawn now g H0 H1 E | g e g' _ IH E].
  - destruct (init_inv rnd rndSpawn now H0 H1) as (g0 & E0 & Hinv & _).
    congruence.
  - destruct (step_inv g e IH) as (g1 & E1 & Hinv). congruence.
Qed.

Lemma reachable_run (g : Game) (evs : list Event) :
  reachable g -> exists g', run g evs = Some g' /\ reachable g'.
Proof.
  revert g. induction evs as [| e evs IH]; intros g Hr; simpl; [eauto |].
  destruct (step_inv g e (reachable_inv g Hr)) as (g1 & E1 & _).
  rewrite E1. cbn [mbind option_bind]. apply IH.
  eapply reachable_step; eauto.
Qed.

End Totality.

(** ** Spawn validity *)

Lemma createTile_origin (rnd : TileRandom) (h : list Decoration)
      (sc : list ref) :
  (createTile 0 0 rnd h sc).1.1 = mkTile 0 0 grass None.
Proof.
  unfold createTile. simpl.
  destruct (Qlt_bool (rnd_path rnd) double_0_05); reflexivity.
Qed.

Lemma candidate_walkable (g : Game) (p : Z * Z) :
  squareWorld (world g) ->
  candidateAt (world g) (heap g) p ->
  exists tile,
    getTile (world g) p.1 p.2 = Some tile /\
    isWalkable g (inject_Z p.1) (inject_Z p.2) = Some true /\
    forall r d, decoration tile = Some r -> heap g !! r = Some d ->
                deco_type d = flower.
Proof.
  intros Hsq (tile & Et & Hc). exists tile. split; [exact Et |].
  rewrite (isWalkable_at g _ _ tile Hsq) by (by rewrite !Math_floor_inject).
  unfold spawnCandidate in Hc.
  destruct (is_water tile); [discriminate |].
  destruct (decoration tile) as [r |]; [| split; [reflexivity | discriminate]].
  destruct (heap g !! r) as [d |] eqn:Hd; [| discriminate].
  cbn [mbind option_bind] in *. injection Hc as Hc.
  apply andb_true_iff in Hc as [Ht Hr].
  unfold is_tree, is_rock in *.
  destruct (deco_type d) eqn:Hty; try discriminate.
  split; [reflexivity |]. intros r' d' [= <-] Hd'. congruence.
Qed.

(** C5.  For every outcome of the random draws of world generation, the
    candidate set of spawn-point selection is not empty (the corner tile is
    grass without decoration), the spawn position is drawn from it (so it is
    never the grid-centre fallback, whose tile is water), its tile is
    walkable and holds neither a rock nor a tree. *)
Theorem spawn_valid rnd (rndSpawn now : Q) :
  (0 <= rndSpawn)%Q -> (rndSpawn < 1)%Q ->
  exists g valid pos tile,
    init rnd rndSpawn now = Some g /\
    validPositions (world g) (heap g) = Some valid /\
    (0, 0) ∈ valid /\
    getSpawnPosition (world g) (heap g) rndSpawn = Some pos /\
    pos ∈ valid /\ pos <> (10, 10) /\
    player g = createPlayer pos.1 pos.2 /\
    getTile (world g) pos.1 pos.2 = Some tile /\
    tile_type tile <> water /\
    isWalkable g (inject_Z pos.1) (inject_Z pos.2) = Some true /\
    forall r d, decoration tile = Some r -> heap g !! r = Some d ->
                deco_type d <> rock /\ deco_type d <> tree.
Proof.
  intros H0 H1. unfold init.
  destruct (generateWorld_inv rnd) as [(G1 & G2 & G3 & G4) Hsq].
  destruct (generateWorld rnd) as [[w h] sc]. simpl in *.
  assert (forall x y r, holds w x y r -> (r < length h)%nat) as Hrefs
    by (intros x y r Hr; by apply (G2 x y r)).
  destruct (getSpawnPosition_spec w h rndSpawn Hsq Hrefs H0 H1)
    as (l & pos & El & Epos & Hin & _).
  destruct (validPositions_spec w h Hsq Hrefs) as (l' & El' & Hl).
  rewrite El in El'. injection El' as <-.
  assert ((0, 0) ∈ l) as Horigin.
  { apply Hl. simpl. unfold WORLD_SIZE. split; [lia |]. split; [lia |].
    destruct (getTile_inside w 0 0 Hsq) as [t Et]; [unfold WORLD_SIZE; lia .. |].
    exists t. split; [exact Et |].
    destruct (G4 0 0 t Et) as (h0 & sc0 & ->).
    rewrite createTile_origin. reflexivity. }
  assert (pos ∈ l) as Hpos.
  { apply Hin. intros ->. by apply elem_of_nil in Horigin. }
  rewrite Epos. cbn [mbind option_bind].
  set (g := mkGame w h sc _ _ _ _ _ _).
  destruct (candidate_walkable g pos Hsq) as (tile & Et & Hw & Hdeco).
  { apply Hl. exact Hpos. }
  assert (tile_type tile <> water) as Hdry.
  { intros Hwater. destruct (proj1 (Hl pos) Hpos) as (_ & _ & t & Et' & Hc).
    simpl in Et. rewrite Et in Et'. injection Et' as <-.
    unfold spawnCandidate, is_water in Hc. rewrite Hwater in Hc. discriminate. }
  exists g, l, pos, tile. split_and!; auto.
  - intros ->. simpl in Et. destruct (G4 10 10 tile Et) as (h0 & sc0 & ->).
    apply Hdry. reflexivity.
  - intros r d D Hd. rewrite (Hdeco r d D Hd). split; discriminate.
Qed.

(** ** Walkability never goes back *)

Lemma isWalkable_ext (g g' : Game) (x y : Q) :
  world g' = world g -> heap g' = heap g ->
  isWalkable g' x y = isWalkable g x y.
Proof. intros Ew Eh. unfold isWalkable. by rewrite Ew, Eh. Qed.

(** Rewriting a decoration in place, with the same type and no more health,
    keeps walkable tiles walkable. *)
Lemma walkable_heap (g : Game) (r : ref) (d d' : Decoration) (x y : Q) :
  heap g !! r = Some d -> deco_type d' = deco_type d ->
  healthOr100 d' <= healthOr100 d ->
  isWalkable g x y = Some true ->
  isWalkable (set_heap g (<[r := d']> (heap g))) x y = Some true.
Proof.
  intros Hd Hty Hh. unfold isWalkable. simpl.
  destruct (outOfBounds _ _ _); [auto |].
  destruct (getTile _ _ _) as [tile |]; [| auto]. cbn [mbind option_bind].
  destruct (is_water tile); [auto |].
  destruct (decoration tile) as [r0 |]; [| auto].
  destruct (decide (r0 = r)) as [-> | Hne].
  - rewrite Hd, list_lookup_insert_eq by (eapply lookup_lt_Some; eauto).
    cbn [mbind option_bind]. rewrite Hty.
    destruct (deco_type d); auto.
    intros [= Hle]. f_equal. apply Z.leb_le in Hle. apply Z.leb_le. lia.
  - by rewrite list_lookup_insert_ne.
Qed.

Lemma walkable_cleared (g : Game) (tree : ref) (x y : Q) :
  squareWorld (world g) ->
  isWalkable g x y = Some true ->
  isWalkable (set_world g (map (clearFirst tree) (world g))) x y = Some true.
Proof.
  intros Hsq Hw.
  destruct (outOfBounds (world g) (Math_floor x) (Math_floor y)) eqn:Hb.
  { unfold isWalkable in Hw. rewrite Hb in Hw. discriminate. }
  apply (outOfBounds_square _ _ _ Hsq) in Hb as [Hx Hy].
  destruct (getTile_inside _ _ _ Hsq Hx Hy) as [t Et].
  destruct (cleared_getTile tree _ _ _ _ Et) as (t' & Et' & Hrel & _).
  rewrite (isWalkable_at g x y t Hsq Et) in Hw.
  rewrite (isWalkable_at _ x y t'); [| by apply cleared_square | exact Et'].
  destruct Hrel as [-> | [_ ->]]; [exact Hw |].
  unfold is_water in *. simpl. destruct (tile_type t); auto.
Qed.

Section Monotone.
Context `{JsMath}.

Lemma walkable_stable (g0 : Game) :
  stable (fun g => forall x y, isWalkable g0 x y = Some true ->
                               isWalkable g x y = Some true).
Proof.
  split.
  - intros g g' Ew Eh _ _ Hp x y Hw.
    rewrite (isWalkable_ext g g') by assumption. auto.
  - intros g x y g' b Hinv Hp E x0 y0 Hw. apply Hp in Hw.
    destruct (damageTree_cases _ _ _ _ _ E)
      as [[-> _] | (tile & r & d & d' & _ & _ & Hd & Htree & _ & Htree' &
                    Hh' & Hcase)]; [exact Hw |].
    assert (healthOr100 d' <= healthOr100 d) as Hle
      by (unfold healthOr100 at 1; rewrite Hh'; simpl; lia).
    destruct Hcase as [(_ & _ & _ & ->) | (_ & _ & _ & _ & _ & _ & ->)].
    + apply (walkable_heap g r d d'); auto. congruence.
    + rewrite (isWalkable_ext (set_heap g (<[r := d']> (heap g))))
        by reflexivity.
      apply (walkable_heap g r d d'); auto. congruence.
  - intros g dt i g' Hinv Hp E x0 y0 Hw. apply Hp in Hw.
    destruct (fallingTrees g !! i) as [tree |] eqn:Ei;
      [| unfold fallStep in E; rewrite Ei in E; discriminate].
    destruct (fallStep_cases g dt i tree Hinv Ei) as (d & Hd & Hlive & Hcase).
    destruct Hcase as [(Hst & a & Ha & [[Hge E'] | [Hlt E']]) |
                       (Hst & o & Ho & Hopos & [[Hle E'] | [Hlt E']])];
      rewrite E' in E; injection E as <-.
    + apply (walkable_heap g tree d); auto; reflexivity.
    + apply (walkable_heap g tree d); auto; reflexivity.
    + set (g1 := set_heap g (<[tree := set_opacity d (Some (o - dt * 2)%Q)]>
                               (heap g))).
      rewrite (isWalkable_ext
                 (set_world g1 (map (clearFirst tree) (world g1))))
        by reflexivity.
      apply walkable_cleared; [apply Hinv |].
      apply (walkable_heap g tree d); auto; reflexivity.
    + apply (walkable_heap g tree d); auto; reflexivity.
Qed.

(** C9.  In a running game, whatever key events and frames follow, a tile
    that [isWalkable] accepts is accepted ever after (and the events are
    processed without a fault). *)
Theorem walkable_monotone (g : Game) (evs : list Event) :
  reachable g ->
  exists g',
    run g evs = Some g' /\
    forall x y, isWalkable g x y = Some true -> isWalkable g' x y = Some true.
Proof.
  intros Hr.
  destruct (run_stable _ (walkable_stable g) evs g (reachable_inv g Hr))
    as (g' & E & _ & Hp); [auto |].
  eauto.
Qed.

End Monotone.

(** ** The shared cooldown *)

Section Cooldown.
Context `{JsMath}.

(** [update] in three stages. *)
Lemma update_stages (g : Game) (deltaTime : Q) :
  inv g ->
  exists g1 g2 g',
    world g1 = world g /\ heap g1 = heap g /\ scene g1 = scene g /\
    fallingTrees g1 = fallingTrees g /\ player g1 = player g /\
    input g1 = input g /\ lastTime g1 = lastTime g /\
    isMoving g1 = isMoving g /\
    chopCooldown g1 = tickCooldown (chopCooldown g) deltaTime /\
    updatePlayer g1 deltaTime = Some g2 /\
    updateFallingTrees g2 deltaTime = Some g' /\
    update g deltaTime = Some g' /\
    inv g1 /\ inv g2 /\ inv g' /\ animated g2 g'.
Proof.
  intros Hinv. unfold update.
  set (g1 := if Qlt_bool 0 (chopCooldown g) then _ else g).
  assert (world g1 = world g /\ heap g1 = heap g /\ scene g1 = scene g /\
          fallingTrees g1 = fallingTrees g /\ player g1 = player g /\
          input g1 = input g /\ lastTime g1 = lastTime g /\
          isMoving g1 = isMoving g /\
          chopCooldown g1 = tickCooldown (chopCooldown g) deltaTime)
    as (E1 & E2 & E3 & E4 & E5 & E6 & E7 & E8 & E9).
  { subst g1. unfold tickCooldown.
    destruct (Qlt_bool 0 (chopCooldown g)); simpl; auto 10. }
  assert (inv g1) as Hinv1 by (by apply (inv_same g)).
  destruct (updatePlayer_total g1 deltaTime Hinv1) as [g2 Ep].
  pose proof (inv_updatePlayer _ _ _ Hinv1 Ep) as Hinv2.
  destruct (updateFallingTrees_animated g2 deltaTime Hinv2)
    as (g' & Ef & Hinv' & Han).
  exists g1, g2, g'. rewrite Ep. cbn [mbind option_bind].
  split_and!; auto.
Qed.





End Cooldown.

(** ** Falling, fading, removal *)

(** [fallStep] on a tree of a state that satisfies the invariant, in terms
    of [advanceTree] and [fadedOut]. *)
Lemma fallStep_visit (g : Game) (dt : Q) (i : nat) (tree : ref)
      (d : Decoration) :
  inv g -> fallingTrees g !! i = Some tree -> heap g !! tree = Some d ->
  fallStep g dt i =
  Some (if fadedOut dt d
        then set_world
               (set_fallingTrees
                  (set_scene
                     (set_heap g (<[tree := advanceTree dt d]> (heap g)))
                     (sceneRemove tree (scene g)))
                  (delete i (fallingTrees g)))
               (map (clearFirst tree) (world g))
        else set_heap g (<[tree := advanceTree dt d]> (heap g))).
Proof.
  intros Hinv Ei Hd.
  destruct (fallStep_cases g dt i tree Hinv Ei) as (d0 & Hd0 & _ & Hcase).
  rewrite Hd in Hd0. injection Hd0 as <-.
  unfold advanceTree, fadedOut.
  destruct Hcase as [(Hst & a & Ha & [[Hge E] | [Hlt E]]) |
                     (Hst & o & Ho & Hopos & [[Hle E] | [Hlt E]])];
    rewrite E, Hst, ?Ha, ?Ho.
  - change (default 0%Q (Some a)) with a.
    apply Qle_bool_iff in Hge. by rewrite Hge.
  - change (default 0%Q (Some a)) with a.
    apply Qle_bool_false in Hlt. by rewrite Hlt.
  - change (default 1%Q (Some o)) with o.
    apply Qle_bool_iff in Hle. by rewrite Hle.
  - change (default 1%Q (Some o)) with o.
    apply Qle_bool_false in Hlt. by rewrite Hlt.
Qed.

Lemma elem_of_delete_other {A} (l : list A) (i : nat) (x y : A) :
  x ∈ l -> l !! i = Some y -> x <> y -> x ∈ delete i l.
Proof.
  intros Hin Ei Hne. rewrite delete_take_drop.
  rewrite <- (take_drop_middle l i y Ei) in Hin.
  apply elem_of_app in Hin as [Hin | Hin].
  - apply elem_of_app. by left.
  - apply elem_of_cons in Hin as [-> | Hin]; [contradiction |].
    apply elem_of_app. by right.
Qed.

(** A visit to another tree leaves [r] as it is. *)
Lemma fallStep_other (g : Game) (dt : Q) (i : nat) (tree r : ref)
      (g' : Game) :
  inv g -> fallingTrees g !! i = Some tree -> tree <> r ->
  fallStep g dt i = Some g' ->
  heap g' !! r = heap g !! r /\
  (present g r -> present g' r) /\
  (removed g r -> removed g' r) /\
  (forall j, (j < i)%nat -> fallingTrees g' !! j = fallingTrees g !! j).
Proof.
  intros Hinv Ei Hne E.
  destruct (inv_falling g Hinv tree) as (d & Hd & _);
    [eapply list_elem_of_lookup_2; eauto |].
  rewrite (fallStep_visit g dt i tree d Hinv Ei Hd) in E. injection E as <-.
  destruct (fadedOut dt d); simpl.
  - split; [by apply list_lookup_insert_ne |]. split; [| split].
    + intros (Hin & (x & y & Hr) & Hsc). split; [| split].
      * eapply elem_of_delete_other; eauto.
      * exists x, y. apply cleared_holds_other; auto.
      * apply list_elem_of_filter. auto.
    + intros (Hin & Href & Hsc). split; [| split].
      * intros Hin'. apply Hin. by apply list_elem_of_delete_inv in Hin'.
      * intros (x & y & Hr). apply Href. exists x, y.
        by apply cleared_holds in Hr.
      * intros Hsc'. apply Hsc. by apply list_elem_of_filter in Hsc' as [_ ?].
    + intros j Hj. by apply list_lookup_delete_lt.
  - split; [by apply list_lookup_insert_ne |]. auto.
Qed.

Lemma fallLoop_indexed (P : nat -> Game -> Prop) (dt : Q) :
  (forall g i g', inv g -> P (S i) g -> (i < length (fallingTrees g))%nat ->
                  fallStep g dt i = Some g' -> P i g') ->
  forall n g, inv g -> P n g -> (n <= length (fallingTrees g))%nat ->
              exists g', fallLoop n g dt = Some g' /\ inv g' /\ P 0%nat g'.
Proof.
  intros Hstep. induction n as [| n IH]; intros g Hinv Hp Hn; simpl; [eauto |].
  destruct (fallStep_total g dt n Hinv) as (g1 & E1 & Hlen); [lia |].
  rewrite E1. cbn [mbind option_bind].
  apply IH; [eapply inv_fallStep; eauto | | exact Hlen].
  eapply Hstep; eauto.
Qed.

(** The falling loop visits every falling tree exactly once: afterwards the
    tree holds what [advanceTree] writes, and it has been removed if it
    faded out and is still present if not. *)
Lemma updateFallingTrees_visit (g : Game) (deltaTime : Q) (r : ref)
      (d : Decoration) :
  inv g -> present g r -> heap g !! r = Some d ->
  exists g',
    updateFallingTrees g deltaTime = Some g' /\ inv g' /\
    heap g' !! r = Some (advanceTree (deltaTime / 1000) d) /\
    (if fadedOut (deltaTime / 1000) d then removed g' r else present g' r).
Proof.
  intros Hinv Hpres Hd. pose proof Hpres as (Hin & _).
  apply list_elem_of_lookup_1 in Hin as [k Ek].
  set (dt := (deltaTime / 1000)%Q).
  set (P := fun (i : nat) (g1 : Game) =>
              ((k < i)%nat ->
               fallingTrees g1 !! k = Some r /\ heap g1 !! r = Some d /\
               present g1 r) /\
              ((i <= k)%nat ->
               (forall j, (j < i)%nat -> fallingTrees g1 !! j <> Some r) /\
               heap g1 !! r = Some (advanceTree dt d) /\
               (if fadedOut dt d then removed g1 r else present g1 r))).
  destruct (fallLoop_indexed P dt) with (n := length (fallingTrees g)) (g := g)
    as (g' & E & Hinv' & Hp); auto.
  - intros g1 i g2 Hinv1 [Hbefore Hafter] Hi E.
    destruct (lookup_lt_is_Some_2 _ _ Hi) as [tree Ei].
    destruct (decide (k < i)%nat) as [Hki | Hki]; [| destruct (decide (i = k))
                                                       as [-> | Hik]].
    + destruct Hbefore as (Ek1 & Hd1 & Hpres1); [lia |].
      assert (tree <> r) as Hne.
      { intros ->. pose proof (NoDup_lookup _ _ _ _ (inv_nodup _ Hinv1) Ei Ek1).
        lia. }
      destruct (fallStep_other g1 dt i tree r g2 Hinv1 Ei Hne E)
        as (Eh & Hp & _ & Hsame).
      split; [| intros; lia]. intros _.
      rewrite Hsame, Eh by lia. auto.
    + destruct Hbefore as (Ek1 & Hd1 & (Hin1 & Href1 & Hsc1)); [lia |].
      rewrite Ek1 in Ei. injection Ei as <-.
      rewrite (fallStep_visit g1 dt k r d Hinv1 Ek1 Hd1) in E.
      split; [intros; lia |]. intros _.
      assert (forall j, (j < k)%nat -> fallingTrees g1 !! j <> Some r) as Hlow.
      { intros j Hj Ej.
        pose proof (NoDup_lookup _ _ _ _ (inv_nodup _ Hinv1) Ej Ek1). lia. }
      assert (is_Some (heap g1 !! r)) as Hlt by eauto.
      apply lookup_lt_is_Some_1 in Hlt.
      destruct (fadedOut dt d); injection E as <-; simpl.
      * split; [intros j Hj; rewrite list_lookup_delete_lt by lia; auto |].
        split; [by apply list_lookup_insert_eq |].
        split; [by apply NoDup_delete_notin; [apply Hinv1 |] |].
        split.
        -- intros (x & y & Hr). eapply cleared_gone; [| exact Hr].
           intros. eapply (inv_owner _ Hinv1); eauto.
        -- intros Hsc. by apply list_elem_of_filter in Hsc as [? _].
      * split; [exact Hlow |]. split; [by apply list_lookup_insert_eq |].
        split; auto.
    + destruct Hafter as (Hlow & Hd1 & Hpost); [lia |].
      assert (tree <> r) as Hne
          by (intros ->; apply (Hlow i); [lia | exact Ei]).
      destruct (fallStep_other g1 dt i tree r g2 Hinv1 Ei Hne E)
        as (Eh & Hp & Hrm & Hsame).
      split; [intros; lia |]. intros _.
      split; [intros j Hj; rewrite Hsame by lia; apply Hlow; lia |].
      split; [by rewrite Eh |].
      destruct (fadedOut dt d); auto.
  - split; [| intros Hle; apply lookup_lt_Some in Ek; lia]. auto.
  - exists g'. split; [exact E |]. split; [exact Hinv' |].
    destruct Hp as [_ Hp]. destruct Hp as (_ & Hd' & Hpost); [lia |]. auto.
Qed.

Section Removal.
Context `{JsMath}.

(** Once removed, always removed. *)
Lemma removed_stable (r : ref) : stable (fun g => removed g r).
Proof.
  split.
  - intros g g' Ew _ Es Ef. unfold removed. by rewrite Ew, Es, Ef.
  - intros g x y g' b Hinv (Hin & Href & Hsc) E.
    destruct (damageTree_frame _ _ _ _ _ E) as (Ew & Es & _).
    unfold removed. rewrite Ew, Es. split; [| auto].
    destruct (damageTree_cases _ _ _ _ _ E)
      as [[-> _] | (tile & r0 & d & d' & Et & D & _ & _ & _ & _ & _ &
                    [(_ & _ & _ & ->) | (_ & _ & _ & _ & _ & _ & ->)])];
      simpl; auto.
    intros Hin'. apply elem_of_app in Hin' as [? | Hin']; [auto |].
    apply list_elem_of_singleton in Hin' as ->.
    apply Href. exists (Math_floor x), (Math_floor y), tile. auto.
  - intros g dt i g' Hinv Hrm E.
    destruct (fallingTrees g !! i) as [tree |] eqn:Ei;
      [| unfold fallStep in E; rewrite Ei in E; discriminate].
    assert (tree <> r) as Hne.
    { intros ->. destruct Hrm as [Hin _]. apply Hin.
      eapply list_elem_of_lookup_2; eauto. }
    destruct (fallStep_other g dt i tree r g' Hinv Ei Hne E)
      as (_ & _ & Hkeep & _).
    by apply Hkeep.
Qed.

(** The player step leaves the falling trees alone. *)
Lemma updatePlayer_keeps (g : Game) (deltaTime : Q) (g2 : Game) (r : ref) :
  inv g -> updatePlayer g deltaTime = Some g2 -> present g r ->
  heap g2 !! r = heap g !! r /\ present g2 r.
Proof.
  intros Hinv E Hpres.
  destruct (updatePlayer_cases _ _ _ E)
    as [(p & b & ->) | (p & gd & b & _ & _ & Hdmg & _ & ->)]; [auto |].
  destruct (damageTree_frame _ _ _ _ _ Hdmg) as (Ew & Es & _).
  unfold present. simpl. rewrite Ew, Es. simpl.
  destruct Hpres as (Hin & Href & Hsc).
  destruct (inv_falling g Hinv r Hin) as (d & Hd & Hlive & _).
  apply live_not_positive in Hlive.
  destruct (damageTree_cases _ _ _ _ _ Hdmg)
    as [[-> _] | (tile & r0 & d0 & d' & _ & _ & Hd0 & _ & Hpos & _ & _ & Hcase)];
    [auto |].
  simpl in Hd0.
  assert (r0 <> r) as Hne by (intros ->; rewrite Hd in Hd0; injection Hd0 as <-; lia).
  destruct Hcase as [(_ & _ & _ & ->) | (_ & _ & _ & _ & _ & _ & ->)]; simpl;
    (split; [by apply list_lookup_insert_ne |]); split; auto.
  apply elem_of_app. by left.
Qed.

Lemma falling_present (g : Game) (r : ref) :
  inv g -> r ∈ fallingTrees g -> present g r.
Proof.
  intros Hinv Hin. destruct (inv_falling g Hinv r Hin) as (d & _ & _ & Href).
  split; [exact Hin |]. split; [exact Href |]. by apply (inv_scene g Hinv).
Qed.



End Removal.

(** ** Holding a key against a tree *)

Lemma inBounds_outOfBounds (w : list (list Tile)) (x y : Z) :
  (0 <=? x) && (x <? Z.of_nat (length w)) && (0 <=? y) &&
  (y <? Z.of_nat (length (default [] (w !! 0%nat)))) =
  negb (outOfBounds w x y).
Proof.
  unfold outOfBounds. rewrite !Z.geb_leb.
  destruct (Z.leb_spec 0 x), (Z.ltb_spec x 0),
    (Z.ltb_spec x (Z.of_nat (length w))),
    (Z.leb_spec (Z.of_nat (length w)) x),
    (Z.leb_spec 0 y), (Z.ltb_spec y 0),
    (Z.ltb_spec y (Z.of_nat (length (default [] (w !! 0%nat))))),
    (Z.leb_spec (Z.of_nat (length (default [] (w !! 0%nat)))) y);
    simpl; try reflexivity; lia.
Qed.

Lemma inputDelta_nonzero (i : InputState) :
  inputDelta i <> (0, 0) ->
  negb ((inputDelta i).1 =? 0) || negb ((inputDelta i).2 =? 0) = true.
Proof.
  destruct (inputDelta i) as [dx dy]. simpl. intros Hne.
  destruct (Z.eqb_spec dx 0), (Z.eqb_spec dy 0); simpl; auto.
  subst. contradiction.
Qed.

(** The step of the keys held, key by key. *)
Lemma inputDelta_keys (i : InputState) :
  inputDelta i =
  ((if input_right i then 1 else 0) - (if input_left i then 1 else 0),
   (if input_down i then 1 else 0) - (if input_up i then 1 else 0)).
Proof.
  unfold inputDelta.
  destruct (input_up i), (input_down i), (input_left i), (input_right i);
    reflexivity.
Qed.

Lemma inputDelta_range (i : InputState) :
  inputDelta i <> (0, 0) ->
  let dx := (inputDelta i).1 in
  let dy := (inputDelta i).2 in
  -1 <= dx <= 1 /\ -1 <= dy <= 1 /\ (dx <> 0 \/ dy <> 0) /\
  (dx <> 0 <-> input_left i <> input_right i) /\
  (dy <> 0 <-> input_up i <> input_down i).
Proof.
  intros Hne dx dy. subst dx dy. revert Hne. rewrite inputDelta_keys.
  destruct (input_up i), (input_down i), (input_left i), (input_right i);
    simpl; intros Hne;
    split_and!; try lia; try (split; [congruence | lia]);
    try (split; [lia | congruence]); try (left; lia); try (right; lia);
    try (split; intros; [congruence | lia]); contradiction.
Qed.

Section Holding.
Context `{JsMath}.

Lemma facingTree_same (g g' : Game) (r : ref) (h : Z) :
  world g' = world g -> heap g' = heap g -> input g' = input g ->
  isMoving g' = isMoving g ->
  player_x (player g') = player_x (player g) ->
  player_y (player g') = player_y (player g) ->
  facingTree g r h -> facingTree g' r h.
Proof.
  unfold facingTree, intentTarget. intros -> -> -> -> -> ->. auto.
Qed.

(** The player step while facing a standing tree: it chops when the
    cooldown is at most 0 and only turns the player otherwise. *)
Lemma updatePlayer_facing (g : Game) (deltaTime : Q) (r : ref) (h : Z) :
  inv g -> facingTree g r h -> 0 < h ->
  exists g2,
    updatePlayer g deltaTime = Some g2 /\
    world g2 = world g /\ input g2 = input g /\ isMoving g2 = false /\
    player_x (player g2) = player_x (player g) /\
    player_y (player g2) = player_y (player g) /\
    (((chopCooldown g <= 0)%Q /\ chopCooldown g2 = 300%Q /\
      exists d2, heap g2 !! r = Some d2 /\ health d2 = Some (h - 34) /\
                 deco_type d2 = tree) \/
     ((0 < chopCooldown g)%Q /\ chopCooldown g2 = chopCooldown g /\
      heap g2 = heap g)).
Proof.
  intros Hinv (Hidle & Hkeys & tile & d & Et & D & Hd & Htree & Hh) Hpos.
  pose proof (inv_square g Hinv) as Hsq.
  unfold updatePlayer. rewrite Hidle.
  pose proof (inputDelta_nonzero _ Hkeys) as Hnz.
  unfold intentTarget in Et.
  destruct (inputDelta (input g)) as [dx dy]. simpl in Hnz, Et. rewrite Hnz.
  set (tX := Math_round (player_x (player g)) + dx) in *.
  set (tY := Math_round (player_y (player g)) + dy) in *.
  set (g1 := set_player g _).
  assert (healthOr100 d = h) as Hh100 by (unfold healthOr100; by rewrite Hh).
  assert (isWalkable g1 (inject_Z tX) (inject_Z tY) = Some false) as Hblocked.
  { rewrite (isWalkable_at g1 _ _ tile) by (rewrite ?Math_floor_inject; auto).
    destruct (is_water tile); [reflexivity |].
    rewrite D. simpl. rewrite Hd. cbn [mbind option_bind].
    rewrite Htree, Hh100. f_equal. apply Z.leb_gt. lia. }
  rewrite Hblocked. cbn [mbind option_bind].
  destruct (Qle_bool (chopCooldown g1) 0) eqn:Hcool.
  - apply Qle_bool_iff in Hcool.
    rewrite inBounds_outOfBounds, !Math_floor_inject.
    pose proof (getTile_bounds _ _ _ _ Hsq Et) as Hb.
    apply (outOfBounds_square _ _ _ Hsq) in Hb.
    change (world g1) with (world g). rewrite Hb, Et.
    cbn [negb mbind option_bind]. rewrite D.
    change (heap g1) with (heap g). rewrite Hd. cbn [mbind option_bind].
    apply is_tree_true in Htree as Htree'. rewrite Htree'.
    destruct (damageTree_live g1 (inject_Z tX) (inject_Z tY) tile r d)
      as (gd & b & d' & Edmg & Hd' & Hh' & Htree2 & _);
      rewrite ?Math_floor_inject; auto; [lia |].
    rewrite Edmg. cbn [mbind option_bind].
    destruct (damageTree_frame _ _ _ _ _ Edmg)
      as (Ew & _ & Ep & Ei & _ & Em & _).
    eexists. split; [reflexivity |]. simpl.
    rewrite Ew, Ei, Em, Ep. simpl. split_and!; auto.
    left. split; [exact Hcool |]. split; [reflexivity |].
    exists d'. rewrite <- Hh100. auto.
  - apply Qle_bool_false in Hcool.
    eexists. split; [reflexivity |]. simpl. split_and!; auto.
Qed.

(** One frame while facing a standing tree, with no new key event: when the
    ticked cooldown is at most 0 the frame chops and re-arms the cooldown;
    otherwise it only lets the cooldown run.  Either way the player still
    faces the tree, as long as the tree stands. *)
Lemma update_facing (g : Game) (deltaTime : Q) (r : ref) (h : Z) :
  inv g -> facingTree g r h -> 0 < h ->
  exists g',
    update g deltaTime = Some g' /\ inv g' /\
    (((tickCooldown (chopCooldown g) deltaTime <= 0)%Q /\
      chopCooldown g' = 300%Q /\
      (exists d', heap g' !! r = Some d' /\ health d' = Some (h - 34) /\
                  deco_type d' = tree) /\
      (0 < h - 34 -> facingTree g' r (h - 34))) \/
     ((0 < tickCooldown (chopCooldown g) deltaTime)%Q /\
      chopCooldown g' = tickCooldown (chopCooldown g) deltaTime /\
      facingTree g' r h)).
Proof.
  intros Hinv Hface Hpos.
  destruct (update_stages g deltaTime Hinv)
    as (g1 & g2 & g' & Ew & Eh & Es & Ef & Epl & Ei & _ & Em & Ec & Ep & _ &
        Eu & Hinv1 & Hinv2 & Hinv' & Han).
  assert (facingTree g1 r h) as Hface1
    by (apply (facingTree_same g); auto; by rewrite Epl).
  destruct (updatePlayer_facing g1 deltaTime r h Hinv1 Hface1 Hpos)
    as (g2' & Ep' & Ew2 & Ei2 & Em2 & Ex2 & Ey2 & Hcase).
  rewrite Ep in Ep'. injection Ep' as <-.
  exists g'. split; [exact Eu |]. split; [exact Hinv' |].
  assert (forall h', 0 < h' ->
            (exists d2, heap g2 !! r = Some d2 /\ deco_type d2 = tree /\
                        health d2 = Some h') ->
            facingTree g' r h') as Hkeep.
  { intros h' Hpos' (d2 & Hd2 & Htree2 & Hh2).
    assert (r ∉ fallingTrees g2) as Hnotin.
    { intros Hin. destruct (inv_falling g2 Hinv2 r Hin) as (d0 & Hd0 & Hl & _).
      rewrite Hd2 in Hd0. injection Hd0 as <-.
      apply live_not_positive in Hl. unfold healthOr100 in Hl.
      rewrite Hh2 in Hl. simpl in Hl. lia. }
    destruct Hface1 as (_ & Hkeys & tile & d & Et & D & _).
    split; [rewrite (an_isMoving _ _ Han); exact Em2 |].
    rewrite (an_input _ _ Han), Ei2, (an_player _ _ Han).
    split; [exact Hkeys |].
    exists tile, d2. unfold intentTarget in *. rewrite Ex2, Ey2.
    split_and!; auto.
    - apply (an_tiles _ _ Han); [by rewrite Ew2 |].
      intros r0 D0. rewrite D in D0. by injection D0 as <-.
    - rewrite (an_others _ _ Han); auto. }
  rewrite <- Ec.
  destruct Hcase as [(Hcool & Ec2 & d2 & Hd2 & Hh2 & Htree2) |
                     (Hcool & Ec2 & Eh2)].
  - left. split; [exact Hcool |].
    split; [rewrite (an_cooldown _ _ Han); exact Ec2 |]. split.
    + destruct (an_health _ _ Han r d2 Hd2) as (d' & Hd' & Eh' & Et').
      exists d'. split; [exact Hd' |]. split; congruence.
    + intros Hpos'. apply Hkeep; eauto.
  - right. split; [exact Hcool |].
    split; [rewrite (an_cooldown _ _ Han); exact Ec2 |].
    destruct Hface1 as (_ & _ & tile & d & _ & _ & Hd & Htree & Hh).
    apply Hkeep; [exact Hpos |]. exists d. rewrite Eh2. auto.
Qed.

(** The health of a felled tree never changes again. *)
Lemma spent_stable (r : ref) (h : Z) :
  h <= 0 ->
  stable (fun g => exists d, heap g !! r = Some d /\ deco_type d = tree /\
                             health d = Some h).
Proof.
  intros Hle. split.
  - intros g g' _ Eh _ _. by rewrite Eh.
  - intros g x y g' b Hinv (d & Hd & Htree & Hh) E.
    destruct (damageTree_cases _ _ _ _ _ E)
      as [[-> _] | (tile & r0 & d0 & d' & _ & _ & Hd0 & _ & Hpos & _ & _ &
                    Hcase)]; [eauto |].
    assert (r0 <> r) as Hne.
    { intros ->. rewrite Hd in Hd0. injection Hd0 as <-.
      unfold healthOr100 in Hpos. rewrite Hh in Hpos. simpl in Hpos. lia. }
    exists d.
    destruct Hcase as [(_ & _ & _ & ->) | (_ & _ & _ & _ & _ & _ & ->)]; simpl;
      (split; [by rewrite list_lookup_insert_ne | auto]).
  - intros g dt i g' Hinv (d & Hd & Htree & Hh) E.
    destruct (an_health _ _ (fallStep_animated g dt i g' Hinv E) r d Hd)
      as (d' & Hd' & Eh' & Et').
    exists d'. split; [exact Hd' |]. split; congruence.
Qed.

Lemma updates_stable (P : Game -> Prop) (deltaTimes : list Q) :
  stable P ->
  forall g, inv g -> P g ->
            exists g', updates g deltaTimes = Some g' /\ inv g' /\ P g'.
Proof.
  intros HP. induction deltaTimes as [| dt ds IH]; intros g Hinv Hp; simpl;
    [eauto |].
  destruct (update_stable P HP g dt Hinv Hp) as (g1 & E1 & Hinv1 & Hp1).
  rewrite E1. cbn [mbind option_bind]. by apply IH.
Qed.

(** Holding the key: enough frame time fells the tree. *)
Lemma hold_depletes (r : ref) (deltaTimes : list Q) :
  forall (g : Game) (h : Z),
    inv g -> facingTree g r h -> h = 100 \/ h = 66 \/ h = 32 ->
    Forall (fun dt => (0 < dt)%Q /\ (dt <= 50)%Q) deltaTimes ->
    (holdBudget h (chopCooldown g) <= totalTime deltaTimes)%Q ->
    exists g' d',
      updates g deltaTimes = Some g' /\ heap g' !! r = Some d' /\
      deco_type d' = tree /\ health d' = Some (-2).
Proof.
  induction deltaTimes as [| dt ds IH]; intros g h Hinv Hface Hh Hds Hbudget.
  - exfalso. unfold totalTime in Hbudget. simpl in Hbudget.
    pose proof (Q.le_max_r (chopCooldown g) 0) as Hmax.
    unfold holdBudget in Hbudget.
    destruct (h <=? 34); [lra |]. destruct (h <=? 68); lra.
  - apply Forall_cons in Hds as [[Hdt0 Hdt50] Hds].
    change (totalTime (dt :: ds)) with (dt + totalTime ds)%Q in Hbudget.
    simpl.
    destruct (update_facing g dt r h Hinv Hface) as (g1 & E1 & Hinv1 & Hcase);
      [lia |].
    rewrite E1. cbn [mbind option_bind].
    pose proof (Q.le_max_r (chopCooldown g) 0) as Hmax.
    destruct Hcase as [(Htick & Ec1 & (d1 & Hd1 & Hh1 & Htree1) & Hface1) |
                       (Htick & Ec1 & Hface1)].
    + destruct Hh as [-> | [-> | ->]].
      * apply (IH g1 66); auto; [apply Hface1; lia |].
        rewrite Ec1. unfold holdBudget in *. simpl in *.
        change (Qmax 300 0) with 300%Q. lra.
      * apply (IH g1 32); auto; [apply Hface1; lia |].
        rewrite Ec1. unfold holdBudget in *. simpl in *.
        change (Qmax 300 0) with 300%Q. lra.
      * destruct (updates_stable _ ds (spent_stable r (-2) ltac:(lia)) g1)
          as (g' & E' & _ & d' & Hd' & Htree' & Hh'); eauto.
        exists g', d'. auto.
    + apply (IH g1 h); auto.
      rewrite Ec1. unfold tickCooldown in *.
      destruct (Qlt_bool 0 (chopCooldown g)) eqn:Hc.
      * apply Qlt_bool_iff in Hc.
        destruct (Q.max_spec (chopCooldown g) 0) as [[? Hm] | [? Hm]]; [lra |].
        destruct (Q.max_spec (chopCooldown g - dt) 0) as [[? Hm'] | [? Hm']];
          [lra |].
        unfold holdBudget in *.
        destruct (h <=? 34); [lra |]. destruct (h <=? 68); lra.
      * apply Qlt_bool_false in Hc. lra.
Qed.

(** C10.  With the player idle and the keys held pointing at a standing
    tree, every frame attempts the chop anew, with no key event in between:
    a frame whose ticked cooldown is at most 0 chops (34 health points off,
    cooldown back to 300) and a frame whose ticked cooldown is still
    positive only lets it run; either way the player keeps facing the tree
    while it stands.  So a fresh tree is felled by frames of at most 50 ms
    that add up to the rest of the cooldown plus 750 ms. *)
Theorem holding_key_chops (g : Game) (r : ref) (h : Z) :
  reachable g -> facingTree g r h -> 0 < h ->
  (forall deltaTime,
      exists g',
        update g deltaTime = Some g' /\
        (((tickCooldown (chopCooldown g) deltaTime <= 0)%Q /\
          chopCooldown g' = 300%Q /\
          (exists d', heap g' !! r = Some d' /\ health d' = Some (h - 34) /\
                      deco_type d' = tree) /\
          (0 < h - 34 -> facingTree g' r (h - 34))) \/
         ((0 < tickCooldown (chopCooldown g) deltaTime)%Q /\
          chopCooldown g' = tickCooldown (chopCooldown g) deltaTime /\
          facingTree g' r h))) /\
  (h = 100 ->
   forall deltaTimes,
     Forall (fun dt => (0 < dt)%Q /\ (dt <= 50)%Q) deltaTimes ->
     (Qmax (chopCooldown g) 0 + 750 <= totalTime deltaTimes)%Q ->
     exists g' d',
       updates g deltaTimes = Some g' /\ heap g' !! r = Some d' /\
       deco_type d' = tree /\ health d' = Some (-2)).
Proof.
  intros Hr Hface Hpos. pose proof (reachable_inv g Hr) as Hinv. split.
  - intros deltaTime.
    destruct (update_facing g deltaTime r h Hinv Hface Hpos)
      as (g' & E & _ & Hcase).
    eauto.
  - intros -> ds Hds Hbudget. apply (hold_depletes r ds g 100); auto.
    unfold holdBudget. simpl. lra.
Qed.

End Holding.

(** ** Decorations stand on grass *)


Section Grass.
Context `{JsMath}.



Lemma reachable_after (g : Game) (evs : list Event) (g' : Game) :
  reachable g -> run g evs = Some g' -> reachable g'.
Proof.
  revert g. induction evs as [| e evs IH]; intros g Hr E; simpl in E.
  - by injection E as <-.
  - destruct (step g e) as [g1 |] eqn:E1; [| discriminate].
    cbn [mbind option_bind] in E. eapply IH; [| exact E].
    eapply reachable_step; eauto.
Qed.

End Grass.


End GameFacts.

(** * Properties of src/tree.ts *)

Module TreeTileFacts.
Import TreeTile.

Lemma createTree_inv (x y : Z) (rndX rndY : Q) :
  treeInv (createTree x y rndX rndY).
Proof.
  split; simpl; auto; try discriminate; try lia.
Qed.

(** A chop on a standing tree. *)
Lemma damage_standing (now : Q) (dir : Vector3) (t : Tree) :
  0 < health t ->
  health (damage now dir t) = health t - 34 /\
  shakeEndTime (damage now dir t) = (now + 150)%Q /\
  opacity (damage now dir t) = opacity t /\
  isDestroyed (damage now dir t) = isDestroyed t /\
  treeMeshAttached (damage now dir t) = treeMeshAttached t /\
  (health t - 34 <= 0 ->
   state (damage now dir t) = falling /\
   fallAngle (damage now dir t) = 0%Q /\
   fallDirection (damage now dir t) = Some dir /\
   isWalkable (damage now dir t) = true) /\
  (0 < health t - 34 ->
   state (damage now dir t) = state t /\
   fallAngle (damage now dir t) = fallAngle t /\
   fallDirection (damage now dir t) = fallDirection t /\
   isWalkable (damage now dir t) = isWalkable t).
Proof.
  intros Hpos. unfold damage.
  destruct (Z.leb_spec (health t) 0); [lia |].
  destruct (Z.leb_spec (health t - 34) 0); simpl; split_and!; auto; lia.
Qed.

(** A chop on a felled tree does nothing. *)
Lemma damage_felled (now : Q) (dir : Vector3) (t : Tree) :
  health t <= 0 -> damage now dir t = t.
Proof.
  intros Hle. unfold damage.
  destruct (Z.leb_spec (health t) 0); [reflexivity | lia].
Qed.

Lemma damage_inv (now : Q) (dir : Vector3) (t : Tree) :
  treeInv t -> treeInv (damage now dir t).
Proof.
  intros Hinv. destruct (Z.le_gt_cases (health t) 0) as [Hle | Hpos].
  { by rewrite damage_felled. }
  destruct (damage_standing now dir t) as (Eh & _ & Eo & Ed & Em & Hfell & Hkeep);
    [lia |].
  destruct Hinv as [I1 I2 I3 I4 I5].
  destruct (I2 ltac:(lia)) as (Hst & Hw & Hd & Hm & Hop).
  destruct (Z.le_gt_cases (health t - 34) 0) as [Hle' | Hpos'].
  - destruct (Hfell Hle') as (Es & Ea & Edir & Ew).
    split; rewrite ?Eh, ?Es, ?Ea, ?Edir, ?Ew, ?Eo, ?Ed, ?Em.
    + lia.
    + lia.
    + intros _. split; [discriminate |]. split; [reflexivity | by eexists].
    + intros _. split; [reflexivity |]. split; [exact Hd |].
      split; [exact Hm |]. by rewrite Hop.
    + discriminate.
  - destruct (Hkeep ltac:(lia)) as (Es & Ea & Edir & Ew).
    split; rewrite ?Eh, ?Es, ?Ea, ?Edir, ?Ew, ?Eo, ?Ed, ?Em; try lia; auto.
Qed.

Lemma half_turn_pos : (0 < Math_PI / 2)%Q.
Proof. reflexivity. Qed.

(** One frame of a falling tree. *)
Lemma update_falling (deltaTime : Q) (t : Tree) (dir : Vector3) :
  state t = falling -> fallDirection t = Some dir ->
  exists t', update deltaTime t = Some t' /\
    health t' = health t /\ isWalkable t' = isWalkable t /\
    opacity t' = opacity t /\ isDestroyed t' = isDestroyed t /\
    treeMeshAttached t' = treeMeshAttached t /\
    fallDirection t' = fallDirection t /\
    ((state t' = falling /\
      fallAngle t' = (fallAngle t + deltaTime / 1000 * 2.5)%Q /\
      (fallAngle t' < Math_PI / 2)%Q) \/
     (state t' = fading /\ fallAngle t' = (Math_PI / 2)%Q /\
      (Math_PI / 2 <= fallAngle t + deltaTime / 1000 * 2.5)%Q)).
Proof.
  intros Hs Hd. unfold update. rewrite Hs, Hd. cbn [mbind option_bind].
  destruct (Qle_bool _ _) eqn:E; eexists; (split; [reflexivity |]);
    cbn [health isWalkable opacity isDestroyed treeMeshAttached fallDirection
         state fallAngle]; split_and!; auto.
  - right. apply Qle_bool_iff in E. auto.
  - left. apply GameFacts.Qle_bool_false in E. auto.
Qed.

(** One frame of a fading tree. *)
Lemma update_fading (deltaTime : Q) (t : Tree) :
  state t = fading ->
  exists t', update deltaTime t = Some t' /\
    health t' = health t /\ isWalkable t' = isWalkable t /\
    state t' = fading /\ fallAngle t' = fallAngle t /\
    fallDirection t' = fallDirection t /\
    opacity t' = (opacity t - deltaTime / 1000 * 2)%Q /\
    (((0 < opacity t')%Q /\ isDestroyed t' = isDestroyed t /\
      treeMeshAttached t' = treeMeshAttached t) \/
     ((opacity t' <= 0)%Q /\ isDestroyed t' = true /\
      treeMeshAttached t' = false)).
Proof.
  intros Hs. unfold update. rewrite Hs.
  destruct (Qle_bool _ _) eqn:E; eexists; (split; [reflexivity |]);
    cbn [health isWalkable opacity isDestroyed treeMeshAttached fallDirection
         state fallAngle]; split_and!; auto.
  - right. apply Qle_bool_iff in E. auto.
  - left. apply GameFacts.Qle_bool_false in E. auto.
Qed.

Lemma update_healthy (deltaTime : Q) (t : Tree) :
  state t = healthy -> update deltaTime t = Some t.
Proof. intros Hs. unfold update. by rewrite Hs. Qed.

Lemma update_inv (deltaTime : Q) (t t' : Tree) :
  treeInv t -> isDestroyed t = false -> update deltaTime t = Some t' ->
  treeInv t'.
Proof.
  intros Hinv Hlive Hup. destruct Hinv as [I1 I2 I3 I4 I5].
  destruct (state t) eqn:Hs.
  - rewrite update_healthy in Hup by done. injection Hup as <-.
    split; rewrite ?Hs; auto.
  - assert (health t <= 0) as Hle.
    { destruct (Z.le_gt_cases (health t) 0) as [? | Hpos]; [done |].
      destruct (I2 Hpos) as (? & _). congruence. }
    destruct (I3 Hle) as (_ & Hw & [dir Hdir]).
    destruct (I4 eq_refl) as (Ha & _ & Hm & Ho).
    destruct (update_falling deltaTime t dir Hs Hdir)
      as (t2 & E2 & Eh & Ew & Eo & Ed & Em & Edir & Hcase).
    rewrite E2 in Hup. injection Hup as <-.
    destruct Hcase as [(Es & _ & Hlt) | (Es & Ea & _)];
      split; rewrite ?Eh, ?Ew, ?Eo, ?Ed, ?Em, ?Edir, ?Es, ?Ea;
      try (intros ?; split_and!); auto;
      try discriminate; try congruence; try lia; by eexists.
  - assert (health t <= 0) as Hle.
    { destruct (Z.le_gt_cases (health t) 0) as [? | Hpos]; [done |].
      destruct (I2 Hpos) as (? & _). congruence. }
    destruct (I3 Hle) as (_ & Hw & Hdir).
    destruct (I5 eq_refl) as (Ha & Hl & _).
    destruct (Hl Hlive) as (Ho & Hm).
    destruct (update_fading deltaTime t Hs)
      as (t2 & E2 & Eh & Ew & Es & Ea & Edir & Eo & Hcase).
    rewrite E2 in Hup. injection Hup as <-.
    destruct Hcase as [(Ho2 & Ed & Em) | (Ho2 & Ed & Em)];
      split; rewrite ?Eh, ?Ew, ?Es, ?Ea, ?Edir, ?Ed, ?Em;
      try (intros ?; split_and!); auto;
      try discriminate; try congruence; try lia;
      intros ?; split; auto; congruence.
Qed.

Lemma lifetime_inv (t : Tree) : lifetime t -> treeInv t.
Proof.
  induction 1 as [| | dt t t' _ IH Hlive Hup].
  - apply createTree_inv.
  - by apply damage_inv.
  - by eapply update_inv.
Qed.

Lemma not_healthy_felled (t : Tree) :
  treeInv t -> state t <> healthy ->
  health t <= 0 /\ is_Some (fallDirection t).
Proof.
  intros [I1 I2 I3 I4 I5] Hs.
  assert (health t <= 0) as Hle.
  { destruct (Z.le_gt_cases (health t) 0) as [? | Hpos]; [done |].
    destruct (I2 Hpos) as (? & _). contradiction. }
  split; [exact Hle |]. by destruct (I3 Hle) as (_ & _ & ?).
Qed.

(** [update] never dereferences a missing fall direction. *)
Lemma update_total (deltaTime : Q) (t : Tree) :
  treeInv t -> is_Some (update deltaTime t).
Proof.
  intros Hinv. pose proof (not_healthy_felled t Hinv) as Hfelled.
  destruct (state t) eqn:Hs.
  - rewrite update_healthy by done. by eexists.
  - destruct Hfelled as (_ & [dir Hdir]); [discriminate |].
    destruct (update_falling deltaTime t dir Hs Hdir) as (t' & E & _).
    by eexists.
  - destruct (update_fading deltaTime t Hs) as (t' & E & _). by eexists.
Qed.


End TreeTileFacts.

(** * Chopping, falling and moving, in both renderings of the game *)

Module SessionFacts.
Import Game GameFacts.

Section Session.
Context `{JsMath}.


(** C8.  A chop on a tree whose health is 0 or below returns without a
    fault and changes nothing: [damageTree] hands back the game as it was
    and reports that no tree fell, and [Tree.damage] leaves the tree tile as
    it was. *)
Theorem spent_chop_is_noop (g : Game) (x y : Q) (tile : Tile) (r : ref)
        (d : Decoration) (t : TreeTile.Tree) (now : Q) (dir : Vector3) :
  getTile (world g) (Math_floor x) (Math_floor y) = Some tile ->
  decoration tile = Some r -> heap g !! r = Some d ->
  deco_type d = tree -> healthOr100 d <= 0 ->
  TreeTile.health t <= 0 ->
  damageTree g x y = Some (g, false) /\ TreeTile.damage now dir t = t.
Proof.
  intros Et D Hd Htree Hle Hle'. split.
  - apply (damageTree_spent g x y tile Et).
    + intros r0 d0 D0 Hd0 _. rewrite D in D0. injection D0 as <-.
      rewrite Hd in Hd0. by injection Hd0 as <-.
    + intros r0 D0. rewrite D in D0. injection D0 as <-. by eexists.
  - by apply TreeTileFacts.damage_felled.
Qed.

(** C7, as the code has it.  In every state of a running game, and all
    along the life of a tree tile, a tree's health is one of 100, 66, 32
    and -2: it starts at 100, a chop takes 34 while the health is above 0,
    and nothing clamps the result at 0. *)
Theorem health_on_ladder (g : Game) (r : ref) (d : Decoration)
        (t : TreeTile.Tree) :
  reachable g -> heap g !! r = Some d -> deco_type d = tree ->
  TreeTile.lifetime t ->
  (exists h, health d = Some h /\
             (h = 100 \/ h = 66 \/ h = 32 \/ h = -2) /\ -2 <= h <= 100) /\
  (TreeTile.health t = 100 \/ TreeTile.health t = 66 \/
   TreeTile.health t = 32 \/ TreeTile.health t = -2).
Proof.
  intros Hr Hd Htree Hlife. split.
  - destruct (inv_trees g (reachable_inv g Hr) r d Hd Htree)
      as (h & Eh & Hladder & _).
    exists h. split_and!; auto; lia.
  - apply (TreeTileFacts.lifetime_inv t Hlife).
Qed.

(** C6, as the code has it.  While the player is idle, the four keys
    accumulate into a step (dx, dy): the right key adds 1 to dx and the left
    key takes 1 from it, the down key adds 1 to dy and the up key takes 1
    from it, so opposite keys cancel.  Each part is -1, 0 or 1 and they are
    not both 0; an axis changes exactly when one of its two keys is held
    without the other.  The tile whose walkability is read is the player's
    rounded tile moved by that step, so keys held on both axes give the
    diagonal neighbour.  In game.ts the player sets out for that tile when
    [isWalkable] holds of it.  In the modular game nothing happens when the
    tile is off the grid, and when [world[tX][tY].isWalkable] holds the tile
    becomes the target, the tile left and the direction [atan2(dy, dx)] are
    recorded, and the player sets out or starts to turn towards it. *)
Theorem keyboard_intent_step (g : Game) (m : Modular.GameState)
        (deltaTime now : Q) :
  isMoving g = false -> inputDelta (input g) <> (0, 0) ->
  Modular.isRotating (Modular.player m) = false ->
  Modular.isMoving m = false ->
  inputDelta (Modular.input m) <> (0, 0) ->
  (forall i : InputState,
     inputDelta i =
     ((if input_right i then 1 else 0) - (if input_left i then 1 else 0),
      (if input_down i then 1 else 0) - (if input_up i then 1 else 0))) /\
  (let dx := (inputDelta (input g)).1 in
   let dy := (inputDelta (input g)).2 in
   let tX := Math_round (player_x (player g)) + dx in
   let tY := Math_round (player_y (player g)) + dy in
   intentTarget (player g) (input g) = (tX, tY) /\
   -1 <= dx <= 1 /\ -1 <= dy <= 1 /\ (dx <> 0 \/ dy <> 0) /\
   (dx <> 0 <-> input_left (input g) <> input_right (input g)) /\
   (dy <> 0 <-> input_up (input g) <> input_down (input g)) /\
   (isWalkable g (inject_Z tX) (inject_Z tY) = Some true ->
    exists g',
      updatePlayer g deltaTime = Some g' /\ isMoving g' = true /\
      targetX (player g') = inject_Z tX /\
      targetY (player g') = inject_Z tY)) /\
  (let dx := (inputDelta (Modular.input m)).1 in
   let dy := (inputDelta (Modular.input m)).2 in
   let tX := Math_round (Modular.player_x (Modular.player m)) + dx in
   let tY := Math_round (Modular.player_y (Modular.player m)) + dy in
   -1 <= dx <= 1 /\ -1 <= dy <= 1 /\ (dx <> 0 \/ dy <> 0) /\
   (dx <> 0 <->
    input_left (Modular.input m) <> input_right (Modular.input m)) /\
   (dy <> 0 <->
    input_up (Modular.input m) <> input_down (Modular.input m)) /\
   (Modular.inWorld tX tY = false ->
    Modular.updatePlayer m deltaTime now = Some m) /\
   (forall tile,
      Modular.inWorld tX tY = true ->
      Modular.getTile (Modular.world m) tX tY = Some tile ->
      Modular.tile_isWalkable (Modular.heap m) tile = Some true ->
      exists m',
        Modular.updatePlayer m deltaTime now = Some m' /\
        Modular.targetX (Modular.player m') = inject_Z tX /\
        Modular.targetY (Modular.player m') = inject_Z tY /\
        Modular.prevTileX (Modular.player m') =
        Math_round (Modular.player_x (Modular.player m)) /\
        Modular.prevTileY (Modular.player m') =
        Math_round (Modular.player_y (Modular.player m)) /\
        Modular.targetDirection (Modular.player m') =
        Math_atan2 (inject_Z dy) (inject_Z dx) /\
        (Modular.isMoving m' = true \/
         Modular.isRotating (Modular.player m') = true))).
Proof.
  intros Hidle Hne Hrot Hmov Hne'.
  split; [exact inputDelta_keys |]. split.
  - intros dx dy tX tY.
    destruct (inputDelta_range _ Hne) as (Hx & Hy & Hnz & Hxk & Hyk).
    fold dx dy in Hx, Hy, Hnz, Hxk, Hyk.
    split_and!; auto; try lia.
    intros Hw. unfold updatePlayer. rewrite Hidle.
    pose proof (inputDelta_nonzero _ Hne) as Hgo. fold dx dy in Hgo.
    destruct (inputDelta (input g)) as [dx0 dy0] eqn:Ei.
    simpl in dx, dy. subst dx dy. rewrite Hgo.
    fold tX tY.
    rewrite (isWalkable_ext g) by reflexivity. rewrite Hw.
    cbn [mbind option_bind]. eexists. split; [reflexivity |]. auto.
  - intros dx dy tX tY.
    destruct (inputDelta_range _ Hne') as (Hx & Hy & Hnz & Hxk & Hyk).
    fold dx dy in Hx, Hy, Hnz, Hxk, Hyk.
    pose proof (inputDelta_nonzero _ Hne') as Hgo. fold dx dy in Hgo.
    split_and!; auto; try lia.
    + intros Hin. unfold Modular.updatePlayer. rewrite Hrot, Hmov.
      destruct (inputDelta (Modular.input m)) as [dx0 dy0] eqn:Ei.
      simpl in dx, dy. subst dx dy. rewrite Hgo.
      rewrite !Math_floor_inject. fold tX tY. by rewrite Hin.
    + intros tile Hin Etile Hwalk.
      unfold Modular.updatePlayer. rewrite Hrot, Hmov.
      destruct (inputDelta (Modular.input m)) as [dx0 dy0] eqn:Ei.
      simpl in dx, dy. subst dx dy. rewrite Hgo.
      rewrite !Math_floor_inject. fold tX tY. rewrite Hin, Etile.
      cbn [mbind option_bind]. rewrite Hwalk. cbn [mbind option_bind].
      destruct (Modular.mustTurn _); eexists; (split; [reflexivity |]);
        cbn; auto 10.
Qed.


End Session.

End SessionFacts.

(** * The session of [Demo], run *)

Module SessionRuns.
Import Game GameFacts Demo SessionFacts.
#[local] Existing Instance fixedPointMath.

(** ** The states of the session *)

Lemma forest_init : init forestDraws (41 # 152) 1000 = Some forest.
Proof. vm_compute. reflexivity. Qed.

Lemma forestWest_init : init forestDraws (3 # 152) 1000 = Some forestWest.
Proof. vm_compute. reflexivity. Qed.

Lemma forest_reachable : reachable forest.
Proof.
  apply (reachable_init forestDraws (41 # 152) 1000); [lra | lra |].
  exact forest_init.
Qed.

Lemma forestWest_reachable : reachable forestWest.
Proof.
  apply (reachable_init forestDraws (3 # 152) 1000); [lra | lra |].
  exact forestWest_init.
Qed.

(** Every state of the session is the outcome of a run without a fault. *)
Lemma facing_run : run forest [Key ArrowDown true] = Some facing.
Proof. vm_compute. reflexivity. Qed.
Lemma chopped1_step : step facing (Frame 1050) = Some chopped1.
Proof. vm_compute. reflexivity. Qed.
Lemma waited_run : run chopped1 (frames 1050 5) = Some waited.
Proof. vm_compute. reflexivity. Qed.
Lemma chopped2_step : step waited (Frame 1350) = Some chopped2.
Proof. vm_compute. reflexivity. Qed.
Lemma felled_run : run chopped2 (frames 1350 6) = Some felled.
Proof. vm_compute. reflexivity. Qed.
Lemma diagonal_run :
  run forestWest [Key ArrowUp true; Key ArrowRight true] = Some diagonal.
Proof. vm_compute. reflexivity. Qed.

Lemma facing_reachable : reachable facing.
Proof. exact (reachable_after _ _ _ forest_reachable facing_run). Qed.
Lemma chopped1_reachable : reachable chopped1.
Proof. exact (reachable_step _ _ _ facing_reachable chopped1_step). Qed.
Lemma waited_reachable : reachable waited.
Proof. exact (reachable_after _ _ _ chopped1_reachable waited_run). Qed.
Lemma chopped2_reachable : reachable chopped2.
Proof. exact (reachable_step _ _ _ waited_reachable chopped2_step). Qed.
Lemma felled_reachable : reachable felled.
Proof. exact (reachable_after _ _ _ chopped2_reachable felled_run). Qed.
Lemma diagonal_reachable : reachable diagonal.
Proof. exact (reachable_after _ _ _ forestWest_reachable diagonal_run). Qed.

Lemma stump_lifetime : TreeTile.lifetime stump.
Proof. do 3 apply TreeTile.life_damage. apply TreeTile.life_created. Qed.

(** ** What the states hold *)

Lemma forest_square : squareWorld (world forest).
Proof. exact (inv_square _ (reachable_inv _ forest_reachable)). Qed.

Lemma felled_tile :
  getTile (world felled) (Math_floor 1) (Math_floor 1) = Some treeTile.
Proof. vm_compute. reflexivity. Qed.
Lemma felled_heap : heap felled !! 0%nat = Some fallingTree.
Proof. vm_compute. reflexivity. Qed.
Lemma felled_falling : 0%nat ∈ fallingTrees felled.
Proof. vm_compute. apply list_elem_of_here. Qed.


Lemma facing_tree : facingTree facing 0%nat 100.
Proof.
  split; [reflexivity |]. split; [vm_compute; discriminate |].
  exists treeTile, standingTree. split_and!; vm_compute; reflexivity.
Qed.

(** ** The properties, on the session *)

(** The rule on the forest: off the grid, and on the spawn tile. *)
Lemma isWalkable_rule_witness :
  squareWorld (world forest) /\
  isWalkable forest (-1) 0 = Some false /\
  isWalkable forest 1 0 = Some true.
Proof.
  split; [exact forest_square |]. split.
  - apply (isWalkable_rule forest (-1) 0 forest_square).
    vm_compute. intros [[Hlow _] _]. apply Hlow. reflexivity.
  - destruct (isWalkable_rule forest 1 0 forest_square) as [_ Hin].
    destruct Hin as (tile & Et & _ & Hfree & _).
    { vm_compute. repeat split; first [discriminate | reflexivity]. }
    vm_compute in Et. injection Et as <-.
    apply Hfree; [discriminate | reflexivity].
Defined.





(** The spawn on the forest draws. *)
Lemma spawn_valid_witness :
  (0 <= 41 # 152)%Q /\ (41 # 152 < 1)%Q /\
  exists g pos,
    init forestDraws (41 # 152) 1000 = Some g /\
    getSpawnPosition (world g) (heap g) (41 # 152) = Some pos /\
    isWalkable g (inject_Z pos.1) (inject_Z pos.2) = Some true.
Proof.
  assert (0 <= 41 # 152)%Q as H0 by (vm_compute; discriminate).
  assert (41 # 152 < 1)%Q as H1 by reflexivity.
  destruct (spawn_valid forestDraws (41 # 152) 1000 H0 H1)
    as (g & valid & pos & tile & E & _ & _ & Epos & _ & _ & _ & _ & _ & Hw & _).
  split_and!; auto. exists g, pos. auto.
Defined.

(** Up and right held at (0, 1) in game.ts: the step is (1, -1) and the
    player sets out for (1, 0).  Down and left held at (1, 0) in the
    modular game: the step is (-1, 1) and the target is (0, 1). *)
Lemma keyboard_intent_step_witness :
  isMoving diagonal = false /\ inputDelta (input diagonal) <> (0, 0) /\
  Modular.isRotating (Modular.player ModularDemo.groveDiagonal) = false /\
  Modular.isMoving ModularDemo.groveDiagonal = false /\
  inputDelta (Modular.input ModularDemo.groveDiagonal) <> (0, 0) /\
  inputDelta (input diagonal) = (1, -1) /\
  intentTarget (player diagonal) (input diagonal) = (1, 0) /\
  (exists g', updatePlayer diagonal 50 = Some g' /\ isMoving g' = true /\
              targetX (player g') = 1%Q /\ targetY (player g') = 0%Q) /\
  inputDelta (Modular.input ModularDemo.groveDiagonal) = (-1, 1) /\
  (exists m',
     Modular.updatePlayer ModularDemo.groveDiagonal 50 1050 = Some m' /\
     Modular.targetX (Modular.player m') = 0%Q /\
     Modular.targetY (Modular.player m') = 1%Q /\
     Modular.prevTileX (Modular.player m') = 1 /\
     Modular.prevTileY (Modular.player m') = 0).
Proof.
  assert (inputDelta (input diagonal) <> (0, 0)) as Hne
    by (vm_compute; discriminate).
  assert (inputDelta (Modular.input ModularDemo.groveDiagonal) <> (0, 0))
    as Hne' by (vm_compute; discriminate).
  destruct (keyboard_intent_step diagonal ModularDemo.groveDiagonal 50 1050
              eq_refl Hne eq_refl eq_refl Hne')
    as (Hkeys & (Et & _ & _ & _ & _ & _ & Hgo) &
        (_ & _ & _ & _ & _ & _ & Hgo')).
  destruct Hgo as (g' & E & Hm & Hx & Hy); [vm_compute; reflexivity |].
  destruct (Hgo' (Modular.createGrass 0 1))
    as (m' & E' & Hx' & Hy' & Hpx & Hpy & _);
    [vm_compute; reflexivity .. |].
  split; [reflexivity |]. split; [exact Hne |].
  split; [reflexivity |]. split; [reflexivity |]. split; [exact Hne' |].
  split; [exact (Hkeys (input diagonal)) |]. split; [exact Et |].
  split; [exists g'; auto |].
  split; [exact (Hkeys (Modular.input ModularDemo.groveDiagonal)) |].
  exists m'. split; [exact E' |]. split; [exact Hx' |]. split; [exact Hy' |].
  split; [exact Hpx | exact Hpy].
Defined.

(** An intent whose target differs from the player's tile on both axes, and
    is taken. *)
Lemma diagonal_step_counterexample :
  exists g g',
    reachable g /\ isMoving g = false /\
    inputDelta (input g) <> (0, 0) /\
    (intentTarget (player g) (input g)).1 <> Math_round (player_x (player g)) /\
    (intentTarget (player g) (input g)).2 <> Math_round (player_y (player g)) /\
    isWalkable g (inject_Z (intentTarget (player g) (input g)).1)
               (inject_Z (intentTarget (player g) (input g)).2) = Some true /\
    step g (Frame 1050) = Some g' /\ isMoving g' = true /\
    Math_round (player_x (player g)) = 0 /\
    Math_round (player_y (player g)) = 1 /\
    targetX (player g') = 1%Q /\ targetY (player g') = 0%Q.
Proof.
  exists diagonal, (after diagonal (frames 1000 1)).
  split; [exact diagonal_reachable |].
  split_and!; vm_compute; first [reflexivity | discriminate].
Defined.

(** The felled tree and the stump. *)
Lemma health_on_ladder_witness :
  reachable felled /\ TreeTile.lifetime stump /\
  (exists h, health fallingTree = Some h /\
             (h = 100 \/ h = 66 \/ h = 32 \/ h = -2) /\ -2 <= h <= 100) /\
  (TreeTile.health stump = 100 \/ TreeTile.health stump = 66 \/
   TreeTile.health stump = 32 \/ TreeTile.health stump = -2).
Proof.
  split; [exact felled_reachable |]. split; [exact stump_lifetime |].
  exact (health_on_ladder felled 0%nat fallingTree stump felled_reachable
           felled_heap eq_refl stump_lifetime).
Defined.

(** A tree of a running game, and a tree tile, with health below 0. *)
Lemma negative_health_counterexample :
  exists g r d h t,
    reachable g /\ heap g !! r = Some d /\ deco_type d = tree /\
    health d = Some h /\ h < 0 /\
    TreeTile.lifetime t /\ TreeTile.health t < 0.
Proof.
  exists felled, 0%nat, fallingTree, (-2), stump.
  split; [exact felled_reachable |]. split; [exact felled_heap |].
  split; [reflexivity |]. split; [reflexivity |]. split; [reflexivity |].
  split; [exact stump_lifetime | reflexivity].
Defined.

(** A fourth chop. *)
Lemma spent_chop_is_noop_witness :
  healthOr100 fallingTree <= 0 /\ TreeTile.health stump <= 0 /\
  damageTree felled 1 1 = Some (felled, false) /\
  TreeTile.damage 1700 southward stump = stump.
Proof.
  assert (healthOr100 fallingTree <= 0) as Hle by (vm_compute; discriminate).
  assert (TreeTile.health stump <= 0) as Hle' by (vm_compute; discriminate).
  split; [exact Hle |]. split; [exact Hle' |].
  exact (spent_chop_is_noop felled 1 1 treeTile 0%nat fallingTree stump 1700
           southward felled_tile eq_refl felled_heap eq_refl Hle Hle').
Defined.

(** The forest, over the key press and thirteen frames. *)
Lemma walkable_monotone_witness :
  reachable forest /\
  exists g',
    run forest (Key ArrowDown true :: frames 1000 13) = Some g' /\
    forall x y, isWalkable forest x y = Some true ->
                isWalkable g' x y = Some true.
Proof.
  split; [exact forest_reachable |].
  exact (walkable_monotone forest _ forest_reachable).
Defined.

(** Fifteen frames of 50 ms with the key held. *)
Lemma holding_key_chops_witness :
  reachable facing /\ facingTree facing 0%nat 100 /\ 0 < 100 /\
  exists g' d',
    updates facing (replicate 15 50%Q) = Some g' /\
    heap g' !! 0%nat = Some d' /\ deco_type d' = tree /\
    health d' = Some (-2).
Proof.
  assert (0 < 100) as Hpos by reflexivity.
  destruct (holding_key_chops facing 0%nat 100 facing_reachable facing_tree
              Hpos) as [_ Hhold].
  split_and!; auto using facing_reachable, facing_tree.
  apply Hhold; [reflexivity | |].
  - repeat (constructor; [split; [reflexivity | vm_compute; discriminate] |]).
    constructor.
  - vm_compute. discriminate.
Defined.

End SessionRuns.

(** * More properties of src/game.ts *)

Module GameMoreFacts.
Import Game GameFacts.

(** ** What generation allocates *)

Lemma createTile_fresh (x y : Z) (rnd : TileRandom) (h : list Decoration)
      (sc : list ref) :
  (createTile x y rnd h sc).1.2 = h \/
  exists v ox oy,
    (createTile x y rnd h sc).1.2 = h ++ [newTree v ox oy] \/
    (createTile x y rnd h sc).1.2 = h ++ [newRock v ox oy] \/
    (createTile x y rnd h sc).1.2 = h ++ [newFlower v ox oy].
Proof.
  unfold createTile.
  destruct (is_grass _ && _); [| by left].
  destruct (Qlt_bool (rnd_deco rnd) double_0_30); [right; simpl; eauto 10 |].
  destruct (Qlt_bool (rnd_deco rnd) double_0_35); [right; simpl; eauto 10 |].
  destruct (Qlt_bool (rnd_deco rnd) double_0_45); [right; simpl; eauto 10 |].
  by left.
Qed.

Section Fresh.
Variable Pd : Decoration -> Prop.
Hypothesis Htree : forall v ox oy, Pd (newTree v ox oy).
Hypothesis Hrock : forall v ox oy, Pd (newRock v ox oy).
Hypothesis Hflower : forall v ox oy, Pd (newFlower v ox oy).

Lemma createTile_Forall (x y : Z) (rnd : TileRandom) (h : list Decoration)
      (sc : list ref) :
  Forall Pd h -> Forall Pd (createTile x y rnd h sc).1.2.
Proof.
  intros Hh.
  destruct (createTile_fresh x y rnd h sc)
    as [-> | (v & ox & oy & [-> | [-> | ->]])]; auto;
    apply Forall_app; split; auto.
Qed.

Lemma generateColumn_Forall rnd (n : nat) :
  forall (x y : Z) (col : list Tile) (h : list Decoration) (sc : list ref),
    Forall Pd h -> Forall Pd (generateColumn n x y rnd col h sc).1.2.
Proof.
  induction n as [| n IH]; intros x y col h sc Hh; simpl; [exact Hh |].
  pose proof (createTile_Forall x y (rnd x y) h sc Hh) as Hh'.
  destruct (createTile x y (rnd x y) h sc) as [[t h'] sc']. by apply IH.
Qed.

Lemma generateColumns_Forall rnd (n : nat) :
  forall (x : Z) (w : list (list Tile)) (h : list Decoration) (sc : list ref),
    Forall Pd h -> Forall Pd (generateColumns n x rnd w h sc).1.2.
Proof.
  induction n as [| n IH]; intros x w h sc Hh; cbn [generateColumns];
    [exact Hh |].
  pose proof (generateColumn_Forall rnd (Z.to_nat WORLD_SIZE) x 0 [] h sc Hh)
    as Hh'.
  destruct (generateColumn _ x 0 rnd [] h sc) as [[col h'] sc']. by apply IH.
Qed.

Lemma generateWorld_Forall rnd : Forall Pd (generateWorld rnd).1.2.
Proof. apply generateColumns_Forall. constructor. Qed.

End Fresh.

Section More.
Context `{JsMath}.

(** X1.  A running game never faults: from any state [init] and the events
    lead to, every further sequence of key events and frames runs to its
    end; the grid stays 20 by 20, every decoration a tile points at exists,
    and every tree of [fallingTrees] has the fall direction the falling
    loop dereferences. *)
Theorem session_never_faults (g : Game) (evs : list Event) :
  reachable g ->
  exists g',
    run g evs = Some g' /\ reachable g' /\ squareWorld (world g') /\
    (forall x y r, holds (world g') x y r -> is_Some (heap g' !! r)) /\
    (forall r, r ∈ fallingTrees g' ->
               exists d, heap g' !! r = Some d /\ is_Some (fallDirection d)).
Proof.
  intros Hr. destruct (reachable_run g evs Hr) as (g' & E & Hr').
  exists g'. pose proof (reachable_inv g' Hr') as [I1 I2 I3 I4 I5 I6 I7].
  split_and!; auto.
  - intros x y r Hh. apply lookup_lt_is_Some_2. eauto.
  - intros r Hin. destruct (I6 r Hin) as (d & Hd & (_ & _ & Hdir & _) & _).
    eauto.
Qed.

(** X2.  In a running game a decoration sits on one tile only: two tiles
    that hold the same decoration object are the same tile; the tile lies
    in the grid, the object exists and its mesh is in the scene. *)
Theorem decoration_on_one_tile (g : Game) (x y x' y' : Z) (r : ref) :
  reachable g -> holds (world g) x y r -> holds (world g) x' y' r ->
  x = x' /\ y = y' /\ r ∈ scene g /\ is_Some (heap g !! r) /\
  0 <= x < WORLD_SIZE /\ 0 <= y < WORLD_SIZE.
Proof.
  intros Hr Hh Hh'. pose proof (reachable_inv g Hr) as [I1 I2 I3 I4 I5 I6 I7].
  destruct (I3 x y x' y' r Hh Hh') as [-> ->].
  destruct Hh as (t & Et & D).
  pose proof (getTile_bounds _ _ _ _ I1 Et) as [Hx Hy].
  split_and!; auto; try lia.
  - apply I4. exists x', y', t. auto.
  - apply lookup_lt_is_Some_2. apply (I2 x' y'). exists t. auto.
Qed.

(** Felled trees that stand on a tile are in the list. *)
Lemma felled_listed_stable :
  stable (fun g => forall x y r d,
            holds (world g) x y r -> heap g !! r = Some d ->
            deco_type d = tree -> healthOr100 d <= 0 -> r ∈ fallingTrees g).
Proof.
  split.
  - intros g g' Ew Eh _ Ef Hp. rewrite Ew, Eh, Ef. exact Hp.
  - intros g x y g' b Hinv Hp E x0 y0 r d Hh Hd Htree Hle.
    destruct (damageTree_frame _ _ _ _ _ E) as (Ew & _).
    rewrite Ew in Hh.
    destruct (damageTree_cases _ _ _ _ _ E)
      as [[-> _] | (tile & r0 & d0 & d' & _ & _ & Hd0 & _ & _ & _ & Hh' &
                    Hcase)]; [eauto |].
    destruct (decide (r = r0)) as [-> | Hne].
    + destruct Hcase as [(Hpos & _ & _ & ->) | (_ & _ & _ & _ & _ & _ & ->)];
        simpl in *.
      * rewrite list_lookup_insert_eq in Hd by (eapply lookup_lt_Some; eauto).
        injection Hd as <-. unfold healthOr100 in Hle. rewrite Hh' in Hle.
        simpl in Hle. lia.
      * apply elem_of_app. right. by apply list_elem_of_singleton.
    + destruct Hcase as [(_ & _ & _ & ->) | (_ & _ & _ & _ & _ & _ & ->)];
        simpl in *; rewrite list_lookup_insert_ne in Hd by congruence.
      * eauto.
      * apply elem_of_app. left. eauto.
  - intros g dt i g' Hinv Hp E x0 y0 r d Hh Hd Htree Hle.
    destruct (fallingTrees g !! i) as [tr |] eqn:Ei;
      [| unfold fallStep in E; rewrite Ei in E; discriminate].
    assert (tr ∈ fallingTrees g) as Hin
      by (eapply list_elem_of_lookup_2; eauto).
    destruct (inv_falling g Hinv tr Hin) as (d0 & Hd0 & Hlive & _).
    rewrite (fallStep_visit g dt i tr d0 Hinv Ei Hd0) in E. injection E as <-.
    destruct (fadedOut dt d0); simpl in *.
    + assert (r <> tr) as Hne.
      { intros ->. eapply (cleared_gone tr (world g)); [| exact Hh].
        intros; eapply (inv_owner g Hinv); eauto. }
      rewrite list_lookup_insert_ne in Hd by congruence.
      apply (elem_of_delete_other _ i r tr); auto.
      apply (Hp x0 y0 r d); auto. by apply (cleared_holds tr).
    + destruct (decide (r = tr)) as [-> | Hne]; [exact Hin |].
      rewrite list_lookup_insert_ne in Hd by congruence.
      apply (Hp x0 y0 r d); auto.
Qed.

Lemma generated_full_health rnd (r : ref) (d : Decoration) :
  (generateWorld rnd).1.2 !! r = Some d -> healthOr100 d = 100.
Proof.
  intros Hd.
  pose proof (generateWorld_Forall (fun d => healthOr100 d = 100)
                ltac:(done) ltac:(done) ltac:(done) rnd) as Hall.
  rewrite Forall_forall in Hall. apply Hall.
  eapply list_elem_of_lookup_2; eauto.
Qed.

Lemma reachable_felled_listed (g : Game) :
  reachable g ->
  forall x y r d,
    holds (world g) x y r -> heap g !! r = Some d -> deco_type d = tree ->
    healthOr100 d <= 0 -> r ∈ fallingTrees g.
Proof.
  induction 1 as [rnd rndSpawn now g H0 H1 E | g e g' Hr IH E].
  - destruct (init_inv rnd rndSpawn now H0 H1)
      as (g0 & E0 & _ & _ & _ & _ & _ & Ew & Eh).
    rewrite E in E0. injection E0 as <-.
    intros x y r d _ Hd _ Hle. rewrite Eh in Hd.
    apply generated_full_health in Hd. lia.
  - destruct (step_stable _ felled_listed_stable g e (reachable_inv g Hr) IH)
      as (g1 & E1 & _ & Hp).
    rewrite E in E1. by injection E1 as <-.
Qed.

(** X3.  In a running game [fallingTrees] lists each felled tree that is
    still on its tile, once: the list has no duplicates; each entry is a
    tree with health at most 0, falling or fading, with positive opacity,
    held by a tile and shown in the scene; and every tree on a tile whose
    health is at most 0 is in the list. *)
Theorem falling_list_is_exact (g : Game) :
  reachable g ->
  NoDup (fallingTrees g) /\
  (forall r,
     r ∈ fallingTrees g ->
     exists d,
       heap g !! r = Some d /\ deco_type d = tree /\ healthOr100 d <= 0 /\
       (state d = Some falling \/ state d = Some fading) /\
       (exists o, opacity d = Some o /\ (0 < o)%Q) /\
       referenced (world g) r /\ r ∈ scene g) /\
  (forall x y r d,
     holds (world g) x y r -> heap g !! r = Some d -> deco_type d = tree ->
     healthOr100 d <= 0 -> r ∈ fallingTrees g).
Proof.
  intros Hr. pose proof (reachable_inv g Hr) as Hinv.
  split; [apply Hinv |]. split.
  - intros r Hin. destruct (inv_falling g Hinv r Hin) as (d & Hd & Hlive & Href).
    exists d. pose proof (live_not_positive d Hlive) as Hle.
    destruct Hlive as (Htree & _ & _ & Ho & Hst).
    split_and!; auto.
    + destruct Hst as [[? _] | [? _]]; auto.
    + by apply (inv_scene g Hinv).
  - by apply reachable_felled_listed.
Qed.


(** ** Decorations over a session *)

Lemma advanceTree_keeps (dt : Q) (d : Decoration) :
  deco_type (advanceTree dt d) = deco_type d /\
  variant (advanceTree dt d) = variant d /\
  offsetX (advanceTree dt d) = offsetX d /\
  offsetY (advanceTree dt d) = offsetY d /\
  health (advanceTree dt d) = health d.
Proof.
  unfold advanceTree. destruct (state d) as [[| |] |]; auto.
  destruct (Qle_bool _ _); auto.
Qed.

Lemma damageTree_keeps (g : Game) (x y : Q) (g' : Game) (b : bool) (r : ref)
      (d : Decoration) :
  damageTree g x y = Some (g', b) -> heap g !! r = Some d ->
  exists d',
    heap g' !! r = Some d' /\ deco_type d' = deco_type d /\
    variant d' = variant d /\ offsetX d' = offsetX d /\
    offsetY d' = offsetY d /\ healthOr100 d' <= healthOr100 d /\
    (deco_type d <> tree -> d' = d).
Proof.
  unfold damageTree. intros E Hd.
  destruct (outOfBounds _ _ _); [injection E as <- <-; eauto 10 with lia |].
  destruct (getTile _ _ _) as [tile |]; [| discriminate].
  cbn [mbind option_bind] in E.
  destruct (decoration tile) as [r0 |];
    [| injection E as <- <-; eauto 10 with lia].
  destruct (heap g !! r0) as [d0 |] eqn:Hd0; [| discriminate].
  cbn [mbind option_bind] in E.
  destruct (is_tree d0 && (0 <? healthOr100 d0)) eqn:Hlive;
    [| injection E as <- <-; eauto 10 with lia].
  apply andb_true_iff in Hlive as [Htree Hpos].
  apply is_tree_true in Htree. apply Z.ltb_lt in Hpos.
  assert (r0 < length (heap g))%nat as Hlt by (eapply lookup_lt_Some; eauto).
  destruct (decide (r = r0)) as [-> | Hne].
  - rewrite Hd0 in Hd. injection Hd as <-.
    destruct (healthOr100 d0 - 34 <=? 0); injection E as <- <-; simpl;
      rewrite list_lookup_insert_eq by done; eexists; (split; [reflexivity |]);
      simpl; split_and!; auto; try (unfold healthOr100 at 1; simpl; lia);
      congruence.
  - destruct (healthOr100 d0 - 34 <=? 0); injection E as <- <-; simpl;
      rewrite list_lookup_insert_ne by congruence; eauto 10 with lia.
Qed.

Lemma kept_stable (h0 : list Decoration) :
  stable (fun g =>
            length (heap g) = length h0 /\
            forall r d,
              h0 !! r = Some d ->
              exists d',
                heap g !! r = Some d' /\ deco_type d' = deco_type d /\
                variant d' = variant d /\ offsetX d' = offsetX d /\
                offsetY d' = offsetY d /\
                healthOr100 d' <= healthOr100 d /\
                (deco_type d <> tree -> d' = d)).
Proof.
  split.
  - intros g g' _ Eh _ _ Hp. by rewrite Eh.
  - intros g x y g' b _ [Hlen Hp] E. split.
    + destruct (damageTree_frame _ _ _ _ _ E) as (_ & _ & _ & _ & _ & _ & _ & ->).
      exact Hlen.
    + intros r d Hd.
      destruct (Hp r d Hd) as (d1 & Hd1 & Ht & Hv & Hx & Hy & Hh & Hsame).
      destruct (damageTree_keeps g x y g' b r d1 E Hd1)
        as (d2 & Hd2 & Ht2 & Hv2 & Hx2 & Hy2 & Hh2 & Hsame2).
      exists d2. split_and!; try congruence; try lia.
      intros Hne. rewrite Hsame2 by congruence. auto.
  - intros g dt i g' Hinv [Hlen Hp] E.
    destruct (fallingTrees g !! i) as [tr |] eqn:Ei;
      [| unfold fallStep in E; rewrite Ei in E; discriminate].
    destruct (inv_falling g Hinv tr) as (d0 & Hd0 & Hlive & _);
      [eapply list_elem_of_lookup_2; eauto |].
    rewrite (fallStep_visit g dt i tr d0 Hinv Ei Hd0) in E. injection E as <-.
    assert (heap (if fadedOut dt d0
                  then set_world
                         (set_fallingTrees
                            (set_scene
                               (set_heap g (<[tr := advanceTree dt d0]> (heap g)))
                               (sceneRemove tr (scene g)))
                            (delete i (fallingTrees g)))
                         (map (clearFirst tr) (world g))
                  else set_heap g (<[tr := advanceTree dt d0]> (heap g)))
            = <[tr := advanceTree dt d0]> (heap g)) as ->
      by (destruct (fadedOut dt d0); reflexivity).
    split; [by rewrite length_insert |].
    intros r d Hd.
    destruct (Hp r d Hd) as (d1 & Hd1 & Ht & Hv & Hx & Hy & Hh & Hsame).
    destruct (decide (r = tr)) as [-> | Hne].
    + rewrite Hd0 in Hd1. injection Hd1 as <-.
      rewrite list_lookup_insert_eq by (eapply lookup_lt_Some; eauto).
      destruct (advanceTree_keeps dt d0) as (At & Av & Ax & Ay & Ah).
      eexists. split; [reflexivity |].
      split_and!; try congruence.
      * unfold healthOr100 at 1. rewrite Ah. exact Hh.
      * intros Hne. destruct Hlive as (Htr & _). congruence.
    + rewrite list_lookup_insert_ne by congruence. eauto 10.
Qed.

(** X4.  Over any run of a game no decoration object is created or lost
    and none changes its type, variant or offsets; health never goes up;
    and a rock or a flower stays exactly as it was. *)
Theorem decorations_persist (g : Game) (evs : list Event) (g' : Game)
        (r : ref) (d : Decoration) :
  reachable g -> run g evs = Some g' -> heap g !! r = Some d ->
  length (heap g') = length (heap g) /\
  exists d',
    heap g' !! r = Some d' /\ deco_type d' = deco_type d /\
    variant d' = variant d /\ offsetX d' = offsetX d /\
    offsetY d' = offsetY d /\ healthOr100 d' <= healthOr100 d /\
    (deco_type d <> tree -> d' = d).
Proof.
  intros Hr E Hd.
  destruct (run_stable _ (kept_stable (heap g)) evs g (reachable_inv g Hr))
    as (g1 & E1 & _ & Hlen & Hp).
  { split; [reflexivity |]. intros r0 d0 Hd0. exists d0.
    split_and!; auto; lia. }
  rewrite E in E1. injection E1 as <-. auto.
Qed.

(** ** The grid over a session *)

(** The step of the falling loop that removes a tree. *)
Lemma removal_removes (g : Game) (i : nat) (tr : ref) (h : list Decoration) :
  inv g -> fallingTrees g !! i = Some tr ->
  removed
    (set_world
       (set_fallingTrees
          (set_scene (set_heap g h) (sceneRemove tr (scene g)))
          (delete i (fallingTrees g)))
       (map (clearFirst tr) (world g))) tr.
Proof.
  intros Hinv Ei. split_and!; simpl.
  - apply NoDup_delete_notin; [apply Hinv | exact Ei].
  - intros (x & y & Hh). eapply (cleared_gone tr (world g)); [| exact Hh].
    intros; eapply (inv_owner g Hinv); eauto.
  - unfold sceneRemove. intros Hin. apply list_elem_of_filter in Hin as [Hne _].
    by apply Hne.
Qed.

Lemma tile_stable (x y : Z) (t : Tile) :
  stable (fun g =>
            exists t',
              getTile (world g) x y = Some t' /\ tileKept t t' /\
              (decoration t' = decoration t \/
               exists r d,
                 decoration t = Some r /\ decoration t' = None /\
                 heap g !! r = Some d /\ deco_type d = tree /\
                 healthOr100 d <= 0 /\ removed g r)).
Proof.
  split.
  - intros g g' Ew Eh Es Ef Hp. unfold removed. by rewrite Ew, Eh, Es, Ef.
  - intros g x0 y0 g' b Hinv (t' & Et' & Hk & Hcase) E.
    destruct (damageTree_frame _ _ _ _ _ E) as (Ew & _).
    exists t'. rewrite Ew. split; [exact Et' |]. split; [exact Hk |].
    destruct Hcase as [? | (r & d & D & D' & Hd & Htree & Hle & Hrm)];
      [by left |].
    right. destruct (damageTree_keeps g x0 y0 g' b r d E Hd)
      as (d' & Hd' & Ht & _ & _ & _ & Hh & _).
    exists r, d'. split_and!; auto; [congruence | lia |].
    eapply (stable_damage _ (removed_stable r)); eauto.
  - intros g dt i g' Hinv (t' & Et' & Hk & Hcase) E.
    destruct (fallingTrees g !! i) as [tr |] eqn:Ei;
      [| unfold fallStep in E; rewrite Ei in E; discriminate].
    destruct (inv_falling g Hinv tr) as (d0 & Hd0 & Hlive & _);
      [eapply list_elem_of_lookup_2; eauto |].
    assert (forall r d,
               heap g !! r = Some d -> deco_type d = tree ->
               healthOr100 d <= 0 -> removed g r ->
               exists d', heap g' !! r = Some d' /\ deco_type d' = tree /\
                          healthOr100 d' <= 0 /\ removed g' r) as Hkeep.
    { intros r d Hd Htree Hle Hrm.
      assert (r <> tr) as Hne.
      { intros ->. destruct Hrm as [Hnotin _]. apply Hnotin.
        eapply list_elem_of_lookup_2; eauto. }
      destruct (fallStep_other g dt i tr r g' Hinv Ei ltac:(congruence) E)
        as (Eh & _ & Hrm' & _).
      exists d. rewrite Eh. auto. }
    rewrite (fallStep_visit g dt i tr d0 Hinv Ei Hd0) in E. injection E as E.
    destruct (fadedOut dt d0) eqn:Hgone.
    + destruct (cleared_getTile tr _ _ _ _ Et') as (t2 & Et2 & Hrel & _).
      exists t2. subst g'. simpl. split; [exact Et2 |].
      destruct Hk as (Hx & Hy & Hty & Hdeco).
      destruct Hrel as [-> | [Dtr ->]].
      * split; [split_and!; auto |].
        destruct Hcase as [? | (r & d & D & D' & Hd & Htree & Hle & Hrm)];
          [by left |].
        right.
        destruct (Hkeep r d Hd Htree Hle Hrm) as (d' & Hd' & Ht' & Hle' & Hrm').
        exists r, d'. split_and!; auto.
      * split; [split_and!; simpl; auto |].
        destruct Hcase as [Dsame | (r & d & D & D' & _)]; [| congruence].
        right. exists tr, (advanceTree dt d0). simpl.
        destruct (advanceTree_keeps dt d0) as (At & _ & _ & _ & Ah).
        split_and!; [congruence | reflexivity | | | |].
        -- apply list_lookup_insert_eq. eapply lookup_lt_Some; eauto.
        -- rewrite At. apply Hlive.
        -- unfold healthOr100. rewrite Ah. by apply live_not_positive.
        -- by apply removal_removes.
    + exists t'. subst g'. simpl. split; [exact Et' |]. split; [exact Hk |].
      destruct Hcase as [? | (r & d & D & D' & Hd & Htree & Hle & Hrm)];
        [by left |].
      right.
      assert (r <> tr) as Hne.
      { intros ->. destruct Hrm as [Hnotin _]. apply Hnotin.
        eapply list_elem_of_lookup_2; eauto. }
      exists r, d. rewrite list_lookup_insert_ne by congruence.
      split_and!; auto.
Qed.

Lemma createTile_coords (x y : Z) (rnd : TileRandom) (h : list Decoration)
      (sc : list ref) :
  tile_x (createTile x y rnd h sc).1.1 = x /\
  tile_y (createTile x y rnd h sc).1.1 = y.
Proof.
  unfold createTile. destruct (is_grass _ && _); [| auto].
  repeat destruct (Qlt_bool (rnd_deco rnd) _); auto.
Qed.

Lemma tileKept_refl (t : Tile) : tileKept t t.
Proof. unfold tileKept. auto. Qed.

(** Every tile records its own position. *)
Lemma reachable_coords (g : Game) :
  reachable g ->
  forall x y t, getTile (world g) x y = Some t -> tile_x t = x /\ tile_y t = y.
Proof.
  induction 1 as [rnd rndSpawn now g H0 H1 E | g e g' Hr IH E].
  - destruct (init_inv rnd rndSpawn now H0 H1)
      as (g0 & E0 & _ & _ & _ & _ & _ & Ew & _).
    rewrite E in E0. injection E0 as <-. rewrite Ew.
    destruct (generateWorld_inv rnd) as [(_ & _ & _ & G4) _].
    intros x y t Et. destruct (G4 x y t Et) as (h0 & sc0 & ->).
    apply createTile_coords.
  - intros x y t' Et'. pose proof (reachable_inv g Hr) as Hinv.
    destruct (step_inv g e Hinv) as (g1 & E1 & Hinv').
    rewrite E in E1. injection E1 as <-.
    pose proof (getTile_bounds _ _ _ _ (inv_square g' Hinv') Et') as [Hx Hy].
    destruct (getTile_inside _ _ _ (inv_square g Hinv) Hx Hy) as [t Et].
    destruct (step_stable _ (tile_stable x y t) g e Hinv)
      as (g1 & E1 & _ & t2 & Et2 & (Kx & Ky & _) & _).
    { exists t. split; [exact Et |]. split; [apply tileKept_refl | by left]. }
    rewrite E in E1. injection E1 as <-.
    rewrite Et' in Et2. injection Et2 as <-.
    destruct (IH x y t Et) as [<- <-]. auto.
Qed.

(** X5.  Over any run of a game the grid keeps its terrain: the tile at
    (x, y) records x and y, keeps its type, and keeps its decoration unless
    that was a tree which has been felled and removed, in which case the
    tile holds no decoration; a tile with a rock or a flower keeps it. *)
Theorem terrain_is_fixed (g : Game) (evs : list Event) (g' : Game) (x y : Z)
        (t : Tile) :
  reachable g -> run g evs = Some g' -> getTile (world g) x y = Some t ->
  tile_x t = x /\ tile_y t = y /\
  exists t',
    getTile (world g') x y = Some t' /\
    tile_x t' = x /\ tile_y t' = y /\ tile_type t' = tile_type t /\
    (decoration t' = decoration t \/
     exists r d,
       decoration t = Some r /\ decoration t' = None /\
       heap g' !! r = Some d /\ deco_type d = tree /\
       healthOr100 d <= 0 /\ removed g' r) /\
    (forall r d,
       decoration t = Some r -> heap g !! r = Some d -> deco_type d <> tree ->
       decoration t' = Some r /\ heap g' !! r = Some d).
Proof.
  intros Hr E Et. pose proof (reachable_inv g Hr) as Hinv.
  destruct (reachable_coords g Hr x y t Et) as [Hx Hy].
  split; [exact Hx |]. split; [exact Hy |].
  destruct (run_stable _ (tile_stable x y t) evs g Hinv)
    as (g1 & E1 & _ & t' & Et' & (Kx & Ky & Kt & _) & Hcase).
  { exists t. split; [exact Et |]. split; [apply tileKept_refl | by left]. }
  rewrite E in E1. injection E1 as <-.
  exists t'. split_and!; auto; try congruence.
  intros r d D Hd Hne.
  destruct (run_stable _ (kept_stable (heap g)) evs g Hinv)
    as (g1 & E1 & _ & _ & Hp).
  { split; [reflexivity |]. intros r0 d0 Hd0. exists d0.
    split_and!; auto; lia. }
  rewrite E in E1. injection E1 as <-.
  destruct (Hp r d Hd) as (d' & Hd' & Ht & _ & _ & _ & _ & Hsame).
  rewrite (Hsame Hne) in Hd'. split; [| exact Hd'].
  destruct Hcase as [-> | (r1 & d1 & D1 & _ & Hd1 & Htree & _)]; [exact D |].
  rewrite D in D1. injection D1 as <-. rewrite Hd' in Hd1.
  injection Hd1 as <-. contradiction.
Qed.

(** ** The generated world, tile by tile *)








(** ** The falling loop, tree by tree *)

(** X7.  One pass of [updateFallingTrees] visits every falling tree exactly
    once, although it splices trees out of the list it walks: afterwards
    the tree holds what one iteration writes into it, and it has been
    removed exactly if that iteration faded it out.  The pass adds no tree
    to the list and leaves the other decorations, the tiles of the other
    decorations, the player and the cooldown as they were. *)
Theorem falling_pass_visits_each_once (g : Game) (deltaTime : Q) (r : ref)
        (d : Decoration) :
  reachable g -> r ∈ fallingTrees g -> heap g !! r = Some d ->
  exists g',
    updateFallingTrees g deltaTime = Some g' /\
    heap g' !! r = Some (advanceTree (deltaTime / 1000) d) /\
    (if fadedOut (deltaTime / 1000) d then removed g' r else present g' r) /\
    (forall r', r' ∉ fallingTrees g -> heap g' !! r' = heap g !! r') /\
    (forall r', r' ∈ fallingTrees g' -> r' ∈ fallingTrees g) /\
    (forall x y t,
       getTile (world g) x y = Some t ->
       (forall r', decoration t = Some r' -> r' ∉ fallingTrees g) ->
       getTile (world g') x y = Some t) /\
    player g' = player g /\ chopCooldown g' = chopCooldown g.
Proof.
  intros Hr Hin Hd. pose proof (reachable_inv g Hr) as Hinv.
  destruct (updateFallingTrees_visit g deltaTime r d Hinv
              (falling_present g r Hinv Hin) Hd) as (g' & E & _ & Hd' & Hpost).
  destruct (updateFallingTrees_animated g deltaTime Hinv)
    as (g2 & E2 & _ & Han).
  rewrite E in E2. injection E2 as <-.
  exists g'. split_and!; auto; apply Han.
Qed.

(** One frame of a falling tree, in terms of [advanceTree]. *)
Lemma update_visit (g : Game) (deltaTime : Q) (r : ref) (d : Decoration) :
  inv g -> r ∈ fallingTrees g -> heap g !! r = Some d ->
  exists g',
    update g deltaTime = Some g' /\ inv g' /\
    heap g' !! r = Some (advanceTree (deltaTime / 1000) d) /\
    (if fadedOut (deltaTime / 1000) d then removed g' r else present g' r).
Proof.
  intros Hinv Hin Hd.
  destruct (update_stages g deltaTime Hinv)
    as (g1 & g2 & g' & Ew & Eh & Es & Ef & _ & _ & _ & _ & _ & Ep & Efall &
        Eu & Hinv1 & Hinv2 & Hinv' & _).
  assert (present g1 r) as Hpres1.
  { unfold present. rewrite Ew, Es, Ef. by apply falling_present. }
  destruct (updatePlayer_keeps g1 deltaTime g2 r Hinv1 Ep Hpres1)
    as [Eh2 Hpres2].
  rewrite Eh, Hd in Eh2.
  destruct (updateFallingTrees_visit g2 deltaTime r d Hinv2 Hpres2 Eh2)
    as (g'' & Efall' & _ & Hd' & Hpost).
  rewrite Efall in Efall'. injection Efall' as <-.
  exists g'. auto.
Qed.

Lemma removal_in_time (r : ref) (deltaTimes : list Q) :
  forall (g : Game) (d : Decoration),
    inv g -> r ∈ fallingTrees g -> heap g !! r = Some d ->
    Forall (fun dt => (0 < dt)%Q /\ (dt <= 50)%Q) deltaTimes ->
    (removalBudget d <= totalTime deltaTimes)%Q ->
    exists g', updates g deltaTimes = Some g' /\ inv g' /\ removed g' r.
Proof.
  induction deltaTimes as [| dt ds IH]; intros g d Hinv Hin Hd Hds Hbudget.
  - exfalso. destruct (inv_falling g Hinv r Hin) as (d0 & Hd0 & Hlive & _).
    rewrite Hd in Hd0. injection Hd0 as <-.
    destruct Hlive as (_ & _ & _ & (o & Ho & Hopos) & Hst).
    unfold totalTime in Hbudget. simpl in Hbudget.
    unfold removalBudget in Hbudget. rewrite Ho in Hbudget.
    change (default 1%Q (Some o)) with o in Hbudget.
    destruct Hst as [(Hst & a & Ha & Hlt) | (Hst & Ha)];
      rewrite Hst in Hbudget; [| lra].
    rewrite Ha in Hbudget. change (default 0%Q (Some a)) with a in Hbudget.
    lra.
  - apply Forall_cons in Hds as [[Hdt0 Hdt50] Hds].
    destruct (update_visit g dt r d Hinv Hin Hd)
      as (g1 & E1 & Hinv1 & Hd1 & Hpost).
    cbn [updates]. rewrite E1. cbn [mbind option_bind].
    destruct (fadedOut (dt / 1000) d) eqn:Hgone.
    + destruct (updates_stable _ ds (removed_stable r) g1 Hinv1 Hpost)
        as (g' & E' & Hinv' & Hrm).
      eauto.
    + destruct Hpost as (Hin1 & _).
      apply (IH g1 (advanceTree (dt / 1000) d)); auto.
      destruct (inv_falling g Hinv r Hin) as (d0 & Hd0 & Hlive & _).
      rewrite Hd in Hd0. injection Hd0 as <-.
      destruct Hlive as (_ & _ & _ & (o & Ho & Hopos) & Hst).
      unfold totalTime in Hbudget. cbn [foldr] in Hbudget.
      fold (totalTime ds) in Hbudget.
      revert Hbudget Hgone. unfold removalBudget, advanceTree, fadedOut.
      destruct Hst as [(Hst & a & Ha & Hlt) | (Hst & Ha)]; rewrite Hst.
      * rewrite Ha, Ho. change (default 0%Q (Some a)) with a.
        change (default 1%Q (Some o)) with o.
        destruct (Qle_bool (Math_PI / 2) (a + dt / 1000 * 2.5)) eqn:Hclamp;
          cbn [state set_state set_fallAngle fallAngle opacity];
          rewrite ?Ho, ?Ha; intros Hbudget _.
        -- change (default 1%Q (Some o)) with o. lra.
        -- rewrite Hst. change (default 1%Q (Some o)) with o.
           change (default 0%Q (Some (a + dt / 1000 * 2.5)%Q))
             with (a + dt / 1000 * 2.5)%Q.
           assert (dt / 1000 * 2.5 * 400 == dt)%Q by field. lra.
      * rewrite Ho. change (default 1%Q (Some o)) with o.
        cbn [state set_opacity opacity]. rewrite Hst.
        change (default 1%Q (Some (o - dt / 1000 * 2)%Q))
          with (o - dt / 1000 * 2)%Q.
        intros Hbudget _.
        assert (dt / 1000 * 2 * 500 == dt)%Q by field. lra.
Qed.

(** X8.  A felled tree leaves the game in bounded time: over frames of 1
    to 50 ms each whose deltas add up to [removalBudget] of the tree (400
    ms a radian left to fall, 500 ms a unit of opacity, and 150 ms to
    spare for a falling tree, 50 ms for a fading one), whatever the player
    does meanwhile, the tree is removed and no tile holds it any more.  A
    fading tree of opacity 1 is thus given eleven frames of 50 ms, not
    ten. *)
Theorem felled_tree_leaves_in_time (g : Game) (r : ref) (d : Decoration)
        (deltaTimes : list Q) :
  reachable g -> r ∈ fallingTrees g -> heap g !! r = Some d ->
  Forall (fun dt => (1 <= dt)%Q /\ (dt <= 50)%Q) deltaTimes ->
  (removalBudget d <= totalTime deltaTimes)%Q ->
  exists g',
    updates g deltaTimes = Some g' /\ removed g' r /\
    forall x y t, getTile (world g') x y = Some t -> decoration t <> Some r.
Proof.
  intros Hr Hin Hd Hds Hbudget.
  assert (Forall (fun dt => (0 < dt)%Q /\ (dt <= 50)%Q) deltaTimes) as Hds'.
  { eapply Forall_impl; [exact Hds |]. intros dt [Hlo Hhi]. split; lra. }
  destruct (removal_in_time r deltaTimes g d (reachable_inv g Hr) Hin Hd Hds'
              Hbudget) as (g' & E & _ & Hrm).
  exists g'. split; [exact E |]. split; [exact Hrm |].
  intros x y t Et D. destruct Hrm as (_ & Href & _). apply Href.
  exists x, y, t. auto.
Qed.

(** ** Chops that miss, and what a chop leaves alone *)

Lemma getTile_outside (w : list (list Tile)) (x y : Z) :
  squareWorld w -> getTile w x y = None -> outOfBounds w x y = true.
Proof.
  intros Hsq En. destruct (outOfBounds w x y) eqn:Hb; [reflexivity |].
  apply (outOfBounds_square _ _ _ Hsq) in Hb as [Hx Hy].
  destruct (getTile_inside _ _ _ Hsq Hx Hy) as [t Et]. congruence.
Qed.

(** X9.  A chop that misses changes nothing: [damageTree] returns false and
    leaves the game as it was when the coordinates are off the grid, when
    the tile has no decoration, and when its decoration is a rock, a flower
    or a tree whose health is at most 0. *)
Theorem chop_misses (g : Game) (x y : Q) :
  reachable g ->
  match getTile (world g) (Math_floor x) (Math_floor y) with
  | None => damageTree g x y = Some (g, false)
  | Some tile =>
      match decoration tile with
      | None => damageTree g x y = Some (g, false)
      | Some r =>
          exists d,
            heap g !! r = Some d /\
            (deco_type d <> tree \/ healthOr100 d <= 0 ->
             damageTree g x y = Some (g, false))
      end
  end.
Proof.
  intros Hr. pose proof (reachable_inv g Hr) as Hinv.
  destruct (getTile _ _ _) as [tile |] eqn:Et.
  - destruct (decoration tile) as [r |] eqn:D.
    + destruct (lookup_lt_is_Some_2 (heap g) r) as [d Hd].
      { apply (inv_refs g Hinv (Math_floor x) (Math_floor y)).
        exists tile. auto. }
      exists d. split; [exact Hd |]. intros Hmiss.
      apply (damageTree_spent g x y tile Et).
      * intros r0 d0 D0 Hd0 Htree. rewrite D in D0. injection D0 as <-.
        rewrite Hd in Hd0. injection Hd0 as <-.
        destruct Hmiss as [Hne | Hle]; [contradiction | exact Hle].
      * intros r0 D0. rewrite D in D0. injection D0 as <-. by eexists.
    + apply (damageTree_spent g x y tile Et); intros; congruence.
  - unfold damageTree.
    by rewrite (getTile_outside _ _ _ (inv_square g Hinv) Et).
Qed.

(** X10.  A chop is local: [damageTree] leaves the grid, the scene, the
    player, the input, the clock and the cooldown as they were, creates no
    decoration object and changes none but the one on the chopped tile; it
    returns true exactly when it appends that tile's tree to
    [fallingTrees]. *)
Theorem chop_is_local (g : Game) (x y : Q) (g' : Game) (b : bool) :
  damageTree g x y = Some (g', b) ->
  world g' = world g /\ scene g' = scene g /\ player g' = player g /\
  input g' = input g /\ lastTime g' = lastTime g /\
  isMoving g' = isMoving g /\ chopCooldown g' = chopCooldown g /\
  length (heap g') = length (heap g) /\
  (forall r,
     ~ holds (world g) (Math_floor x) (Math_floor y) r ->
     heap g' !! r = heap g !! r) /\
  (if b
   then exists r, holds (world g) (Math_floor x) (Math_floor y) r /\
                  fallingTrees g' = fallingTrees g ++ [r]
   else fallingTrees g' = fallingTrees g).
Proof.
  intros E.
  destruct (damageTree_frame _ _ _ _ _ E)
    as (Ew & Es & Ep & Ei & El & Em & Ec & Elen).
  split_and!; auto.
  - intros r Hno.
    destruct (damageTree_cases _ _ _ _ _ E)
      as [[-> _] | (tile & r0 & d & d' & Et & D & _ & _ & _ & _ & _ & Hcase)];
      [reflexivity |].
    assert (r0 <> r) as Hne by (intros ->; apply Hno; exists tile; auto).
    destruct Hcase as [(_ & _ & _ & ->) | (_ & _ & _ & _ & _ & _ & ->)];
      simpl; by rewrite list_lookup_insert_ne.
  - destruct (damageTree_cases _ _ _ _ _ E)
      as [[-> ->] | (tile & r0 & d & d' & Et & D & _ & _ & _ & _ & _ & Hcase)];
      [reflexivity |].
    destruct Hcase as [(_ & -> & _ & ->) | (_ & -> & _ & _ & _ & _ & ->)];
      simpl; [reflexivity |].
    exists r0. split; [exists tile; auto | reflexivity].
Qed.

(** ** Spawn selection on any grid *)

(** X11.  Spawn selection on any 20 by 20 grid: [validPositions] collects
    exactly the tiles that are not water and hold neither a tree nor a
    rock; the position returned is one of them when there is any, and the
    centre (10, 10) when there is none. *)
Theorem spawn_candidates_or_centre (w : list (list Tile))
        (h : list Decoration) (rnd : Q) :
  squareWorld w ->
  (forall x y r, holds w x y r -> is_Some (h !! r)) ->
  (0 <= rnd)%Q -> (rnd < 1)%Q ->
  exists valid pos,
    validPositions w h = Some valid /\
    getSpawnPosition w h rnd = Some pos /\
    (forall p, p ∈ valid <->
               0 <= p.1 < WORLD_SIZE /\ 0 <= p.2 < WORLD_SIZE /\
               candidateAt w h p) /\
    (valid <> [] -> pos ∈ valid) /\
    (valid = [] -> pos = (10, 10)).
Proof.
  intros Hsq Hlive H0 H1.
  assert (forall x y r, holds w x y r -> (r < length h)%nat) as Hrefs
    by (intros x y r Hh; apply lookup_lt_is_Some; eauto).
  destruct (getSpawnPosition_spec w h rnd Hsq Hrefs H0 H1)
    as (l & pos & El & Epos & Hin & Hnone).
  destruct (validPositions_spec w h Hsq Hrefs) as (l' & El' & Hl).
  rewrite El in El'. injection El' as <-.
  exists l, pos. auto.
Qed.

(** ** Where the player stands and heads *)

Lemma init_spawn rnd (rndSpawn now : Q) :
  (0 <= rndSpawn)%Q -> (rndSpawn < 1)%Q ->
  exists g pos,
    init rnd rndSpawn now = Some g /\ inv g /\ isMoving g = false /\
    player g = createPlayer pos.1 pos.2 /\
    isWalkable g (inject_Z pos.1) (inject_Z pos.2) = Some true.
Proof.
  intros H0 H1.
  destruct (init_inv rnd rndSpawn now H0 H1)
    as (g & E & Hinv & _ & _ & Hm & _ & Ew & Eh).
  pose proof E as E'. unfold init in E'.
  destruct (generateWorld_inv rnd) as [(G1 & G2 & G3 & G4) Hsq].
  destruct (generateWorld rnd) as [[w h] sc]. simpl in *.
  assert (forall x y r, holds w x y r -> (r < length h)%nat) as Hrefs
    by (intros x y r Hr; by apply (G2 x y r)).
  destruct (getSpawnPosition_spec w h rndSpawn Hsq Hrefs H0 H1)
    as (l & pos & El & Epos & Hin & _).
  destruct (validPositions_spec w h Hsq Hrefs) as (l' & El' & Hl).
  rewrite El in El'. injection El' as <-.
  assert ((0, 0) ∈ l) as Horigin.
  { apply Hl. simpl. unfold WORLD_SIZE. split; [lia |]. split; [lia |].
    destruct (getTile_inside w 0 0 Hsq) as [t Et];
      [unfold WORLD_SIZE; lia .. |].
    exists t. split; [exact Et |].
    destruct (G4 0 0 t Et) as (h0 & sc0 & ->).
    rewrite createTile_origin. reflexivity. }
  assert (pos ∈ l) as Hpos.
  { apply Hin. intros ->. by apply elem_of_nil in Horigin. }
  rewrite Epos in E'. cbn [mbind option_bind] in E'. injection E' as <-.
  eexists _, pos. split; [exact E |]. split; [exact Hinv |].
  split; [reflexivity |]. split; [reflexivity |].
  match goal with |- isWalkable ?g0 _ _ = _ =>
    destruct (candidate_walkable g0 pos Hsq) as (tile & _ & Hw & _)
  end; [apply Hl; exact Hpos | exact Hw].
Qed.

Lemma playerOk_same (g g' : Game) :
  world g' = world g -> heap g' = heap g ->
  targetX (player g') = targetX (player g) ->
  targetY (player g') = targetY (player g) ->
  player_x (player g') = player_x (player g) ->
  player_y (player g') = player_y (player g) ->
  isMoving g' = isMoving g ->
  playerOk g -> playerOk g'.
Proof.
  intros Ew Eh Etx Ety Ex Ey Em [(tx & ty & Hx & Hy & Hw) Hidle].
  split.
  - exists tx, ty. rewrite Etx, Ety, (isWalkable_ext g g') by assumption. auto.
  - rewrite Em, Etx, Ety, Ex, Ey. exact Hidle.
Qed.

Lemma damage_walkable (g : Game) (x y : Q) (g' : Game) (b : bool) (x0 y0 : Q) :
  inv g -> damageTree g x y = Some (g', b) ->
  isWalkable g x0 y0 = Some true -> isWalkable g' x0 y0 = Some true.
Proof.
  intros Hinv E.
  apply (stable_damage _ (walkable_stable g) g x y g' b Hinv); auto.
Qed.

Lemma updatePlayer_ok (g : Game) (deltaTime : Q) (g' : Game) :
  inv g -> playerOk g -> updatePlayer g deltaTime = Some g' -> playerOk g'.
Proof.
  intros Hinv Hok E. unfold updatePlayer in E.
  destruct (isMoving g) eqn:Hm.
  - destruct Hok as [(tx & ty & Hx & Hy & Hw) _].
    destruct (Qlt_bool _ _); injection E as <-.
    + split; simpl; [| auto]. exists tx, ty.
      rewrite (isWalkable_ext g) by reflexivity. auto.
    + split; simpl; [| rewrite Hm; discriminate]. exists tx, ty.
      rewrite (isWalkable_ext g) by reflexivity. auto.
  - destruct (inputDelta (input g)) as [dx dy].
    destruct (negb (dx =? 0) || negb (dy =? 0));
      [| by injection E as <-].
    set (g1 := set_player g _) in E.
    assert (playerOk g1) as Hok1
      by (apply (playerOk_same g); auto; simpl; auto).
    assert (inv g1) as Hinv1
      by (eapply inv_same; [.. | exact Hinv]; reflexivity).
    destruct (isWalkable g1 _ _) as [[|] |] eqn:Hw; [| | discriminate];
      cbn [mbind option_bind] in E.
    + injection E as <-. split; simpl; [| discriminate].
      eexists _, _. split; [reflexivity |]. split; [reflexivity |].
      rewrite (isWalkable_ext g1) by reflexivity. exact Hw.
    + destruct (Qle_bool (chopCooldown g1) 0); [| by injection E as <-].
      destruct (_ && _); [| by injection E as <-].
      destruct (getTile _ _ _) as [tile |]; [| discriminate].
      cbn [mbind option_bind] in E.
      destruct (decoration tile) as [r |]; [| by injection E as <-].
      destruct (heap g1 !! r) as [d |]; [| discriminate].
      cbn [mbind option_bind] in E.
      destruct (is_tree d); [| by injection E as <-].
      destruct (damageTree g1 _ _) as [[gd b] |] eqn:Ed; [| discriminate].
      cbn [mbind option_bind fst] in E. injection E as <-.
      destruct (damageTree_frame _ _ _ _ _ Ed)
        as (Ew & _ & Ep & _ & _ & Em & _).
      destruct Hok1 as [(tx & ty & Hx & Hy & Hw1) Hidle].
      split; simpl.
      * exists tx, ty. rewrite Ep.
        rewrite (isWalkable_ext gd) by reflexivity.
        split_and!; auto. eapply damage_walkable; eauto.
      * rewrite Em, Ep. exact Hidle.
Qed.

Lemma update_ok (g : Game) (deltaTime : Q) (g' : Game) :
  inv g -> playerOk g -> update g deltaTime = Some g' -> playerOk g'.
Proof.
  intros Hinv Hok E.
  destruct (update_stages g deltaTime Hinv)
    as (g1 & g2 & g3 & Ew & Eh & _ & _ & Ep & _ & _ & Em & _ & Eup & Efall &
        Eu & Hinv1 & Hinv2 & _ & Han).
  rewrite E in Eu. injection Eu as <-.
  assert (playerOk g1) as Hok1
    by (apply (playerOk_same g); auto; by rewrite Ep).
  pose proof (updatePlayer_ok g1 deltaTime g2 Hinv1 Hok1 Eup)
    as [(tx & ty & Hx & Hy & Hw) Hidle].
  destruct (updateFallingTrees_stable _ (walkable_stable g2) g2 deltaTime Hinv2)
    as (g4 & E4 & _ & Hkeep); [auto |].
  rewrite Efall in E4. injection E4 as <-.
  split.
  - exists tx, ty. rewrite (an_player _ _ Han). auto.
  - rewrite (an_isMoving _ _ Han), (an_player _ _ Han). exact Hidle.
Qed.

Lemma reachable_playerOk (g : Game) : reachable g -> playerOk g.
Proof.
  induction 1 as [rnd rndSpawn now g H0 H1 E | g e g' Hr IH E].
  - destruct (init_spawn rnd rndSpawn now H0 H1)
      as (g0 & pos & E0 & _ & Hm & Ep & Hw).
    rewrite E in E0. injection E0 as <-.
    split; rewrite Ep; simpl; [| auto].
    exists pos.1, pos.2. auto.
  - pose proof (reachable_inv g Hr) as Hinv.
    destruct e as [code isPressed | currentTime]; simpl in E.
    + injection E as <-. apply (playerOk_same g); auto.
    + unfold gameLoop in E.
      eapply update_ok; [| | exact E].
      * eapply inv_same; [.. | exact Hinv]; reflexivity.
      * apply (playerOk_same g); auto.
Qed.

(** X12.  In a running game the player's target is always a tile of the
    grid, at integer coordinates, that [isWalkable] accepts; and an idle
    player stands exactly on it. *)
Theorem player_heads_for_walkable_tile (g : Game) :
  reachable g ->
  exists tx ty : Z,
    targetX (player g) = inject_Z tx /\ targetY (player g) = inject_Z ty /\
    0 <= tx < WORLD_SIZE /\ 0 <= ty < WORLD_SIZE /\
    isWalkable g (inject_Z tx) (inject_Z ty) = Some true /\
    (isMoving g = false ->
     player_x (player g) = inject_Z tx /\ player_y (player g) = inject_Z ty).
Proof.
  intros Hr. pose proof (reachable_inv g Hr) as Hinv.
  destruct (reachable_playerOk g Hr) as [(tx & ty & Hx & Hy & Hw) Hidle].
  assert (0 <= tx < WORLD_SIZE /\ 0 <= ty < WORLD_SIZE) as [Bx By].
  { destruct (outOfBounds (world g) tx ty) eqn:Hb.
    - unfold isWalkable in Hw. rewrite !Math_floor_inject, Hb in Hw.
      discriminate.
    - by apply (outOfBounds_square _ _ _ (inv_square g Hinv)) in Hb. }
  exists tx, ty. split_and!; auto; try lia.
  intros Hm. rewrite <- Hx, <- Hy. auto.
Qed.

End More.

End GameMoreFacts.

(** * More of the session of [Demo] *)

Module GameMoreRuns.
Import Game GameFacts Demo SessionRuns GameMoreFacts.
#[local] Existing Instance fixedPointMath.

Lemma chopped2_heap :
  heap chopped2 !! 0%nat = Some (set_health standingTree (Some 32)).
Proof. vm_compute. reflexivity. Qed.
Lemma chopped2_tile : getTile (world chopped2) 1 1 = Some treeTile.
Proof. vm_compute. reflexivity. Qed.
Lemma facing_holds : holds (world facing) 1 1 0%nat.
Proof. exists treeTile. split; vm_compute; reflexivity. Qed.
Lemma struck_damage : damageTree facing 1 1 = Some (struck, false).
Proof. vm_compute. reflexivity. Qed.

Lemma flooded_square : squareWorld flooded.
Proof. split; [reflexivity |]. repeat constructor. Qed.

Lemma flooded_tile (x y : Z) (t : Tile) :
  getTile flooded x y = Some t -> t = mkTile 0 0 water None.
Proof.
  intros Et. apply getTile_Some in Et as (_ & _ & col & Ec & Et).
  unfold flooded in Ec. apply lookup_replicate in Ec as [-> _].
  by apply lookup_replicate in Et as [-> _].
Qed.

Lemma flooded_bare (x y : Z) (r : ref) :
  holds flooded x y r -> is_Some (@nil Decoration !! r).
Proof.
  intros (t & Et & D). apply flooded_tile in Et. subst t. discriminate.
Qed.

(** The forest over the key press and thirteen frames. *)
Lemma session_never_faults_witness :
  reachable forest /\
  exists g', run forest (Key ArrowDown true :: frames 1000 13) = Some g' /\
             reachable g' /\ squareWorld (world g').
Proof.
  split; [exact forest_reachable |].
  destruct (session_never_faults forest (Key ArrowDown true :: frames 1000 13)
              forest_reachable) as (g' & E & Hr & Hsq & _).
  exists g'. auto.
Defined.

(** The tree below the spawn tile. *)
Lemma decoration_on_one_tile_witness :
  reachable facing /\ holds (world facing) 1 1 0%nat /\
  0%nat ∈ scene facing /\ is_Some (heap facing !! 0%nat).
Proof.
  destruct (decoration_on_one_tile facing 1 1 1 1 0%nat facing_reachable
              facing_holds facing_holds) as (_ & _ & Hsc & Hh & _).
  split_and!; auto using facing_reachable, facing_holds.
Defined.

(** The list after the third chop. *)
Lemma falling_list_is_exact_witness :
  reachable felled /\ NoDup (fallingTrees felled) /\
  0%nat ∈ fallingTrees felled.
Proof.
  destruct (falling_list_is_exact felled felled_reachable) as (Hnd & _ & Hin).
  split; [exact felled_reachable |]. split; [exact Hnd |].
  apply (Hin 1 1 0%nat fallingTree).
  - exists treeTile. split; [exact felled_tile | reflexivity].
  - exact felled_heap.
  - reflexivity.
  - vm_compute. discriminate.
Defined.

(** The tree between the second chop and the third. *)
Lemma decorations_persist_witness :
  reachable chopped2 /\ run chopped2 (frames 1350 6) = Some felled /\
  length (heap felled) = length (heap chopped2) /\
  exists d', heap felled !! 0%nat = Some d' /\ deco_type d' = tree /\
             healthOr100 d' <= 32.
Proof.
  destruct (decorations_persist chopped2 (frames 1350 6) felled 0%nat
              (set_health standingTree (Some 32)) chopped2_reachable
              felled_run chopped2_heap)
    as (Hlen & d' & Hd' & Ht & _ & _ & _ & Hh & _).
  split_and!; auto using chopped2_reachable, felled_run.
  exists d'. auto.
Defined.

(** Its tile over the same frames. *)
Lemma terrain_is_fixed_witness :
  reachable chopped2 /\ run chopped2 (frames 1350 6) = Some felled /\
  getTile (world chopped2) 1 1 = Some treeTile /\
  exists t', getTile (world felled) 1 1 = Some t' /\
             tile_type t' = grass.
Proof.
  destruct (terrain_is_fixed chopped2 (frames 1350 6) felled 1 1 treeTile
              chopped2_reachable felled_run chopped2_tile)
    as (_ & _ & t' & Et' & _ & _ & Hty & _).
  split_and!; auto using chopped2_reachable, felled_run, chopped2_tile.
  exists t'. auto.
Defined.


(** The pass of the frame at 1700 over the felled tree. *)
Lemma falling_pass_visits_each_once_witness :
  reachable felled /\ 0%nat ∈ fallingTrees felled /\
  exists g', updateFallingTrees felled 50 = Some g' /\
             heap g' !! 0%nat = Some (advanceTree (50 / 1000) fallingTree) /\
             present g' 0%nat.
Proof.
  assert (fadedOut (50 / 1000) fallingTree = false) as Hstay
    by (vm_compute; reflexivity).
  destruct (falling_pass_visits_each_once felled 50 0%nat fallingTree
              felled_reachable felled_falling felled_heap)
    as (g' & E & Hd & Hpost & _).
  rewrite Hstay in Hpost.
  split; [exact felled_reachable |]. split; [exact felled_falling |].
  exists g'. split; [exact E |]. split; [exact Hd | exact Hpost].
Defined.

(** Twenty-five frames of 50 ms after the third chop. *)
Lemma felled_tree_leaves_in_time_witness :
  reachable felled /\ 0%nat ∈ fallingTrees felled /\
  (removalBudget fallingTree <= totalTime (replicate 25 50%Q))%Q /\
  exists g', updates felled (replicate 25 50%Q) = Some g' /\
             removed g' 0%nat.
Proof.
  assert (removalBudget fallingTree <= totalTime (replicate 25 50%Q))%Q
    as Hbudget by (vm_compute; discriminate).
  destruct (felled_tree_leaves_in_time felled 0%nat fallingTree
              (replicate 25 50%Q) felled_reachable felled_falling felled_heap)
    as (g' & E & Hrm & _).
  - repeat (constructor; [split; vm_compute; discriminate |]).
    constructor.
  - exact Hbudget.
  - split_and!; auto using felled_reachable, felled_falling.
    exists g'. auto.
Defined.

(** A chop off the grid. *)
Lemma chop_misses_witness :
  reachable forest /\ damageTree forest (-1) 0 = Some (forest, false).
Proof.
  split; [exact forest_reachable |].
  exact (chop_misses forest (-1) 0 forest_reachable).
Defined.

(** The first chop. *)
Lemma chop_is_local_witness :
  damageTree facing 1 1 = Some (struck, false) /\
  world struck = world facing /\ fallingTrees struck = fallingTrees facing /\
  length (heap struck) = length (heap facing).
Proof.
  destruct (chop_is_local facing 1 1 struck false struck_damage)
    as (Ew & _ & _ & _ & _ & _ & _ & Hlen & _ & Ef).
  split_and!; auto using struck_damage.
Defined.

(** The flooded grid has no candidate. *)
Lemma spawn_candidates_or_centre_witness :
  squareWorld flooded /\ (0 <= 0.5)%Q /\ (0.5 < 1)%Q /\
  validPositions flooded [] = Some [] /\
  getSpawnPosition flooded [] 0.5 = Some (10, 10).
Proof.
  assert (0 <= 0.5)%Q as H0 by (vm_compute; discriminate).
  assert (0.5 < 1)%Q as H1 by reflexivity.
  destruct (spawn_candidates_or_centre flooded [] 0.5 flooded_square
              flooded_bare H0 H1) as (valid & pos & Ev & Ep & Hv & _ & Hnone).
  assert (valid = []) as ->.
  { destruct valid as [| p l]; [reflexivity |]. exfalso.
    destruct (proj1 (Hv p)) as (_ & _ & t & Et & Hc);
      [apply list_elem_of_here |].
    apply flooded_tile in Et. subst t. discriminate. }
  rewrite (Hnone eq_refl) in Ep. auto using flooded_square.
Defined.

(** The idle player of the forest stands on its target. *)
Lemma player_heads_for_walkable_tile_witness :
  reachable forest /\
  exists tx ty : Z,
    isWalkable forest (inject_Z tx) (inject_Z ty) = Some true /\
    player_x (player forest) = inject_Z tx /\
    player_y (player forest) = inject_Z ty.
Proof.
  split; [exact forest_reachable |].
  destruct (player_heads_for_walkable_tile forest forest_reachable)
    as (tx & ty & _ & _ & _ & _ & Hw & Hidle).
  destruct (Hidle eq_refl) as [Hx Hy]. exists tx, ty. auto.
Defined.

End GameMoreRuns.

(** * Properties of the modular game *)

Module ModularFacts.
Import Modular.

(** ** Angles *)

Lemma PI_pos : (0 < Math_PI)%Q.
Proof. reflexivity. Qed.

Lemma lowerAngle_more (n : nat) :
  forall (m : nat) (a r : Q),
    lowerAngle n a = Some r -> (n <= m)%nat -> lowerAngle m a = Some r.
Proof.
  induction n as [| n IH]; intros m a r E Hle; simpl in E.
  - destruct m; simpl; destruct (Qlt_bool Math_PI a); congruence.
  - destruct m as [| m]; [lia |]. simpl.
    destruct (Qlt_bool Math_PI a); [| exact E]. apply IH; [exact E | lia].
Qed.

Lemma raiseAngle_more (n : nat) :
  forall (m : nat) (a r : Q),
    raiseAngle n a = Some r -> (n <= m)%nat -> raiseAngle m a = Some r.
Proof.
  induction n as [| n IH]; intros m a r E Hle; simpl in E.
  - destruct m; simpl; destruct (Qlt_bool a (- Math_PI)); congruence.
  - destruct m as [| m]; [lia |]. simpl.
    destruct (Qlt_bool a (- Math_PI)); [| exact E]. apply IH; [exact E | lia].
Qed.

(** The first loop: it runs to its exit within [n] rounds when [a] is at
    most [n] turns above pi. *)
Lemma lowerAngle_spec (n : nat) :
  forall a : Q,
    (a <= Math_PI + inject_Z (Z.of_nat n) * (Math_PI * 2))%Q ->
    exists (r : Q) (k : nat),
      lowerAngle n a = Some r /\
      (r == a - inject_Z (Z.of_nat k) * (Math_PI * 2))%Q /\
      (r <= Math_PI)%Q /\
      (Math_PI < a -> - Math_PI < r)%Q /\
      (a <= Math_PI -> r = a)%Q.
Proof.
  pose proof PI_pos as Hpi.
  induction n as [| n IH]; intros a Hle; simpl.
  - destruct (Qlt_bool Math_PI a) eqn:E.
    + apply GameFacts.Qlt_bool_iff in E.
      change (inject_Z (Z.of_nat 0)) with 0%Q in Hle. lra.
    + apply GameFacts.Qlt_bool_false in E. exists a, 0%nat.
      split_and!; auto;
        change (inject_Z (Z.of_nat 0)) with 0%Q; lra.
  - destruct (Qlt_bool Math_PI a) eqn:E.
    + apply GameFacts.Qlt_bool_iff in E.
      destruct (IH (a - Math_PI * 2)%Q) as (r & k & Er & Hr & Hup & Hlow & Hid).
      { rewrite Nat2Z.inj_succ, <- Z.add_1_r, inject_Z_plus in Hle.
        change (inject_Z 1) with 1%Q in Hle. lra. }
      exists r, (S k). split; [exact Er |].
      split; [rewrite Nat2Z.inj_succ, <- Z.add_1_r, inject_Z_plus;
              change (inject_Z 1) with 1%Q; lra |].
      split; [exact Hup |]. split; [| lra].
      intros _. destruct (Qlt_le_dec Math_PI (a - Math_PI * 2)) as [Hgt | Hle'].
      * apply Hlow. exact Hgt.
      * rewrite (Hid Hle'). lra.
    + apply GameFacts.Qlt_bool_false in E. exists a, 0%nat.
      split_and!; auto;
        change (inject_Z (Z.of_nat 0)) with 0%Q; lra.
Qed.

Lemma raiseAngle_spec (n : nat) :
  forall a : Q,
    (- Math_PI - inject_Z (Z.of_nat n) * (Math_PI * 2) <= a)%Q ->
    exists (r : Q) (k : nat),
      raiseAngle n a = Some r /\
      (r == a + inject_Z (Z.of_nat k) * (Math_PI * 2))%Q /\
      (- Math_PI <= r)%Q /\
      (a < - Math_PI -> r < Math_PI)%Q /\
      (- Math_PI <= a -> r = a)%Q.
Proof.
  pose proof PI_pos as Hpi.
  induction n as [| n IH]; intros a Hle; simpl.
  - destruct (Qlt_bool a (- Math_PI)) eqn:E.
    + apply GameFacts.Qlt_bool_iff in E.
      change (inject_Z (Z.of_nat 0)) with 0%Q in Hle. lra.
    + apply GameFacts.Qlt_bool_false in E. exists a, 0%nat.
      split_and!; auto;
        change (inject_Z (Z.of_nat 0)) with 0%Q; lra.
  - destruct (Qlt_bool a (- Math_PI)) eqn:E.
    + apply GameFacts.Qlt_bool_iff in E.
      destruct (IH (a + Math_PI * 2)%Q) as (r & k & Er & Hr & Hlow & Hup & Hid).
      { rewrite Nat2Z.inj_succ, <- Z.add_1_r, inject_Z_plus in Hle.
        change (inject_Z 1) with 1%Q in Hle. lra. }
      exists r, (S k). split; [exact Er |].
      split; [rewrite Nat2Z.inj_succ, <- Z.add_1_r, inject_Z_plus;
              change (inject_Z 1) with 1%Q; lra |].
      split; [exact Hlow |]. split; [| lra].
      intros _. destruct (Qlt_le_dec (a + Math_PI * 2) (- Math_PI)) as [Hlt | Hge].
      * apply Hup. exact Hlt.
      * rewrite (Hid Hge). lra.
    + apply GameFacts.Qlt_bool_false in E. exists a, 0%nat.
      split_and!; auto;
        change (inject_Z (Z.of_nat 0)) with 0%Q; lra.
Qed.

Lemma turns_bound (a : Q) :
  (Qabs a <= inject_Z (Z.of_nat (turns a)) * (Math_PI * 2))%Q.
Proof.
  pose proof PI_pos as Hpi. unfold turns.
  assert (0 <= Qabs a / (Math_PI * 2))%Q as Hnn.
  { apply Qle_shift_div_l; [lra |]. pose proof (Qabs_nonneg a). lra. }
  assert (Qabs a == Qabs a / (Math_PI * 2) * (Math_PI * 2))%Q as Eq
    by (field; lra).
  set (q := (Qabs a / (Math_PI * 2))%Q) in *.
  pose proof (Qle_ceiling q) as Hc.
  assert (0 <= Qceiling q) as Hz.
  { rewrite Zle_Qle. change (inject_Z 0) with 0%Q. lra. }
  rewrite Z2Nat.id by exact Hz. rewrite Eq.
  apply Qmult_le_compat_r; [exact Hc | lra].
Qed.

Lemma normalizeWithin_turns (a : Q) :
  exists r1 r2 : Q, exists k1 k2 : nat,
    lowerAngle (turns a) a = Some r1 /\ raiseAngle (turns a) r1 = Some r2 /\
    normalizeAngle a = r2 /\
    (r1 == a - inject_Z (Z.of_nat k1) * (Math_PI * 2))%Q /\
    (r2 == r1 + inject_Z (Z.of_nat k2) * (Math_PI * 2))%Q /\
    (- Math_PI <= r2)%Q /\ (r2 <= Math_PI)%Q /\
    ((- Math_PI <= a)%Q -> (a <= Math_PI)%Q -> r2 = a).
Proof.
  pose proof PI_pos as Hpi. pose proof (turns_bound a) as Hb.
  pose proof (Qle_Qabs a) as Hup.
  assert (- Qabs a <= a)%Q as Hlow.
  { pose proof (Qle_Qabs (- a)) as Hn. rewrite Qabs_opp in Hn. lra. }
  destruct (lowerAngle_spec (turns a) a) as (r1 & k1 & E1 & Hr1 & Hle1 & Hgt1 & Hid1);
    [lra |].
  destruct (raiseAngle_spec (turns a) r1) as (r2 & k2 & E2 & Hr2 & Hge2 & Hlt2 & Hid2).
  { destruct (Qlt_le_dec Math_PI a) as [Hgt | Hle].
    - apply Hgt1 in Hgt. lra.
    - rewrite (Hid1 Hle). lra. }
  exists r1, r2, k1, k2.
  assert (normalizeAngle a = r2) as En.
  { unfold normalizeAngle, normalizeWithin. rewrite E1.
    cbn [mbind option_bind]. rewrite E2. reflexivity. }
  split_and!; auto.
  - destruct (Qlt_le_dec r1 (- Math_PI)) as [Hlt | Hge].
    + apply Hlt2 in Hlt. lra.
    + rewrite (Hid2 Hge). exact Hle1.
  - intros Hge Hle. rewrite (Hid2 ltac:(rewrite (Hid1 Hle); exact Hge)).
    exact (Hid1 Hle).
Qed.

(** On rationals the two loops of [normalizeAngle] exit within the whole
    turns the angle holds, and running them longer changes nothing.  The
    result lies between -pi and pi, differs from the argument by a whole
    number of turns, is the argument itself when that already lies between
    -pi and pi, and is a fixed point of [normalizeAngle]. *)
Lemma normalizeAngle_spec (angle : Q) :
  (forall fuel, (turns angle <= fuel)%nat ->
                normalizeWithin fuel angle = Some (normalizeAngle angle)) /\
  (- Math_PI <= normalizeAngle angle)%Q /\
  (normalizeAngle angle <= Math_PI)%Q /\
  (exists k : Z,
     (normalizeAngle angle == angle + inject_Z k * (Math_PI * 2))%Q) /\
  ((- Math_PI <= angle)%Q -> (angle <= Math_PI)%Q ->
   normalizeAngle angle = angle) /\
  normalizeAngle (normalizeAngle angle) = normalizeAngle angle.
Proof.
  destruct (normalizeWithin_turns angle)
    as (r1 & r2 & k1 & k2 & E1 & E2 & En & Hr1 & Hr2 & Hge & Hle & Hid).
  rewrite En. split_and!; auto.
  - intros fuel Hfuel. unfold normalizeWithin.
    rewrite (lowerAngle_more _ _ _ _ E1 Hfuel). cbn [mbind option_bind].
    apply (raiseAngle_more _ _ _ _ E2 Hfuel).
  - exists (Z.of_nat k2 - Z.of_nat k1). unfold Zminus.
    rewrite inject_Z_plus, inject_Z_opp. lra.
  - destruct (normalizeWithin_turns r2)
      as (_ & r4 & _ & _ & _ & _ & En' & _ & _ & _ & _ & Hid').
    rewrite En'. by apply Hid'.
Qed.

Lemma turns_two (angle : Q) :
  (Qabs angle <= 4 * Math_PI)%Q -> (turns angle <= 2)%nat.
Proof.
  pose proof PI_pos as Hpi. intros Hb. unfold turns.
  assert (Qabs angle / (Math_PI * 2) <= 2)%Q as Hq
    by (apply Qle_shift_div_r; lra).
  apply Qceiling_resp_le in Hq. change (Qceiling 2) with 2 in Hq. lia.
Qed.

(** X13.  [normalizeAngle] on an angle within two turns of zero (at most
    4 pi either way; there a double minus or plus the double 2 pi is a
    double, so the loops of the source pass through the same numbers).  Each
    of the two loops exits within two rounds.  The result lies between -pi
    and pi, differs from the argument by at most two whole turns, is the
    argument itself when that already lies between -pi and pi, and is a
    fixed point of [normalizeAngle]. *)
Theorem normalizeAngle_wraps (angle : Q) :
  (Qabs angle <= 4 * Math_PI)%Q ->
  normalizeWithin 2 angle = Some (normalizeAngle angle) /\
  (- Math_PI <= normalizeAngle angle)%Q /\
  (normalizeAngle angle <= Math_PI)%Q /\
  (exists k : Z,
     -2 <= k <= 2 /\
     (normalizeAngle angle == angle + inject_Z k * (Math_PI * 2))%Q) /\
  ((- Math_PI <= angle)%Q -> (angle <= Math_PI)%Q ->
   normalizeAngle angle = angle) /\
  normalizeAngle (normalizeAngle angle) = normalizeAngle angle.
Proof.
  intros Hb. pose proof PI_pos as Hpi.
  destruct (normalizeAngle_spec angle)
    as (Hfuel & Hge & Hle & [k Ek] & Hid & Hfix).
  split_and!; auto.
  - apply Hfuel. by apply turns_two.
  - exists k. split; [| exact Ek].
    apply Qabs_Qle_condition in Hb as [Hlo Hhi].
    assert (inject_Z k < inject_Z 3)%Q as A.
    { change (inject_Z 3) with 3%Q. nra. }
    assert (inject_Z (-3) < inject_Z k)%Q as B.
    { change (inject_Z (-3)) with (-3)%Q. nra. }
    rewrite <- Zlt_Qlt in A, B. lia.
Qed.

Lemma whole_turns_zero (m : Z) :
  (- (Math_PI * 2) < inject_Z m * (Math_PI * 2))%Q ->
  (inject_Z m * (Math_PI * 2) < Math_PI * 2)%Q -> m = 0.
Proof.
  pose proof PI_pos as Hpi. intros Hlo Hhi.
  assert (inject_Z m < inject_Z 1)%Q as A.
  { change (inject_Z 1) with 1%Q. nra. }
  assert (inject_Z (-1) < inject_Z m)%Q as B.
  { change (inject_Z (-1)) with (-1)%Q. nra. }
  rewrite <- Zlt_Qlt in A, B. lia.
Qed.

(** The angle strictly inside the half turn that differs from [a] by whole
    turns is the one [normalizeAngle] returns. *)
Lemma normalizeAngle_unique (a r : Q) (k : Z) :
  (- Math_PI < r)%Q -> (r < Math_PI)%Q ->
  (a == r + inject_Z k * (Math_PI * 2))%Q ->
  (normalizeAngle a == r)%Q.
Proof.
  intros Hlo Hhi Ea.
  destruct (normalizeWithin_turns a)
    as (r1 & r2 & k1 & k2 & _ & _ & En & Hr1 & Hr2 & Hge & Hle & _).
  rewrite En.
  assert (r2 - r == inject_Z (k + Z.of_nat k2 - Z.of_nat k1) * (Math_PI * 2))%Q
    as Em.
  { unfold Zminus. rewrite !inject_Z_plus, inject_Z_opp. lra. }
  assert (k + Z.of_nat k2 - Z.of_nat k1 = 0) as Hm.
  { apply whole_turns_zero; lra. }
  rewrite Hm in Em. change (inject_Z 0) with 0%Q in Em. lra.
Qed.

(** ** Tiles and the store *)

Lemma tileAt_Some (w : list (list Tile)) (x y : Z) (t : Tile) :
  getTile w x y = Some t <->
  0 <= x /\ 0 <= y /\
  exists col, w !! Z.to_nat x = Some col /\ col !! Z.to_nat y = Some t.
Proof.
  unfold getTile. split.
  - intros E. apply bind_Some in E as (col & Ec & Et).
    apply GameFacts.readIndex_Some in Ec as [Hx Ec].
    apply GameFacts.readIndex_Some in Et as [Hy Et]. eauto.
  - intros (Hx & Hy & col & Ec & Et). apply bind_Some. exists col.
    split; apply GameFacts.readIndex_Some; auto.
Qed.

Lemma tileAt_bounds (w : list (list Tile)) (x y : Z) (t : Tile) :
  squareWorld w -> getTile w x y = Some t ->
  0 <= x < WORLD_SIZE /\ 0 <= y < WORLD_SIZE.
Proof.
  intros [Hl Hc] E. apply tileAt_Some in E as (Hx & Hy & col & Ec & Et).
  pose proof (lookup_lt_Some _ _ _ Ec) as Lx.
  pose proof (lookup_lt_Some _ _ _ Et) as Ly.
  rewrite Forall_lookup in Hc. rewrite (Hc _ _ Ec) in Ly.
  unfold WORLD_SIZE in *. lia.
Qed.

Lemma tileAt_inside (w : list (list Tile)) (x y : Z) :
  squareWorld w -> 0 <= x < WORLD_SIZE -> 0 <= y < WORLD_SIZE ->
  exists t, getTile w x y = Some t.
Proof.
  intros [Hl Hc] Hx Hy.
  destruct (lookup_lt_is_Some_2 w (Z.to_nat x)) as [col Ec].
  { unfold WORLD_SIZE in *. lia. }
  rewrite Forall_lookup in Hc. pose proof (Hc _ _ Ec) as Lc.
  destruct (lookup_lt_is_Some_2 col (Z.to_nat y)) as [t Et].
  { unfold WORLD_SIZE in *. lia. }
  exists t. apply tileAt_Some. split_and!; [lia | lia |]. eauto.
Qed.

Lemma inWorld_true (x y : Z) :
  inWorld x y = true <-> 0 <= x < WORLD_SIZE /\ 0 <= y < WORLD_SIZE.
Proof. unfold inWorld. rewrite !andb_true_iff. lia. Qed.

Lemma inWorld_false (x y : Z) :
  inWorld x y = false <-> ~ (0 <= x < WORLD_SIZE /\ 0 <= y < WORLD_SIZE).
Proof.
  rewrite <- inWorld_true. destruct (inWorld x y); split; congruence.
Qed.

Lemma Math_round_inject (z : Z) : Math_round (inject_Z z) = z.
Proof.
  unfold Math_round.
  assert (inject_Z z <= inject_Z z + 0.5)%Q as Hlo by lra.
  assert (inject_Z z + 0.5 < inject_Z (z + 1))%Q as Hhi.
  { rewrite inject_Z_plus. change (inject_Z 1) with 1%Q. lra. }
  pose proof (Qfloor_le (inject_Z z + 0.5)) as H1.
  pose proof (Qlt_floor (inject_Z z + 0.5)) as H2.
  assert (inject_Z (Qfloor (inject_Z z + 0.5)) < inject_Z (z + 1))%Q as A by lra.
  assert (inject_Z z < inject_Z (Qfloor (inject_Z z + 0.5) + 1))%Q as B by lra.
  rewrite <- Zlt_Qlt in A, B. lia.
Qed.

(** What a read of a valid tile returns. *)
Lemma tileOk_reads (h : list TreeTile.Tree) (x y : Z) (t : Tile) :
  tileOk h x y t ->
  exists ty b,
    tile_type h t = Some ty /\ tile_isWalkable h t = Some b /\
    tile_x h t = Some x /\ tile_y h t = Some y /\
    (is_tree ty = true <-> exists r, t = TreeAt r).
Proof.
  destruct t as [p | r]; simpl.
  - intros (Hx & Hy & Hty & Hw). exists (plain_type p), (plain_isWalkable p).
    rewrite Hx, Hy. split_and!; auto. split.
    + destruct (plain_type p); simpl; try discriminate. congruence.
    + intros [r Hr]. discriminate.
  - intros (tr & Er & Hx & Hy). rewrite Er. simpl. rewrite Hx, Hy.
    exists tree, (TreeTile.isWalkable tr). split_and!; auto.
    split; eauto.
Qed.

Lemma heapStep_refl (h : list TreeTile.Tree) : heapStep h h.
Proof. split; [reflexivity |]. intros r tr E. exists tr. auto. Qed.

Lemma heapStep_trans (h1 h2 h3 : list TreeTile.Tree) :
  heapStep h1 h2 -> heapStep h2 h3 -> heapStep h1 h3.
Proof.
  intros [L1 S1] [L2 S2]. split; [congruence |].
  intros r tr E. destruct (S1 _ _ E) as (tr2 & E2 & X2 & Y2 & W2).
  destruct (S2 _ _ E2) as (tr3 & E3 & X3 & Y3 & W3).
  exists tr3. split_and!; auto; congruence.
Qed.

Lemma heapStep_tileOk (h h' : list TreeTile.Tree) (x y : Z) (t : Tile) :
  heapStep h h' -> tileOk h x y t -> tileOk h' x y t.
Proof.
  intros [_ Hs]. destruct t as [p | r]; simpl; [done |].
  intros (tr & Er & Hx & Hy). destruct (Hs _ _ Er) as (tr' & E' & X' & Y' & _).
  exists tr'. split_and!; congruence.
Qed.

Lemma heapStep_walkable (h h' : list TreeTile.Tree) (t : Tile) :
  heapStep h h' -> tile_isWalkable h t = Some true ->
  tile_isWalkable h' t = Some true.
Proof.
  intros [_ Hs]. destruct t as [p | r]; simpl; [done |].
  intros E. apply bind_Some in E as (tr & Er & Ew).
  destruct (Hs _ _ Er) as (tr' & E' & _ & _ & W'). rewrite E'. simpl.
  injection Ew as Ew. by rewrite W'.
Qed.

Lemma heapStep_insert (h : list TreeTile.Tree) (r : nat)
      (tr tr' : TreeTile.Tree) :
  h !! r = Some tr ->
  TreeTile.x tr' = TreeTile.x tr -> TreeTile.y tr' = TreeTile.y tr ->
  (TreeTile.isWalkable tr = true -> TreeTile.isWalkable tr' = true) ->
  heapStep h (<[r := tr']> h).
Proof.
  intros Er Hx Hy Hw. split; [apply length_insert |].
  intros r0 tr0 E0. destruct (decide (r0 = r)) as [-> | Hne].
  - exists tr'. rewrite list_lookup_insert_eq by (by eapply lookup_lt_Some).
    assert (tr0 = tr) as -> by congruence. auto.
  - exists tr0. rewrite list_lookup_insert_ne by done. auto.
Qed.

Lemma damage_keeps (now : Q) (dir : Vector3) (tr : TreeTile.Tree) :
  TreeTile.x (TreeTile.damage now dir tr) = TreeTile.x tr /\
  TreeTile.y (TreeTile.damage now dir tr) = TreeTile.y tr /\
  TreeTile.isDestroyed (TreeTile.damage now dir tr) = TreeTile.isDestroyed tr /\
  (TreeTile.isWalkable tr = true ->
   TreeTile.isWalkable (TreeTile.damage now dir tr) = true).
Proof.
  unfold TreeTile.damage.
  destruct (TreeTile.health tr <=? 0); [auto |].
  destruct (TreeTile.health tr - 34 <=? 0); simpl; auto.
Qed.

Lemma update_keeps (deltaTime : Q) (tr tr' : TreeTile.Tree) :
  TreeTile.update deltaTime tr = Some tr' ->
  TreeTile.x tr' = TreeTile.x tr /\ TreeTile.y tr' = TreeTile.y tr /\
  TreeTile.isWalkable tr' = TreeTile.isWalkable tr /\
  TreeTile.health tr' = TreeTile.health tr.
Proof.
  unfold TreeTile.update. intros E.
  destruct (TreeTile.state tr).
  - by injection E as <-.
  - destruct (TreeTile.fallDirection tr); [| discriminate]. simpl in E.
    destruct (Qle_bool _ _); by injection E as <-.
  - destruct (Qle_bool _ _); by injection E as <-.
Qed.

(** ** Keeping the state well formed *)

Lemma storeOk_step (w : list (list Tile)) (h h' : list TreeTile.Tree)
      (l l' : list nat) :
  storeOk w h l -> heapStep h h' ->
  (forall r tr tr', h !! r = Some tr -> h' !! r = Some tr' ->
                    TreeTile.lifetime tr') ->
  NoDup l' ->
  (forall r, r ∈ l' <->
             exists tr', h' !! r = Some tr' /\ TreeTile.isDestroyed tr' = false) ->
  storeOk w h' l'.
Proof.
  intros [Hsq Ht Hh Hn Hl] Hstep Hlife Hn' Hl'. split; auto.
  - intros x y t E. eapply heapStep_tileOk; eauto.
  - intros r tr' E'. destruct Hstep as [Hlen Hs].
    destruct (lookup_lt_is_Some_2 h r) as [tr Er].
    { rewrite <- Hlen. by eapply lookup_lt_Some. }
    destruct (Hs _ _ Er) as (tr2 & E2 & X2 & Y2 & _).
    assert (tr2 = tr') as -> by congruence.
    split; [by eapply (Hlife r tr) |]. rewrite X2, Y2. by apply Hh.
Qed.

Lemma storeOk_damage (w : list (list Tile)) (h : list TreeTile.Tree)
      (l : list nat) (r : nat) (tr : TreeTile.Tree) (now : Q) (dir : Vector3) :
  storeOk w h l -> h !! r = Some tr ->
  storeOk w (<[r := TreeTile.damage now dir tr]> h) l.
Proof.
  intros Hok Er. pose proof Hok as [Hsq Ht Hh Hn Hl].
  destruct (damage_keeps now dir tr) as (Dx & Dy & Dd & Dw).
  pose proof (lookup_lt_Some _ _ _ Er) as Hlt.
  eapply storeOk_step; eauto.
  - by apply (heapStep_insert h r tr).
  - intros r0 tr0 tr0' E0 E0'. destruct (decide (r0 = r)) as [-> | Hne].
    + rewrite list_lookup_insert_eq in E0' by done. injection E0' as <-.
      apply TreeTile.life_damage. by apply (Hh r).
    + rewrite list_lookup_insert_ne in E0' by done.
      apply (Hh r0). congruence.
  - intros r0. rewrite Hl. destruct (decide (r0 = r)) as [-> | Hne].
    + rewrite list_lookup_insert_eq by done. rewrite Er. split.
      * intros (tr0 & E0 & D0). injection E0 as <-. eexists. split; [done |].
        congruence.
      * intros (tr0 & E0 & D0). injection E0 as <-. exists tr.
        split; [done | congruence].
    + by rewrite list_lookup_insert_ne.
Qed.

Lemma chopsOnly_refl (g : GameState) : chopsOnly g g.
Proof. unfold chopsOnly. split_and!; auto. Qed.

Lemma chopsOnly_heapStep (g g' : GameState) :
  chopsOnly g g' -> heapStep (heap g) (heap g').
Proof.
  intros (_ & _ & _ & _ & _ & _ & _ & [[-> _] | (r & tr & now & dir & Er & -> & _)]).
  - apply heapStep_refl.
  - destruct (damage_keeps now dir tr) as (Dx & Dy & Dd & Dw).
    by apply (heapStep_insert _ r tr).
Qed.

Lemma chopsOnly_storeOk (g g' : GameState) :
  chopsOnly g g' -> storeOk (world g) (heap g) (trees g) ->
  storeOk (world g') (heap g') (trees g').
Proof.
  intros (-> & -> & _ & _ & _ & _ & _ & [[-> _] | (r & tr & now & dir & Er & -> & _)]) Hok;
    [done |].
  by apply storeOk_damage.
Qed.

Lemma walkableAt_heapStep (g g' : GameState) (x y : Z) :
  world g' = world g -> heapStep (heap g) (heap g') ->
  walkableAt g x y -> walkableAt g' x y.
Proof.
  intros Hw Hs (t & Et & Ew). exists t. rewrite Hw. split; [done |].
  by eapply heapStep_walkable.
Qed.

(** [playerOk] reads the player, the two flags, the hover tile and
    walkability only. *)
Lemma playerOk_heapStep (g g' : GameState) :
  world g' = world g -> heapStep (heap g) (heap g') ->
  player g' = player g -> isMoving g' = isMoving g ->
  hoverTileX g' = hoverTileX g -> hoverTileY g' = hoverTileY g ->
  playerOk g -> playerOk g'.
Proof.
  intros Hw Hs Hp Hm Hx Hy [P1 P2 P3 P4 P5].
  split; rewrite ?Hp, ?Hm, ?Hx, ?Hy; auto.
  - destruct P2 as (tx & ty & E1 & E2 & W). exists tx, ty.
    split_and!; auto. by eapply walkableAt_heapStep.
  - intros Hidle. destruct (P3 Hidle) as (px & py & E1 & E2 & W).
    exists px, py. split_and!; auto. by eapply walkableAt_heapStep.
Qed.

(** ** The entity pass *)

Lemma updateEach_spec (deltaTime : Q) (l : list nat) :
  forall h : list TreeTile.Tree,
    NoDup l ->
    (forall r, r ∈ l ->
       exists tr, h !! r = Some tr /\ is_Some (TreeTile.update deltaTime tr)) ->
    exists h',
      updateEach l h deltaTime = Some h' /\ length h' = length h /\
      (forall r, r ∈ l ->
         exists tr tr', h !! r = Some tr /\
                        TreeTile.update deltaTime tr = Some tr' /\
                        h' !! r = Some tr') /\
      (forall r, r ∉ l -> h' !! r = h !! r).
Proof.
  induction l as [| r l IH]; intros h Hnd Hall.
  { exists h. split_and!; auto. intros r Hr. by apply elem_of_nil in Hr. }
  apply NoDup_cons in Hnd as [Hnotin Hnd].
  destruct (Hall r) as (tr & Er & [tr' Eu]); [by left |].
  pose proof (lookup_lt_Some _ _ _ Er) as Hlt.
  destruct (IH (<[r := tr']> h) Hnd) as (h' & Eh' & Hlen & Hin & Hout).
  { intros r0 Hr0. assert (r0 <> r) as Hne by (intros ->; done).
    rewrite list_lookup_insert_ne by done. apply Hall. by right. }
  exists h'. split_and!.
  - simpl. rewrite Er. simpl. rewrite Eu. simpl. exact Eh'.
  - by rewrite Hlen, length_insert.
  - intros r0 Hr0. apply elem_of_cons in Hr0 as [-> | Hr0].
    + exists tr, tr'. split_and!; auto.
      rewrite (Hout r Hnotin). by apply list_lookup_insert_eq.
    + assert (r0 <> r) as Hne by (intros ->; done).
      destruct (Hin r0 Hr0) as (tr0 & tr0' & E0 & U0 & E0').
      rewrite list_lookup_insert_ne in E0 by done. eauto.
  - intros r0 Hr0. apply not_elem_of_cons in Hr0 as [Hne Hr0].
    rewrite (Hout r0 Hr0). by apply list_lookup_insert_ne.
Qed.

Lemma alive_lookup (h : list TreeTile.Tree) (r : nat) (tr : TreeTile.Tree) :
  h !! r = Some tr -> alive h r = negb (TreeTile.isDestroyed tr).
Proof. intros E. unfold alive. by rewrite E. Qed.

Lemma alive_true (h : list TreeTile.Tree) (r : nat) :
  alive h r = true <->
  exists tr, h !! r = Some tr /\ TreeTile.isDestroyed tr = false.
Proof.
  unfold alive. destruct (h !! r) as [tr |]; split.
  - intros E. exists tr. split; [done |]. by apply negb_true_iff.
  - intros (tr' & E & D). injection E as <-. by rewrite D.
  - discriminate.
  - intros (tr' & E & _). discriminate.
Qed.

Lemma dropLoop_eq (g : GameState) (n : nat) :
  forall l : list nat,
    (n <= length l)%nat ->
    (forall r, r ∈ l ->
       exists tr, heap g !! r = Some tr /\
         exists tile,
           getTile (world g) (TreeTile.x tr) (TreeTile.y tr) = Some tile /\
           is_Some (tile_type (heap g) tile)) ->
    dropLoop n (set_trees g l) =
    Some (set_trees g (filter (fun r => alive (heap g) r = true) (take n l)
                       ++ drop n l)).
Proof.
  induction n as [| n IH]; intros l Hn Hall.
  { simpl. by rewrite drop_0. }
  destruct (lookup_lt_is_Some_2 l n) as [r Er]; [lia |].
  destruct (Hall r) as (tr & Etr & tile & Etile & [ty Ety]).
  { by eapply list_elem_of_lookup_2. }
  cbn [dropLoop]. unfold dropStep.
  change (trees (set_trees g l)) with l.
  change (heap (set_trees g l)) with (heap g).
  change (world (set_trees g l)) with (world g).
  rewrite Er. cbn [mbind option_bind]. rewrite Etr. cbn [mbind option_bind].
  rewrite (take_S_r _ _ _ Er), filter_app, filter_cons, filter_nil.
  rewrite (alive_lookup _ _ _ Etr).
  destruct (TreeTile.isDestroyed tr) eqn:Hd.
  - rewrite Etile. cbn [mbind option_bind]. rewrite Ety.
    cbn [mbind option_bind].
    change (set_trees (set_trees g l) (delete n l)) with (set_trees g (delete n l)).
    rewrite IH.
    + rewrite delete_take_drop.
      rewrite take_app_length' by (rewrite length_take; lia).
      rewrite drop_app_length' by (rewrite length_take; lia).
      destruct (decide (negb true = true)) as [Hf | _]; [discriminate |].
      by rewrite app_nil_r.
    + rewrite length_delete by (by eexists). lia.
    + intros r0 Hr0. apply Hall. rewrite delete_take_drop in Hr0.
      apply elem_of_app in Hr0 as [Hr0 | Hr0].
      * apply elem_of_take in Hr0 as (i & Ei & _).
        by eapply list_elem_of_lookup_2.
      * by eapply subseteq_drop.
  - cbn [mbind option_bind]. rewrite IH by (auto; lia).
    destruct (decide (negb false = true)) as [_ | Hf]; [| done].
    rewrite (drop_S _ _ _ Er). by rewrite <- app_assoc.
Qed.

Lemma updateEntities_eq (g : GameState) (deltaTime : Q) :
  storeOk (world g) (heap g) (trees g) ->
  exists h',
    updateEntities g deltaTime =
    Some (set_trees (set_heap g h')
                    (filter (fun r => alive h' r = true) (trees g))) /\
    length h' = length (heap g) /\
    (forall r, r ∈ trees g ->
       exists tr tr', heap g !! r = Some tr /\
                      TreeTile.isDestroyed tr = false /\
                      TreeTile.update deltaTime tr = Some tr' /\
                      h' !! r = Some tr') /\
    (forall r, r ∉ trees g -> h' !! r = heap g !! r).
Proof.
  intros [Hsq Ht Hh Hn Hl].
  destruct (updateEach_spec deltaTime (trees g) (heap g) Hn)
    as (h' & Eh' & Hlen & Hin & Hout).
  { intros r Hr. apply Hl in Hr as (tr & Er & _). exists tr.
    split; [done |]. apply TreeTileFacts.update_total.
    apply TreeTileFacts.lifetime_inv. by apply (Hh r). }
  exists h'. split_and!; auto.
  - unfold updateEntities. rewrite Eh'. cbn [mbind option_bind].
    change (set_heap g h') with (set_trees (set_heap g h') (trees g)) at 1.
    rewrite dropLoop_eq.
    + by rewrite firstn_all, drop_all, app_nil_r.
    + done.
    + intros r Hr. destruct (Hin r Hr) as (tr & tr' & Er & Eu & Er').
      exists tr'. split; [exact Er' |].
      destruct (update_keeps _ _ _ Eu) as (Ux & Uy & _).
      exists (TreeAt r). cbn [world heap set_heap tile_type].
      rewrite Ux, Uy. split; [by apply (Hh r) |].
      rewrite Er'. by eexists.
  - intros r Hr. destruct (Hin r Hr) as (tr & tr' & Er & Eu & Er').
    apply Hl in Hr as (tr0 & Er0 & Hd).
    assert (tr0 = tr) as -> by congruence. eauto 10.
Qed.

Lemma updateEntities_ok (g : GameState) (deltaTime : Q) :
  inv g ->
  exists g', updateEntities g deltaTime = Some g' /\ inv g' /\
             world g' = world g /\ player g' = player g /\
             input g' = input g /\ orbitState g' = orbitState g /\
             hoverTileX g' = hoverTileX g /\ hoverTileY g' = hoverTileY g /\
             lastTime g' = lastTime g /\ isMoving g' = isMoving g /\
             chopCooldown g' = chopCooldown g.
Proof.
  intros [Hs Hp]. pose proof Hs as [Hsq Ht Hh Hn Hl].
  destruct (updateEntities_eq g deltaTime Hs) as (h' & E & Hlen & Hin & Hout).
  eexists. split; [exact E |].
  assert (heapStep (heap g) h') as Hstep.
  { split; [done |]. intros r tr Er.
    destruct (decide (r ∈ trees g)) as [Hr | Hr].
    - destruct (Hin r Hr) as (tr0 & tr' & Er0 & _ & Eu & Er').
      assert (tr0 = tr) as -> by congruence.
      destruct (update_keeps _ _ _ Eu) as (Ux & Uy & Uw & _).
      exists tr'. split_and!; auto. congruence.
    - exists tr. rewrite (Hout r Hr). auto. }
  split_and!; try reflexivity. split.
  - cbn [world heap trees set_trees set_heap].
    eapply storeOk_step; eauto.
    + intros r tr tr' Er Er'. destruct (decide (r ∈ trees g)) as [Hr | Hr].
      * destruct (Hin r Hr) as (tr0 & tr0' & Er0 & Hd & Eu & Er0').
        assert (tr0 = tr) as -> by congruence.
        assert (tr0' = tr') as -> by congruence.
        eapply TreeTile.life_update; eauto. by apply (Hh r).
      * rewrite (Hout r Hr) in Er'. by apply (Hh r).
    + by apply NoDup_filter.
    + intros r. rewrite list_elem_of_filter, alive_true. split; [tauto |].
      intros (tr' & Er' & Hd). split; [eauto |].
      destruct (decide (r ∈ trees g)) as [Hr | Hr]; [done |].
      rewrite (Hout r Hr) in Er'. apply Hl. eauto.
  - eapply (playerOk_heapStep g); try reflexivity; done.
Qed.

(** ** World generation *)

Lemma createTileAt_cases (x y : Z) (rnd : Game.TileRandom)
      (h : list TreeTile.Tree) :
  (exists p, createTileAt x y rnd h = (Static p, h) /\
             tileOk h x y (Static p)) \/
  createTileAt x y rnd h =
  (TreeAt (length h),
   h ++ [TreeTile.createTree x y (Game.rnd_offsetX rnd) (Game.rnd_offsetY rnd)]).
Proof.
  unfold createTileAt.
  destruct (Game.nearCenter x y).
  { left. eexists. split; [reflexivity |]. simpl. split_and!; auto. }
  destruct (Qlt_bool (Game.rnd_path rnd) double_0_05 && _).
  { left. eexists. split; [reflexivity |]. simpl. split_and!; auto. }
  destruct (Qlt_bool (Game.rnd_deco rnd) double_0_30 && _); [by right |].
  destruct (Qlt_bool (Game.rnd_deco rnd) double_0_35 && _).
  { left. eexists. split; [reflexivity |]. simpl. split_and!; auto. }
  destruct (Qlt_bool (Game.rnd_deco rnd) double_0_45 && _).
  { left. eexists. split; [reflexivity |]. simpl. split_and!; auto. }
  left. eexists. split; [reflexivity |]. simpl. split_and!; auto.
Qed.

Lemma tileOk_app (h ext : list TreeTile.Tree) (x y : Z) (t : Tile) :
  tileOk h x y t -> tileOk (h ++ ext) x y t.
Proof.
  destruct t as [p | r]; simpl; [done |].
  intros (tr & Er & Hx & Hy). exists tr. split_and!; auto.
  by apply lookup_app_l_Some.
Qed.

Lemma columnOk_app (h ext : list TreeTile.Tree) (x : Z) (col : list Tile) :
  columnOk h x col -> columnOk (h ++ ext) x col.
Proof. intros Hc y t E. apply tileOk_app. by apply Hc. Qed.

Lemma columnOk_snoc (h : list TreeTile.Tree) (x : Z) (col : list Tile)
      (t : Tile) :
  columnOk h x col -> tileOk h x (Z.of_nat (length col)) t ->
  columnOk h x (col ++ [t]).
Proof.
  intros Hc Ht y t0 E. apply lookup_app_Some in E as [E | [Hge E]].
  - by apply Hc.
  - destruct (y - length col)%nat eqn:Hy; [| by destruct n].
    injection E as <-. assert (y = length col) as -> by lia. done.
Qed.

Lemma columnGen_snoc (rnd : Z -> Z -> Game.TileRandom) (x : Z)
      (col : list Tile) (h0 : list TreeTile.Tree) :
  columnGen rnd x col ->
  columnGen rnd x
    (col ++ [(createTileAt x (Z.of_nat (length col))
                           (rnd x (Z.of_nat (length col))) h0).1]).
Proof.
  intros Hc y t0 E. apply lookup_app_Some in E as [E | [Hge E]].
  - by apply Hc.
  - destruct (y - length col)%nat eqn:Hy; [| by destruct n].
    injection E as <-. assert (y = length col) as -> by lia. eauto.
Qed.

Lemma freshHeap_snoc (h : list TreeTile.Tree) (x y : Z) (rndX rndY : Q) :
  freshHeap h -> freshHeap (h ++ [TreeTile.createTree x y rndX rndY]).
Proof.
  intros Hf r tr E. apply lookup_app_Some in E as [E | [Hge E]].
  - by apply (Hf r).
  - destruct (r - length h)%nat eqn:Hr; [| by destruct n].
    injection E as <-. eauto.
Qed.

Lemma treesOf_snoc (col : list Tile) (t : Tile) :
  treesOf (col ++ [t]) =
  treesOf col ++ match t with TreeAt r => [r] | Static _ => [] end.
Proof. unfold treesOf. rewrite omap_app. by destruct t. Qed.

Lemma generateColumn_spec (rnd : Z -> Z -> Game.TileRandom) (x : Z) (n : nat) :
  forall (col : list Tile) (h : list TreeTile.Tree) col' h',
    generateColumn n x (Z.of_nat (length col)) rnd col h = (col', h') ->
    columnOk h x col -> columnGen rnd x col -> freshHeap h ->
    length col' = (length col + n)%nat /\
    columnOk h' x col' /\ columnGen rnd x col' /\ freshHeap h' /\
    (exists ext, h' = h ++ ext) /\
    treesOf col' = treesOf col ++ seq (length h) (length h' - length h).
Proof.
  induction n as [| n IH]; intros col h col' h' E Hc Hg Hf.
  { injection E as <- <-. split_and!; auto.
    - exists []. by rewrite app_nil_r.
    - by rewrite Nat.sub_diag, app_nil_r. }
  cbn [generateColumn] in E.
  pose proof (columnGen_snoc rnd x col h Hg) as Hg1.
  destruct (createTileAt_cases x (Z.of_nat (length col))
              (rnd x (Z.of_nat (length col))) h) as [(p & Ep & Hp) | Et];
    [rewrite Ep in E, Hg1 | rewrite Et in E, Hg1]; cbn [fst] in Hg1.
  - assert (Z.of_nat (length col) + 1 = Z.of_nat (length (col ++ [Static p])))
      as Hlen by (rewrite length_app; simpl; lia).
    rewrite Hlen in E.
    apply IH in E as (L & C & G & F & X & T); auto.
    + rewrite length_app in L. simpl in L.
      split_and!; auto; [lia |]. rewrite T, treesOf_snoc. by rewrite app_nil_r.
    + by apply columnOk_snoc.
  - set (tr := TreeTile.createTree _ _ _ _) in *.
    assert (Z.of_nat (length col) + 1 = Z.of_nat (length (col ++ [TreeAt (length h)])))
      as Hlen by (rewrite length_app; simpl; lia).
    rewrite Hlen in E.
    apply IH in E as (L & C & G & F & [ext X] & T); auto.
    + rewrite length_app in L. simpl in L. split_and!; auto; [lia | |].
      * exists ([tr] ++ ext). by rewrite app_assoc.
      * rewrite T, treesOf_snoc, <- app_assoc. f_equal.
        rewrite X, !length_app. simpl.
        replace (length h + 1 + length ext - length h)%nat
          with (S (length ext)) by lia.
        replace (length h + 1 + length ext - (length h + 1))%nat
          with (length ext) by lia.
        simpl. f_equal. f_equal. lia.
    + apply columnOk_snoc; [by apply columnOk_app |].
      simpl. exists tr. split_and!; auto.
      rewrite lookup_app_r by lia. by rewrite Nat.sub_diag.
    + by apply freshHeap_snoc.
Qed.

Lemma gridOk_nil (rnd : Z -> Z -> Game.TileRandom) : gridOk rnd [] [].
Proof.
  split; auto.
  - intros x col E. by rewrite lookup_nil in E.
  - intros r tr E. by rewrite lookup_nil in E.
Qed.

Lemma generateColumns_spec (rnd : Z -> Z -> Game.TileRandom) (n : nat) :
  forall (w : list (list Tile)) (h : list TreeTile.Tree) w' h',
    generateColumns n (Z.of_nat (length w)) rnd w h = (w', h') ->
    gridOk rnd w h ->
    length w' = (length w + n)%nat /\ gridOk rnd w' h'.
Proof.
  induction n as [| n IH]; intros w h w' h' E Hok.
  { injection E as <- <-. split; [lia | done]. }
  cbn [generateColumns] in E.
  destruct (generateColumn _ _ 0 rnd [] h) as [col h1] eqn:Ecol.
  destruct Hok as [Hrows Htiles Hfresh Htrees].
  apply (generateColumn_spec rnd (Z.of_nat (length w)) _ [] h) in Ecol
    as (L & C & G & F & [ext X] & T); auto.
  2:{ intros y t Ey. by rewrite lookup_nil in Ey. }
  2:{ intros y t Ey. by rewrite lookup_nil in Ey. }
  assert (Z.of_nat (length w) + 1 = Z.of_nat (length (w ++ [col]))) as Hlen
    by (rewrite length_app; simpl; lia).
  rewrite Hlen in E. apply IH in E as [L' Hok'].
  { rewrite length_app in L'. simpl in L'. split; [lia | done]. }
  split; auto.
  - apply Forall_app. split; [done |]. apply Forall_singleton. exact L.
  - intros x col0 E0. apply lookup_app_Some in E0 as [E0 | [Hge E0]].
    + destruct (Htiles x col0 E0) as [C0 G0]. split; [| done].
      rewrite X. by apply columnOk_app.
    + destruct (x - length w)%nat eqn:Hx; [| by destruct n0].
      injection E0 as <-. assert (x = length w) as -> by lia. done.
  - unfold treesOfWorld in *. rewrite map_app, join_app, Htrees. simpl.
    rewrite app_nil_r, T. simpl. rewrite X, length_app.
    replace (length h + length ext - length h)%nat with (length ext) by lia.
    by rewrite seq_app.
Qed.

Lemma generateWorld_ok (rnd : Z -> Z -> Game.TileRandom)
      (w : list (list Tile)) (h : list TreeTile.Tree) :
  generateWorld rnd = (w, h) -> squareWorld w /\ gridOk rnd w h.
Proof.
  intros E. unfold generateWorld in E.
  apply (generateColumns_spec rnd _ [] []) in E as [L Hok];
    [| apply gridOk_nil].
  split; [| done]. split; [exact L | by destruct Hok].
Qed.

Lemma elem_of_treesOfWorld (w : list (list Tile)) (r : nat) :
  r ∈ treesOfWorld w <->
  exists x y col, w !! x = Some col /\ col !! y = Some (TreeAt r).
Proof.
  unfold treesOfWorld. rewrite list_elem_of_join. split.
  - intros (l & Hr & Hl). apply list_elem_of_fmap in Hl as (col & -> & Hcol).
    apply list_elem_of_lookup in Hcol as [x Ex].
    apply list_elem_of_omap in Hr as (t & Ht & Hm).
    apply list_elem_of_lookup in Ht as [y Ey].
    destruct t as [p | r0]; [discriminate |]. injection Hm as ->. eauto.
  - intros (x & y & col & Ex & Ey). exists (treesOf col). split.
    + apply list_elem_of_omap. exists (TreeAt r). split; [| done].
      by eapply list_elem_of_lookup_2.
    + apply list_elem_of_fmap. exists col. split; [done |].
      by eapply list_elem_of_lookup_2.
Qed.

Lemma createTree_fresh (x y : Z) (rndX rndY : Q) :
  TreeTile.isDestroyed (TreeTile.createTree x y rndX rndY) = false /\
  TreeTile.isWalkable (TreeTile.createTree x y rndX rndY) = false /\
  TreeTile.health (TreeTile.createTree x y rndX rndY) = 100.
Proof. done. Qed.

Lemma gridOk_storeOk (rnd : Z -> Z -> Game.TileRandom)
      (w : list (list Tile)) (h : list TreeTile.Tree) :
  squareWorld w -> gridOk rnd w h -> storeOk w h (treesOfWorld w).
Proof.
  intros Hsq [Hrows Htiles Hfresh Htrees].
  assert (forall x y t, getTile w x y = Some t -> tileOk h x y t) as Ht.
  { intros x y t E. apply tileAt_Some in E as (Hx & Hy & col & Ec & Et).
    destruct (Htiles _ _ Ec) as [C _]. apply C in Et.
    by rewrite !Z2Nat.id in Et by lia. }
  split; auto.
  - intros r tr Er. destruct (Hfresh r tr Er) as (x & y & rx & ry & ->).
    split; [apply TreeTile.life_created |].
    assert (r ∈ treesOfWorld w) as Hr.
    { rewrite Htrees. apply elem_of_seq.
      pose proof (lookup_lt_Some _ _ _ Er). lia. }
    apply elem_of_treesOfWorld in Hr as (xn & yn & col & Ex & Ey).
    destruct (Htiles _ _ Ex) as [C _].
    destruct (C _ _ Ey) as (tr' & Er' & Hx & Hy).
    rewrite Er in Er'. injection Er' as <-. rewrite Hx, Hy.
    apply tileAt_Some. split_and!; [lia | lia |].
    exists col. by rewrite !Nat2Z.id.
  - rewrite Htrees. apply NoDup_seq.
  - intros r. rewrite Htrees, elem_of_seq. split.
    + intros Hr. destruct (lookup_lt_is_Some_2 h r) as [tr Er]; [lia |].
      exists tr. split; [done |].
      by destruct (Hfresh r tr Er) as (x & y & rx & ry & ->).
    + intros (tr & Er & _). pose proof (lookup_lt_Some _ _ _ Er). lia.
Qed.

(** ** The scans of the grid *)

Lemma tileAt_nat (w : list (list Tile)) (x y : nat) (col : list Tile) :
  w !! x = Some col -> getTile w (Z.of_nat x) (Z.of_nat y) = col !! y.
Proof.
  intros Ec. unfold getTile. rewrite GameFacts.readIndex_nat, Ec.
  cbn [mbind option_bind]. apply GameFacts.readIndex_nat.
Qed.

Lemma scanColumn_elem {A} (f : Z -> Z -> Tile -> option (list A))
      (w : list (list Tile)) (x : nat) (col : list Tile) (n : nat) :
  w !! x = Some col ->
  (forall y t, col !! y = Some t -> is_Some (f (Z.of_nat x) (Z.of_nat y) t)) ->
  forall (y : nat) (acc : list A),
    (y + n <= length col)%nat ->
    exists res,
      scanColumn f n (Z.of_nat x) (Z.of_nat y) w acc = Some res /\
      forall a, a ∈ res <->
        a ∈ acc \/
        exists y' t found,
          (y <= y' < y + n)%nat /\ col !! y' = Some t /\
          f (Z.of_nat x) (Z.of_nat y') t = Some found /\ a ∈ found.
Proof.
  intros Ec Hf. induction n as [| n IH]; intros y acc Hlen.
  { exists acc. split; [done |]. intros a. split; [auto |].
    intros [Ha | (y' & _ & _ & Hy & _)]; [done | lia]. }
  destruct (lookup_lt_is_Some_2 col y) as [t Et]; [lia |].
  destruct (Hf y t Et) as [found Efound].
  destruct (IH (S y) (acc ++ found)) as (res & Eres & Hres); [lia |].
  exists res. split.
  - cbn [scanColumn]. rewrite (tileAt_nat _ _ _ _ Ec), Et.
    cbn [mbind option_bind]. rewrite Efound. cbn [mbind option_bind].
    replace (Z.of_nat y + 1) with (Z.of_nat (S y)) by lia. exact Eres.
  - intros a. rewrite Hres, elem_of_app. split.
    + intros [[Ha | Ha] | (y' & t' & found' & Hy & Et' & Ef' & Ha)]; auto.
      * right. exists y, t, found. split_and!; auto; lia.
      * right. exists y', t', found'. split_and!; auto; lia.
    + intros [Ha | (y' & t' & found' & Hy & Et' & Ef' & Ha)]; auto.
      destruct (decide (y' = y)) as [-> | Hne].
      * left. right. congruence.
      * right. exists y', t', found'. split_and!; auto; lia.
Qed.

Lemma scanColumns_elem {A} (f : Z -> Z -> Tile -> option (list A))
      (w : list (list Tile)) (n : nat) :
  squareWorld w ->
  (forall x y t, getTile w x y = Some t -> is_Some (f x y t)) ->
  forall (x : nat) (acc : list A),
    (x + n <= length w)%nat ->
    exists res,
      scanColumns f n (Z.of_nat x) w acc = Some res /\
      forall a, a ∈ res <->
        a ∈ acc \/
        exists x' y' t found,
          (x <= x' < x + n)%nat /\
          getTile w (Z.of_nat x') (Z.of_nat y') = Some t /\
          f (Z.of_nat x') (Z.of_nat y') t = Some found /\ a ∈ found.
Proof.
  intros [Hl Hc] Hf. rewrite Forall_lookup in Hc.
  induction n as [| n IH]; intros x acc Hlen.
  { exists acc. split; [done |]. intros a. split; [auto |].
    intros [Ha | (x' & _ & _ & _ & Hx & _)]; [done | lia]. }
  destruct (lookup_lt_is_Some_2 w x) as [col Ec]; [lia |].
  destruct (scanColumn_elem f w x col (Z.to_nat WORLD_SIZE) Ec) with (y := 0%nat)
    (acc := acc) as (res1 & E1 & H1).
  { intros y t Et. apply Hf. by rewrite (tileAt_nat _ _ _ _ Ec). }
  { rewrite (Hc _ _ Ec). lia. }
  destruct (IH (S x) res1) as (res & Eres & Hres); [lia |].
  exists res. split.
  - cbn [scanColumns]. change 0 with (Z.of_nat 0). rewrite E1.
    cbn [mbind option_bind].
    replace (Z.of_nat x + 1) with (Z.of_nat (S x)) by lia. exact Eres.
  - intros a. rewrite Hres, H1. split.
    + intros [[Ha | (y' & t & found & Hy & Et & Ef & Ha)]
             | (x' & y' & t & found & Hx & Et & Ef & Ha)]; auto.
      * right. exists x, y', t, found. rewrite (tileAt_nat _ _ _ _ Ec).
        split_and!; auto; lia.
      * right. exists x', y', t, found. split_and!; auto; lia.
    + intros [Ha | (x' & y' & t & found & Hx & Et & Ef & Ha)]; auto.
      destruct (decide (x' = x)) as [-> | Hne].
      * left. right. rewrite (tileAt_nat _ _ _ _ Ec) in Et.
        pose proof (lookup_lt_Some _ _ _ Et) as Hlt.
        rewrite (Hc _ _ Ec) in Hlt.
        exists y', t, found. split_and!; auto; lia.
      * right. exists x', y', t, found. split_and!; auto; lia.
Qed.

(** What [init] collects from one tile. *)
Lemma collect_tile (h : list TreeTile.Tree) (x y : Z) (t : Tile) :
  tileOk h x y t ->
  (ty ← tile_type h t;
   match t with
   | TreeAt r => if is_tree ty then Some [r] else Some []
   | Static _ => Some []
   end) = Some (treesOf [t]).
Proof.
  destruct t as [p | r]; simpl; [done |].
  intros (tr & Er & _). by rewrite Er.
Qed.

Lemma scanColumn_trees (h : list TreeTile.Tree) (w : list (list Tile))
      (x : nat) (col : list Tile) (n : nat) :
  w !! x = Some col -> columnOk h (Z.of_nat x) col ->
  forall (y : nat) (acc : list nat),
    (y + n <= length col)%nat ->
    scanColumn
      (fun _ _ tile =>
         ty ← tile_type h tile;
         match tile with
         | TreeAt r => if is_tree ty then Some [r] else Some []
         | Static _ => Some []
         end) n (Z.of_nat x) (Z.of_nat y) w acc =
    Some (acc ++ treesOf (take n (drop y col))).
Proof.
  intros Ec Hc. induction n as [| n IH]; intros y acc Hlen.
  { simpl. by rewrite app_nil_r. }
  destruct (lookup_lt_is_Some_2 col y) as [t Et]; [lia |].
  cbn [scanColumn]. rewrite (tileAt_nat _ _ _ _ Ec), Et.
  cbn [mbind option_bind]. rewrite (collect_tile h _ _ _ (Hc _ _ Et)).
  cbn [mbind option_bind].
  replace (Z.of_nat y + 1) with (Z.of_nat (S y)) by lia.
  rewrite IH by lia. rewrite (drop_S _ _ _ Et). cbn [take].
  change (t :: take n (drop (S y) col)) with ([t] ++ take n (drop (S y) col)).
  unfold treesOf. by rewrite omap_app, app_assoc.
Qed.

Lemma scanColumns_trees (h : list TreeTile.Tree) (w : list (list Tile))
      (n : nat) :
  squareWorld w ->
  (forall (x : nat) col, w !! x = Some col -> columnOk h (Z.of_nat x) col) ->
  forall (x : nat) (acc : list nat),
    (x + n <= length w)%nat ->
    scanColumns
      (fun _ _ tile =>
         ty ← tile_type h tile;
         match tile with
         | TreeAt r => if is_tree ty then Some [r] else Some []
         | Static _ => Some []
         end) n (Z.of_nat x) w acc =
    Some (acc ++ treesOfWorld (take n (drop x w))).
Proof.
  intros [Hl Hc] Hok. rewrite Forall_lookup in Hc.
  induction n as [| n IH]; intros x acc Hlen.
  { simpl. by rewrite app_nil_r. }
  destruct (lookup_lt_is_Some_2 w x) as [col Ec]; [lia |].
  cbn [scanColumns]. change 0 with (Z.of_nat 0).
  rewrite (scanColumn_trees h w x col _ Ec (Hok _ _ Ec))
    by (rewrite (Hc _ _ Ec); lia).
  cbn [mbind option_bind].
  replace (Z.of_nat x + 1) with (Z.of_nat (S x)) by lia.
  rewrite IH by lia. rewrite (drop_S _ _ _ Ec). cbn [take].
  rewrite drop_0, <- (Hc _ _ Ec), firstn_all.
  unfold treesOfWorld. cbn [map mjoin list_join]. by rewrite app_assoc.
Qed.

Lemma collectTrees_eq (rnd : Z -> Z -> Game.TileRandom)
      (w : list (list Tile)) (h : list TreeTile.Tree) :
  squareWorld w -> gridOk rnd w h ->
  collectTrees w h = Some (treesOfWorld w).
Proof.
  intros Hsq Hok. unfold collectTrees. change 0 with (Z.of_nat 0).
  rewrite (scanColumns_trees h w _ Hsq).
  - destruct Hsq as [Hl _]. by rewrite drop_0, <- Hl, firstn_all.
  - intros x col Ec. by apply (go_tiles _ _ _ Hok).
  - destruct Hsq as [Hl _]. lia.
Qed.

Lemma walkablePositions_spec (w : list (list Tile)) (h : list TreeTile.Tree) :
  squareWorld w ->
  (forall x y t, getTile w x y = Some t -> tileOk h x y t) ->
  exists valid,
    validPositions w h = Some valid /\
    forall pos, pos ∈ valid <->
      exists t, getTile w pos.1 pos.2 = Some t /\
                tile_isWalkable h t = Some true.
Proof.
  intros Hsq Ht. unfold validPositions.
  destruct (scanColumns_elem
              (fun x y tile =>
                 walkable ← tile_isWalkable h tile;
                 if walkable : bool then Some [(x, y)] else Some [])
              w (Z.to_nat WORLD_SIZE) Hsq) with (x := 0%nat) (acc := @nil (Z * Z))
    as (res & Eres & Hres).
  { intros x y t Et.
    destruct (tileOk_reads _ _ _ _ (Ht _ _ _ Et)) as (ty & b & _ & Ew & _).
    rewrite Ew. cbn [mbind option_bind]. destruct b; by eexists. }
  { destruct Hsq as [Hl _]. lia. }
  exists res. split; [exact Eres |]. intros pos. rewrite Hres. split.
  - intros [Ha | (x' & y' & t & found & Hx & Et & Ef & Ha)];
      [by apply elem_of_nil in Ha |].
    apply bind_Some in Ef as (b & Ew & Ef). destruct b.
    + injection Ef as <-. apply list_elem_of_singleton in Ha as ->. eauto.
    + injection Ef as <-. by apply elem_of_nil in Ha.
  - intros (t & Et & Ew). right.
    destruct (tileAt_bounds _ _ _ _ Hsq Et) as [Hx Hy].
    exists (Z.to_nat pos.1), (Z.to_nat pos.2), t, [pos].
    rewrite !Z2Nat.id by lia. rewrite Ew. cbn [mbind option_bind].
    split_and!; auto.
    + lia.
    + unfold WORLD_SIZE in *. lia.
    + by destruct pos.
    + by apply list_elem_of_singleton.
Qed.

Lemma spawnPosition_spec (w : list (list Tile)) (h : list TreeTile.Tree)
      (rnd : Q) :
  squareWorld w ->
  (forall x y t, getTile w x y = Some t -> tileOk h x y t) ->
  (0 <= rnd)%Q -> (rnd < 1)%Q ->
  exists valid pos,
    validPositions w h = Some valid /\
    getSpawnPosition w h rnd = Some pos /\
    (valid <> [] -> pos ∈ valid) /\
    (valid = [] -> pos = (10, 10)).
Proof.
  intros Hsq Ht H0 H1.
  destruct (walkablePositions_spec w h Hsq Ht) as (valid & Ev & Hv).
  unfold getSpawnPosition. rewrite Ev. cbn [mbind option_bind].
  destruct valid as [| p0 valid].
  { exists [], (10, 10). split_and!; auto. done. }
  set (l := p0 :: valid) in *.
  assert (0 < length l)%nat as Hpos by (simpl; lia).
  destruct (Nat.ltb_spec 0 (length l)) as [_ | Hle]; [| lia].
  destruct (GameFacts.floor_index rnd (length l) H0 H1 Hpos) as [Hlo Hhi].
  destruct (lookup_lt_is_Some_2 l
              (Z.to_nat (Math_floor (rnd * inject_Z (Z.of_nat (length l))))))
    as [pos Epos]; [lia |].
  exists l, pos. split_and!; auto.
  - apply GameFacts.readIndex_Some. auto.
  - intros _. by eapply list_elem_of_lookup_2.
  - discriminate.
Qed.

Lemma createTileAt_corner (rnd : Game.TileRandom) (h : list TreeTile.Tree) :
  createTileAt 0 0 rnd h = (createGrass 0 0, h).
Proof.
  unfold createTileAt. change (Game.nearCenter 0 0) with false.
  change (Game.distFromEdge 0 0) with 0. cbn [Z.ltb Z.compare andb].
  by rewrite !andb_false_r.
Qed.

Lemma gridOk_corner (rnd : Z -> Z -> Game.TileRandom)
      (w : list (list Tile)) (h : list TreeTile.Tree) :
  squareWorld w -> gridOk rnd w h ->
  getTile w 0 0 = Some (createGrass 0 0).
Proof.
  intros Hsq Hok.
  destruct (tileAt_inside w 0 0 Hsq) as [t Et]; [done | done |].
  rewrite Et. f_equal.
  apply tileAt_Some in Et as (_ & _ & col & Ec & Et).
  destruct (go_tiles _ _ _ Hok _ _ Ec) as [_ G].
  destruct (G _ _ Et) as [h0 ->]. by rewrite createTileAt_corner.
Qed.

(** X16.  The tree part of [updateEntities] on a well-formed state: every
    listed tree is updated exactly once, no other tree object is touched,
    and the backwards loop with its splices leaves in the list exactly the
    trees the update did not destroy, in their order; nothing else of the
    game changes. *)
Theorem entity_pass_updates_then_drops (g : GameState) (deltaTime : Q) :
  storeOk (world g) (heap g) (trees g) ->
  exists h',
    updateEntities g deltaTime =
    Some (set_trees (set_heap g h')
                    (filter (fun r => alive h' r = true) (trees g))) /\
    length h' = length (heap g) /\
    forall r tr, heap g !! r = Some tr ->
      h' !! r = if decide (r ∈ trees g)
                then TreeTile.update deltaTime tr else Some tr.
Proof.
  intros Hs. destruct (updateEntities_eq g deltaTime Hs)
    as (h' & E & Hlen & Hin & Hout).
  exists h'. split_and!; auto.
  intros r tr Er. destruct (decide (r ∈ trees g)) as [Hr | Hr].
  - destruct (Hin r Hr) as (tr0 & tr' & Er0 & _ & Eu & Er').
    congruence.
  - rewrite (Hout r Hr). exact Er.
Qed.

(** ** The frame limiter *)

Lemma FRAME_INTERVAL_pos : (0 < FRAME_INTERVAL)%Q.
Proof. reflexivity. Qed.


Section Steps.
Context `{JsMath}.

Lemma chop_tree (g : GameState) (r : nat) (tr : TreeTile.Tree)
      (cx cy now : Q) :
  heap g !! r = Some tr ->
  exists dir,
    chop g (TreeAt r) cx cy now =
    Some (set_chopCooldown
            (set_heap g (<[r := TreeTile.damage now dir tr]> (heap g))) 300).
Proof.
  intros Er. unfold chop, damageTile. rewrite Er. simpl. eauto.
Qed.

(** A valid tile that is not walkable and of type ['tree'] is a tree object
    of the store. *)
Lemma blocked_tree (h : list TreeTile.Tree) (x y : Z) (t : Tile)
      (ty : TileType) :
  tileOk h x y t -> tile_type h t = Some ty -> is_tree ty = true ->
  exists r tr, t = TreeAt r /\ h !! r = Some tr /\
               TreeTile.x tr = x /\ TreeTile.y tr = y.
Proof.
  intros Hok Ety Htree.
  destruct (tileOk_reads _ _ _ _ Hok) as (ty' & b & E1 & _ & _ & _ & Hiff).
  assert (ty' = ty) as -> by congruence.
  destruct (proj1 Hiff Htree) as [r ->]. simpl in Hok.
  destruct Hok as (tr & Er & Hx & Hy). eauto 10.
Qed.

Lemma inject_Z_eq (a b : Z) : (inject_Z a == inject_Z b)%Q -> a = b.
Proof. intros E. by apply inject_Z_injective. Qed.

#[local] Arguments normalizeAngle : simpl never.
#[local] Arguments angleDifference : simpl never.
#[local] Arguments mustTurn : simpl never.
#[local] Arguments getCardinalDirection : simpl never.
#[local] Arguments clickStep : simpl never.

Ltac quiet := unfold chopsOnly; simpl; split_and!; auto.

Lemma playerStep_ok (g : GameState) (deltaTime now : Q) :
  inv g ->
  exists g', updatePlayer g deltaTime now = Some g' /\
             chopsOnly g g' /\ playerOk g'.
Proof.
  intros [Hs Hp]. pose proof Hs as [Hsq Ht Hh Hn Hl].
  pose proof Hp as [P1 P2 P3 P4 P5].
  unfold updatePlayer.
  destruct (isRotating (player g)) eqn:Hrot.
  { destruct (Qlt_bool _ _).
    - eexists. split; [reflexivity |]. unfold finishTurn.
      destruct (negb _ || negb _) eqn:Hne.
      + split; [quiet |]. split; simpl; auto.
        all: discriminate.
      + split; [quiet |].
        apply orb_false_iff in Hne as [N1 N2].
        apply negb_false_iff, Qeq_bool_iff in N1, N2.
        split; simpl; auto.
        intros Hm _. destruct (P3 Hm) as (px & py & E1 & E2 & _).
        destruct P2 as (tx & ty & E3 & E4 & _).
        rewrite E1, E2, E3, E4 in *.
        apply inject_Z_eq in N1, N2. by subst.
    - eexists. split; [reflexivity |].
      split; [quiet |]. split; simpl; auto.
      intros _ Hr. congruence. }
  destruct (isMoving g) eqn:Hmov.
  { destruct (Qlt_bool _ _).
    - eexists. split; [reflexivity |]. split; [quiet |].
      split; simpl; auto.
    - eexists. split; [reflexivity |]. split; [quiet |].
      split; simpl; auto; intros; congruence. }
  destruct (P3 eq_refl) as (px & py & Ex & Ey & Wp).
  destruct (P4 eq_refl eq_refl) as [Tx Ty].
  destruct (Game.inputDelta (input g)) as [dx dy].
  destruct (negb (dx =? 0) || negb (dy =? 0)).
  2:{ exists g. split; [reflexivity |]. split; [apply chopsOnly_refl | done]. }
  rewrite Ex, Ey, !Math_round_inject, !GameFacts.Math_floor_inject.
  destruct (inWorld (px + dx) (py + dy)) eqn:Hin.
  2:{ exists g. split; [reflexivity |]. split; [apply chopsOnly_refl | done]. }
  apply inWorld_true in Hin as [Hx Hy].
  destruct (tileAt_inside (world g) (px + dx) (py + dy)) as [tile Etile]; auto.
  rewrite Etile. cbn [mbind option_bind].
  pose proof (Ht _ _ _ Etile) as Hok.
  destruct (tileOk_reads _ _ _ _ Hok) as (ty & b & Ety & Ew & Etx & Ety' & Hiff).
  rewrite Ew. cbn [mbind option_bind]. destruct b.
  { assert (walkableAt g (px + dx) (py + dy)) as Wt by (by exists tile).
    destruct (mustTurn _).
    - eexists. split; [reflexivity |]. split; [quiet |].
      split; simpl; auto; try congruence.
      exists (px + dx), (py + dy). auto.
    - eexists. split; [reflexivity |]. split; [quiet |].
      split; simpl; auto; try congruence; try (intros; congruence).
      exists (px + dx), (py + dy). auto. }
  rewrite Ety. cbn [mbind option_bind].
  set (p1 := set_targetDirection (player g) _).
  destruct (mustTurn p1).
  { cbn [isRotating set_isRotating negb andb]. eexists.
    split; [reflexivity |]. split; [quiet |].
    split; simpl; auto; try congruence. }
  cbn [isRotating set_direction set_targetDirection p1].
  rewrite Hrot. cbn [negb andb chopCooldown set_player].
  destruct (Qle_bool (chopCooldown g) 0) eqn:Hcool; cbn [andb].
  2:{ eexists. split; [reflexivity |]. split; [quiet |].
      split; simpl; auto; try congruence. }
  destruct (is_tree ty) eqn:Htree.
  2:{ eexists. split; [reflexivity |]. split; [quiet |].
      split; simpl; auto; try congruence. }
  destruct (blocked_tree _ _ _ _ _ Hok Ety Htree) as (r & tr & -> & Er & Hrx & Hry).
  rewrite Etx, Ety'. cbn [mbind option_bind].
  set (g1 := set_player g _).
  destruct (chop_tree g1 r tr (inject_Z (px + dx)) (inject_Z (py + dy)) now Er)
    as [dir Echop].
  rewrite Echop. eexists. split; [reflexivity |].
  apply Qle_bool_iff in Hcool.
  destruct (damage_keeps now dir tr) as (Dx & Dy & Dd & Dw).
  split.
  - unfold chopsOnly. simpl. split_and!; auto. right.
    exists r, tr, now, dir. auto.
  - eapply (playerOk_heapStep g1); try reflexivity.
    + simpl. by apply (heapStep_insert _ r tr).
    + split; simpl; auto; try congruence.
Qed.



Lemma faceTowards_ok (g : GameState) (dir : Q) :
  playerOk g -> chopsOnly g (faceTowards g dir) /\ playerOk (faceTowards g dir).
Proof.
  intros [P1 P2 P3 P4 P5]. unfold faceTowards.
  destruct (mustTurn _).
  - split; [quiet |]. split; simpl; auto; try congruence.
  - split; [quiet |]. split; simpl; auto; try congruence.
Qed.

Lemma click_ok (g : GameState) (now : Q) :
  inv g ->
  exists g', initiateActionAtHoveredTile g now = Some g' /\
             chopsOnly g g' /\ playerOk g'.
Proof.
  intros [Hs Hp]. pose proof Hs as [Hsq Ht Hh Hn Hl].
  pose proof Hp as [P1 P2 P3 P4 P5].
  unfold initiateActionAtHoveredTile.
  destruct ((hoverTileX g <? 0) || (hoverTileY g <? 0)).
  { exists g. split; [reflexivity |]. split; [apply chopsOnly_refl | done]. }
  destruct (isMoving g) eqn:Hmov.
  { exists g. split; [reflexivity |]. split; [apply chopsOnly_refl | done]. }
  destruct (P3 eq_refl) as (px & py & Ex & Ey & Wp).
  rewrite Ex, Ey, !Math_round_inject.
  destruct ((px =? hoverTileX g) && (py =? hoverTileY g)).
  { exists g. split; [reflexivity |]. split; [apply chopsOnly_refl | done]. }
  destruct (clickStep _ _) as [mx my].
  destruct (inWorld (px + mx) (py + my)) eqn:Hin; cbn [negb].
  2:{ eexists. split; [reflexivity |]. by apply faceTowards_ok. }
  apply inWorld_true in Hin as [Hx Hy].
  destruct (tileAt_inside (world g) (px + mx) (py + my)) as [tile Etile]; auto.
  rewrite Etile. cbn [mbind option_bind].
  pose proof (Ht _ _ _ Etile) as Hok.
  destruct (tileOk_reads _ _ _ _ Hok) as (ty & b & Ety & Ew & Etx & Ety' & Hiff).
  rewrite Ew. cbn [mbind option_bind]. destruct b.
  { assert (walkableAt g (px + mx) (py + my)) as Wt by (by exists tile).
    destruct (mustTurn _).
    - eexists. split; [reflexivity |]. split; [quiet |].
      split; simpl; auto; try congruence.
      exists (px + mx), (py + my). auto.
    - eexists. split; [reflexivity |]. split; [quiet |].
      split; simpl; auto; try congruence; try (intros; congruence).
      exists (px + mx), (py + my). auto. }
  rewrite Ety. cbn [mbind option_bind].
  destruct (is_tree ty) eqn:Htree.
  2:{ eexists. split; [reflexivity |]. by apply faceTowards_ok. }
  set (p1 := set_targetDirection (player g) _).
  destruct (mustTurn p1).
  { eexists. split; [reflexivity |]. split; [quiet |].
    split; simpl; auto; try congruence. }
  destruct (Qle_bool (chopCooldown g) 0) eqn:Hcool.
  2:{ eexists. split; [reflexivity |]. split; [quiet |].
      split; simpl; auto; try congruence. }
  destruct (blocked_tree _ _ _ _ _ Hok Ety Htree) as (r & tr & -> & Er & Hrx & Hry).
  set (g1 := set_player g _).
  destruct (chop_tree g1 r tr (inject_Z (px + mx)) (inject_Z (py + my)) now Er)
    as [dir Echop].
  rewrite Echop. eexists. split; [reflexivity |].
  apply Qle_bool_iff in Hcool.
  destruct (damage_keeps now dir tr) as (Dx & Dy & Dd & Dw).
  split.
  - unfold chopsOnly. simpl. split_and!; auto. right.
    exists r, tr, now, dir. auto.
  - eapply (playerOk_heapStep g1); try reflexivity.
    + simpl. by apply (heapStep_insert _ r tr).
    + split; simpl; auto; try congruence.
Qed.

Lemma inv_chopsOnly (g g' : GameState) :
  inv g -> chopsOnly g g' -> playerOk g' -> inv g'.
Proof.
  intros [Hs _] Hc Hp. split; [| done]. by apply (chopsOnly_storeOk g).
Qed.

(** Writes to the cooldown, the clock, the keys and the pointer state keep
    the state well formed. *)
Lemma inv_set_chopCooldown (g : GameState) (c : Q) :
  inv g -> inv (set_chopCooldown g c).
Proof.
  intros [Hs Hp]. split; [done |].
  eapply (playerOk_heapStep g); try reflexivity; [apply heapStep_refl | done].
Qed.

Lemma inv_set_lastTime (g : GameState) (t : Q) : inv g -> inv (set_lastTime g t).
Proof.
  intros [Hs Hp]. split; [done |].
  eapply (playerOk_heapStep g); try reflexivity; [apply heapStep_refl | done].
Qed.

Lemma inv_set_input (g : GameState) (i : Game.InputState) :
  inv g -> inv (set_input g i).
Proof.
  intros [Hs Hp]. split; [done |].
  eapply (playerOk_heapStep g); try reflexivity; [apply heapStep_refl | done].
Qed.

Lemma inv_set_orbitState (g : GameState) (o : OrbitState) :
  inv g -> inv (set_orbitState g o).
Proof.
  intros [Hs Hp]. split; [done |].
  eapply (playerOk_heapStep g); try reflexivity; [apply heapStep_refl | done].
Qed.

Lemma inv_set_hover (g : GameState) (x y : Z) :
  inv g -> (x = -1 /\ y = -1) \/ inWorld x y = true -> inv (set_hover g x y).
Proof.
  intros [Hs [P1 P2 P3 P4 P5]] Hxy. split; [done |]. split; auto.
Qed.

Lemma frame_stages (g : GameState) (deltaTime now : Q) :
  inv g ->
  let g1 := if Qlt_bool 0 (chopCooldown g)
            then set_chopCooldown g (chopCooldown g - deltaTime)%Q else g in
  exists g2 g',
    updatePlayer g1 deltaTime now = Some g2 /\ chopsOnly g1 g2 /\ inv g2 /\
    updateEntities g2 deltaTime = Some g' /\ inv g' /\
    update g deltaTime now = Some g'.
Proof.
  intros Hinv g1.
  assert (inv g1) as Hinv1.
  { subst g1. destruct (Qlt_bool _ _); [by apply inv_set_chopCooldown | done]. }
  destruct (playerStep_ok g1 deltaTime now Hinv1) as (g2 & E2 & Hc & Hp).
  pose proof (inv_chopsOnly g1 g2 Hinv1 Hc Hp) as Hinv2.
  destruct (updateEntities_ok g2 deltaTime Hinv2) as (g3 & E3 & Hinv3 & _).
  exists g2, g3. split_and!; auto.
  unfold update. fold g1. rewrite E2. cbn [mbind option_bind]. exact E3.
Qed.

Lemma frame_ok (g : GameState) (deltaTime now : Q) :
  inv g ->
  exists g', update g deltaTime now = Some g' /\ inv g' /\
             lastTime g' = lastTime g.
Proof.
  intros Hinv.
  destruct (frame_stages g deltaTime now Hinv)
    as (g2 & g' & E2 & Hc & Hinv2 & E3 & Hinv3 & E).
  exists g'. split_and!; auto.
  destruct (updateEntities_ok g2 deltaTime Hinv2)
    as (g3 & E3' & _ & _ & _ & _ & _ & _ & _ & Hlast & _).
  assert (g3 = g') as -> by congruence. rewrite Hlast.
  destruct Hc as (_ & _ & -> & _). by destruct (Qlt_bool _ _).
Qed.

Lemma gameLoop_ok (g : GameState) (currentTime now : Q) :
  inv g -> exists g', gameLoop g currentTime now = Some g' /\ inv g'.
Proof.
  intros Hinv. unfold gameLoop. destruct (Qlt_bool _ _); [eauto |].
  destruct (frame_ok (set_lastTime g (currentTime -
              remainder (currentTime - lastTime g) FRAME_INTERVAL)%Q)
              (Math_min (currentTime - lastTime g) 50) now)
    as (g' & E & Hinv' & _); [by apply inv_set_lastTime | eauto].
Qed.

Lemma updateHoverHighlight_ok (g : GameState) (hit : Q * Q) :
  inv g -> exists g', updateHoverHighlight g hit = Some g' /\ inv g'.
Proof.
  intros Hinv. pose proof Hinv as [[Hsq Ht Hh Hn Hl] _].
  unfold updateHoverHighlight.
  destruct (inWorld _ _) eqn:Hin; cbn [negb].
  2:{ eexists. split; [reflexivity |]. apply inv_set_hover; auto. }
  pose proof Hin as Hin'. apply inWorld_true in Hin' as [Hx Hy].
  destruct (tileAt_inside (world g) _ _ Hsq Hx Hy) as [tile Etile].
  rewrite Etile. cbn [mbind option_bind].
  destruct (tileOk_reads _ _ _ _ (Ht _ _ _ Etile)) as (ty & b & Ety & Ew & _).
  rewrite Ety, Ew. cbn [mbind option_bind].
  eexists. split; [reflexivity |]. apply inv_set_hover; auto.
Qed.

Lemma step_ok (g : GameState) (e : Event) :
  inv g -> exists g', step g e = Some g' /\ inv g'.
Proof.
  intros Hinv. destruct e as [code b | cx cy | cx cy hit | now | | ct now];
    cbn [step].
  - eexists. split; [reflexivity |]. by apply inv_set_input.
  - eexists. split; [reflexivity |]. by apply inv_set_orbitState.
  - unfold mouseMove. apply updateHoverHighlight_ok.
    destruct (isDragging _); [by apply inv_set_orbitState | done].
  - unfold mouseUp. destruct (isClick _).
    + destruct (click_ok g now Hinv) as (g1 & E1 & Hc & Hp). rewrite E1.
      cbn [mbind option_bind]. eexists. split; [reflexivity |].
      apply inv_set_orbitState. by apply (inv_chopsOnly g).
    + cbn [mbind option_bind]. eexists. split; [reflexivity |].
      by apply inv_set_orbitState.
  - eexists. split; [reflexivity |]. unfold mouseLeave.
    apply inv_set_hover; [by apply inv_set_orbitState | auto].
  - by apply gameLoop_ok.
Qed.

Lemma run_ok (evs : list Event) :
  forall g, inv g -> exists g', run g evs = Some g' /\ inv g'.
Proof.
  induction evs as [| e evs IH]; intros g Hinv; [by exists g |].
  destruct (step_ok g e Hinv) as (g1 & E1 & Hinv1).
  cbn [run]. rewrite E1. cbn [mbind option_bind]. by apply IH.
Qed.

Lemma init_ok (rnd : Z -> Z -> Game.TileRandom) (rndSpawn now : Q) :
  (0 <= rndSpawn)%Q -> (rndSpawn < 1)%Q ->
  exists g, init rnd rndSpawn now = Some g /\ inv g /\
            gridOk rnd (world g) (heap g) /\
            trees g = seq 0 (length (heap g)) /\
            lastTime g = now /\ chopCooldown g = 0%Q /\
            isRotating (player g) = false /\ isMoving g = false.
Proof.
  intros H0 H1. unfold init.
  destruct (generateWorld rnd) as [w h] eqn:Egen.
  apply generateWorld_ok in Egen as [Hsq Hok].
  pose proof (gridOk_storeOk rnd w h Hsq Hok) as Hs.
  rewrite (collectTrees_eq rnd w h Hsq Hok). cbn [mbind option_bind].
  destruct (spawnPosition_spec w h rndSpawn Hsq (so_tiles _ _ _ Hs) H0 H1)
    as (valid & pos & Ev & Epos & Hin & _).
  rewrite Epos. cbn [mbind option_bind].
  destruct (walkablePositions_spec w h Hsq (so_tiles _ _ _ Hs)) as (valid' & Ev' & Hv).
  assert (valid' = valid) as -> by congruence.
  assert ((0, 0) ∈ valid) as Hcorner.
  { apply Hv. exists (createGrass 0 0). split; [| done].
    by apply (gridOk_corner rnd w h). }
  assert (pos ∈ valid) as Hpos.
  { apply Hin. intros ->. by apply elem_of_nil in Hcorner. }
  apply Hv in Hpos as (t & Et & Ew).
  eexists. split; [reflexivity |]. split_and!; auto.
  - split; [exact Hs |]. split; simpl; auto.
    + exists pos.1, pos.2. split_and!; auto. by exists t.
    + intros _. exists pos.1, pos.2. split_and!; auto. by exists t.
  - exact (go_trees _ _ _ Hok).
Qed.

Lemma reachable_wellFormed (g : GameState) : reachable g -> inv g.
Proof.
  induction 1 as [rnd rndSpawn now g H0 H1 E | g e g' _ IH E].
  - destruct (init_ok rnd rndSpawn now H0 H1) as (g0 & E0 & Hinv & _).
    congruence.
  - destruct (step_ok g e IH) as (g1 & E1 & Hinv1). congruence.
Qed.

Lemma run_reachable (evs : list Event) :
  forall g g', reachable g -> run g evs = Some g' -> reachable g'.
Proof.
  induction evs as [| e evs IH]; intros g g' Hr E.
  { injection E as <-. done. }
  cbn [run] in E. apply bind_Some in E as (g1 & E1 & E).
  apply (IH g1); [| done]. by eapply reachable_step.
Qed.

Lemma step_world (g g' : GameState) (e : Event) :
  inv g -> step g e = Some g' -> world g' = world g.
Proof.
  intros Hinv E1.
  destruct e as [code b | cx cy | cx cy hit | now | | ct now];
    cbn [step] in E1.
  - by injection E1 as <-.
  - by injection E1 as <-.
  - unfold mouseMove, updateHoverHighlight in E1.
    destruct (isDragging _), (negb _); simplify_option_eq; done.
  - unfold mouseUp in E1. destruct (isClick _).
    + destruct (click_ok g now Hinv) as (g2 & E2 & Hc & _).
      rewrite E2 in E1. cbn [mbind option_bind] in E1.
      injection E1 as <-. by destruct Hc as (Hw & _).
    + by injection E1 as <-.
  - by injection E1 as <-.
  - unfold gameLoop in E1. destruct (Qlt_bool _ _); [by injection E1 as <- |].
    set (g0 := set_lastTime g _) in *.
    destruct (frame_stages g0 (Math_min (ct - lastTime g) 50) now)
      as (g2 & g3 & E2 & Hc & Hinv2 & E3 & _ & E); [by apply inv_set_lastTime |].
    assert (g3 = g') as -> by congruence.
    destruct (updateEntities_ok g2 (Math_min (ct - lastTime g) 50) Hinv2)
      as (g4 & E4 & _ & Hw & _).
    assert (g4 = g') as -> by congruence. rewrite Hw.
    destruct Hc as (Hw2 & _). rewrite Hw2. by destruct (Qlt_bool _ _).
Qed.

Lemma run_world (evs : list Event) :
  forall g g', inv g -> run g evs = Some g' -> world g' = world g.
Proof.
  induction evs as [| e evs IH]; intros g g' Hinv E.
  { by injection E as <-. }
  cbn [run] in E. apply bind_Some in E as (g1 & E1 & E).
  destruct (step_ok g e Hinv) as (g1' & E1' & Hinv1).
  assert (g1' = g1) as -> by congruence.
  rewrite (IH g1 g' Hinv1 E). by apply (step_world g g1 e).
Qed.

(** X14.  The modular game never faults.  From every state reached from
    [init] by key, pointer and frame events, every further sequence of such
    events runs to its end; the grid is never replaced and stays 20 by 20,
    and every tile inside it can be read: its type, its walkability and its
    coordinates, which are its position in the grid. *)
Theorem modular_game_never_faults (g : GameState) (evs : list Event) :
  reachable g ->
  exists g',
    run g evs = Some g' /\ reachable g' /\ world g' = world g /\
    squareWorld (world g') /\
    forall x y, inWorld x y = true ->
      exists t ty b,
        getTile (world g') x y = Some t /\
        tile_type (heap g') t = Some ty /\
        tile_isWalkable (heap g') t = Some b /\
        tile_x (heap g') t = Some x /\ tile_y (heap g') t = Some y.
Proof.
  intros Hr. destruct (run_ok evs g (reachable_wellFormed g Hr)) as (g' & E & Hinv).
  exists g'. pose proof Hinv as [[Hsq Ht Hh Hn Hl] _].
  pose proof (reachable_wellFormed g Hr) as Hinv0.
  split_and!; auto.
  - by apply (run_reachable evs g).
  - by apply (run_world evs g).
  - intros x y Hin. apply inWorld_true in Hin as [Hx Hy].
    destruct (tileAt_inside _ _ _ Hsq Hx Hy) as [t Et].
    destruct (tileOk_reads _ _ _ _ (Ht _ _ _ Et)) as (ty & b & E1 & E2 & E3 & E4 & _).
    exists t, ty, b. auto.
Qed.

(** X15.  In every reachable state [GameState.trees] has no duplicates and
    holds exactly the tree tiles that are not destroyed.  Every tree object
    is the tile of the grid at its own [x] and [y], so that the grid and the
    list name the same objects; it is walkable exactly when its health is 0
    or below, and it is destroyed only then.  Every other tile records its
    position, is not of type tree, and has the walkability of its type. *)
Theorem tree_list_is_exact (g : GameState) :
  reachable g ->
  NoDup (trees g) /\
  (forall r, r ∈ trees g <->
     exists tr, heap g !! r = Some tr /\ TreeTile.isDestroyed tr = false) /\
  (forall r tr, heap g !! r = Some tr ->
     getTile (world g) (TreeTile.x tr) (TreeTile.y tr) = Some (TreeAt r) /\
     (TreeTile.isWalkable tr = true <-> TreeTile.health tr <= 0) /\
     (TreeTile.isDestroyed tr = true -> TreeTile.health tr <= 0)) /\
  (forall x y r, getTile (world g) x y = Some (TreeAt r) ->
     exists tr, heap g !! r = Some tr /\
                TreeTile.x tr = x /\ TreeTile.y tr = y) /\
  (forall x y p, getTile (world g) x y = Some (Static p) ->
     plain_x p = x /\ plain_y p = y /\ plain_type p <> tree /\
     plain_isWalkable p = plainWalkable (plain_type p)).
Proof.
  intros Hr. destruct (reachable_wellFormed g Hr) as [[Hsq Ht Hh Hn Hl] _].
  split_and!; auto.
  - intros r tr Er. destruct (Hh r tr Er) as [Hlife Htile].
    apply TreeTileFacts.lifetime_inv in Hlife as [I1 I2 I3 I4 I5].
    split_and!; auto.
    + split.
      * intros Hw. destruct (Z.le_gt_cases (TreeTile.health tr) 0) as [? | Hpos];
          [done |].
        destruct (I2 ltac:(lia)) as (_ & Hw' & _). congruence.
      * intros Hle. by destruct (I3 Hle) as (_ & ? & _).
    + intros Hd. destruct (Z.le_gt_cases (TreeTile.health tr) 0) as [? | Hpos];
        [done |].
      destruct (I2 ltac:(lia)) as (_ & _ & Hd' & _). congruence.
  - intros x y r E. exact (Ht _ _ _ E).
  - intros x y p E. exact (Ht _ _ _ E).
Qed.

(** X18.  In every reachable state [GameState.isMoving] and
    [player.isMoving] agree; the player's target is a tile of the grid with
    integer coordinates that is walkable; while the player is not moving it
    stands on such a tile, and on the target tile itself once it is not
    turning either; the hovered tile is (-1, -1) or a tile of the grid. *)
Theorem player_keeps_to_walkable_tiles (g : GameState) :
  reachable g ->
  isMoving g = player_isMoving (player g) /\
  (exists tx ty : Z,
     targetX (player g) = inject_Z tx /\ targetY (player g) = inject_Z ty /\
     inWorld tx ty = true /\ walkableAt g tx ty) /\
  (isMoving g = false ->
   exists px py : Z,
     player_x (player g) = inject_Z px /\ player_y (player g) = inject_Z py /\
     inWorld px py = true /\ walkableAt g px py) /\
  (isMoving g = false -> isRotating (player g) = false ->
   player_x (player g) = targetX (player g) /\
   player_y (player g) = targetY (player g)) /\
  ((hoverTileX g = -1 /\ hoverTileY g = -1) \/
   inWorld (hoverTileX g) (hoverTileY g) = true).
Proof.
  intros Hr. destruct (reachable_wellFormed g Hr) as [[Hsq _ _ _ _] [P1 P2 P3 P4 P5]].
  assert (forall x y, walkableAt g x y -> inWorld x y = true) as Hin.
  { intros x y (t & Et & _). apply inWorld_true. by eapply tileAt_bounds. }
  split_and!; auto.
  - destruct P2 as (tx & ty & E1 & E2 & W). exists tx, ty. auto.
  - intros Hm. destruct (P3 Hm) as (px & py & E1 & E2 & W).
    exists px, py. auto.
Qed.


(** X24.  For every outcome of the random draws [init] succeeds and the
    player spawns on a walkable tile of the grid, which is grass, path or
    flower: the corner tile (0, 0) is always grass, so the list of valid
    positions is never empty and the fallback to the grid centre, which is
    water, is never taken.  The list of trees names every tree object
    once, in the order of their creation, and every tree starts with health
    100, blocking and not destroyed. *)
Theorem modular_spawn_is_walkable (rnd : Z -> Z -> Game.TileRandom)
        (rndSpawn now : Q) :
  (0 <= rndSpawn)%Q -> (rndSpawn < 1)%Q ->
  exists g valid sx sy,
    init rnd rndSpawn now = Some g /\
    validPositions (world g) (heap g) = Some valid /\
    (0, 0) ∈ valid /\ (sx, sy) ∈ valid /\
    getSpawnPosition (world g) (heap g) rndSpawn = Some (sx, sy) /\
    player g = createPlayer sx sy /\
    inWorld sx sy = true /\ walkableAt g sx sy /\
    (exists p, getTile (world g) sx sy = Some (Static p) /\
               (plain_type p = grass \/ plain_type p = path \/
                plain_type p = flower)) /\
    getTile (world g) 10 10 = Some (createWater 10 10) /\
    trees g = seq 0 (length (heap g)) /\
    forall r tr, heap g !! r = Some tr ->
      TreeTile.health tr = 100 /\ TreeTile.isWalkable tr = false /\
      TreeTile.isDestroyed tr = false.
Proof.
  intros H0 H1.
  destruct (init_ok rnd rndSpawn now H0 H1)
    as (g & E & Hinv & Hok & Htrees & _).
  pose proof Hinv as [Hs _]. pose proof Hs as [Hsq Ht _ _ _].
  destruct (spawnPosition_spec (world g) (heap g) rndSpawn Hsq Ht H0 H1)
    as (valid & pos & Ev & Epos & Hin & _).
  destruct (walkablePositions_spec (world g) (heap g) Hsq Ht) as (valid' & Ev' & Hv).
  assert (valid' = valid) as -> by congruence.
  assert ((0, 0) ∈ valid) as Hcorner.
  { apply Hv. exists (createGrass 0 0). split; [| done].
    by apply (gridOk_corner rnd (world g) (heap g)). }
  assert (pos ∈ valid) as Hpos.
  { apply Hin. intros ->. by apply elem_of_nil in Hcorner. }
  assert (forall r tr, heap g !! r = Some tr ->
            TreeTile.health tr = 100 /\ TreeTile.isWalkable tr = false /\
            TreeTile.isDestroyed tr = false) as Hfresh.
  { intros r tr Er.
    by destruct (go_fresh _ _ _ Hok r tr Er) as (x & y & rx & ry & ->). }
  destruct pos as [sx sy]. exists g, valid, sx, sy.
  pose proof Hpos as Hw. apply Hv in Hw as (t & Et & Ew). cbn [fst snd] in Et.
  split_and!; auto.
  - unfold init in E. destruct (generateWorld rnd) as [w h].
    apply bind_Some in E as (l & El & E).
    apply bind_Some in E as (pos' & Epos' & E). injection E as <-.
    cbn [world heap] in Epos. rewrite Epos in Epos'. by injection Epos' as <-.
  - apply inWorld_true. by eapply tileAt_bounds.
  - by exists t.
  - destruct t as [p | r].
    + exists p. split; [done |]. destruct (Ht _ _ _ Et) as (_ & _ & Hty & Hpw).
      simpl in Ew. injection Ew as Ew. rewrite Ew in Hpw.
      destruct (plain_type p); auto; try discriminate. done.
    + simpl in Ew. apply bind_Some in Ew as (tr & Er & Ew).
      destruct (Hfresh r tr Er) as (_ & Hnw & _). congruence.
  - destruct (tileAt_inside (world g) 10 10 Hsq) as [t0 Et0]; [done | done |].
    rewrite Et0. f_equal.
    apply tileAt_Some in Et0 as (_ & _ & col & Ec & Et0).
    destruct (go_tiles _ _ _ Hok _ _ Ec) as [_ G].
    by destruct (G _ _ Et0) as [h0 ->].
Qed.

Lemma turn_step (g : GameState) (deltaTime now : Q) :
  isRotating (player g) = true -> (0 < deltaTime)%Q ->
  let p := player g in
  let diff := angleDifference (direction p) (targetDirection p) in
  let turn := (ROTATION_SPEED * (deltaTime / 1000))%Q in
  exists g',
    updatePlayer g deltaTime now = Some g' /\
    heap g' = heap g /\ trees g' = trees g /\
    chopCooldown g' = chopCooldown g /\
    player_x (player g') = player_x p /\ player_y (player g') = player_y p /\
    targetX (player g') = targetX p /\ targetY (player g') = targetY p /\
    targetDirection (player g') = targetDirection p /\
    ((Math_abs diff < turn)%Q ->
     direction (player g') = targetDirection p /\
     isRotating (player g') = false) /\
    ((turn <= Math_abs diff)%Q ->
     isRotating (player g') = true /\ isMoving g' = isMoving g /\
     (- Math_PI <= direction (player g'))%Q /\
     (direction (player g') <= Math_PI)%Q /\
     (angleDifference (direction (player g')) (targetDirection p) ==
      diff - Math_sign diff * turn)%Q /\
     (Math_abs (angleDifference (direction (player g')) (targetDirection p)) ==
      Math_abs diff - turn)%Q).
Proof.
  intros Hrot Hdt p diff turn. unfold updatePlayer. cbv zeta. rewrite Hrot.
  fold p. fold diff. fold turn.
  assert (0 < turn)%Q as Hturn.
  { unfold turn, ROTATION_SPEED.
    assert (deltaTime / 1000 * 1000 == deltaTime)%Q by field. lra. }
  destruct (Qlt_bool (Math_abs diff) turn) eqn:Hlt.
  { apply GameFacts.Qlt_bool_iff in Hlt. eexists. split; [reflexivity |].
    unfold finishTurn. fold p.
    destruct (negb _ || negb _); simpl; split_and!; auto; intros; lra. }
  apply GameFacts.Qlt_bool_false in Hlt.
  eexists. split; [reflexivity |]. simpl. split_and!; auto.
  { intros. lra. }
  intros _.
  set (d' := normalizeAngle (direction p + Math_sign diff * turn)).
  destruct (normalizeAngle_spec (direction p + Math_sign diff * turn))
    as (_ & Hge & Hle & [k1 Ek1] & _). fold d' in Hge, Hle, Ek1.
  destruct (normalizeAngle_spec (targetDirection p - direction p))
    as (_ & Hdge & Hdle & [k0 Ek0] & _).
  change (normalizeAngle (targetDirection p - direction p)) with diff
    in Hdge, Hdle, Ek0.
  pose proof PI_pos as Hpi. unfold Math_abs in *.
  assert ((0 < diff)%Q /\ Math_sign diff = 1%Q \/
          (diff < 0)%Q /\ Math_sign diff = (-1)%Q) as Hsign.
  { unfold Math_sign. destruct (Qlt_bool 0 diff) eqn:Hp.
    - left. split; [by apply GameFacts.Qlt_bool_iff | done].
    - apply GameFacts.Qlt_bool_false in Hp.
      destruct (Qlt_bool diff 0) eqn:Hn.
      + right. split; [by apply GameFacts.Qlt_bool_iff | done].
      + apply GameFacts.Qlt_bool_false in Hn.
        assert (diff == 0)%Q as Hz by lra. rewrite Hz in Hlt.
        change (Qabs 0) with 0%Q in Hlt. lra. }
  assert (angleDifference d' (targetDirection p) ==
          diff - Math_sign diff * turn)%Q as Ediff.
  { unfold angleDifference.
    apply (normalizeAngle_unique _ _ (- k0 - k1)).
    - destruct Hsign as [[Hs ->] | [Hs ->]].
      + rewrite Qabs_pos in Hlt by lra. lra.
      + rewrite Qabs_neg in Hlt by lra. lra.
    - destruct Hsign as [[Hs ->] | [Hs ->]].
      + rewrite Qabs_pos in Hlt by lra. lra.
      + rewrite Qabs_neg in Hlt by lra. lra.
    - unfold Zminus. rewrite inject_Z_plus, !inject_Z_opp. lra. }
  split_and!; auto.
  rewrite Ediff. destruct Hsign as [[Hs ->] | [Hs ->]].
  - rewrite (Qabs_pos diff) in * by lra. rewrite Qabs_pos by lra. lra.
  - rewrite (Qabs_neg diff) in * by lra. rewrite Qabs_neg by lra. lra.
Qed.

(** X21.  One frame of a turn.  While [player.isRotating] is set,
    [updatePlayer] touches neither the position, the target, the trees nor
    the cooldown.  If the angle left is smaller than the step of the frame
    (25 radians a second) the player faces the target direction and the
    turn is over; otherwise the direction stays between -pi and pi and the
    angle left, taken the short way round, moves towards 0 by exactly the
    step. *)
Theorem turning_takes_the_short_way (g : GameState) (deltaTime now : Q) :
  isRotating (player g) = true -> (0 < deltaTime)%Q ->
  let p := player g in
  let diff := angleDifference (direction p) (targetDirection p) in
  let turn := (ROTATION_SPEED * (deltaTime / 1000))%Q in
  exists g',
    updatePlayer g deltaTime now = Some g' /\
    heap g' = heap g /\ trees g' = trees g /\
    chopCooldown g' = chopCooldown g /\
    player_x (player g') = player_x p /\ player_y (player g') = player_y p /\
    targetX (player g') = targetX p /\ targetY (player g') = targetY p /\
    targetDirection (player g') = targetDirection p /\
    ((Math_abs diff < turn)%Q ->
     direction (player g') = targetDirection p /\
     isRotating (player g') = false) /\
    ((turn <= Math_abs diff)%Q ->
     isRotating (player g') = true /\ isMoving g' = isMoving g /\
     (- Math_PI <= direction (player g'))%Q /\
     (direction (player g') <= Math_PI)%Q /\
     (angleDifference (direction (player g')) (targetDirection p) ==
      diff - Math_sign diff * turn)%Q /\
     (Math_abs (angleDifference (direction (player g')) (targetDirection p)) ==
      Math_abs diff - turn)%Q).
Proof. exact (turn_step g deltaTime now). Qed.

(** ** The pointer *)

Lemma updateHoverHighlight_eq (g : GameState) (hit : Q * Q) :
  inv g ->
  exists hx hy,
    updateHoverHighlight g hit = Some (set_hover g hx hy) /\
    ((hx = -1 /\ hy = -1) \/ inWorld hx hy = true).
Proof.
  intros Hinv. pose proof Hinv as [[Hsq Ht Hh Hn Hl] _].
  unfold updateHoverHighlight.
  destruct (inWorld _ _) eqn:Hin; cbn [negb].
  2:{ exists (-1), (-1). auto. }
  pose proof Hin as Hin'. apply inWorld_true in Hin' as [Hx Hy].
  destruct (tileAt_inside (world g) _ _ Hsq Hx Hy) as [tile Etile].
  rewrite Etile. cbn [mbind option_bind].
  destruct (tileOk_reads _ _ _ _ (Ht _ _ _ Etile)) as (ty & b & Ety & Ew & _).
  rewrite Ety, Ew. cbn [mbind option_bind]. eauto.
Qed.

Lemma last_cons_default {A} (l : list A) :
  forall a d : A, List.last (a :: l) d = List.last l a.
Proof.
  induction l as [| b l IH]; intros a d; [done |].
  change (List.last (a :: b :: l) d) with (List.last (b :: l) d).
  by rewrite !IH.
Qed.

Lemma moves_run (moves : list (Q * Q * (Q * Q))) :
  forall (g : GameState) (x y : Q) (c : bool),
    inv g -> orbitState g = mkOrbitState true x y c ->
    exists g',
      run g (map (fun m => MouseMove m.1.1 m.1.2 m.2) moves) = Some g' /\
      inv g' /\ isDragging (orbitState g') = true /\
      (isClick (orbitState g') = true <->
       c = true /\ smallSteps (x, y) (map fst moves)) /\
      (previousMouseX (orbitState g'), previousMouseY (orbitState g')) =
      List.last (map fst moves) (x, y) /\
      player g' = player g /\ heap g' = heap g /\ trees g' = trees g /\
      isMoving g' = isMoving g /\ chopCooldown g' = chopCooldown g.
Proof.
  induction moves as [| [[cx cy] hit] moves IH]; intros g x y c Hinv Eo.
  { exists g. rewrite Eo. simpl. split_and!; auto. tauto. }
  cbn [map run step fst snd]. unfold mouseMove. rewrite Eo.
  cbn [isDragging previousMouseX previousMouseY isClick].
  set (c' := if Qlt_bool CLICK_DRAG_THRESHOLD (Math_abs (cx - x))
                || Qlt_bool CLICK_DRAG_THRESHOLD (Math_abs (cy - y))
             then false else c).
  set (g1 := set_orbitState g (mkOrbitState true cx cy c')).
  assert (inv g1) as Hinv1 by (by apply inv_set_orbitState).
  destruct (updateHoverHighlight_eq g1 hit Hinv1) as (hx & hy & E & Hh).
  rewrite E. cbn [mbind option_bind].
  destruct (IH (set_hover g1 hx hy) cx cy c')
    as (g' & Erun & Hinv' & Hd & Hc & Hp & F1 & F2 & F3 & F4 & F5);
    [by apply inv_set_hover | done |].
  exists g'. split_and!; auto.
  - rewrite Hc. cbn [smallSteps fst snd]. unfold c'.
    destruct (Qlt_bool _ _ || Qlt_bool _ _) eqn:Hex.
    + split; [intros [? _]; discriminate |].
      intros (_ & [H1 H2] & _). apply orb_true_iff in Hex as [Hex | Hex];
        apply GameFacts.Qlt_bool_iff in Hex; lra.
    + apply orb_false_iff in Hex as [H1 H2].
      apply GameFacts.Qlt_bool_false in H1, H2. tauto.
  - rewrite Hp. by rewrite last_cons_default.
Qed.

(** X19.  After a press and any number of pointer moves the gesture still
    counts as a click exactly when no single move event went more than 5
    pixels, on either axis, from the position of the event before it: the
    distance covered in all does not matter.  The moves leave the drag on,
    remember the last pointer position, and change neither the player nor
    the trees. *)
Theorem slow_drag_is_a_click (g : GameState) (x0 y0 : Q)
        (moves : list (Q * Q * (Q * Q))) :
  reachable g ->
  exists g',
    run g (MouseDown x0 y0 :: map (fun m => MouseMove m.1.1 m.1.2 m.2) moves) =
    Some g' /\
    isDragging (orbitState g') = true /\
    (isClick (orbitState g') = true <-> smallSteps (x0, y0) (map fst moves)) /\
    (previousMouseX (orbitState g'), previousMouseY (orbitState g')) =
    List.last (map fst moves) (x0, y0) /\
    player g' = player g /\ heap g' = heap g /\ trees g' = trees g /\
    isMoving g' = isMoving g /\ chopCooldown g' = chopCooldown g.
Proof.
  intros Hr. pose proof (reachable_wellFormed g Hr) as Hinv.
  destruct (moves_run moves (mouseDown g x0 y0) x0 y0 true)
    as (g' & Erun & _ & Hd & Hc & Hp & F1 & F2 & F3 & F4 & F5);
    [by apply inv_set_orbitState | done |].
  exists g'. cbn [run step mbind option_bind]. split_and!; auto.
  rewrite Hc. tauto.
Qed.

Lemma Qabs_inject_Z (a : Z) : Qabs (inject_Z a) = inject_Z (Z.abs a).
Proof. reflexivity. Qed.

Lemma clickStep_integers (hx hy px py : Z) :
  (hx, hy) <> (px, py) ->
  clickStep (inject_Z hx - inject_Z px) (inject_Z hy - inject_Z py) =
  if Z.abs (hy - py) <? Z.abs (hx - px)
  then (Z.sgn (hx - px), 0) else (0, Z.sgn (hy - py)).
Proof.
  intros Hne. unfold clickStep, Math_abs.
  assert (forall a b, inject_Z a - inject_Z b == inject_Z (a - b))%Q as Hsub.
  { intros a b. unfold Zminus. rewrite inject_Z_plus, inject_Z_opp. lra. }
  assert (forall a b, Qlt_bool 0 (inject_Z a - inject_Z b) = (0 <? a - b)) as Hpos.
  { intros a b. destruct (Z.ltb_spec 0 (a - b)) as [Hlt | Hge].
    - apply GameFacts.Qlt_bool_iff. rewrite Hsub.
      change 0%Q with (inject_Z 0). by rewrite <- Zlt_Qlt.
    - apply GameFacts.Qlt_bool_false. rewrite Hsub.
      change 0%Q with (inject_Z 0). by rewrite <- Zle_Qle. }
  assert (Qlt_bool (Qabs (inject_Z hy - inject_Z py))
                   (Qabs (inject_Z hx - inject_Z px)) =
          (Z.abs (hy - py) <? Z.abs (hx - px))) as ->.
  { destruct (Z.ltb_spec (Z.abs (hy - py)) (Z.abs (hx - px))) as [Hlt | Hge].
    - apply GameFacts.Qlt_bool_iff. rewrite !Hsub, !Qabs_inject_Z.
      by rewrite <- Zlt_Qlt.
    - apply GameFacts.Qlt_bool_false. rewrite !Hsub, !Qabs_inject_Z.
      by rewrite <- Zle_Qle. }
  rewrite !Hpos.
  destruct (Z.ltb_spec (Z.abs (hy - py)) (Z.abs (hx - px))) as [Hlt | Hge].
  - destruct (Z.ltb_spec 0 (hx - px)); f_equal; lia.
  - assert (hy - py <> 0) as Hy.
    { intros Hy. apply Hne. f_equal; lia. }
    destruct (Z.ltb_spec 0 (hy - py)); f_equal; lia.
Qed.

(** X25.  A click never sends the player diagonally.  Either it leaves the
    target alone, or the player was not moving and the new target is the
    neighbour of the tile it stands on along one axis: along x, towards the
    hovered tile, when the hovered tile is farther away on x than on y, and
    along y otherwise (ties go to y); that neighbour is a walkable tile of
    the grid and the tile left is recorded as the previous tile. *)
Theorem click_steps_along_one_axis (g g' : GameState) (now : Q) :
  reachable g -> initiateActionAtHoveredTile g now = Some g' ->
  (targetX (player g') = targetX (player g) /\
   targetY (player g') = targetY (player g) /\
   player_isMoving (player g') = player_isMoving (player g)) \/
  (isMoving g = false /\
   exists px py : Z,
     player_x (player g) = inject_Z px /\ player_y (player g) = inject_Z py /\
     let dx := hoverTileX g - px in
     let dy := hoverTileY g - py in
     let tx := if Z.abs dy <? Z.abs dx then px + Z.sgn dx else px in
     let ty := if Z.abs dy <? Z.abs dx then py else py + Z.sgn dy in
     (dx <> 0 \/ dy <> 0) /\ Z.abs (tx - px) + Z.abs (ty - py) = 1 /\
     targetX (player g') = inject_Z tx /\ targetY (player g') = inject_Z ty /\
     prevTileX (player g') = px /\ prevTileY (player g') = py /\
     walkableAt g tx ty).
Proof.
  intros Hr E. destruct (reachable_wellFormed g Hr) as [[Hsq Ht _ _ _] [_ _ P3 _ _]].
  unfold initiateActionAtHoveredTile in E.
  destruct ((hoverTileX g <? 0) || (hoverTileY g <? 0)).
  { injection E as <-. auto. }
  destruct (isMoving g) eqn:Hmov.
  { injection E as <-. auto. }
  destruct (P3 eq_refl) as (px & py & Ex & Ey & _).
  rewrite Ex, Ey, !Math_round_inject in E.
  destruct ((px =? hoverTileX g) && (py =? hoverTileY g)) eqn:Hsame.
  { injection E as <-. auto. }
  assert ((hoverTileX g, hoverTileY g) <> (px, py)) as Hne.
  { intros Heq. injection Heq as <- <-.
    by rewrite !Z.eqb_refl in Hsame. }
  rewrite (clickStep_integers _ _ _ _ Hne) in E.
  set (dx := hoverTileX g - px) in *. set (dy := hoverTileY g - py) in *.
  assert (dx <> 0 \/ dy <> 0) as Hd.
  { destruct (decide (dx = 0)) as [Hx | Hx]; [| auto].
    destruct (decide (dy = 0)) as [Hy | Hy]; [| auto].
    exfalso. apply Hne. unfold dx, dy in *. f_equal; lia. }
  set (mv := if Z.abs dy <? Z.abs dx then (Z.sgn dx, 0) else (0, Z.sgn dy)) in *.
  assert (px + mv.1 = (if Z.abs dy <? Z.abs dx then px + Z.sgn dx else px) /\
          py + mv.2 = (if Z.abs dy <? Z.abs dx then py else py + Z.sgn dy) /\
          Z.abs mv.1 + Z.abs mv.2 = 1) as (Etx & Ety & Hone).
  { unfold mv. destruct (Z.ltb_spec (Z.abs dy) (Z.abs dx)); simpl;
      split_and!; lia. }
  destruct mv as [mx my]. cbn [fst snd] in *.
  destruct (inWorld (px + mx) (py + my)) eqn:Hin; cbn [negb] in E.
  2:{ injection E as <-. left. unfold faceTowards.
      by destruct (mustTurn _). }
  destruct (getTile (world g) (px + mx) (py + my)) as [tile |] eqn:Etile;
    [| discriminate].
  cbn [mbind option_bind] in E.
  destruct (tile_isWalkable (heap g) tile) as [b |] eqn:Ew; [| discriminate].
  cbn [mbind option_bind] in E. destruct b.
  { right. split; [done |]. exists px, py. split; [done |]. split; [done |].
    cbv zeta. fold dx dy. rewrite <- Etx, <- Ety.
    assert (walkableAt g (px + mx) (py + my)) as Wt by (by exists tile).
    destruct (mustTurn _); injection E as <-; simpl; split_and!; auto; lia. }
  left. destruct (tile_type (heap g) tile) as [ty |]; [| discriminate].
  cbn [mbind option_bind] in E.
  destruct (is_tree ty).
  2:{ injection E as <-. unfold faceTowards. by destruct (mustTurn _). }
  destruct (mustTurn _); [by injection E as <- |].
  destruct (Qle_bool _ _); [| by injection E as <-].
  unfold chop in E. apply bind_Some in E as (g1 & E1 & E).
  injection E as <-. unfold damageTile in E1. destruct tile; [discriminate |].
  apply bind_Some in E1 as (tr & _ & E1). by injection E1 as <-.
Qed.

(** ** Chops *)

Lemma damage_health (now : Q) (dir : Vector3) (tr : TreeTile.Tree) :
  TreeTile.health (TreeTile.damage now dir tr) <> TreeTile.health tr ->
  0 < TreeTile.health tr /\
  TreeTile.health (TreeTile.damage now dir tr) = TreeTile.health tr - 34.
Proof.
  unfold TreeTile.damage. destruct (Z.leb_spec (TreeTile.health tr) 0);
    [done |].
  destruct (TreeTile.health tr - 34 <=? 0); simpl; auto.
Qed.

Lemma chopsOnly_health (g g' : GameState) (r : nat) (tr tr' : TreeTile.Tree) :
  chopsOnly g g' ->
  heap g !! r = Some tr -> heap g' !! r = Some tr' ->
  TreeTile.health tr' <> TreeTile.health tr ->
  0 < TreeTile.health tr /\ TreeTile.health tr' = TreeTile.health tr - 34 /\
  (chopCooldown g <= 0)%Q /\ chopCooldown g' = 300%Q /\
  forall r2 t2 t2', r2 <> r ->
    heap g !! r2 = Some t2 -> heap g' !! r2 = Some t2' -> t2' = t2.
Proof.
  intros (_ & _ & _ & _ & _ & _ & _ &
          [[Eh _] | (r0 & tr0 & now & dir & Er0 & Eh & Hc & Hc')]) Er Er' Hne.
  { rewrite Eh in Er'. congruence. }
  rewrite Eh in Er'. destruct (decide (r = r0)) as [-> | Hr].
  - rewrite list_lookup_insert_eq in Er' by (by eapply lookup_lt_Some).
    injection Er' as <-. assert (tr0 = tr) as -> by congruence.
    destruct (damage_health now dir tr Hne) as [Hpos Hh].
    split_and!; auto. intros r2 t2 t2' Hr2 E2 E2'.
    rewrite Eh, list_lookup_insert_ne in E2' by done. congruence.
  - rewrite list_lookup_insert_ne in Er' by done. congruence.
Qed.

Lemma updateEntities_health (g g' : GameState) (deltaTime : Q) :
  inv g -> updateEntities g deltaTime = Some g' ->
  chopCooldown g' = chopCooldown g /\
  forall r tr, heap g !! r = Some tr ->
    exists tr', heap g' !! r = Some tr' /\
                TreeTile.health tr' = TreeTile.health tr.
Proof.
  intros [Hs _] E.
  destruct (updateEntities_eq g deltaTime Hs) as (h' & E' & Hlen & Hin & Hout).
  rewrite E' in E. injection E as <-. split; [done |].
  intros r tr Er. cbn [heap set_trees set_heap].
  destruct (decide (r ∈ trees g)) as [Hr | Hr].
  - destruct (Hin r Hr) as (tr0 & tr' & Er0 & _ & Eu & Er').
    assert (tr0 = tr) as -> by congruence.
    destruct (update_keeps _ _ _ Eu) as (_ & _ & _ & Hh). eauto.
  - rewrite (Hout r Hr). eauto.
Qed.

Lemma updatePlayer_busy (g g' : GameState) (deltaTime now : Q) :
  isRotating (player g) = true \/ isMoving g = true ->
  updatePlayer g deltaTime now = Some g' -> heap g' = heap g.
Proof.
  intros Hbusy E. unfold updatePlayer in E. cbv zeta in E.
  destruct (isRotating (player g)).
  { destruct (Qlt_bool _ _) in E; injection E as <-; [| done].
    unfold finishTurn. by destruct (negb _ || negb _). }
  destruct Hbusy as [? | Hm]; [done |]. rewrite Hm in E.
  by destruct (Qlt_bool _ _) in E; injection E as <-.
Qed.

(** X20.  An event changes the health of a tree only as a chop: the health
    was above 0 and drops by exactly 34, no other tree changes health, and
    the cooldown is 300 afterwards.  Only a frame or a pointer release can
    do it.  A frame chops only if it ran, the cooldown was at most the
    frame's delta time, and the player was neither turning nor moving; a
    release only if it was a click, the cooldown had run out, and the player
    was not moving. *)
Theorem chops_wait_for_the_cooldown (g g' : GameState) (e : Event)
        (r : nat) (tr tr' : TreeTile.Tree) :
  reachable g -> step g e = Some g' ->
  heap g !! r = Some tr -> heap g' !! r = Some tr' ->
  TreeTile.health tr' <> TreeTile.health tr ->
  0 < TreeTile.health tr /\ TreeTile.health tr' = TreeTile.health tr - 34 /\
  chopCooldown g' = 300%Q /\
  match e with
  | Frame currentTime _ =>
      (FRAME_INTERVAL <= currentTime - lastTime g)%Q /\
      (chopCooldown g <= Math_min (currentTime - lastTime g) 50)%Q /\
      isRotating (player g) = false /\ isMoving g = false
  | MouseUp _ =>
      isClick (orbitState g) = true /\ (chopCooldown g <= 0)%Q /\
      isMoving g = false
  | _ => False
  end /\
  forall r2 t2 t2', r2 <> r ->
    heap g !! r2 = Some t2 -> heap g' !! r2 = Some t2' ->
    TreeTile.health t2' = TreeTile.health t2.
Proof.
  intros Hr E Er Er' Hne. pose proof (reachable_wellFormed g Hr) as Hinv.
  destruct e as [code b | cx cy | cx cy hit | now | | ct now];
    cbn [step] in E.
  - injection E as <-. simpl in Er'. congruence.
  - injection E as <-. simpl in Er'. congruence.
  - unfold mouseMove in E.
    set (g1 := if isDragging (orbitState g) then _ else g) in E.
    assert (inv g1 /\ heap g1 = heap g) as [Hinv1 Eh1].
    { subst g1. destruct (isDragging _); [| done].
      split; [by apply inv_set_orbitState | done]. }
    destruct (updateHoverHighlight_eq g1 hit Hinv1) as (hx & hy & E1 & _).
    rewrite E1 in E. injection E as <-. simpl in Er'. congruence.
  - unfold mouseUp in E. destruct (isClick (orbitState g)) eqn:Hclick.
    2:{ injection E as <-. simpl in Er'. congruence. }
    destruct (click_ok g now Hinv) as (g2 & E2 & Hc & _).
    rewrite E2 in E. cbn [mbind option_bind] in E. injection E as <-.
    cbn [heap set_orbitState chopCooldown] in *.
    destruct (chopsOnly_health g g2 r tr tr' Hc Er Er' Hne)
      as (Hpos & Hh & Hcool & Hcool' & Hrest).
    split_and!; auto.
    + destruct (isMoving g) eqn:Hmov; [| done].
      unfold initiateActionAtHoveredTile in E2. rewrite Hmov in E2.
      destruct (_ || _) in E2; injection E2 as <-; congruence.
    + intros r2 t2 t2' Hr2 Ea Eb. by rewrite (Hrest r2 t2 t2' Hr2 Ea Eb).
  - injection E as <-. simpl in Er'. congruence.
  - unfold gameLoop in E.
    destruct (Qlt_bool (ct - lastTime g) FRAME_INTERVAL) eqn:Hskip.
    { injection E as <-. congruence. }
    apply GameFacts.Qlt_bool_false in Hskip.
    set (dt := Math_min (ct - lastTime g) 50) in *.
    assert (FRAME_INTERVAL <= dt)%Q as Hdt.
    { unfold dt, Math_min. destruct (Qle_bool _ 50); [done |].
      vm_compute. discriminate. }
    pose proof FRAME_INTERVAL_pos as Hfi.
    set (g0 := set_lastTime g _) in *.
    destruct (frame_stages g0 dt now)
      as (g2 & g3 & E2 & Hc & Hinv2 & E3 & _ & Eu); [by apply inv_set_lastTime |].
    assert (g3 = g') as -> by congruence.
    destruct (updateEntities_health g2 g' dt Hinv2 E3) as [Hcool Hkeep].
    set (g1 := if Qlt_bool 0 (chopCooldown g0) then _ else g0) in *.
    assert (heap g1 = heap g /\ player g1 = player g /\
            isMoving g1 = isMoving g) as (Eh1 & Ep1 & Em1).
    { subst g1. by destruct (Qlt_bool _ _). }
    assert (exists t2, heap g2 !! r = Some t2 /\
                       TreeTile.health tr' = TreeTile.health t2)
      as (t2 & Et2 & Hh2).
    { destruct (chopsOnly_heapStep _ _ Hc) as [_ Hstep].
      rewrite Eh1 in Hstep. destruct (Hstep r tr Er) as (t2 & Et2 & _).
      destruct (Hkeep r t2 Et2) as (t3 & Et3 & Hh3).
      exists t2. split; [done | congruence]. }
    rewrite <- Eh1 in Er.
    destruct (chopsOnly_health g1 g2 r tr t2 Hc Er Et2 ltac:(congruence))
      as (Hpos & Hh & Hcool1 & Hcool2 & Hrest).
    split_and!; auto; try congruence.
    + subst g1. cbn [chopCooldown set_lastTime g0] in Hcool1.
      destruct (Qlt_bool 0 (chopCooldown g)) eqn:Hc0.
      * cbn [chopCooldown set_chopCooldown set_lastTime] in Hcool1. lra.
      * apply GameFacts.Qlt_bool_false in Hc0.
        cbn [chopCooldown set_lastTime] in Hcool1. lra.
    + destruct (isRotating (player g)) eqn:Hrot; [| done].
      rewrite (updatePlayer_busy g1 g2 dt now) in Et2; [congruence | | done].
      left. congruence.
    + destruct (isMoving g) eqn:Hmov; [| done].
      rewrite (updatePlayer_busy g1 g2 dt now) in Et2; [congruence | | done].
      right. congruence.
    + intros r2 t2a t2b Hr2 Ea Eb. rewrite <- Eh1 in Ea.
      destruct (chopsOnly_heapStep _ _ Hc) as [_ Hstep].
      destruct (Hstep r2 t2a Ea) as (t2c & Et2c & _).
      destruct (Hkeep r2 t2c Et2c) as (t2d & Et2d & Hh2d).
      rewrite (Hrest r2 t2a t2c Hr2 Ea Et2c) in *. congruence.
Qed.

(** ** Felled trees leave the list *)

Lemma chopsOnly_felled (g g' : GameState) (r : nat) (tr : TreeTile.Tree) :
  chopsOnly g g' -> heap g !! r = Some tr -> TreeTile.health tr <= 0 ->
  heap g' !! r = Some tr.
Proof.
  intros (_ & _ & _ & _ & _ & _ & _ &
          [[-> _] | (r0 & tr0 & now & dir & Er0 & -> & _)]) Er Hle; [done |].
  destruct (decide (r = r0)) as [-> | Hne].
  - rewrite list_lookup_insert_eq by (by eapply lookup_lt_Some).
    assert (tr0 = tr) as -> by congruence.
    by rewrite TreeTileFacts.damage_felled.
  - by rewrite list_lookup_insert_ne.
Qed.

Lemma update_tree_visit (g : GameState) (deltaTime now : Q) (r : nat)
      (tr : TreeTile.Tree) :
  inv g -> r ∈ trees g -> heap g !! r = Some tr -> TreeTile.health tr <= 0 ->
  exists g' tr',
    update g deltaTime now = Some g' /\ inv g' /\
    TreeTile.update deltaTime tr = Some tr' /\ heap g' !! r = Some tr' /\
    (r ∈ trees g' <-> TreeTile.isDestroyed tr' = false).
Proof.
  intros Hinv Hin Er Hle.
  destruct (frame_stages g deltaTime now Hinv)
    as (g2 & g' & E2 & Hc & Hinv2 & E3 & Hinv3 & E).
  set (g1 := if Qlt_bool 0 (chopCooldown g) then _ else g) in *.
  assert (heap g1 = heap g /\ trees g1 = trees g) as [Eh1 Et1].
  { subst g1. by destruct (Qlt_bool _ _). }
  assert (heap g2 !! r = Some tr) as Er2.
  { apply (chopsOnly_felled g1 g2); auto. congruence. }
  assert (r ∈ trees g2) as Hin2.
  { destruct Hc as (_ & -> & _). congruence. }
  destruct Hinv2 as [Hs2 _].
  destruct (updateEntities_eq g2 deltaTime Hs2) as (h' & E' & Hlen & Hvis & Hout).
  rewrite E' in E3. injection E3 as <-.
  destruct (Hvis r Hin2) as (tr0 & tr' & Er0 & _ & Eu & Er').
  assert (tr0 = tr) as -> by congruence.
  eexists _, tr'. split_and!; eauto.
  cbn [trees set_trees]. rewrite list_elem_of_filter, alive_true. split.
  - intros [(tr2 & E2' & Hd) _]. congruence.
  - intros Hd. eauto.
Qed.

Lemma update_tree_gone (g : GameState) (deltaTime now : Q) (r : nat)
      (tr : TreeTile.Tree) :
  inv g -> r ∉ trees g -> heap g !! r = Some tr ->
  exists g',
    update g deltaTime now = Some g' /\ inv g' /\ (r ∉ trees g') /\
    heap g' !! r = Some tr.
Proof.
  intros Hinv Hout Er.
  assert (TreeTile.health tr <= 0) as Hle.
  { destruct Hinv as [[_ _ Hh _ Hl] _].
    destruct (TreeTile.isDestroyed tr) eqn:Hd.
    - destruct (Hh r tr Er) as [Hlife _].
      apply TreeTileFacts.lifetime_inv in Hlife as [_ I2 _ _ _].
      destruct (Z.le_gt_cases (TreeTile.health tr) 0) as [? | Hpos]; [done |].
      destruct (I2 ltac:(lia)) as (_ & _ & Hd' & _). congruence.
    - exfalso. apply Hout, Hl. eauto. }
  destruct (frame_stages g deltaTime now Hinv)
    as (g2 & g' & E2 & Hc & Hinv2 & E3 & Hinv3 & E).
  set (g1 := if Qlt_bool 0 (chopCooldown g) then _ else g) in *.
  assert (heap g1 = heap g /\ trees g1 = trees g) as [Eh1 Et1].
  { subst g1. by destruct (Qlt_bool _ _). }
  assert (heap g2 !! r = Some tr) as Er2.
  { apply (chopsOnly_felled g1 g2); auto. congruence. }
  assert (r ∉ trees g2) as Hout2.
  { destruct Hc as (_ & -> & _). congruence. }
  destruct Hinv2 as [Hs2 _].
  destruct (updateEntities_eq g2 deltaTime Hs2) as (h' & E' & Hlen & Hvis & Hrest).
  rewrite E' in E3. injection E3 as <-.
  eexists. split_and!; eauto.
  - cbn [trees set_trees]. rewrite list_elem_of_filter. tauto.
  - cbn [heap set_trees set_heap]. by rewrite (Hrest r Hout2).
Qed.

Lemma updates_gone (frames : list (Q * Q)) (r : nat) (tr : TreeTile.Tree) :
  forall g,
    inv g -> r ∉ trees g -> heap g !! r = Some tr ->
    exists g',
      updates g frames = Some g' /\ inv g' /\ (r ∉ trees g') /\
      heap g' !! r = Some tr.
Proof.
  induction frames as [| [dt now] frames IH]; intros g Hinv Hout Er.
  { exists g. auto. }
  destruct (update_tree_gone g dt now r tr Hinv Hout Er)
    as (g1 & E1 & Hinv1 & Hout1 & Er1).
  cbn [updates]. rewrite E1. cbn [mbind option_bind]. by apply IH.
Qed.

Lemma updates_drop (frames : list (Q * Q)) (r : nat) :
  forall (g : GameState) (tr : TreeTile.Tree),
    inv g -> r ∈ trees g -> heap g !! r = Some tr ->
    TreeTile.health tr <= 0 ->
    Forall (fun f => (0 < f.1)%Q /\ (f.1 <= 50)%Q) frames ->
    (fadeBudget tr <= Game.totalTime (map fst frames))%Q ->
    exists g' tr',
      updates g frames = Some g' /\ inv g' /\ (r ∉ trees g') /\
      heap g' !! r = Some tr' /\ TreeTile.isDestroyed tr' = true.
Proof.
  induction frames as [| [dt now] frames IH];
    intros g tr Hinv Hin Er Hle Hfs Hbudget.
  - exfalso. pose proof Hinv as [[_ _ Hh _ Hl] _].
    destruct (Hh r tr Er) as [Hlife _].
    apply TreeTileFacts.lifetime_inv in Hlife as Htinv.
    apply Hl in Hin as (tr0 & Er0 & Hlive).
    assert (tr0 = tr) as -> by congruence.
    destruct Htinv as [I1 I2 I3 I4 I5].
    destruct (I3 Hle) as (Hst & _).
    unfold Game.totalTime in Hbudget. simpl in Hbudget.
    unfold fadeBudget in Hbudget.
    destruct (TreeTile.state tr) eqn:Hs; [done | |].
    + destruct (I4 eq_refl) as (Ha & _ & _ & Ho). lra.
    + destruct (I5 eq_refl) as (_ & Hf & _).
      destruct (Hf Hlive) as [Ho _]. lra.
  - apply Forall_cons in Hfs as [[Hdt0 Hdt50] Hfs]. cbn [fst] in Hdt0, Hdt50.
    destruct (update_tree_visit g dt now r tr Hinv Hin Er Hle)
      as (g1 & tr1 & E1 & Hinv1 & Eu & Er1 & Hlisted).
    cbn [updates]. rewrite E1. cbn [mbind option_bind].
    destruct (TreeTile.isDestroyed tr1) eqn:Hd1.
    + destruct (updates_gone frames r tr1 g1 Hinv1) as (g' & E' & Hinv' & Hout' & Er');
        auto.
      { rewrite Hlisted. congruence. }
      exists g', tr1. auto.
    + destruct (update_keeps _ _ _ Eu) as (_ & _ & _ & Hh1).
      apply (IH g1 tr1); auto; [by apply Hlisted | lia |].
      pose proof Hinv as [[_ _ Hh _ Hl] _].
      destruct (Hh r tr Er) as [Hlife _].
      apply TreeTileFacts.lifetime_inv in Hlife as [I1 I2 I3 I4 I5].
      apply Hl in Hin as (tr0 & Er0 & Hlive).
      assert (tr0 = tr) as -> by congruence.
      unfold Game.totalTime in Hbudget. cbn [map foldr fst] in Hbudget.
      fold (Game.totalTime (map fst frames)) in Hbudget.
      revert Hbudget Eu Hd1. unfold fadeBudget, TreeTile.update.
      destruct (I3 Hle) as (Hst & _ & [dir Hdir]).
      destruct (TreeTile.state tr) eqn:Hs; [done | |].
      * rewrite Hdir. cbn [mbind option_bind].
        destruct (I4 eq_refl) as (Ha & _).
        destruct (Qle_bool _ _) eqn:Hclamp; intros Hbudget Eu Hd1;
          injection Eu as <-; cbn [TreeTile.state TreeTile.opacity TreeTile.fallAngle].
        -- lra.
        -- assert (dt / 1000 * 2.5 * 400 == dt)%Q by field. lra.
      * destruct (Qle_bool _ _) eqn:Hclamp; intros Hbudget Eu Hd1;
          injection Eu as <-; cbn [TreeTile.state TreeTile.opacity] in *.
        -- discriminate.
        -- assert (dt / 1000 * 2 * 500 == dt)%Q by field. lra.
Qed.

(** X23.  A felled tree leaves [GameState.trees] in bounded time: over
    frames of 1 to 50 ms each whose deltas add up to [fadeBudget] of the
    tree (400 ms a radian left to fall, 500 ms a unit of opacity, and 150
    ms to spare for a falling tree, 50 ms for a fading one), whatever the
    player does meanwhile, the tree is destroyed, its mesh is off the scene
    and it is off the list; its tile stays the tree tile, walkable, and no
    later frame brings the tree back or changes it.  A fading tree of
    opacity 1 is thus given eleven frames of 50 ms, not ten. *)
Theorem felled_tree_is_dropped_in_time (g : GameState) (r : nat)
        (tr : TreeTile.Tree) (frames : list (Q * Q)) :
  reachable g -> r ∈ trees g -> heap g !! r = Some tr ->
  TreeTile.health tr <= 0 ->
  Forall (fun f => (1 <= f.1)%Q /\ (f.1 <= 50)%Q) frames ->
  (fadeBudget tr <= Game.totalTime (map fst frames))%Q ->
  exists g' tr',
    updates g frames = Some g' /\ (r ∉ trees g') /\
    heap g' !! r = Some tr' /\ TreeTile.isDestroyed tr' = true /\
    TreeTile.treeMeshAttached tr' = false /\
    getTile (world g') (TreeTile.x tr') (TreeTile.y tr') = Some (TreeAt r) /\
    walkableAt g' (TreeTile.x tr') (TreeTile.y tr') /\
    forall more g'', updates g' more = Some g'' ->
      (r ∉ trees g'') /\ heap g'' !! r = Some tr'.
Proof.
  intros Hr Hin Er Hle Hfs Hbudget.
  assert (Forall (fun f : Q * Q => (0 < f.1)%Q /\ (f.1 <= 50)%Q) frames)
    as Hfs'.
  { eapply Forall_impl; [exact Hfs |]. intros f [Hlo Hhi]. split; lra. }
  destruct (updates_drop frames r g tr (reachable_wellFormed g Hr) Hin Er Hle
              Hfs' Hbudget)
    as (g' & tr' & E & Hinv' & Hout & Er' & Hd).
  exists g', tr'. pose proof Hinv' as [[_ _ Hh _ _] _].
  destruct (Hh r tr' Er') as [Hlife Htile].
  apply TreeTileFacts.lifetime_inv in Hlife as [I1 I2 I3 I4 I5].
  assert (TreeTile.health tr' <= 0) as Hle'.
  { destruct (Z.le_gt_cases (TreeTile.health tr') 0) as [? | Hpos]; [done |].
    destruct (I2 ltac:(lia)) as (_ & _ & Hd' & _). congruence. }
  destruct (I3 Hle') as (Hst & Hw & _).
  split_and!; auto.
  - destruct (TreeTile.state tr') eqn:Hs; [done | |].
    + destruct (I4 eq_refl) as (_ & Hd' & _). congruence.
    + destruct (I5 eq_refl) as (_ & _ & Hgone). by destruct (Hgone Hd).
  - exists (TreeAt r). split; [done |]. simpl. rewrite Er'. simpl.
    by rewrite Hw.
  - intros more g'' E''.
    destruct (updates_gone more r tr' g' Hinv' Hout Er')
      as (g3 & E3 & _ & Hout3 & Er3).
    assert (g3 = g'') as -> by congruence. auto.
Qed.

(** ** Turns end *)




End Steps.

End ModularFacts.

(** * More properties of src/tree.ts *)

Module TreeTileMoreFacts.
Import TreeTile.

(** X22.  All along the life of a tree tile (created, chopped at any time,
    updated every frame until it is destroyed) its fields agree: it is
    walkable exactly when its health is 0 or below and healthy exactly when
    its health is above 0; it is destroyed exactly when its mesh is off the
    scene, and then it is fading with no opacity left, while a tile that is
    not destroyed has opacity above 0; a falling tile has not reached pi/2
    and a fading one lies at pi/2; a tile that is not healthy has a fall
    direction, so [update] never dereferences a missing one. *)
Theorem tree_tile_fields_agree (t : Tree) :
  lifetime t ->
  (isWalkable t = true <-> health t <= 0) /\
  (state t = healthy <-> 0 < health t) /\
  (isDestroyed t = true <-> treeMeshAttached t = false) /\
  (isDestroyed t = true -> state t = fading /\ (opacity t <= 0)%Q) /\
  (isDestroyed t = false -> (0 < opacity t)%Q) /\
  (state t = falling -> (fallAngle t < Math_PI / 2)%Q) /\
  (state t = fading -> fallAngle t = (Math_PI / 2)%Q) /\
  (state t <> healthy -> is_Some (fallDirection t)) /\
  forall deltaTime, is_Some (update deltaTime t).
Proof.
  intros Hlife. apply TreeTileFacts.lifetime_inv in Hlife as Hinv.
  pose proof Hinv as [I1 I2 I3 I4 I5].
  assert (0 < health t \/ health t <= 0) as Hcase by lia.
  assert (isDestroyed t = true -> state t = fading) as Hgone.
  { intros Hd. destruct Hcase as [Hpos | Hle].
    - destruct (I2 Hpos) as (_ & _ & Hd' & _). congruence.
    - destruct (I3 Hle) as (Hst & _).
      destruct (state t) eqn:Hs; [done | | done].
      destruct (I4 eq_refl) as (_ & Hd' & _). congruence. }
  split_and!.
  - split.
    + intros Hw. destruct Hcase as [Hpos | Hle]; [| done].
      destruct (I2 Hpos) as (_ & Hw' & _). congruence.
    + intros Hle. by destruct (I3 Hle) as (_ & ? & _).
  - split.
    + intros Hs. destruct Hcase as [Hpos | Hle]; [done |].
      by destruct (I3 Hle) as (Hst & _).
    + intros Hpos. by destruct (I2 Hpos) as (? & _).
  - split.
    + intros Hd. destruct (I5 (Hgone Hd)) as (_ & _ & Hf). by destruct (Hf Hd).
    + intros Hm. destruct (isDestroyed t) eqn:Hd; [done |].
      destruct Hcase as [Hpos | Hle].
      * destruct (I2 Hpos) as (_ & _ & _ & Hm' & _). congruence.
      * destruct (I3 Hle) as (Hst & _).
        destruct (state t) eqn:Hs; [done | |].
        -- destruct (I4 eq_refl) as (_ & _ & Hm' & _). congruence.
        -- destruct (I5 eq_refl) as (_ & Hf & _).
           destruct (Hf eq_refl) as [_ Hm']. congruence.
  - intros Hd. split; [by apply Hgone |].
    destruct (I5 (Hgone Hd)) as (_ & _ & Hf). by destruct (Hf Hd).
  - intros Hd. destruct Hcase as [Hpos | Hle].
    + destruct (I2 Hpos) as (_ & _ & _ & _ & ->). reflexivity.
    + destruct (I3 Hle) as (Hst & _).
      destruct (state t) eqn:Hs; [done | |].
      * by destruct (I4 eq_refl) as (_ & _ & _ & ?).
      * destruct (I5 eq_refl) as (_ & Hf & _). by destruct (Hf Hd).
  - intros Hs. by destruct (I4 Hs).
  - intros Hs. by destruct (I5 Hs).
  - intros Hs. by destruct (TreeTileFacts.not_healthy_felled t Hinv Hs).
  - intros deltaTime. by apply TreeTileFacts.update_total.
Qed.

End TreeTileMoreFacts.

(** * The modular game on the session *)

Module ModularRuns.
Import Modular ModularFacts ModularDemo.
#[local] Existing Instance fixedPointMath.

Lemma grove_init : init Demo.forestDraws (5 # 19) 1000 = Some grove.
Proof. vm_compute. reflexivity. Qed.

Lemma grove_reachable : reachable grove.
Proof.
  apply (reachable_init Demo.forestDraws (5 # 19) 1000); [lra | lra |].
  exact grove_init.
Qed.

Lemma groveTurning_run :
  run grove [Key Game.ArrowDown true; Frame 1050 1050] = Some groveTurning.
Proof. vm_compute. reflexivity. Qed.
Lemma groveFacing_run : run groveTurning (groveFrames 1050 2) = Some groveFacing.
Proof. vm_compute. reflexivity. Qed.
Lemma groveChopped_step : step groveFacing (Frame 1200 1200) = Some groveChopped.
Proof. vm_compute. reflexivity. Qed.
Lemma groveFelled_run : run groveChopped (groveFrames 1200 12) = Some groveFelled.
Proof. vm_compute. reflexivity. Qed.
Lemma groveHover_run : run grove [MouseMove 0 0 (0.5%Q, 0.5%Q)] = Some groveHover.
Proof. vm_compute. reflexivity. Qed.
Lemma groveClicked_click :
  initiateActionAtHoveredTile groveHover 0 = Some groveClicked.
Proof. vm_compute. reflexivity. Qed.

Lemma groveTurning_reachable : reachable groveTurning.
Proof. exact (run_reachable _ _ _ grove_reachable groveTurning_run). Qed.
Lemma groveFacing_reachable : reachable groveFacing.
Proof. exact (run_reachable _ _ _ groveTurning_reachable groveFacing_run). Qed.
Lemma groveChopped_reachable : reachable groveChopped.
Proof. exact (reachable_step _ _ _ groveFacing_reachable groveChopped_step). Qed.
Lemma groveFelled_reachable : reachable groveFelled.
Proof. exact (run_reachable _ _ _ groveChopped_reachable groveFelled_run). Qed.
Lemma groveHover_reachable : reachable groveHover.
Proof. exact (run_reachable _ _ _ grove_reachable groveHover_run). Qed.

Lemma groveFacing_tree : heap groveFacing !! 0%nat = Some groveTree.
Proof. vm_compute. reflexivity. Qed.
Lemma groveChopped_tree : heap groveChopped !! 0%nat = Some groveNotched.
Proof. vm_compute. reflexivity. Qed.
Lemma groveFelled_tree : heap groveFelled !! 0%nat = Some groveStump.
Proof. vm_compute. reflexivity. Qed.
Lemma groveFelled_listed : 0%nat ∈ trees groveFelled.
Proof.
  apply (list_elem_of_lookup_2 _ 0%nat). vm_compute. reflexivity.
Qed.
Lemma groveNotched_health :
  TreeTile.health groveNotched <> TreeTile.health groveTree.
Proof. vm_compute. discriminate. Qed.
Lemma groveStump_health : TreeTile.health groveStump <= 0.
Proof. vm_compute. discriminate. Qed.
Lemma groveWait_frames :
  Forall (fun f : Q * Q => (1 <= f.1)%Q /\ (f.1 <= 50)%Q) groveWait.
Proof. apply Forall_replicate. split; discriminate. Qed.
Lemma groveWait_budget :
  (fadeBudget groveStump <= Game.totalTime (map fst groveWait))%Q.
Proof. vm_compute. discriminate. Qed.
Lemma groveTurning_turns : isRotating (player groveTurning) = true.
Proof. vm_compute. reflexivity. Qed.
Lemma groveDrag_small : smallSteps (0%Q, 0%Q) (map fst groveDrag).
Proof. repeat split; vm_compute; discriminate. Qed.

(** ** The properties on the session *)

(** The grove over the key press and sixteen frames. *)
Lemma modular_game_never_faults_witness :
  reachable grove /\
  exists g',
    run grove (Key Game.ArrowDown true :: groveFrames 1000 16) = Some g' /\
    reachable g' /\ squareWorld (world g').
Proof.
  split; [exact grove_reachable |].
  destruct (modular_game_never_faults grove
              (Key Game.ArrowDown true :: groveFrames 1000 16) grove_reachable)
    as (g' & E & Hr & _ & Hsq & _).
  exists g'. split; [exact E |]. split; [exact Hr | exact Hsq].
Defined.

(** The list after the third chop. *)
Lemma tree_list_is_exact_witness :
  reachable groveFelled /\ NoDup (trees groveFelled) /\
  getTile (world groveFelled) (TreeTile.x groveStump) (TreeTile.y groveStump) =
  Some (TreeAt 0%nat).
Proof.
  destruct (tree_list_is_exact groveFelled groveFelled_reachable)
    as (Hnd & _ & Hheap & _).
  destruct (Hheap 0%nat groveStump groveFelled_tree) as (Htile & _).
  split; [exact groveFelled_reachable |]. split; [exact Hnd | exact Htile].
Defined.

(** The entity pass of the frame after the third chop. *)
Lemma entity_pass_updates_then_drops_witness :
  storeOk (world groveFelled) (heap groveFelled) (trees groveFelled) /\
  exists h',
    updateEntities groveFelled 50 =
    Some (set_trees (set_heap groveFelled h')
            (filter (fun r => alive h' r = true) (trees groveFelled))) /\
    length h' = length (heap groveFelled).
Proof.
  pose proof (proj1 (reachable_wellFormed groveFelled groveFelled_reachable)) as Hs.
  split; [exact Hs |].
  destruct (entity_pass_updates_then_drops groveFelled 50 Hs)
    as (h' & E & Hlen & _).
  exists h'. split; [exact E | exact Hlen].
Defined.

(** An angle of four radians is brought back by one turn. *)
Lemma normalizeAngle_wraps_witness :
  (Qabs 4 <= 4 * Math_PI)%Q /\
  normalizeWithin 2 4 = Some (normalizeAngle 4) /\
  (normalizeAngle 4 == 4 - Math_PI * 2)%Q /\
  (- Math_PI <= normalizeAngle 4)%Q /\ (normalizeAngle 4 <= Math_PI)%Q.
Proof.
  assert (Qabs 4 <= 4 * Math_PI)%Q as Hb by (vm_compute; discriminate).
  destruct (normalizeAngle_wraps 4 Hb) as (Hfuel & Hge & Hle & _).
  split; [exact Hb |]. split; [exact Hfuel |].
  split; [reflexivity |]. split; [exact Hge | exact Hle].
Defined.


(** The player facing the tree. *)
Lemma player_keeps_to_walkable_tiles_witness :
  reachable groveFacing /\
  isMoving groveFacing = player_isMoving (player groveFacing).
Proof.
  destruct (player_keeps_to_walkable_tiles groveFacing groveFacing_reachable)
    as (Hflags & _).
  split; [exact groveFacing_reachable | exact Hflags].
Defined.

(** Nine pixels in three moves of three. *)
Lemma slow_drag_is_a_click_witness :
  reachable grove /\
  exists g',
    run grove (MouseDown 0 0 ::
               map (fun m : Q * Q * (Q * Q) => MouseMove m.1.1 m.1.2 m.2)
                   groveDrag) = Some g' /\
    isClick (orbitState g') = true.
Proof.
  split; [exact grove_reachable |].
  destruct (slow_drag_is_a_click grove 0 0 groveDrag grove_reachable)
    as (g' & E & _ & Hc & _).
  exists g'. split; [exact E | exact (proj2 Hc groveDrag_small)].
Defined.

(** The first chop at the tree below the spawn tile. *)
Lemma chops_wait_for_the_cooldown_witness :
  reachable groveFacing /\
  step groveFacing (Frame 1200 1200) = Some groveChopped /\
  TreeTile.health groveNotched = TreeTile.health groveTree - 34 /\
  chopCooldown groveChopped = 300%Q.
Proof.
  destruct (chops_wait_for_the_cooldown groveFacing groveChopped
              (Frame 1200 1200) 0%nat groveTree groveNotched
              groveFacing_reachable groveChopped_step groveFacing_tree
              groveChopped_tree groveNotched_health)
    as (_ & Hh & Hc & _).
  split; [exact groveFacing_reachable |].
  split; [exact groveChopped_step |]. split; [exact Hh | exact Hc].
Defined.

(** The second frame of the turn towards the tree. *)
Lemma turning_takes_the_short_way_witness :
  isRotating (player groveTurning) = true /\ (0 < 50)%Q /\
  exists g', updatePlayer groveTurning 50 1100 = Some g' /\
             heap g' = heap groveTurning.
Proof.
  assert (0 < 50)%Q as Hdt by reflexivity.
  destruct (turning_takes_the_short_way groveTurning 50 1100
              groveTurning_turns Hdt) as (g' & E & Hh & _).
  split; [exact groveTurning_turns |]. split; [exact Hdt |].
  exists g'. split; [exact E | exact Hh].
Defined.

(** The felled tree over twenty-five frames. *)
Lemma felled_tree_is_dropped_in_time_witness :
  reachable groveFelled /\ 0%nat ∈ trees groveFelled /\
  exists g' tr',
    updates groveFelled groveWait = Some g' /\ (0%nat ∉ trees g') /\
    heap g' !! 0%nat = Some tr' /\ TreeTile.isDestroyed tr' = true.
Proof.
  destruct (felled_tree_is_dropped_in_time groveFelled 0%nat groveStump
              groveWait groveFelled_reachable groveFelled_listed
              groveFelled_tree groveStump_health groveWait_frames
              groveWait_budget)
    as (g' & tr' & E & Hout & Er & Hd & _).
  split; [exact groveFelled_reachable |].
  split; [exact groveFelled_listed |].
  exists g', tr'. split; [exact E |]. split; [exact Hout |].
  split; [exact Er | exact Hd].
Defined.

(** The spawn the grove is built with. *)
Lemma modular_spawn_is_walkable_witness :
  (0 <= 5 # 19)%Q /\ (5 # 19 < 1)%Q /\
  exists g sx sy,
    init Demo.forestDraws (5 # 19) 1000 = Some g /\
    player g = createPlayer sx sy /\ walkableAt g sx sy.
Proof.
  assert (0 <= 5 # 19)%Q as H0 by discriminate.
  assert (5 # 19 < 1)%Q as H1 by reflexivity.
  destruct (modular_spawn_is_walkable Demo.forestDraws (5 # 19) 1000 H0 H1)
    as (g & valid & sx & sy & E & _ & _ & _ & _ & Hp & _ & Hw & _).
  split; [exact H0 |]. split; [exact H1 |].
  exists g, sx, sy. split; [exact E |]. split; [exact Hp | exact Hw].
Defined.

(** The click on the corner tile, west of the spawn tile. *)
Lemma click_steps_along_one_axis_witness :
  reachable groveHover /\
  initiateActionAtHoveredTile groveHover 0 = Some groveClicked /\
  ((targetX (player groveClicked) = targetX (player groveHover) /\
    targetY (player groveClicked) = targetY (player groveHover) /\
    player_isMoving (player groveClicked) =
    player_isMoving (player groveHover)) \/
   isMoving groveHover = false).
Proof.
  split; [exact groveHover_reachable |].
  split; [exact groveClicked_click |].
  destruct (click_steps_along_one_axis groveHover groveClicked 0
              groveHover_reachable groveClicked_click) as [Hkeep | [Hm _]].
  - left. exact Hkeep.
  - right. exact Hm.
Defined.



End ModularRuns.

(** * The tree tile on the session *)

Module TreeTileMoreRuns.
Import TreeTile TreeTileMoreFacts.

(** The tile three chops have felled. *)
Lemma tree_tile_fields_agree_witness :
  lifetime Demo.stump /\
  (isWalkable Demo.stump = true <-> health Demo.stump <= 0).
Proof.
  destruct (tree_tile_fields_agree Demo.stump SessionRuns.stump_lifetime)
    as (Hw & _).
  split; [exact SessionRuns.stump_lifetime | exact Hw].
Defined.

End TreeTileMoreRuns.

(** * Walks end *)

Module WalkFacts.

Lemma sqrt6_close : sqrtClose fixedPointMath.
Proof.
  intros x Hx. cbn [Math_sqrt fixedPointMath]. unfold sqrt6.
  set (N := Qfloor (x * 1000000000000)).
  assert (0 <= N) as HN.
  { unfold N. change 0 with (Qfloor 0). apply Qfloor_resp_le. lra. }
  pose proof (Z.sqrt_spec N HN) as [Hlo _].
  pose proof (Z.sqrt_nonneg N) as Hr.
  set (r := Z.sqrt N) in *.
  assert (inject_Z N <= x * 1000000000000)%Q as HNx by apply Qfloor_le.
  assert (r # 1000000 == inject_Z r / 1000000)%Q as Er by apply Qmake_Qdiv.
  assert (0 <= inject_Z r)%Q as Hr'.
  { change 0%Q with (inject_Z 0). by rewrite <- Zle_Qle. }
  assert (inject_Z r * inject_Z r <= inject_Z N)%Q as Hsq.
  { rewrite <- inject_Z_mult. by rewrite <- Zle_Qle. }
  rewrite Er. set (q := inject_Z r) in *.
  assert (q / 1000000 * 1000000 == q)%Q as Eq by field.
  set (s := (q / 1000000)%Q) in *.
  split; [nra |]. intros Hbig. nra.
Qed.

Lemma Qabs_square (a : Q) : (Qabs a * Qabs a == a * a)%Q.
Proof.
  destruct (Qlt_le_dec a 0) as [Hneg | Hpos].
  - rewrite Qabs_neg by lra. ring.
  - rewrite Qabs_pos by lra. ring.
Qed.

Lemma walkLeft_nonneg (x y tx ty : Q) : (0 <= walkLeft x y tx ty)%Q.
Proof.
  unfold walkLeft. pose proof (Qabs_nonneg (tx - x)).
  pose proof (Qabs_nonneg (ty - y)). lra.
Qed.

Lemma walkLeft_zero (x y tx ty : Q) :
  (walkLeft x y tx ty <= 0)%Q -> (x == tx)%Q /\ (y == ty)%Q.
Proof.
  unfold walkLeft. intros Hz.
  pose proof (Qabs_nonneg (tx - x)) as Hx. pose proof (Qabs_nonneg (ty - y)) as Hy.
  assert (Qabs (tx - x) == 0)%Q as Ex by lra.
  assert (Qabs (ty - y) == 0)%Q as Ey by lra.
  pose proof (Qle_Qabs (tx - x)). pose proof (Qle_Qabs (- (tx - x))) as Hnx.
  pose proof (Qle_Qabs (ty - y)). pose proof (Qle_Qabs (- (ty - y))) as Hny.
  rewrite Qabs_opp in Hnx, Hny. split; lra.
Qed.

(** One step of a walk: from [(x, y)] towards [(tx, ty)], [d] being what
    [Math.sqrt] returned for the distance and [v] the way a frame allows. *)
Lemma walk_algebra (x y tx ty d v : Q) :
  (0.01 <= d)%Q -> (0 < v)%Q ->
  ((d - (1 # 1000000)) * (d - (1 # 1000000)) <=
   (tx - x) * (tx - x) + (ty - y) * (ty - y))%Q ->
  let x' := (x + (tx - x) / d * Math_min v d)%Q in
  let y' := (y + (ty - y) / d * Math_min v d)%Q in
  (walkLeft x' y' tx ty <= 0)%Q \/
  (walkLeft x' y' tx ty <= walkLeft x y tx ty - 0.9999 * v)%Q.
Proof.
  intros Hd Hv Hclose x' y'.
  set (s := Math_min v d).
  assert ((0 < s)%Q /\ (s <= d)%Q /\ ((v <= d)%Q -> s = v) /\
          ((d < v)%Q -> s = d)) as (Hs0 & Hsd & Hsv & Hsdd).
  { unfold s, Math_min. destruct (Qle_bool v d) eqn:E.
    - apply Qle_bool_iff in E. split_and!; auto; intros; lra.
    - apply GameFacts.Qle_bool_false in E. split_and!; auto; try lra;
        intros; lra. }
  set (l := (s / d)%Q).
  assert (l * d == s)%Q as El by (unfold l; field; lra).
  assert (0 <= 1 - l)%Q as Hl1 by nra.
  assert (tx - x' == (tx - x) * (1 - l))%Q as Ex.
  { unfold x', l. fold s. field. lra. }
  assert (ty - y' == (ty - y) * (1 - l))%Q as Ey.
  { unfold y', l. fold s. field. lra. }
  assert (walkLeft x' y' tx ty == walkLeft x y tx ty * (1 - l))%Q as Ew.
  { unfold walkLeft. rewrite Ex, Ey, !Qabs_Qmult.
    rewrite (Qabs_pos (1 - l)) by done. ring. }
  destruct (Qlt_le_dec d v) as [Hlt | Hle].
  - left. rewrite Ew. assert (l == 1)%Q as ->.
    { rewrite (Hsdd Hlt) in El. nra. }
    lra.
  - right. rewrite Ew. rewrite (Hsv Hle) in El.
    pose proof (walkLeft_nonneg x y tx ty) as Hw0.
    assert (d - (1 # 1000000) <= walkLeft x y tx ty)%Q as Hw.
    { unfold walkLeft in *.
      pose proof (Qabs_square (tx - x)) as Sx.
      pose proof (Qabs_square (ty - y)) as Sy.
      pose proof (Qabs_nonneg (tx - x)) as Ax.
      pose proof (Qabs_nonneg (ty - y)) as Ay.
      set (a := Qabs (tx - x)) in *. set (b := Qabs (ty - y)) in *.
      destruct (Qlt_le_dec (a + b) (d - (1 # 1000000))) as [Hc | Hc]; [| done].
      exfalso. nra. }
    assert (0.9999 * d <= walkLeft x y tx ty)%Q as Hw' by lra.
    assert (0 <= l)%Q as Hl0 by nra.
    nra.
Qed.

Section Walk.
Context `{M : JsMath}.
Hypothesis sqrt_close : sqrtClose M.

(** The test and the step of the walking branch of [updatePlayer]. *)
Lemma walk_frame (x y tx ty speed deltaTime : Q) :
  (0 < speed)%Q -> (0 < deltaTime)%Q ->
  let dx := (tx - x)%Q in
  let dy := (ty - y)%Q in
  let dist := Math_sqrt (dx * dx + dy * dy)%Q in
  let step := Math_min (speed * (deltaTime / 1000)) dist in
  ((walkLeft x y tx ty <= 0)%Q -> Qlt_bool dist 0.01 = true) /\
  (Qlt_bool dist 0.01 = false ->
   (walkLeft (x + dx / dist * step) (y + dy / dist * step) tx ty <= 0)%Q \/
   (walkLeft (x + dx / dist * step) (y + dy / dist * step) tx ty <=
    walkLeft x y tx ty - 0.9999 * (speed * (deltaTime / 1000)))%Q).
Proof.
  intros Hspeed Hdt dx dy dist step.
  assert (0 <= dx * dx + dy * dy)%Q as Hnn by nra.
  destruct (sqrt_close _ Hnn) as [Hd0 Hclose]. fold dist in Hd0, Hclose.
  split.
  - intros Hz. apply walkLeft_zero in Hz as [Ex Ey].
    apply GameFacts.Qlt_bool_iff.
    destruct (Qlt_le_dec (1 # 1000000) dist) as [Hbig | Hsmall]; [| lra].
    specialize (Hclose Hbig).
    assert (dx * dx + dy * dy == 0)%Q as Ez by (unfold dx, dy; nra).
    nra.
  - intros Hfar. apply GameFacts.Qlt_bool_false in Hfar.
    assert (0 < speed * (deltaTime / 1000))%Q as Hv.
    { assert (deltaTime / 1000 * 1000 == deltaTime)%Q by field. nra. }
    apply walk_algebra; auto. apply Hclose. lra.
Qed.

(** *** src/game.ts *)

Lemma game_walk_step (g : Game.Game) (deltaTime : Q) :
  Game.isMoving g = true -> (0 < deltaTime)%Q ->
  let p := Game.player g in
  let left g := walkLeft (Game.player_x (Game.player g))
                         (Game.player_y (Game.player g))
                         (Game.targetX p) (Game.targetY p) in
  exists g',
    Game.updatePlayer g deltaTime = Some g' /\
    Game.targetX (Game.player g') = Game.targetX p /\
    Game.targetY (Game.player g') = Game.targetY p /\
    ((Game.isMoving g' = false /\
      Game.player_isMoving (Game.player g') = false /\
      Game.player_x (Game.player g') = Game.targetX p /\
      Game.player_y (Game.player g') = Game.targetY p) \/
     (Game.isMoving g' = true /\
      ((left g' <= 0)%Q \/
       (left g' <= left g - 0.9999 * (Game.MOVE_SPEED * (deltaTime / 1000)))%Q))) /\
    ((left g <= 0)%Q -> Game.isMoving g' = false).
Proof.
  intros Hmov Hdt p left. unfold Game.updatePlayer. cbv zeta. rewrite Hmov.
  fold p.
  destruct (walk_frame (Game.player_x p) (Game.player_y p) (Game.targetX p)
              (Game.targetY p) Game.MOVE_SPEED deltaTime)
    as [Hsnap Hstep]; [reflexivity | done |].
  cbv zeta in Hsnap, Hstep.
  destruct (Qlt_bool _ 0.01) eqn:Hnear.
  - eexists. split; [reflexivity |]. simpl. split_and!; auto.
  - eexists. split; [reflexivity |]. simpl. split_and!; auto.
    intros Hz. by specialize (Hsnap Hz).
Qed.

Lemma walkCovered_nonneg (speed : Q) (deltaTimes : list Q) :
  (0 < speed)%Q -> Forall (fun dt => (0 < dt)%Q) deltaTimes ->
  (0 <= walkCovered speed deltaTimes)%Q.
Proof.
  intros Hs Hds. unfold walkCovered.
  assert (0 <= Game.totalTime deltaTimes)%Q as Ht.
  { induction Hds as [| dt ds Hdt _ IH]; [done |].
    unfold Game.totalTime in *. simpl. lra. }
  set (t := Game.totalTime deltaTimes) in *.
  assert (t / 1000 * 1000 == t)%Q by field. nra.
Qed.

Lemma walkCovered_cons (speed dt : Q) (deltaTimes : list Q) :
  (walkCovered speed (dt :: deltaTimes) ==
   0.9999 * (speed * (dt / 1000)) + walkCovered speed deltaTimes)%Q.
Proof.
  unfold walkCovered, Game.totalTime. cbn [foldr].
  fold (Game.totalTime deltaTimes). field.
Qed.

Lemma game_walk_frame (g : Game.Game) (deltaTime : Q) :
  Game.inv g -> Game.isMoving g = true -> (0 < deltaTime)%Q ->
  let p := Game.player g in
  let left g := walkLeft (Game.player_x (Game.player g))
                         (Game.player_y (Game.player g))
                         (Game.targetX p) (Game.targetY p) in
  exists g',
    Game.update g deltaTime = Some g' /\ Game.inv g' /\
    Game.targetX (Game.player g') = Game.targetX p /\
    Game.targetY (Game.player g') = Game.targetY p /\
    ((Game.isMoving g' = false /\
      Game.player_isMoving (Game.player g') = false /\
      Game.player_x (Game.player g') = Game.targetX p /\
      Game.player_y (Game.player g') = Game.targetY p) \/
     (Game.isMoving g' = true /\
      ((left g' <= 0)%Q \/
       (left g' <= left g - 0.9999 * (Game.MOVE_SPEED * (deltaTime / 1000)))%Q))) /\
    ((left g <= 0)%Q -> Game.isMoving g' = false).
Proof.
  intros Hinv Hmov Hdt p left.
  destruct (GameFacts.update_stages g deltaTime Hinv)
    as (g1 & g2 & g' & _ & _ & _ & _ & Ep1 & _ & _ & Em1 & _ & Eplayer & _ &
        Eu & _ & _ & Hinv' & Han).
  destruct (game_walk_step g1 deltaTime) as (g2' & E2 & T); [congruence | done |].
  assert (g2' = g2) as -> by congruence.
  destruct Han as [_ _ Ep _ Em _ _ _ _].
  exists g'. subst left p. cbv beta zeta in *. rewrite Ep1 in T.
  rewrite Ep, Em. split; [exact Eu |]. split; [exact Hinv' |]. exact T.
Qed.

Lemma game_walk_ends (last : Q) (deltaTimes : list Q) :
  forall g : Game.Game,
    Game.inv g -> Game.isMoving g = true ->
    Forall (fun dt => (0 < dt)%Q) (deltaTimes ++ [last]) ->
    (walkLeft (Game.player_x (Game.player g)) (Game.player_y (Game.player g))
              (Game.targetX (Game.player g)) (Game.targetY (Game.player g))
     <= walkCovered Game.MOVE_SPEED deltaTimes)%Q ->
    exists (n : nat) (g' : Game.Game),
      (0 < n <= S (length deltaTimes))%nat /\
      Game.updates g (take n (deltaTimes ++ [last])) = Some g' /\
      Game.isMoving g' = false /\
      Game.player_isMoving (Game.player g') = false /\
      Game.player_x (Game.player g') = Game.targetX (Game.player g) /\
      Game.player_y (Game.player g') = Game.targetY (Game.player g).
Proof.
  induction deltaTimes as [| dt ds IH]; intros g Hinv Hmov Hds Hleft.
  - cbn [app] in Hds. apply Forall_cons in Hds as [Hds _].
    destruct (game_walk_frame g last Hinv Hmov Hds)
      as (g' & E & _ & _ & _ & Hcase & Hsnap).
    assert (walkCovered Game.MOVE_SPEED [] == 0)%Q as Hzero by reflexivity.
    assert (Game.isMoving g' = false) as Hm by (apply Hsnap; lra).
    destruct Hcase as [(_ & Hpm & Hx & Hy) | [Hm' _]]; [| congruence].
    exists 1%nat, g'. split; [simpl; lia |].
    split; [cbn [app take Game.updates]; rewrite E; reflexivity |]. auto.
  - cbn [app] in Hds. apply Forall_cons in Hds as [Hdt Hds].
    destruct (game_walk_frame g dt Hinv Hmov Hdt)
      as (g1 & E & Hinv1 & Etx & Ety & Hcase & _).
    destruct Hcase as [(Hm & Hpm & Hx & Hy) | [Hm Hprog]].
    + exists 1%nat, g1. split; [simpl; lia |].
      split; [cbn [app take Game.updates]; rewrite E; reflexivity |]. auto.
    + destruct (IH g1 Hinv1 Hm Hds) as (n & g' & Hn & E' & R).
      { rewrite Etx, Ety. rewrite walkCovered_cons in Hleft.
        assert (0 <= walkCovered Game.MOVE_SPEED ds)%Q as Hnn.
        { apply walkCovered_nonneg; [reflexivity |].
          apply Forall_app in Hds as [Hds _]. exact Hds. }
        destruct Hprog; lra. }
      rewrite Etx, Ety in R.
      exists (S n), g'. split; [simpl; lia |].
      split; [cbn [app take Game.updates]; rewrite E; exact E' |]. exact R.
Qed.

(** X27.  A walk of game.ts ends in bounded time.  If [Math.sqrt] returns no
    negative number and overshoots the root by at most a millionth, then
    once the player is moving, over frames with positive deltas in which
    0.9999 times 5 tiles a second cover the way left along the axes, and one
    frame more, the player arrives: one of these frames ends the walk with
    the player exactly on its target and both moving flags cleared. *)
Theorem walk_ends_in_time (g : Game.Game) (deltaTimes : list Q) (last : Q) :
  Game.reachable g -> Game.isMoving g = true ->
  Forall (fun dt => (0 < dt)%Q) (deltaTimes ++ [last]) ->
  (walkLeft (Game.player_x (Game.player g)) (Game.player_y (Game.player g))
            (Game.targetX (Game.player g)) (Game.targetY (Game.player g))
   <= walkCovered Game.MOVE_SPEED deltaTimes)%Q ->
  exists (n : nat) (g' : Game.Game),
    (0 < n <= S (length deltaTimes))%nat /\
    Game.updates g (take n (deltaTimes ++ [last])) = Some g' /\
    Game.isMoving g' = false /\
    Game.player_isMoving (Game.player g') = false /\
    Game.player_x (Game.player g') = Game.targetX (Game.player g) /\
    Game.player_y (Game.player g') = Game.targetY (Game.player g).
Proof.
  intros Hr. apply game_walk_ends. by apply GameFacts.reachable_inv.
Qed.

(** *** The modular game *)

Lemma modular_walk_step (g : Modular.GameState) (deltaTime now : Q) :
  Modular.isRotating (Modular.player g) = false ->
  Modular.isMoving g = true -> (0 < deltaTime)%Q ->
  let p := Modular.player g in
  let left g := walkLeft (Modular.player_x (Modular.player g))
                         (Modular.player_y (Modular.player g))
                         (Modular.targetX p) (Modular.targetY p) in
  exists g',
    Modular.updatePlayer g deltaTime now = Some g' /\
    Modular.chopsOnly g g' /\
    Modular.isRotating (Modular.player g') = false /\
    Modular.targetX (Modular.player g') = Modular.targetX p /\
    Modular.targetY (Modular.player g') = Modular.targetY p /\
    ((Modular.isMoving g' = false /\
      Modular.player_isMoving (Modular.player g') = false /\
      Modular.player_x (Modular.player g') = Modular.targetX p /\
      Modular.player_y (Modular.player g') = Modular.targetY p) \/
     (Modular.isMoving g' = true /\
      ((left g' <= 0)%Q \/
       (left g' <= left g -
                   0.9999 * (Modular.MOVE_SPEED * (deltaTime / 1000)))%Q))) /\
    ((left g <= 0)%Q -> Modular.isMoving g' = false).
Proof.
  intros Hrot Hmov Hdt p left. unfold Modular.updatePlayer. cbv zeta.
  rewrite Hrot, Hmov. fold p.
  destruct (walk_frame (Modular.player_x p) (Modular.player_y p)
              (Modular.targetX p) (Modular.targetY p) Modular.MOVE_SPEED
              deltaTime)
    as [Hsnap Hstep]; [reflexivity | done |].
  cbv zeta in Hsnap, Hstep.
  destruct (Qlt_bool _ 0.01) eqn:Hnear.
  - eexists. split; [reflexivity |]. unfold Modular.chopsOnly. simpl.
    split_and!; auto.
  - eexists. split; [reflexivity |]. unfold Modular.chopsOnly. simpl.
    split_and!; auto.
    intros Hz. by specialize (Hsnap Hz).
Qed.

Lemma modular_walk_frame (g : Modular.GameState) (deltaTime now : Q) :
  Modular.inv g -> Modular.isRotating (Modular.player g) = false ->
  Modular.isMoving g = true -> (0 < deltaTime)%Q ->
  let p := Modular.player g in
  let left g := walkLeft (Modular.player_x (Modular.player g))
                         (Modular.player_y (Modular.player g))
                         (Modular.targetX p) (Modular.targetY p) in
  exists g',
    Modular.update g deltaTime now = Some g' /\ Modular.inv g' /\
    Modular.isRotating (Modular.player g') = false /\
    Modular.targetX (Modular.player g') = Modular.targetX p /\
    Modular.targetY (Modular.player g') = Modular.targetY p /\
    ((Modular.isMoving g' = false /\
      Modular.player_isMoving (Modular.player g') = false /\
      Modular.player_x (Modular.player g') = Modular.targetX p /\
      Modular.player_y (Modular.player g') = Modular.targetY p) \/
     (Modular.isMoving g' = true /\
      ((left g' <= 0)%Q \/
       (left g' <= left g -
                   0.9999 * (Modular.MOVE_SPEED * (deltaTime / 1000)))%Q))) /\
    ((left g <= 0)%Q -> Modular.isMoving g' = false).
Proof.
  intros Hinv Hrot Hmov Hdt p left.
  destruct (ModularFacts.frame_stages g deltaTime now Hinv)
    as (g2 & g' & E2 & _ & Hinv2 & E3 & Hinv3 & E).
  set (g1 := if Qlt_bool 0 (Modular.chopCooldown g) then _ else g) in *.
  assert (Modular.player g1 = Modular.player g /\
          Modular.isMoving g1 = Modular.isMoving g) as [Ep1 Em1].
  { subst g1. by destruct (Qlt_bool _ _). }
  destruct (modular_walk_step g1 deltaTime now) as (g2' & E2' & _ & T);
    [congruence | congruence | done |].
  assert (g2' = g2) as -> by congruence.
  destruct (ModularFacts.updateEntities_ok g2 deltaTime Hinv2)
    as (g3 & E3' & _ & _ & Ep & _ & _ & _ & _ & _ & Em & _).
  assert (g3 = g') as -> by congruence.
  exists g'. subst left p. cbv beta zeta in *. rewrite Ep1 in T.
  rewrite Ep, Em. split; [exact E |]. split; [exact Hinv3 |]. exact T.
Qed.

Lemma modular_walk_ends (last : Q * Q) (frames : list (Q * Q)) :
  forall g : Modular.GameState,
    Modular.inv g -> Modular.isRotating (Modular.player g) = false ->
    Modular.isMoving g = true ->
    Forall (fun f => (0 < f.1)%Q) (frames ++ [last]) ->
    (walkLeft (Modular.player_x (Modular.player g))
              (Modular.player_y (Modular.player g))
              (Modular.targetX (Modular.player g))
              (Modular.targetY (Modular.player g))
     <= walkCovered Modular.MOVE_SPEED (map fst frames))%Q ->
    exists (n : nat) (g' : Modular.GameState),
      (0 < n <= S (length frames))%nat /\
      Modular.updates g (take n (frames ++ [last])) = Some g' /\
      Modular.isMoving g' = false /\
      Modular.player_isMoving (Modular.player g') = false /\
      Modular.player_x (Modular.player g') = Modular.targetX (Modular.player g) /\
      Modular.player_y (Modular.player g') = Modular.targetY (Modular.player g).
Proof.
  induction frames as [| [dt now] fs IH]; intros g Hinv Hrot Hmov Hfs Hleft.
  - cbn [app] in Hfs. apply Forall_cons in Hfs as [Hfs _].
    destruct last as [dt now]. cbn [fst] in Hfs.
    destruct (modular_walk_frame g dt now Hinv Hrot Hmov Hfs)
      as (g' & E & _ & _ & _ & _ & Hcase & Hsnap).
    assert (walkCovered Modular.MOVE_SPEED [] == 0)%Q as Hzero by reflexivity.
    assert (Modular.isMoving g' = false) as Hm by (apply Hsnap; cbn [map] in Hleft; lra).
    destruct Hcase as [(_ & Hpm & Hx & Hy) | [Hm' _]]; [| congruence].
    exists 1%nat, g'. split; [simpl; lia |].
    split; [cbn [app take Modular.updates]; rewrite E; reflexivity |]. auto.
  - cbn [app] in Hfs. apply Forall_cons in Hfs as [Hdt Hfs]. cbn [fst] in Hdt.
    destruct (modular_walk_frame g dt now Hinv Hrot Hmov Hdt)
      as (g1 & E & Hinv1 & Hrot1 & Etx & Ety & Hcase & _).
    destruct Hcase as [(Hm & Hpm & Hx & Hy) | [Hm Hprog]].
    + exists 1%nat, g1. split; [simpl; lia |].
      split; [cbn [app take Modular.updates]; rewrite E; reflexivity |]. auto.
    + destruct (IH g1 Hinv1 Hrot1 Hm Hfs) as (n & g' & Hn & E' & R).
      { rewrite Etx, Ety. cbn [map fst] in Hleft.
        rewrite walkCovered_cons in Hleft.
        assert (0 <= walkCovered Modular.MOVE_SPEED (map fst fs))%Q as Hnn.
        { apply walkCovered_nonneg; [reflexivity |].
          apply Forall_app in Hfs as [Hfs _]. by apply Forall_fmap. }
        destruct Hprog; lra. }
      rewrite Etx, Ety in R.
      exists (S n), g'. split; [simpl; lia |].
      split; [cbn [app take Modular.updates]; rewrite E; exact E' |]. exact R.
Qed.

(** X28.  A walk of the modular game ends in bounded time.  If [Math.sqrt]
    returns no negative number and overshoots the root by at most a
    millionth, then once the player is moving and not turning, over frames
    with positive deltas in which 0.9999 times 5 tiles a second cover the
    way left along the axes, and one frame more, the player arrives: one of
    these frames ends the walk with the player exactly on its target and
    both moving flags cleared. *)
Theorem modular_walk_ends_in_time (g : Modular.GameState)
        (frames : list (Q * Q)) (last : Q * Q) :
  Modular.reachable g -> Modular.isRotating (Modular.player g) = false ->
  Modular.isMoving g = true ->
  Forall (fun f => (0 < f.1)%Q) (frames ++ [last]) ->
  (walkLeft (Modular.player_x (Modular.player g))
            (Modular.player_y (Modular.player g))
            (Modular.targetX (Modular.player g))
            (Modular.targetY (Modular.player g))
   <= walkCovered Modular.MOVE_SPEED (map fst frames))%Q ->
  exists (n : nat) (g' : Modular.GameState),
    (0 < n <= S (length frames))%nat /\
    Modular.updates g (take n (frames ++ [last])) = Some g' /\
    Modular.isMoving g' = false /\
    Modular.player_isMoving (Modular.player g') = false /\
    Modular.player_x (Modular.player g') = Modular.targetX (Modular.player g) /\
    Modular.player_y (Modular.player g') = Modular.targetY (Modular.player g).
Proof.
  intros Hr. apply modular_walk_ends. by apply ModularFacts.reachable_wellFormed.
Qed.

End Walk.

End WalkFacts.

(** * The walks on the sessions *)

Module WalkRuns.
Import WalkFacts WalkDemo.

Lemma strolling_run :
  Game.run (H := fixedPointMath) Demo.forest
           (Game.Key Game.ArrowRight true :: Demo.frames 1000 1) =
  Some strolling.
Proof. vm_compute. reflexivity. Qed.
Lemma strolling_reachable : Game.reachable (H := fixedPointMath) strolling.
Proof.
  exact (GameFacts.reachable_after _ _ _ SessionRuns.forest_reachable
           strolling_run).
Qed.
Lemma strolling_moving : Game.isMoving strolling = true.
Proof. vm_compute. reflexivity. Qed.
Lemma stroll_frames : Forall (fun dt : Q => (0 < dt)%Q) (stroll ++ [50%Q]).
Proof. repeat constructor. Qed.
Lemma stroll_covers :
  (walkLeft (Game.player_x (Game.player strolling))
            (Game.player_y (Game.player strolling))
            (Game.targetX (Game.player strolling))
            (Game.targetY (Game.player strolling))
   <= walkCovered Game.MOVE_SPEED stroll)%Q.
Proof. vm_compute. discriminate. Qed.

Lemma groveWalking_run :
  Modular.run (H := fixedPointMath) ModularDemo.groveHover
    ([Modular.MouseDown 0 0; Modular.MouseUp 1000] ++
     ModularDemo.groveFrames 1000 3) = Some groveWalking.
Proof. vm_compute. reflexivity. Qed.
Lemma groveWalking_reachable :
  Modular.reachable (H := fixedPointMath) groveWalking.
Proof.
  exact (ModularFacts.run_reachable _ _ _ ModularRuns.groveHover_reachable
           groveWalking_run).
Qed.
Lemma groveWalking_moving : Modular.isMoving groveWalking = true.
Proof. vm_compute. reflexivity. Qed.
Lemma groveWalking_turned :
  Modular.isRotating (Modular.player groveWalking) = false.
Proof. vm_compute. reflexivity. Qed.
Lemma groveStroll_frames :
  Forall (fun f : Q * Q => (0 < f.1)%Q) (groveStroll ++ [(50%Q, 0%Q)]).
Proof. repeat constructor. Qed.
Lemma groveStroll_covers :
  (walkLeft (Modular.player_x (Modular.player groveWalking))
            (Modular.player_y (Modular.player groveWalking))
            (Modular.targetX (Modular.player groveWalking))
            (Modular.targetY (Modular.player groveWalking))
   <= walkCovered Modular.MOVE_SPEED (map fst groveStroll))%Q.
Proof. vm_compute. discriminate. Qed.

(** The stroll to the tile east of the spawn tile. *)
Lemma walk_ends_in_time_witness :
  sqrtClose fixedPointMath /\
  Game.reachable (H := fixedPointMath) strolling /\
  exists (n : nat) (g' : Game.Game),
    Game.updates (H := fixedPointMath) strolling (take n (stroll ++ [50%Q])) =
    Some g' /\
    Game.isMoving g' = false.
Proof.
  destruct (walk_ends_in_time (M := fixedPointMath) sqrt6_close strolling
              stroll 50 strolling_reachable strolling_moving stroll_frames
              stroll_covers) as (n & g' & _ & E & Hm & _).
  split; [exact sqrt6_close |]. split; [exact strolling_reachable |].
  exists n, g'. split; [exact E | exact Hm].
Defined.

(** The stroll to the corner tile. *)
Lemma modular_walk_ends_in_time_witness :
  sqrtClose fixedPointMath /\
  Modular.reachable (H := fixedPointMath) groveWalking /\
  exists (n : nat) (g' : Modular.GameState),
    Modular.updates (H := fixedPointMath) groveWalking
                    (take n (groveStroll ++ [(50%Q, 0%Q)])) = Some g' /\
    Modular.isMoving g' = false.
Proof.
  destruct (modular_walk_ends_in_time (M := fixedPointMath) sqrt6_close
              groveWalking groveStroll (50%Q, 0%Q) groveWalking_reachable
              groveWalking_turned groveWalking_moving groveStroll_frames
              groveStroll_covers) as (n & g' & _ & E & Hm & _).
  split; [exact sqrt6_close |]. split; [exact groveWalking_reachable |].
  exists n, g'. split; [exact E | exact Hm].
Defined.

End WalkRuns.

(** * The keyboard step of the modular game *)

Module ModularKeysFacts.
Import Modular ModularFacts.

#[local] Arguments normalizeAngle : simpl never.
#[local] Arguments angleDifference : simpl never.
#[local] Arguments mustTurn : simpl never.

Section Keys.
Context `{JsMath}.

(** X29.  The keyboard step of the modular game.  While the player is
    neither moving nor turning and the keys held add up to a step (each of
    its parts -1, 0 or 1, not both 0), the player stands on an integer tile
    and [updatePlayer] does not move it in this frame.  If the tile one step
    away lies off the grid, nothing changes at all.  If it is walkable it
    becomes the target (the diagonal neighbour when keys of both axes are
    held), the tile left is recorded and the target direction is
    [atan2(dy, dx)]; the player sets off at once, facing that direction,
    when its direction is within 0.1 of it the short way round, and only
    starts to turn otherwise.  If it is blocked the player keeps its target,
    takes the target direction and does not set off. *)
Theorem modular_keyboard_step (g : GameState) (deltaTime now : Q) (dx dy : Z) :
  reachable g -> isMoving g = false -> isRotating (player g) = false ->
  Game.inputDelta (input g) = (dx, dy) -> (dx, dy) <> (0, 0) ->
  exists (px py : Z) (g' : GameState),
    player_x (player g) = inject_Z px /\ player_y (player g) = inject_Z py /\
    updatePlayer g deltaTime now = Some g' /\
    -1 <= dx <= 1 /\ -1 <= dy <= 1 /\
    player_x (player g') = inject_Z px /\ player_y (player g') = inject_Z py /\
    let tx := px + dx in
    let ty := py + dy in
    let a := Math_atan2 (inject_Z dy) (inject_Z dx) in
    (inWorld tx ty = false -> g' = g) /\
    (walkableAt g tx ty ->
     heap g' = heap g /\ chopCooldown g' = chopCooldown g /\
     targetX (player g') = inject_Z tx /\ targetY (player g') = inject_Z ty /\
     prevTileX (player g') = px /\ prevTileY (player g') = py /\
     targetDirection (player g') = a /\
     isRotating (player g') = negb (isMoving g') /\
     (isMoving g' = true -> direction (player g') = a) /\
     (isMoving g' = false -> direction (player g') = direction (player g)) /\
     (isMoving g' = false <->
      (0.1 < Math_abs (angleDifference (direction (player g)) a))%Q)) /\
    (inWorld tx ty = true -> ~ walkableAt g tx ty ->
     isMoving g' = false /\
     targetX (player g') = targetX (player g) /\
     targetY (player g') = targetY (player g) /\
     targetDirection (player g') = a).
Proof.
  intros Hr Hmov Hrot Hdelta Hne.
  destruct (reachable_wellFormed g Hr) as [[Hsq Ht Hh Hn Hl] [P1 P2 P3 P4 P5]].
  destruct (P3 Hmov) as (px & py & Ex & Ey & _).
  assert (-1 <= dx <= 1 /\ -1 <= dy <= 1) as [Hdx Hdy].
  { revert Hdelta. unfold Game.inputDelta.
    destruct (Game.input_up _), (Game.input_down _), (Game.input_left _),
      (Game.input_right _); intros [= <- <-]; lia. }
  assert (negb (dx =? 0) || negb (dy =? 0) = true) as Hkeys.
  { destruct (Z.eqb_spec dx 0) as [-> | ?]; [| done].
    destruct (Z.eqb_spec dy 0) as [-> | ?]; [| done]. exfalso. by apply Hne. }
  exists px, py. unfold updatePlayer. cbv zeta.
  rewrite Hrot, Hmov, Hdelta, Hkeys, Ex, Ey, !Math_round_inject,
    !GameFacts.Math_floor_inject.
  destruct (inWorld (px + dx) (py + dy)) eqn:Hin.
  2:{ exists g. split; [done |]. split; [done |].
      split; [reflexivity |]. split; [exact Hdx |]. split; [exact Hdy |].
      split; [done |]. split; [done |]. cbv zeta.
      split; [done |]. split; [| intros; discriminate].
      intros (t & Et & _). apply tileAt_bounds in Et; [| done].
      apply inWorld_false in Hin. tauto. }
  pose proof Hin as Hin'. apply inWorld_true in Hin' as [Hx Hy].
  destruct (tileAt_inside (world g) (px + dx) (py + dy) Hsq Hx Hy)
    as [tile Etile].
  rewrite Etile. cbn [mbind option_bind].
  pose proof (Ht _ _ _ Etile) as Hok.
  destruct (tileOk_reads _ _ _ _ Hok) as (ty & b & Ety & Ew & Etx & Ety' & Hiff).
  rewrite Ew. cbn [mbind option_bind].
  set (a := Math_atan2 (inject_Z dy) (inject_Z dx)).
  destruct b.
  - assert (mustTurn
              (set_targetDirection
                 (set_target (set_prevTile (player g) px py)
                             (inject_Z (px + dx)) (inject_Z (py + dy))) a) =
            Qlt_bool 0.1 (Math_abs (angleDifference (direction (player g)) a)))
      as Eturn by reflexivity.
    rewrite Eturn.
    assert (~ ~ walkableAt g (px + dx) (py + dy)) as Hw.
    { intros Hnw. apply Hnw. by exists tile. }
    destruct (Qlt_bool 0.1 _) eqn:Hturn.
    + apply GameFacts.Qlt_bool_iff in Hturn.
      eexists. split; [done |]. split; [done |].
      split; [reflexivity |]. split; [exact Hdx |]. split; [exact Hdy |].
      split; [done |]. split; [done |]. cbv zeta.
      split; [intros; discriminate |]. split; [| intros _ Hnw; by destruct Hw].
      intros _. simpl. rewrite Hmov. split_and!; auto; try done.
    + apply GameFacts.Qlt_bool_false in Hturn.
      eexists. split; [done |]. split; [done |].
      split; [reflexivity |]. split; [exact Hdx |]. split; [exact Hdy |].
      split; [done |]. split; [done |]. cbv zeta.
      split; [intros; discriminate |]. split; [| intros _ Hnw; by destruct Hw].
      intros _. simpl. split_and!; auto; try done.
      split; [done |]. intros Hlt. fold a in Hlt. lra.
  - rewrite Ety. cbn [mbind option_bind].
    set (p1 := set_targetDirection (player g) a).
    set (p2 := if mustTurn p1 then set_isRotating p1 true
               else set_direction p1 (targetDirection p1)).
    assert (player_x p2 = inject_Z px /\ player_y p2 = inject_Z py /\
            targetX p2 = targetX (player g) /\ targetY p2 = targetY (player g) /\
            targetDirection p2 = a /\ player_isMoving p2 = player_isMoving (player g))
      as (B2 & B3 & B4 & B5 & B6 & B7).
    { unfold p2. destruct (mustTurn p1); simpl; split_and!; auto. }
    assert (exists g',
              (if negb (isRotating p2) && Qle_bool (chopCooldown (set_player g p2)) 0
                  && is_tree ty
               then
                 cx ← tile_x (heap g) tile;
                 cy ← tile_y (heap g) tile;
                 chop (set_player g p2) tile (inject_Z cx) (inject_Z cy) now
               else Some (set_player g p2)) = Some g' /\
              isMoving g' = false /\ player g' = p2) as (g' & E & B1 & Ep).
    { clearbody p2.
      destruct (negb (isRotating p2) && Qle_bool _ 0 && is_tree ty) eqn:Hc.
      - apply andb_true_iff in Hc as [_ Htree].
        destruct (blocked_tree _ _ _ _ _ Hok Ety Htree) as (r & tr & -> & Er & _).
        rewrite Etx, Ety'. cbn [mbind option_bind].
        destruct (chop_tree (set_player g p2) r tr (inject_Z (px + dx))
                            (inject_Z (py + dy)) now Er) as [dir Ec].
        rewrite Ec. eexists. split; [reflexivity |]. simpl. auto.
      - eexists. split; [reflexivity |]. simpl. auto. }
    fold p2. rewrite E.
    exists g'. rewrite Ep.
    split; [done |]. split; [done |].
    split; [reflexivity |]. split; [exact Hdx |]. split; [exact Hdy |].
    split; [done |]. split; [done |]. cbv zeta.
    split; [intros; discriminate |]. split; [| auto].
    intros (t & Et & Ewt). rewrite Etile in Et. injection Et as <-. congruence.
Qed.

End Keys.

End ModularKeysFacts.

(** * The keyboard step on the session *)

Module ModularKeysRuns.
Import Modular ModularDemo ModularKeysFacts.
#[local] Existing Instance fixedPointMath.

Lemma groveFacing_idle : isMoving groveFacing = false.
Proof. vm_compute. reflexivity. Qed.
Lemma groveFacing_turned : isRotating (player groveFacing) = false.
Proof. vm_compute. reflexivity. Qed.
Lemma groveFacing_keys : Game.inputDelta (input groveFacing) = (0, 1).
Proof. vm_compute. reflexivity. Qed.

(** The frame of the first chop: the tree below the spawn tile blocks. *)
Lemma modular_keyboard_step_witness :
  reachable groveFacing /\
  exists (px py : Z) (g' : GameState),
    player_x (player groveFacing) = inject_Z px /\
    player_y (player groveFacing) = inject_Z py /\
    updatePlayer groveFacing 50 1200 = Some g'.
Proof.
  assert ((0, 1) <> (0, 0)) as Hne by discriminate.
  destruct (modular_keyboard_step groveFacing 50 1200 0 1
              ModularRuns.groveFacing_reachable groveFacing_idle
              groveFacing_turned groveFacing_keys Hne)
    as (px & py & g' & Ex & Ey & E & _).
  split; [exact ModularRuns.groveFacing_reachable |].
  exists px, py, g'. split; [exact Ex |]. split; [exact Ey | exact E].
Defined.

End ModularKeysRuns.
